(** * McClellan DFA compiler: a shallow embedding of [mcclellancompile.cpp]

    The development follows the source file function by function.  State
    identifiers and symbols index vectors, so they are [nat]; machine
    words whose width matters (successor slots carrying flag bits, byte
    offsets, values that go through a narrowing conversion) are [Z] with
    the wrap-around written out.  Vectors are lists read with stdpp's
    total lookup and written with stdpp's insert; every theorem that
    depends on an access being in range carries the well-formedness of
    the raw DFA as a hypothesis, since the source has undefined behaviour
    there.  [std::set] and [flat_set] are [gset]s, traversed in increasing
    order where the source iterates over them. *)

From Stdlib Require Import ZArith Lia Bool.
From stdpp Require Import base option list sets gmap sorting.

#[local] Set Warnings "-clear-no-such-hyp,-level-tolerance".

#[local] Ltac Zify.zify_post_hook ::= Z.to_euclidean_division_equations.

(** ** Machine integers *)

Definition u8 (z : Z) : Z := (z mod 256)%Z.
Definition u16 (z : Z) : Z := (z mod 65536)%Z.
Definition u32 (z : Z) : Z := (z mod 4294967296)%Z.

(** A [u16] value that is used as an index ([dstate_id_t], [symbol_t]). *)
Definition u16n (z : Z) : nat := Z.to_nat (u16 z).

(** [MIN] of ue2common.h, on [int]. *)
Definition MIN (a b : Z) : Z := if (a <? b)%Z then a else b.

(** [ROUNDUP_N(a, n)] for a power of two [n]: [(a + (n-1)) & ~(n-1)]. *)
Definition ROUNDUP_N (a n : Z) : Z := Z.land (a + (n - 1)) (Z.lnot (n - 1)).
Definition ROUNDUP_16 (a : Z) : Z := ROUNDUP_N a 16.

(** Modelled from the spec: [clz32] of util/bitutils.h, which is not part
    of the sources at hand.  The spec fixes what [getAlphaShift] computes
    with it (the smallest [k] with [2^k >= impl_alpha_size]); counting the
    leading zeros of a non-zero 32-bit word is [31 - log2]. *)
Definition clz32 (x : Z) : Z := (31 - Z.log2 x)%Z.

(** ** Constants *)

Definition ACCEL_MAX_STOP_CHAR : nat := 160.
Definition ACCEL_MAX_FLOATING_STOP_CHAR : nat := 192.
Definition MAX_SHERMAN_LIST_LEN : Z := 8.
Definition MAX_SHERMAN_SELF_LOOP : nat := 20.

(** Modelled from the spec: constants of the headers the compiler
    includes (ue2common.h, rdfa.h, mcclellan_internal.h), which are not
    part of the sources at hand.  The dead state is index 0; there are 256
    byte values and one special symbol, [TOP], which follows them in
    [alpha_remap]; the two topmost bits of a 16-bit successor are
    [ACCEPT_FLAG] and [ACCEL_FLAG] and the rest is [STATE_MASK]; a Sherman
    record starts with a type byte, a length byte and the daddy (two
    bytes), followed by the override symbols. *)
Definition N_CHARS : nat := 256.
Definition TOP : nat := 256.
Definition ALPHABET_SIZE : nat := 257.
Definition N_SPECIAL_SYMBOL : Z := 1.
Definition DEAD_STATE : nat := 0.
Definition MO_INVALID_IDX : Z := 0xffffffff.
Definition ACCEPT_FLAG : Z := 0x8000.
Definition ACCEL_FLAG : Z := 0x4000.
Definition STATE_MASK : Z := 0x3fff.
Definition SHERMAN_STATE : Z := 1.
Definition SHERMAN_TYPE_OFFSET : nat := 0.
Definition SHERMAN_LEN_OFFSET : nat := 1.
Definition SHERMAN_DADDY_OFFSET : nat := 2.
Definition SHERMAN_CHARS_OFFSET : nat := 4.

(** The sizes of the runtime structures and the two remaining Sherman
    macros are fixed by headers that are not at hand either; the
    development is parametric in them. *)
Record layout := Layout {
  sizeof_NFA : Z;
  sizeof_mcclellan : Z;
  sizeof_mstate_aux : Z;
  sizeof_AccelAux : Z;
  sizeof_report_list : Z;
  sizeof_ReportID : Z;
  SHERMAN_FIXED_SIZE : nat;
  SHERMAN_STATES_OFFSET : nat → nat
}.

(** What decoding a Sherman record needs of its layout: the successor
    array starts after the symbols and a record of up to
    [MAX_SHERMAN_LIST_LEN] overrides fits in [SHERMAN_FIXED_SIZE] bytes. *)
Definition sherman_layout_ok (L : layout) : Prop :=
  ∀ len : nat, len ≤ 8 →
    SHERMAN_CHARS_OFFSET + len ≤ SHERMAN_STATES_OFFSET L len ∧
    SHERMAN_STATES_OFFSET L len + 2 * len ≤ SHERMAN_FIXED_SIZE L.

(** ** The raw DFA (rdfa.h) *)

Abbreviation dstate_id_t := nat (only parsing).
Abbreviation symbol_t := nat (only parsing).
Abbreviation ReportID := Z (only parsing).

(** Modelled from the spec: [nfa_kind] and [generates_callbacks] of
    nfa_kind.h, which is not part of the sources at hand; the spec says
    only that the kind classifies whether the DFA emits runtime callbacks
    for matches. *)
Inductive nfa_kind := KIND_CALLBACKS | KIND_NO_CALLBACKS.

Definition generates_callbacks (k : nfa_kind) : bool :=
  match k with KIND_CALLBACKS => true | KIND_NO_CALLBACKS => false end.

Record dstate := Dstate {
  next : list dstate_id_t;
  daddy : dstate_id_t;
  impl_id : dstate_id_t;
  reports : gset ReportID;
  reports_eod : gset ReportID
}.

#[export] Instance dstate_inhabited : Inhabited dstate :=
  populate (Dstate [] 0 0 ∅ ∅).

Record raw_dfa := RawDfa {
  kind : nfa_kind;
  states : list dstate;
  start_anchored : dstate_id_t;
  start_floating : dstate_id_t;
  alpha_size : nat;
  alpha_remap : list nat
}.

Definition set_states (raw : raw_dfa) (sts : list dstate) : raw_dfa :=
  RawDfa (kind raw) sts (start_anchored raw) (start_floating raw)
         (alpha_size raw) (alpha_remap raw).

Definition with_daddy (d : dstate_id_t) (s : dstate) : dstate :=
  Dstate (next s) d (impl_id s) (reports s) (reports_eod s).
Definition with_impl_id (j : dstate_id_t) (s : dstate) : dstate :=
  Dstate (next s) (daddy s) j (reports s) (reports_eod s).
Definition with_reports_eod (r : gset ReportID) (s : dstate) : dstate :=
  Dstate (next s) (daddy s) (impl_id s) (reports s) r.

(** [raw.states[s].next[i]] *)
Definition next_of (raw : raw_dfa) (s : dstate_id_t) (i : symbol_t)
  : dstate_id_t := next (states raw !!! s) !!! i.

(** [raw_dfa::getImplAlphaSize] *)
Definition getImplAlphaSize (raw : raw_dfa) : nat :=
  u16n (Z.of_nat (alpha_size raw) - N_SPECIAL_SYMBOL).

(** [raw_dfa::stripExtraEodReports] *)
Definition stripExtraEodReports (raw : raw_dfa) : raw_dfa :=
  set_states raw
    ((λ ds, with_reports_eod
              (foldl (λ eod report, eod ∖ {[report]}) (reports_eod ds)
                     (elements (reports ds))) ds) <$> states raw).

(** [raw_dfa::hasEodReports] *)
Definition hasEodReports (raw : raw_dfa) : bool :=
  existsb (λ ds, negb (bool_decide (reports_eod ds = ∅))) (states raw).

(** ** [dfa_info] *)

Record dstate_extra := DstateExtra {
  daddytaken : nat;
  shermanState : bool;
  accelerable : bool
}.

#[export] Instance dstate_extra_inhabited : Inhabited dstate_extra :=
  populate (DstateExtra 0 false false).

(** [info.states] is a reference to [raw.states]: the two are one vector
    here. *)
Record dfa_info := DfaInfo {
  raw : raw_dfa;
  extra : list dstate_extra
}.

(** The constructor: [extra(raw.states.size())]. *)
Definition mk_dfa_info (r : raw_dfa) : dfa_info :=
  DfaInfo r (replicate (length (states r)) (DstateExtra 0 false false)).

Definition info_size (info : dfa_info) : nat := length (states (raw info)).
Definition impl_alpha_size (info : dfa_info) : nat := getImplAlphaSize (raw info).
Definition implId (info : dfa_info) (raw_id : dstate_id_t) : dstate_id_t :=
  impl_id (states (raw info) !!! raw_id).
Definition is_sherman (info : dfa_info) (raw_id : dstate_id_t) : bool :=
  shermanState (extra info !!! raw_id).
Definition info_is_accel (info : dfa_info) (raw_id : dstate_id_t) : bool :=
  accelerable (extra info !!! raw_id).

Definition set_info_states (info : dfa_info) (sts : list dstate) : dfa_info :=
  DfaInfo (set_states (raw info) sts) (extra info).
Definition set_info_extra (info : dfa_info) (ex : list dstate_extra) : dfa_info :=
  DfaInfo (raw info) ex.

(** [dfa_info::getAlphaShift] *)
Definition getAlphaShift (info : dfa_info) : nat :=
  if impl_alpha_size info <? 2 then 1
  else Z.to_nat (u8 (32 - clz32 (Z.of_nat (impl_alpha_size info) - 1))).

(** ** Start-of-data-stream proxy *)

(** [has_self_loop] *)
Definition has_self_loop (s : dstate_id_t) (raw : raw_dfa) : bool :=
  let top_remap := alpha_remap raw !!! TOP in
  existsb (λ i, negb (i =? top_remap) && (next_of raw s i =? s))
          (seq 0 (length (next (states raw !!! s)))).

(** The two inner [for] loops of [get_sds_or_proxy]: the first symbol
    that leads to a live state with a self loop, and the first symbol that
    leads to a live state not seen yet. *)
Definition sds_find_loop (raw : raw_dfa) (s : dstate_id_t) : option symbol_t :=
  let top_remap := alpha_remap raw !!! TOP in
  find (λ i, negb (i =? top_remap)
             && negb (next_of raw s i =? DEAD_STATE)
             && has_self_loop (next_of raw s i) raw)
       (seq 0 (length (next (states raw !!! s)))).

Definition sds_find_basis (raw : raw_dfa) (s : dstate_id_t)
    (seen : gset dstate_id_t) : option symbol_t :=
  let top_remap := alpha_remap raw !!! TOP in
  find (λ i, negb (i =? top_remap)
             && negb (next_of raw s i =? DEAD_STATE)
             && negb (bool_decide (next_of raw s i ∈ seen)))
       (seq 0 (length (next (states raw !!! s)))).

(** The [while (true)] loop of [get_sds_or_proxy]; [fuel] bounds the
    number of iterations and [None] means that it ran out. *)
Fixpoint sds_walk (fuel : nat) (raw : raw_dfa) (s : dstate_id_t)
    (seen : gset dstate_id_t) : option dstate_id_t :=
  match fuel with
  | O => None
  | S fuel' =>
    let seen1 := {[s]} ∪ seen in
    (* check if we are connected to a state with a self loop *)
    match sds_find_loop raw s with
    | Some i => Some (next_of raw s i)
    | None =>
      (* find a neighbour to use as a basis *)
      match sds_find_basis raw s seen1 with
      | None => Some DEAD_STATE
      | Some i => sds_walk fuel' raw (next_of raw s i)
                           ({[next_of raw s i]} ∪ seen1)
      end
    end
  end.

(** [get_sds_or_proxy], with the iteration bound explicit. *)
Definition get_sds_or_proxy_fuel (fuel : nat) (raw : raw_dfa)
  : option dstate_id_t :=
  if negb (start_floating raw =? DEAD_STATE) then Some (start_floating raw)
  else
    let s := start_anchored raw in
    if has_self_loop s raw then Some s
    else sds_walk fuel raw s ∅.

(** Every iteration adds a state to [seen], so there are at most as many
    iterations as states ([sds_walk_terminates] below); the default is
    never taken on a well-formed DFA. *)
Definition get_sds_or_proxy (raw : raw_dfa) : dstate_id_t :=
  default DEAD_STATE (get_sds_or_proxy_fuel (length (states raw)) raw).

(** ** Acceleration eligibility *)

(** [is_accel]; the [CharReach] [out] is the list of its set bits. *)
Definition is_accel (raw : raw_dfa) (sds_or_proxy this_idx : dstate_id_t)
  : bool :=
  if this_idx =? 0 then false
  else if generates_callbacks (kind raw)
          && negb (bool_decide (reports (states raw !!! this_idx) = ∅))
  then false
  else
    let single_limit := if this_idx =? sds_or_proxy
                        then ACCEL_MAX_FLOATING_STOP_CHAR
                        else ACCEL_MAX_STOP_CHAR in
    let out := filter (λ i, next_of raw this_idx (alpha_remap raw !!! i)
                            ≠ this_idx) (seq 0 N_CHARS) in
    length out <=? single_limit.

Record Grey := MkGrey {
  accelerateDFA : bool;
  allowShermanStates : bool;
  allowMcClellan8 : bool
}.

Record CompileContext := MkCompileContext {
  grey : Grey;
  streaming : bool
}.

Definition with_accelerable (e : dstate_extra) : dstate_extra :=
  DstateExtra (daddytaken e) (shermanState e) true.
Definition with_sherman (e : dstate_extra) : dstate_extra :=
  DstateExtra (daddytaken e) true (accelerable e).
Definition with_daddytaken (n : nat) (e : dstate_extra) : dstate_extra :=
  DstateExtra n (shermanState e) (accelerable e).

(** [populateAccelerationInfo]: the updated [info] and [*ac]. *)
Definition populateAccelerationInfo (info : dfa_info) (g : Grey)
  : dfa_info * Z :=
  if negb (accelerateDFA g) then (info, 0%Z)
  else
    let sds_proxy := get_sds_or_proxy (raw info) in
    foldl (λ (st : dfa_info * Z) i,
             if is_accel (raw info) sds_proxy (u16n (Z.of_nat i))
             then (set_info_extra st.1 (alter with_accelerable i (extra st.1)),
                   u32 (st.2 + 1))
             else st)
          (info, 0%Z) (seq 0 (info_size info)).

(** ** Report tables *)

(** [raw_report_info_impl]: the vector [rl] of distinct report sets. *)
Abbreviation raw_report_info := (list (gset ReportID)) (only parsing).

(** [*s.begin()] of an ordered set: its least element. *)
Definition set_begin (s : gset Z) : Z := hd 0%Z (merge_sort Z.le (elements s)).

(** One iteration of either loop of [gatherReports] over the states: [rl],
    the reverse map [rev] and the vector of indices being filled. *)
Definition gather_step
    (acc : list (gset ReportID) * gmap (gset ReportID) Z * list Z)
    (rs : gset ReportID)
  : list (gset ReportID) * gmap (gset ReportID) Z * list Z :=
  let '(rl, rev, out) := acc in
  if bool_decide (rs = ∅) then (rl, rev, out ++ [MO_INVALID_IDX])
  else match rev !! rs with
       | Some idx => (rl, rev, out ++ [idx])
       | None => let sz := u32 (Z.of_nat (length rl)) in
                 (rl ++ [rs], <[rs := sz]> rev, out ++ [sz])
       end.

Record gathered := Gathered {
  g_ri : list (gset ReportID);
  g_reports : list Z;
  g_reports_eod : list Z;
  g_isSingleReport : Z;
  g_arbReport : ReportID
}.

(** [mcclellan_build_strat::gatherReports] *)
Definition gatherReports (rdfa : raw_dfa) : gathered :=
  let '(rl1, rev1, reports) :=
    foldl gather_step ([], ∅, []) (reports <$> states rdfa) in
  let '(rl, _, reports_eod) :=
    foldl gather_step (rl1, rev1, []) (reports_eod <$> states rdfa) in
  let arb0 := match rl with
              | first :: _ => set_begin first
              | [] => 0%Z
              end in
  let reps : gset ReportID :=
    foldl (λ reps rl_index,
             if (rl_index =? MO_INVALID_IDX)%Z then reps
             else (rl !!! Z.to_nat rl_index) ∪ reps)
          ∅ reports in
  if size reps =? 1
  then Gathered rl reports reports_eod 1 (set_begin reps)
  else Gathered rl reports reports_eod 0 arb0.

Section with_layout.
Context (L : layout).

(** [raw_report_info_impl::getReportListSize] *)
Definition getReportListSize (rl : list (gset ReportID)) : Z :=
  foldl (λ rv reps,
           u32 (u32 (rv + sizeof_report_list L)
                + sizeof_ReportID L * Z.of_nat (size reps)))
        0%Z rl.

(** [raw_report_info_impl::fillReportLists]: the offsets pushed to [ro]
    (the report lists themselves are not tracked in the image below). *)
Definition fillReportLists (rl : list (gset ReportID)) (base_offset : Z)
  : list Z :=
  (foldl (λ (st : list Z * Z) reps,
            (st.1 ++ [u32 st.2],
             st.2 + sizeof_report_list L
                  + sizeof_ReportID L * Z.of_nat (size reps))%Z)
         ([], base_offset) rl).1.

End with_layout.

(** ** Sherman selection *)

(** [addIfEarlier] *)
Definition addIfEarlier (dest : gset dstate_id_t) (candidate max : dstate_id_t)
  : gset dstate_id_t :=
  if candidate <? max then {[candidate]} ∪ dest else dest.

(** [addSuccessors] *)
Definition addSuccessors (dest : gset dstate_id_t) (source : dstate)
    (alphasize : nat) (curr_id : dstate_id_t) : gset dstate_id_t :=
  foldl (λ d s, addIfEarlier d (next source !!! s) curr_id)
        dest (seq 0 alphasize).

(** The set [hinted] of states to search for a better daddy. *)
Definition hinted_set (info : dfa_info) (curr_id : dstate_id_t)
  : gset dstate_id_t :=
  let alphasize := impl_alpha_size info in
  let sts := states (raw info) in
  let h0 := addIfEarlier ∅ 0 curr_id in
  let h1 := addIfEarlier h0 (start_anchored (raw info)) curr_id in
  let h2 := addIfEarlier h1 (start_floating (raw info)) curr_id in
  let mydaddy := daddy (sts !!! curr_id) in
  if mydaddy =? 0 then h2
  else
    let h3 := addIfEarlier h2 mydaddy curr_id in
    let h4 := addSuccessors h3 (sts !!! mydaddy) alphasize curr_id in
    let mygranddaddy := daddy (sts !!! mydaddy) in
    if mygranddaddy =? 0 then h4
    else
      let h5 := addIfEarlier h4 mygranddaddy curr_id in
      addSuccessors h5 (sts !!! mygranddaddy) alphasize curr_id.

(** The inner loop over the symbols: in how many of the first [alphasize]
    symbols the rows of the two states agree. *)
Definition daddy_score (info : dfa_info) (curr_id donor : dstate_id_t) : nat :=
  length (filter (λ s, next_of (raw info) curr_id s = next_of (raw info) donor s)
                 (seq 0 (impl_alpha_size info))).

(** The loop over [hinted], in increasing order, with its [continue] and
    [break]; returns [(best_daddy, best_score)].  [best_score] is a [u16]
    assigned from the [u32] [score]. *)
Fixpoint daddy_search (info : dfa_info) (curr_id : dstate_id_t)
    (donors : list dstate_id_t) (best_daddy : dstate_id_t) (best_score : nat)
  : dstate_id_t * nat :=
  match donors with
  | [] => (best_daddy, best_score)
  | donor :: rest =>
    if is_sherman info donor
    then daddy_search info curr_id rest best_daddy best_score
    else
      let score := daddy_score info curr_id donor in
      if (best_score <? score) || ((score =? best_score) && (donor <? best_daddy))
      then
        if score =? impl_alpha_size info
        then (donor, u16n (Z.of_nat score))
        else daddy_search info curr_id rest donor (u16n (Z.of_nat score))
      else daddy_search info curr_id rest best_daddy best_score
  end.

Definition best_daddy_of (info : dfa_info) (curr_id : dstate_id_t)
  : dstate_id_t * nat :=
  daddy_search info curr_id
    (merge_sort Nat.le (elements (hinted_set info curr_id))) 0 0.

(** [width], [full_state_size] and [max_list_len] of [find_better_daddy]. *)
Definition sherman_width (using8bit : bool) : Z := if using8bit then 1%Z else 2%Z.

Definition max_list_len (using8bit : bool) (alphasize : nat) : nat :=
  let width := sherman_width using8bit in
  let full_state_size := u16 (width * Z.of_nat alphasize) in
  u16n (MIN MAX_SHERMAN_LIST_LEN (Z.quot (full_state_size - 2) (width + 1))).

(** The two "crude attempts to prevent frequent states from being
    sherman'ed" at the head of [find_better_daddy]. *)
Definition banned_near_anchored (info : dfa_info) (curr_id : dstate_id_t)
    (any_cyclic_near_anchored_state : bool) : bool :=
  negb (start_anchored (raw info) =? DEAD_STATE)
  && any_cyclic_near_anchored_state
  && (curr_id <? impl_alpha_size info * 3).

Definition banned_near_floating (info : dfa_info) (curr_id : dstate_id_t) : bool :=
  negb (start_floating (raw info) =? DEAD_STATE)
  && (start_floating (raw info) <=? curr_id)
  && (curr_id <? start_floating (raw info) + impl_alpha_size info * 3).

Definition self_loop_width (info : dfa_info) (curr_id : dstate_id_t) : nat :=
  length (filter (λ i, next_of (raw info) curr_id (alpha_remap (raw info) !!! i)
                       = curr_id) (seq 0 N_CHARS)).

(** The two assignments [currState.daddy = best_daddy] and
    [info.extra[curr_id].daddytaken = best_score]. *)
Definition record_daddy (info : dfa_info) (curr_id best_daddy : dstate_id_t)
    (best_score : nat) : dfa_info :=
  DfaInfo (set_states (raw info)
             (alter (with_daddy best_daddy) curr_id (states (raw info))))
          (alter (with_daddytaken best_score) curr_id (extra info)).

(** [find_better_daddy] *)
Definition find_better_daddy (info : dfa_info) (curr_id : dstate_id_t)
    (using8bit any_cyclic_near_anchored_state : bool) (g : Grey) : dfa_info :=
  if negb (allowShermanStates g) then info
  else
    let alphasize := impl_alpha_size info in
    if banned_near_anchored info curr_id any_cyclic_near_anchored_state then info
    else if banned_near_floating info curr_id then info
    else
      let '(best_daddy, best_score) := best_daddy_of info curr_id in
      let info1 := record_daddy info curr_id best_daddy best_score in
      if best_score + max_list_len using8bit alphasize <? alphasize then info1
      else if is_sherman info1 (daddy (states (raw info1) !!! curr_id)) then info1
      else if MAX_SHERMAN_SELF_LOOP <? self_loop_width info1 curr_id then info1
      else set_info_extra info1 (alter with_sherman curr_id (extra info1)).

(** [is_cyclic_near] *)
Definition is_cyclic_near (raw : raw_dfa) (root : dstate_id_t) : bool :=
  let alphasize := getImplAlphaSize raw in
  existsb (λ s,
             let succ_id := next_of raw root s in
             if succ_id =? DEAD_STATE then false
             else existsb (λ t, (next_of raw succ_id t =? root)
                                || (next_of raw succ_id t =? succ_id))
                          (seq 0 alphasize))
          (seq 0 alphasize).

(** The loop of [mcclellanCompile_i] that calls [find_better_daddy] on
    every state; the [u32] counter is narrowed to [dstate_id_t] at the
    call. *)
Definition find_all_daddies (info : dfa_info) (using8bit any_cyclic : bool)
    (g : Grey) : dfa_info :=
  foldl (λ inf i, find_better_daddy inf (u16n (Z.of_nat i)) using8bit any_cyclic g)
        info (seq 0 (info_size info)).

(** ** State numbering *)

(** [info.states[s].impl_id = next++] over a vector of states, with the
    [u16] counter. *)
Definition assign_ids (sts : list dstate) (ids : list dstate_id_t) (first : Z)
  : list dstate * Z :=
  foldl (λ (st : list dstate * Z) s,
           (alter (with_impl_id (Z.to_nat st.2)) s st.1, u16 (st.2 + 1)))
        (sts, first) ids.

(** [allocateFSN16]: the updated [info], [*sherman_base] and the error
    flag. *)
Definition allocateFSN16 (info : dfa_info) : dfa_info * nat * bool :=
  let sts0 := alter (with_impl_id 0) 0 (states (raw info)) in
  let info0 := set_info_states info sts0 in
  if (65536 <? Z.of_nat (info_size info))%Z then (info0, 0, true)
  else
    let ids := seq 1 (info_size info - 1) in
    let sherm := filter (λ i, is_sherman info i = true) ids in
    let norm := filter (λ i, is_sherman info i = false) ids in
    let '(sts1, next_norm) := assign_ids sts0 norm 1 in
    let sherman_base := Z.to_nat next_norm in
    let '(sts2, next_sherman) := assign_ids sts1 sherm next_norm in
    (set_info_states info sts2, sherman_base,
     negb ((next_sherman - 1) =? Z.land (next_sherman - 1) STATE_MASK)%Z).

(** [allocateFSN8]: the updated [info], [*accel_limit] and
    [*accept_limit]; the counter [j] is a [u32] and the stored id a
    [u16]. *)
Definition assign_ids8 (sts : list dstate) (ids : list dstate_id_t) (first : Z)
  : list dstate * Z :=
  foldl (λ (st : list dstate * Z) s,
           (alter (with_impl_id (u16n st.2)) s st.1, u32 (st.2 + 1)))
        (sts, first) ids.

Definition allocateFSN8 (info : dfa_info) : dfa_info * Z * Z :=
  let sts0 := alter (with_impl_id 0) 0 (states (raw info)) in
  let ids := seq 1 (info_size info - 1) in
  let accept := filter (λ i, reports (states (raw info) !!! i) ≠ ∅) ids in
  let accel := filter (λ i, reports (states (raw info) !!! i) = ∅
                            ∧ info_is_accel info i = true) ids in
  let norm := filter (λ i, reports (states (raw info) !!! i) = ∅
                           ∧ info_is_accel info i = false) ids in
  let '(sts1, j1) := assign_ids8 sts0 norm 1 in
  let '(sts2, j2) := assign_ids8 sts1 accel j1 in
  let '(sts3, _) := assign_ids8 sts2 accept j2 in
  (set_info_states info sts3, u16 j1, u16 j2).

(** ** The image *)

Inductive nfa_type := MCCLELLAN_NFA_8 | MCCLELLAN_NFA_16.

(** [struct mstate_aux] *)
Record mstate_aux := MstateAux {
  accept : Z;
  accept_eod : Z;
  top : dstate_id_t;
  accel_offset : Z
}.

#[export] Instance mstate_aux_inhabited : Inhabited mstate_aux :=
  populate (MstateAux 0 0 0 0).

(** The image: the fields of [struct NFA] and [struct mcclellan] that the
    compiler writes, and the regions of the blob that follow them, each
    as the array the compiler addresses it as: the successor table (of
    [u16] or [u8]), the [mstate_aux] array, and the Sherman region as
    bytes.  The report lists and the [AccelAux] records are written by
    collaborators outside this file and are not tracked.  The blob is
    zero-initialised ([aligned_zmalloc_unique]). *)
Record NFA := MkNFA {
  nfa_length : Z;
  nfa_type_of : nfa_type;
  nPositions : Z;
  scratchStateSize : Z;
  streamStateSize : Z;
  nfa_accepts_eod : bool;          (* flags & NFA_ACCEPTS_EOD *)
  m_remap : list nat;
  m_alphaShift : nat;
  m_length : Z;
  m_aux_offset : Z;
  m_accel_offset : Z;
  m_arb_report : ReportID;
  m_state_count : nat;
  m_start_anchored : dstate_id_t;
  m_start_floating : dstate_id_t;
  m_has_accel : Z;
  m_flag_single : bool;            (* flags & MCCLELLAN_FLAG_SINGLE *)
  m_sherman_offset : Z;
  m_sherman_end : Z;
  m_sherman_limit : nat;
  m_accel_limit_8 : Z;
  m_accept_limit_8 : Z;
  succ_table : list Z;
  aux : list mstate_aux;
  sherman_table : list Z
}.

Definition with_tables (n : NFA) (succ : list Z) (ax : list mstate_aux)
    (sh : list Z) : NFA :=
  MkNFA (nfa_length n) (nfa_type_of n) (nPositions n) (scratchStateSize n)
        (streamStateSize n) (nfa_accepts_eod n) (m_remap n) (m_alphaShift n)
        (m_length n) (m_aux_offset n) (m_accel_offset n) (m_arb_report n)
        (m_state_count n) (m_start_anchored n) (m_start_floating n)
        (m_has_accel n) (m_flag_single n) (m_sherman_offset n)
        (m_sherman_end n) (m_sherman_limit n) (m_accel_limit_8 n)
        (m_accept_limit_8 n) succ ax sh.

Definition with_accepts_eod (n : NFA) : NFA :=
  MkNFA (nfa_length n) (nfa_type_of n) (nPositions n) (scratchStateSize n)
        (streamStateSize n) true (m_remap n) (m_alphaShift n)
        (m_length n) (m_aux_offset n) (m_accel_offset n) (m_arb_report n)
        (m_state_count n) (m_start_anchored n) (m_start_floating n)
        (m_has_accel n) (m_flag_single n) (m_sherman_offset n)
        (m_sherman_end n) (m_sherman_limit n) (m_accel_limit_8 n)
        (m_accept_limit_8 n) (succ_table n) (aux n) (sherman_table n).

(** [getAux] *)
Definition getAux (ax : list mstate_aux) (i : Z) : mstate_aux :=
  ax !!! Z.to_nat i.

(** Two-byte stores and loads in the byte regions (little endian). *)
Definition store_u16 (mem : list Z) (p : nat) (v : Z) : list Z :=
  <[S p := u8 (v / 256)]> (<[p := u8 v]> mem).
Definition load_u16 (mem : list Z) (p : nat) : Z :=
  (mem !!! p + 256 * mem !!! S p)%Z.

(** The bits of a successor slot. *)
Definition has_flag (v flag : Z) : bool := negb (Z.land v flag =? 0)%Z.

(** [aux->accept]/[aux->accel_offset] tests and the two [|=] of
    [markEdges] on one successor. *)
Definition mark_succ (ax : list mstate_aux) (v : Z) : Z :=
  let a := getAux ax v in
  let v1 := if (accept a =? 0)%Z then v else Z.lor v ACCEPT_FLAG in
  if (accel_offset a =? 0)%Z then v1 else Z.lor v1 ACCEL_FLAG.

Definition with_accel_offset (o : Z) (a : mstate_aux) : mstate_aux :=
  MstateAux (accept a) (accept_eod a) (top a) o.

(** [fillInAux] *)
Definition fillInAux (info : dfa_info) (i : dstate_id_t)
    (reps reps_eod reportOffsets : list Z) (a : mstate_aux) : mstate_aux :=
  let raw_state := states (raw info) !!! i in
  MstateAux
    (if bool_decide (reports raw_state = ∅) then 0%Z
     else reportOffsets !!! Z.to_nat (reps !!! i))
    (if bool_decide (reports_eod raw_state = ∅) then 0%Z
     else reportOffsets !!! Z.to_nat (reps_eod !!! i))
    (implId info (if i =? 0 then start_floating (raw info)
                  else next raw_state !!! (alpha_remap (raw info) !!! TOP)))
    (accel_offset a).

Section with_layout.
Context (L : layout).

(** [mcclellan_build_strat::accelSize] *)
Definition accelSize : Z := sizeof_AccelAux L.

(** [calcShermanRegionSize] *)
Definition calcShermanRegionSize (info : dfa_info) : Z :=
  ROUNDUP_16
    (foldl (λ rv i, if is_sherman info i
                    then (rv + Z.of_nat (SHERMAN_FIXED_SIZE L))%Z else rv)
           0%Z (seq 0 (info_size info))).

(** Modelled from the spec: [findMutableShermanState] of
    mcclellan_internal.h, which is not part of the sources at hand.  The
    Sherman region is an array of records of [SHERMAN_FIXED_SIZE] bytes,
    the first of which belongs to state [sherman_limit] (the addressing
    [mcclellanCompile16] itself uses when it writes the records). *)
Definition findShermanState (sherman_limit : nat) (s : dstate_id_t) : nat :=
  SHERMAN_FIXED_SIZE L * (s - sherman_limit).

(** [markEdges] *)
Definition markEdges_normal (info : dfa_info) (sherman_limit : nat)
    (ax : list mstate_aux) (succ : list Z) : list Z :=
  let alphaShift := getAlphaShift info in
  let alphaSize := impl_alpha_size info in
  foldl (λ t i,
           foldl (λ t j, let c_prime := Nat.shiftl i alphaShift + j in
                         <[c_prime := mark_succ ax (t !!! c_prime)]> t)
                 t (seq 0 alphaSize))
        succ (seq 0 sherman_limit).

Definition markEdges_sherman (sherman_limit state_count : nat)
    (ax : list mstate_aux) (sh : list Z) : list Z :=
  foldl (λ mem j,
           let sherman_cur := findShermanState sherman_limit j in
           let len := Z.to_nat (mem !!! (sherman_cur + SHERMAN_LEN_OFFSET)) in
           let succs := sherman_cur + SHERMAN_STATES_OFFSET L len in
           foldl (λ mem i, store_u16 mem (succs + 2 * i)
                                     (mark_succ ax (load_u16 mem (succs + 2 * i))))
                 mem (seq 0 len))
        sh (seq sherman_limit (state_count - sherman_limit)).

Definition markEdges (info : dfa_info) (n : NFA) : NFA :=
  with_tables n
    (markEdges_normal info (m_sherman_limit n) (aux n) (succ_table n))
    (aux n)
    (markEdges_sherman (m_sherman_limit n) (m_state_count n) (aux n)
                       (sherman_table n)).

(** [populateBasicInfo], on a zeroed image whose regions have the given
    numbers of elements. *)
Definition populateBasicInfo (state_size : Z) (info : dfa_info)
    (total_size aux_offset accel_offset accel_count : Z) (arb : ReportID)
    (single : Z) (n_succ n_aux n_sherman : nat) : NFA :=
  MkNFA (u32 total_size)
        (if (state_size =? 1)%Z then MCCLELLAN_NFA_8 else MCCLELLAN_NFA_16)
        (u32 (Z.of_nat (info_size info)))
        (u32 state_size) (u32 state_size) false
        ((λ i, Z.to_nat (u8 (Z.of_nat (alpha_remap (raw info) !!! i))))
           <$> seq 0 256)
        (getAlphaShift info)
        (u32 total_size) (u32 aux_offset) (u32 accel_offset) arb
        (u16n (Z.of_nat (info_size info)))
        (implId info (start_anchored (raw info)))
        (implId info (start_floating (raw info)))
        (if (accel_count =? 0)%Z then 0%Z else 1%Z)
        (negb (single =? 0)%Z)
        0 0 0 0 0
        (replicate n_succ 0%Z) (replicate n_aux (MstateAux 0 0 0 0))
        (replicate n_sherman 0%Z).

Definition with_sherman_header (n : NFA) (off e : Z) (limit : nat) : NFA :=
  MkNFA (nfa_length n) (nfa_type_of n) (nPositions n) (scratchStateSize n)
        (streamStateSize n) (nfa_accepts_eod n) (m_remap n) (m_alphaShift n)
        (m_length n) (m_aux_offset n) (m_accel_offset n) (m_arb_report n)
        (m_state_count n) (m_start_anchored n) (m_start_floating n)
        (m_has_accel n) (m_flag_single n) (u32 off) (u32 e) limit
        (m_accel_limit_8 n) (m_accept_limit_8 n)
        (succ_table n) (aux n) (sherman_table n).

Definition with_limits_8 (n : NFA) (accel_limit accept_limit : Z) : NFA :=
  MkNFA (nfa_length n) (nfa_type_of n) (nPositions n) (scratchStateSize n)
        (streamStateSize n) (nfa_accepts_eod n) (m_remap n) (m_alphaShift n)
        (m_length n) (m_aux_offset n) (m_accel_offset n) (m_arb_report n)
        (m_state_count n) (m_start_anchored n) (m_start_floating n)
        (m_has_accel n) (m_flag_single n) (m_sherman_offset n)
        (m_sherman_end n) (m_sherman_limit n) accel_limit accept_limit
        (succ_table n) (aux n) (sherman_table n).

(** The working state of the loops of [mcclellanCompile16]: the three
    regions and the running [accel_offset]. *)
Record asm_state := AsmState {
  as_succ : list Z;
  as_aux : list mstate_aux;
  as_sherman : list Z;
  as_accel_offset : Z
}.

(** [accel_offset] bookkeeping shared by the three assembly loops (the
    call to [buildAccel] writes to the untracked accel region). *)
Definition place_accel (info : dfa_info) (i fs : dstate_id_t)
    (ax : list mstate_aux) (accel_offset : Z) : list mstate_aux * Z :=
  if info_is_accel info i
  then (alter (with_accel_offset (u32 accel_offset)) fs ax,
        (accel_offset + accelSize)%Z)
  else (ax, accel_offset).

(** "do normal states" *)
Definition compile16_normal (info : dfa_info) (g : gathered)
    (reportOffsets : list Z) (st : asm_state) (i : dstate_id_t) : asm_state :=
  if is_sherman info i then st
  else
    let fs := implId info i in
    let succ :=
      foldl (λ t j, <[Nat.shiftl fs (getAlphaShift info) + j
                      := Z.of_nat (implId info (next_of (raw info) i j))]> t)
            (as_succ st) (seq 0 (impl_alpha_size info)) in
    let ax1 := alter (fillInAux info i (g_reports g) (g_reports_eod g)
                                reportOffsets) fs (as_aux st) in
    let '(ax2, off) := place_accel info i fs ax1 (as_accel_offset st) in
    AsmState succ ax2 (as_sherman st) off.

(** The symbols on which state [i] differs from its daddy [d]. *)
Definition overrides (info : dfa_info) (i d : dstate_id_t) : list symbol_t :=
  filter (λ s, next_of (raw info) i s ≠ next_of (raw info) d s)
         (seq 0 (impl_alpha_size info)).

(** "do sherman states" *)
Definition compile16_sherman (info : dfa_info) (g : gathered)
    (reportOffsets : list Z) (sherman_limit : nat)
    (st : asm_state) (i : dstate_id_t) : asm_state :=
  if negb (is_sherman info i) then st
  else
    let fs := implId info i in
    let curr := (fs - sherman_limit) * SHERMAN_FIXED_SIZE L in
    let ax1 := alter (fillInAux info i (g_reports g) (g_reports_eod g)
                                reportOffsets) fs (as_aux st) in
    let '(ax2, off) := place_accel info i fs ax1 (as_accel_offset st) in
    let len := u8 (Z.of_nat (impl_alpha_size info)
                   - Z.of_nat (daddytaken (extra info !!! i))) in
    let d := daddy (states (raw info) !!! i) in
    let mem1 := <[curr + SHERMAN_TYPE_OFFSET := SHERMAN_STATE]> (as_sherman st) in
    let mem2 := <[curr + SHERMAN_LEN_OFFSET := len]> mem1 in
    let mem3 := store_u16 mem2 (curr + SHERMAN_DADDY_OFFSET)
                          (Z.of_nat (implId info d)) in
    (* the two loops over the symbols, each with its running pointer *)
    let mem4 :=
      (foldl (λ (mp : list Z * nat) s,
                if bool_decide (next_of (raw info) i s ≠ next_of (raw info) d s)
                then (<[mp.2 := u8 (Z.of_nat s)]> mp.1, S mp.2) else mp)
             (mem3, curr + SHERMAN_CHARS_OFFSET)
             (seq 0 (impl_alpha_size info))).1 in
    let mem5 :=
      (foldl (λ (mp : list Z * nat) s,
                if bool_decide (next_of (raw info) i s ≠ next_of (raw info) d s)
                then (store_u16 mp.1 mp.2
                        (Z.of_nat (implId info (next_of (raw info) i s))),
                      2 + mp.2) else mp)
             (mem4, curr + SHERMAN_STATES_OFFSET L (Z.to_nat len))
             (seq 0 (impl_alpha_size info))).1 in
    AsmState (as_succ st) ax2 mem5 off.

(** [mcclellanCompile16]: the updated [info] (the ids are written back to
    the raw DFA) and the image, or [None] for [nullptr]. *)
Definition mcclellanCompile16 (info : dfa_info) (cc : CompileContext)
  : dfa_info * option NFA :=
  let '(info1, count_real_states, err) := allocateFSN16 info in
  if err then (info1, None)
  else
    let g := gatherReports (raw info1) in
    let '(info2, accelCount) := populateAccelerationInfo info1 (grey cc) in
    let slots := Nat.shiftl 1 (getAlphaShift info2) * count_real_states in
    let tran_size := (2 * Z.of_nat slots)%Z in
    let aux_size := (sizeof_mstate_aux L * Z.of_nat (info_size info2))%Z in
    let aux_offset :=
      ROUNDUP_16 (sizeof_NFA L + sizeof_mcclellan L + tran_size) in
    let accel_size := (accelSize * accelCount)%Z in
    let accel_offset :=
      ROUNDUP_N (aux_offset + aux_size + getReportListSize L (g_ri g)) 32 in
    let sherman_offset := ROUNDUP_16 (accel_offset + accel_size) in
    let sherman_size := calcShermanRegionSize info2 in
    let total_size := (sherman_offset + sherman_size)%Z in
    let accel_offset := (accel_offset - sizeof_NFA L)%Z in
    let nfa0 :=
      populateBasicInfo 2 info2 total_size aux_offset accel_offset accelCount
        (g_arbReport g) (g_isSingleReport g)
        slots (info_size info2) (Z.to_nat sherman_size) in
    let reportOffsets := fillReportLists L (g_ri g) (aux_offset + aux_size) in
    let nfa1 := with_sherman_header nfa0 sherman_offset total_size
                                    count_real_states in
    let st0 := AsmState (succ_table nfa1) (aux nfa1) (sherman_table nfa1)
                        accel_offset in
    let st1 := foldl (compile16_normal info2 g reportOffsets) st0
                     (seq 0 (info_size info2)) in
    let st2 := foldl (compile16_sherman info2 g reportOffsets
                                        (m_sherman_limit nfa1)) st1
                     (seq 0 (info_size info2)) in
    let nfa2 := with_tables nfa1 (as_succ st2) (as_aux st2) (as_sherman st2) in
    (info2, Some (markEdges info2 nfa2)).

(** [fillInBasicState8] *)
Definition fillInBasicState8 (info : dfa_info) (g : gathered)
    (reportOffsets : list Z) (i : dstate_id_t)
    (tabs : list Z * list mstate_aux) : list Z * list mstate_aux :=
  let j := implId info i in
  let alphaShift := getAlphaShift info in
  let succ :=
    foldl (λ t s, <[Nat.shiftl j alphaShift + s
                    := u8 (Z.of_nat (implId info (next_of (raw info) i s)))]> t)
          tabs.1 (seq 0 (impl_alpha_size info)) in
  let st := states (raw info) !!! i in
  let acc := if bool_decide (reports st = ∅) then 0%Z
             else reportOffsets !!! Z.to_nat (g_reports g !!! i) in
  let acc_eod := if bool_decide (reports_eod st = ∅) then 0%Z
                 else reportOffsets !!! Z.to_nat (g_reports_eod g !!! i) in
  let raw_top := if i =? 0 then start_floating (raw info)
                 else next st !!! (alpha_remap (raw info) !!! TOP) in
  (succ,
   alter (λ a, MstateAux acc acc_eod (implId info raw_top) (accel_offset a))
         j tabs.2).

(** The loop of [mcclellanCompile8] that copies in the state
    information. *)
Definition compile8_state (info : dfa_info) (g : gathered)
    (reportOffsets : list Z) (st : asm_state) (i : dstate_id_t) : asm_state :=
  let '(ax1, off) := place_accel info i (implId info i) (as_aux st)
                                 (as_accel_offset st) in
  let '(succ, ax2) := fillInBasicState8 info g reportOffsets i
                                        (as_succ st, ax1) in
  AsmState succ ax2 (as_sherman st) off.

(** [mcclellanCompile8]; it has no failure return. *)
Definition mcclellanCompile8 (info : dfa_info) (cc : CompileContext)
  : dfa_info * NFA :=
  let g := gatherReports (raw info) in
  let '(info1, accelCount) := populateAccelerationInfo info (grey cc) in
  let slots := Nat.shiftl 1 (getAlphaShift info1) * info_size info1 in
  let tran_size := Z.of_nat slots in
  let aux_size := (sizeof_mstate_aux L * Z.of_nat (info_size info1))%Z in
  let aux_offset :=
    ROUNDUP_16 (sizeof_NFA L + sizeof_mcclellan L + tran_size) in
  let accel_size := (accelSize * accelCount)%Z in
  let accel_offset :=
    ROUNDUP_N (aux_offset + aux_size + getReportListSize L (g_ri g)) 32 in
  let total_size := (accel_offset + accel_size)%Z in
  let accel_offset := (accel_offset - sizeof_NFA L)%Z in
  let '(info2, accel_limit, accept_limit) := allocateFSN8 info1 in
  let nfa0 :=
    with_limits_8
      (populateBasicInfo 1 info2 total_size aux_offset accel_offset accelCount
         (g_arbReport g) (g_isSingleReport g) slots (info_size info2) 0)
      accel_limit accept_limit in
  let reportOffsets := fillReportLists L (g_ri g) (aux_offset + aux_size) in
  let st0 := AsmState (succ_table nfa0) (aux nfa0) (sherman_table nfa0)
                      accel_offset in
  let st1 := foldl (compile8_state info2 g reportOffsets) st0
                   (seq 0 (info_size info2)) in
  (info2, with_tables nfa0 (as_succ st1) (as_aux st1) (as_sherman st1)).

(** ** The entry point *)

(** What [mcclellanCompile_i] comes to: an image, a null handle, or the
    dereference of a null [nfa] (undefined behaviour; the statement
    [nfa->flags |= NFA_ACCEPTS_EOD] is not guarded). *)
Inductive compile_outcome :=
  | Compiled (n : NFA)
  | NullHandle
  | NullDereference.

Record compile_result := CompileResult {
  res_raw : raw_dfa;                         (* the raw DFA, as mutated *)
  res_nfa : compile_outcome;
  res_accel_states : option (gset dstate_id_t)
}.

(** [fillAccelOut] *)
Definition fillAccelOut (info : dfa_info) (accel_states : gset dstate_id_t)
  : gset dstate_id_t :=
  foldl (λ acc i, if info_is_accel info i then {[i]} ∪ acc else acc)
        accel_states (seq 0 (info_size info)).

(** [mcclellanCompile_i] (and [mcclellanCompile], which only builds the
    strategy object around [raw]); [accel_states] is [None] for a null
    pointer. *)
Definition mcclellanCompile_i (raw0 : raw_dfa) (cc : CompileContext)
    (accel_states : option (gset dstate_id_t)) : compile_result :=
  let using8bit := allowMcClellan8 (grey cc)
                   && (length (states raw0) <=? 256) in
  let raw1 := if negb (streaming cc) then stripExtraEodReports raw0 else raw0 in
  let info := DfaInfo raw1 (extra (mk_dfa_info raw0)) in
  let has_eod_reports := hasEodReports raw1 in
  let any_cyclic_near_anchored_state :=
    is_cyclic_near raw1 (start_anchored raw1) in
  let info1 := find_all_daddies info using8bit any_cyclic_near_anchored_state
                                (grey cc) in
  let '(info2, nfa) :=
    if negb using8bit then mcclellanCompile16 info1 cc
    else let '(i2, n) := mcclellanCompile8 info1 cc in (i2, Some n) in
  match nfa with
  | None =>
    if has_eod_reports
    then CompileResult (raw info2) NullDereference accel_states
    else CompileResult (raw info2) NullHandle accel_states
  | Some n =>
    CompileResult (raw info2)
      (Compiled (if has_eod_reports then with_accepts_eod n else n))
      (fillAccelOut info2 <$> accel_states)
  end.

Definition mcclellanCompile (raw0 : raw_dfa) (cc : CompileContext)
    (accel_states : option (gset dstate_id_t)) : compile_result :=
  mcclellanCompile_i raw0 cc accel_states.

(** ** A reference decoder *)

(** Modelled from the spec: the runtime that reads the image is not part
    of the sources at hand.  Following the spec (sections 4.1, 4.7 and 8):
    a transition of state [s] on byte [c] is read from the packed row at
    [(s << alphaShift) + remap[c]]; for a Sherman state (an id from
    [sherman_limit] on, in a 16-bit image) the [len] override symbols of
    its record are scanned, a hit gives the override successor at the same
    position (an unaligned load) and a miss recurses to the daddy's row;
    the flag bits are masked off with [STATE_MASK].  [fuel] bounds the
    recursion. *)
Definition sherman_scan (mem : list Z) (cur len : nat) (sym : nat)
  : option nat :=
  find (λ k, Z.eqb (mem !!! (cur + SHERMAN_CHARS_OFFSET + k)) (Z.of_nat sym))
       (seq 0 len).

Fixpoint decode (fuel : nat) (n : NFA) (s : dstate_id_t) (c : nat)
  : option dstate_id_t :=
  match fuel with
  | O => None
  | S fuel' =>
    let sym := m_remap n !!! c in
    match nfa_type_of n with
    | MCCLELLAN_NFA_8 =>
      Some (Z.to_nat (Z.land (succ_table n
                                !!! (Nat.shiftl s (m_alphaShift n) + sym))
                             STATE_MASK))
    | MCCLELLAN_NFA_16 =>
      if s <? m_sherman_limit n
      then Some (Z.to_nat (Z.land (succ_table n
                                     !!! (Nat.shiftl s (m_alphaShift n) + sym))
                                  STATE_MASK))
      else
        let cur := findShermanState (m_sherman_limit n) s in
        let len := Z.to_nat (sherman_table n !!! (cur + SHERMAN_LEN_OFFSET)) in
        match sherman_scan (sherman_table n) cur len sym with
        | Some k =>
          Some (Z.to_nat
                  (Z.land (load_u16 (sherman_table n)
                             (cur + SHERMAN_STATES_OFFSET L len + 2 * k))
                          STATE_MASK))
        | None =>
          decode fuel' n
                 (Z.to_nat (load_u16 (sherman_table n)
                                     (cur + SHERMAN_DADDY_OFFSET))) c
        end
    end
  end.

End with_layout.

(** ** Well-formed raw DFAs *)

(** What the compiler takes for granted of its input (it indexes the
    vectors without checks): there is a dead state; the remapped alphabet
    has at least one byte class besides [TOP] and at most [ALPHABET_SIZE]
    symbols; bytes are remapped to ordinary symbols; every row has
    [alpha_size] entries, and every state index stored in the DFA is the
    index of a state. *)
Definition wf_state (r : raw_dfa) (ds : dstate) : Prop :=
  length (next ds) = alpha_size r
  ∧ Forall (λ t, t < length (states r)) (next ds)
  ∧ daddy ds < length (states r).

Definition wf_raw (r : raw_dfa) : Prop :=
  0 < length (states r)
  ∧ 2 ≤ alpha_size r ≤ ALPHABET_SIZE
  ∧ length (alpha_remap r) = ALPHABET_SIZE
  ∧ Forall (λ a, a < alpha_size r - 1) (take N_CHARS (alpha_remap r))
  ∧ alpha_remap r !!! TOP < alpha_size r
  ∧ Forall (wf_state r) (states r)
  ∧ start_anchored r < length (states r)
  ∧ start_floating r < length (states r).

#[export] Instance wf_state_dec r ds : Decision (wf_state r ds).
Proof. unfold wf_state. apply _. Defined.

#[export] Instance wf_raw_dec r : Decision (wf_raw r).
Proof. unfold wf_raw. apply _. Defined.

(** ** Reachability for the proxy walk *)

(** [sds_reach raw s t]: [t] is reached from [s] through transitions on
    symbols other than [TOP] that do not enter the dead state. *)
Inductive sds_reach (raw : raw_dfa) (s : dstate_id_t) : dstate_id_t → Prop :=
  | sds_reach_refl : sds_reach raw s s
  | sds_reach_step u i :
      sds_reach raw s u →
      i < length (next (states raw !!! u)) →
      i ≠ alpha_remap raw !!! TOP →
      next_of raw u i ≠ DEAD_STATE →
      sds_reach raw s (next_of raw u i).

(** The successor that one of the two inner loops of [get_sds_or_proxy]
    stops at: [t] is the successor of [s] on the first symbol other than
    [TOP] that leads to a live state with the property [P]. *)
Definition first_succ (raw : raw_dfa) (s : dstate_id_t)
    (P : dstate_id_t → Prop) (t : dstate_id_t) : Prop :=
  ∃ i, i < length (next (states raw !!! s))
       ∧ i ≠ alpha_remap raw !!! TOP
       ∧ next_of raw s i ≠ DEAD_STATE
       ∧ P (next_of raw s i)
       ∧ t = next_of raw s i
       ∧ ∀ j, j < i → j ≠ alpha_remap raw !!! TOP →
              next_of raw s j ≠ DEAD_STATE → ¬ P (next_of raw s j).

(** No symbol other than [TOP] leads from [s] to a live state with the
    property [P]. *)
Definition no_succ (raw : raw_dfa) (s : dstate_id_t)
    (P : dstate_id_t → Prop) : Prop :=
  ∀ j, j < length (next (states raw !!! s)) →
       j ≠ alpha_remap raw !!! TOP →
       next_of raw s j ≠ DEAD_STATE → ¬ P (next_of raw s j).

(** [sds_path raw visited s r]: the single path that the walk follows
    from the state [s], having left the states [visited] behind, ends
    with the result [r].  At [s] the walk returns the first live
    successor with a self loop; without one it moves on to the first live
    successor that is neither [s] nor visited before; without one it
    gives up with the dead state. *)
Inductive sds_path (raw : raw_dfa)
  : gset dstate_id_t → dstate_id_t → dstate_id_t → Prop :=
  | sds_path_found visited s t :
      first_succ raw s (λ u, has_self_loop u raw = true) t →
      sds_path raw visited s t
  | sds_path_stuck visited s :
      no_succ raw s (λ u, has_self_loop u raw = true) →
      no_succ raw s (λ u, u ∉ {[s]} ∪ visited) →
      sds_path raw visited s DEAD_STATE
  | sds_path_move visited s t r :
      no_succ raw s (λ u, has_self_loop u raw = true) →
      first_succ raw s (λ u, u ∉ {[s]} ∪ visited) t →
      sds_path raw ({[s]} ∪ visited) t r →
      sds_path raw visited s r.

(** The proxy selection as the spec words it. *)
Definition sds_selection_as_specified (raw : raw_dfa) : Prop :=
  (start_floating raw ≠ DEAD_STATE →
     get_sds_or_proxy raw = start_floating raw)
  ∧ (start_floating raw = DEAD_STATE →
     ((∃ t, sds_reach raw (start_anchored raw) t ∧ has_self_loop t raw = true) →
        sds_reach raw (start_anchored raw) (get_sds_or_proxy raw)
        ∧ has_self_loop (get_sds_or_proxy raw) raw = true)
     ∧ (get_sds_or_proxy raw = DEAD_STATE →
        ¬ ∃ t, sds_reach raw (start_anchored raw) t
               ∧ has_self_loop t raw = true)).

(** A DFA over two byte classes and [TOP] on which the walk gives up:
    from the anchored start 1 the first live successor is 2, a dead end,
    while the self-looping state 4 lies behind the second successor 3. *)
Definition remap_two_classes : list nat :=
  replicate 128 0 ++ replicate 128 1 ++ [2].

Definition plain_state (nx : list dstate_id_t) : dstate := Dstate nx 0 0 ∅ ∅.

Definition sds_dead_end_dfa : raw_dfa :=
  RawDfa KIND_CALLBACKS
         [ plain_state [0; 0; 0];
           plain_state [2; 3; 0];
           plain_state [0; 0; 0];
           plain_state [4; 4; 0];
           plain_state [4; 4; 0] ]
         1 0 3 remap_two_classes.

(** A DFA on which the walk takes two steps and skips a state it has
    visited: from the anchored start 1 it moves to 2, whose first
    successor is 1 again, then to 3, whose successor 4 has a self loop. *)
Definition sds_chain_dfa : raw_dfa :=
  RawDfa KIND_CALLBACKS
         [ plain_state [0; 0; 0];
           plain_state [2; 0; 0];
           plain_state [1; 3; 0];
           plain_state [1; 4; 0];
           plain_state [4; 4; 0] ]
         1 0 3 remap_two_classes.

(** The scenario of the spec's section 8: state 1 loops on every byte and
    reports. *)
Definition match_any_dfa : raw_dfa :=
  RawDfa KIND_CALLBACKS
         [ plain_state [0; 0; 0];
           Dstate [1; 1; 0] 0 0 {[7%Z]} ∅ ]
         1 0 3 remap_two_classes.

(** Four byte classes and [TOP].  State 2 differs from the dead state on
    two of the four ordinary symbols, which is exactly the [max_list_len]
    of the 16-bit build for this alphabet; state 3 reports. *)
Definition remap_four_classes : list nat :=
  replicate 64 0 ++ replicate 64 1 ++ replicate 64 2 ++ replicate 64 3 ++ [4].

Definition sherman_dfa : raw_dfa :=
  RawDfa KIND_CALLBACKS
         [ plain_state [0; 0; 0; 0; 0];
           plain_state [2; 0; 0; 0; 0];
           plain_state [3; 3; 0; 0; 0];
           Dstate [0; 0; 0; 0; 0] 0 0 {[5%Z]} ∅ ]
         1 0 5 remap_four_classes.

(** The same DFA with a floating start at state 1: states 1 to 3 are in
    the window that [find_better_daddy] bans. *)
Definition floating_dfa : raw_dfa :=
  RawDfa KIND_CALLBACKS (states sherman_dfa) 0 1 5 remap_four_classes.

(** A DFA with transitions on [TOP] between live states and a floating
    start: state 1 reports and goes to state 2 on [TOP], state 2 goes
    back to state 1 on [TOP] and is the floating start. *)
Definition top_dfa : raw_dfa :=
  RawDfa KIND_CALLBACKS
         [ plain_state [0; 0; 0];
           Dstate [2; 1; 2] 0 0 {[7%Z]} ∅;
           plain_state [1; 0; 1] ]
         1 2 3 remap_two_classes.

Definition grey_default : Grey := MkGrey true true true.
Definition grey_16bit : Grey := MkGrey true true false.

(** What the spec says [find_better_daddy] records for [curr_id]. *)
Definition daddy_recorded (info info' : dfa_info) (curr_id : dstate_id_t) : Prop :=
  daddy (states (raw info') !!! curr_id) = (best_daddy_of info curr_id).1
  ∧ daddytaken (extra info' !!! curr_id) = (best_daddy_of info curr_id).2.

(** The Sherman gate as the spec words it: a state at least
    [max_list_len] symbols away from its best daddy is left as it is. *)
Definition sherman_gate_as_specified (info : dfa_info) (curr_id : dstate_id_t)
    (using8bit cyc : bool) (g : Grey) : Prop :=
  max_list_len using8bit (impl_alpha_size info)
    ≤ impl_alpha_size info - (best_daddy_of info curr_id).2 →
  is_sherman (find_better_daddy info curr_id using8bit cyc g) curr_id
  = is_sherman info curr_id.

(** A DFA of 70,000 states, the second of which reports at end of
    data. *)
Definition overflow_dfa : raw_dfa :=
  RawDfa KIND_CALLBACKS
         (plain_state [0; 0; 0]
            :: Dstate [0; 0; 0] 0 0 ∅ {[1%Z]}
            :: replicate (Z.to_nat 69998) (plain_state [0; 0; 0]))
         1 0 3 remap_two_classes.

Definition cc_default : CompileContext := MkCompileContext grey_default false.
Definition cc_16bit : CompileContext := MkCompileContext grey_16bit false.
Definition cc_stream : CompileContext := MkCompileContext grey_default true.

(** Reports of both kinds: states 1 and 3 raise the same report, state 2
    another one, and states 2 and 3 report at the end of the data. *)
Definition eod_dfa : raw_dfa :=
  RawDfa KIND_CALLBACKS
         [ plain_state [0; 0; 0];
           Dstate [2; 1; 0] 0 0 {[7%Z]} ∅;
           Dstate [3; 0; 0] 0 0 {[8%Z; 9%Z]} {[7%Z]};
           Dstate [0; 1; 0] 0 0 {[7%Z]} {[8%Z; 9%Z]} ]
         1 0 3 remap_two_classes.

(** Sizes for the examples (any positive sizes would do). *)
Definition example_layout : layout :=
  Layout 64 320 16 64 4 4 32 (λ len, 4 + len).

(** ** Relations between the stages of a compile *)

(** The content of a raw state that no pass changes. *)
Definition same_row (s s' : dstate) : Prop :=
  next s = next s' ∧ reports s = reports s' ∧ reports_eod s = reports_eod s'.

(** Two raw DFAs with the same alphabet, start states and rows. *)
Definition rows_agree (r r' : raw_dfa) : Prop :=
  kind r = kind r'
  ∧ start_anchored r = start_anchored r'
  ∧ start_floating r = start_floating r'
  ∧ alpha_size r = alpha_size r'
  ∧ alpha_remap r = alpha_remap r'
  ∧ length (states r) = length (states r')
  ∧ ∀ s, same_row (states r !!! s) (states r' !!! s).

(** Two stages of [dfa_info] that differ at most in the implementation
    ids and in the [accelerable] marks. *)
Definition info_agree (info info' : dfa_info) : Prop :=
  rows_agree (raw info) (raw info')
  ∧ (∀ s, daddy (states (raw info) !!! s) = daddy (states (raw info') !!! s))
  ∧ length (extra info) = length (extra info')
  ∧ ∀ s, shermanState (extra info !!! s) = shermanState (extra info' !!! s)
         ∧ daddytaken (extra info !!! s) = daddytaken (extra info' !!! s).

(** The part of [wf_raw] that concerns the alphabet and the rows. *)
Definition wf_rows (r : raw_dfa) : Prop :=
  0 < length (states r)
  ∧ 2 ≤ alpha_size r ≤ ALPHABET_SIZE
  ∧ (∀ c, c < N_CHARS → alpha_remap r !!! c < alpha_size r - 1)
  ∧ alpha_remap r !!! TOP < alpha_size r
  ∧ (∀ s i, s < length (states r) → i < alpha_size r →
            next_of r s i < length (states r))
  ∧ start_anchored r < length (states r)
  ∧ start_floating r < length (states r).

(** What [allocateFSN16] establishes: the dead state is 0, the other
    normal states are numbered from 1 and the Sherman states from
    [sherman_base], without collisions. *)
Definition numbering_ok (info : dfa_info) (sherman_base : nat) : Prop :=
  implId info 0 = 0
  ∧ 1 ≤ sherman_base ≤ info_size info
  ∧ (∀ i, 0 < i < info_size info → is_sherman info i = false →
          1 ≤ implId info i < sherman_base)
  ∧ (∀ i, 0 < i < info_size info → is_sherman info i = true →
          sherman_base ≤ implId info i < info_size info)
  ∧ (∀ i i', i < info_size info → i' < info_size info →
             implId info i = implId info i' → i = i')
  ∧ (∀ fs, fs < info_size info →
           ∃ i, i < info_size info ∧ implId info i = fs
                ∧ is_sherman info i = negb (fs <? sherman_base)).

(** What [find_better_daddy] establishes for the states it marks: the
    daddy is an earlier state that is not a Sherman state, [daddytaken] is
    the number of symbols on which the state agrees with it, and at most
    [MAX_SHERMAN_LIST_LEN] symbols are left over. *)
Definition sherman_inv (info : dfa_info) : Prop :=
  ∀ i, is_sherman info i = true →
    let d := daddy (states (raw info) !!! i) in
    d < i ∧ i < info_size info
    ∧ is_sherman info d = false
    ∧ daddytaken (extra info !!! i) = daddy_score info i d
    ∧ impl_alpha_size info ≤ daddytaken (extra info !!! i) + 8.

(** ** Byte regions *)

(** Consecutive bytes stored from address [p] on; the loops that advance
    a pointer through the Sherman records come to this. *)
Fixpoint write_bytes (mem : list Z) (p : nat) (bs : list Z) : list Z :=
  match bs with
  | [] => mem
  | b :: bs => write_bytes (<[p := b]> mem) (S p) bs
  end.

Definition u16_bytes (v : Z) : list Z := [u8 v; u8 (v / 256)].

(** The content of the Sherman record at [cur]: its length byte, its
    daddy, its override symbols and its override successors. *)
Definition sherman_record (L : layout) (mem : list Z) (cur len : nat) (d : Z)
    (chars succs : list Z) : Prop :=
  mem !!! (cur + SHERMAN_LEN_OFFSET) = Z.of_nat len
  ∧ load_u16 mem (cur + SHERMAN_DADDY_OFFSET) = d
  ∧ length chars = len
  ∧ length succs = len
  ∧ (∀ k, k < len → mem !!! (cur + SHERMAN_CHARS_OFFSET + k) = chars !!! k)
  ∧ (∀ k, k < len →
          load_u16 mem (cur + SHERMAN_STATES_OFFSET L len + 2 * k)
          = succs !!! k).

(** ** Predicates for the report tables *)

(** The reverse map points at the position of its key in [rl]. *)
Definition rev_ok (rl : list (gset Z)) (rev : gmap (gset Z) Z) : Prop :=
  ∀ k idx, rev !! k = Some idx →
           idx ≠ MO_INVALID_IDX ∧ rl !! Z.to_nat idx = Some k.

(** What one loop of [gatherReports] leaves in the index vector for a
    state with report set [rs]. *)
Definition index_ok (rl : list (gset Z)) (rs : gset Z) (idx : Z) : Prop :=
  if bool_decide (rs = ∅) then idx = MO_INVALID_IDX
  else idx ≠ MO_INVALID_IDX ∧ rl !! Z.to_nat idx = Some rs.

(** The invariant of the loops of [gatherReports]: [rev] maps exactly the
    sets of [rl] to their positions, and no set of [rl] is empty. *)
Definition gather_inv (rl : list (gset Z)) (rev : gmap (gset Z) Z) : Prop :=
  rev_ok rl rev
  ∧ ∀ i k, rl !! i = Some k → rev !! k = Some (Z.of_nat i) ∧ k ≠ ∅.

(** ** Acceleration schemes *)

(** [escape_info]: the bytes that leave a state, and the two-byte strings
    that do. *)
Record escape_info := EscapeInfo {
  outs : gset nat;
  outs2_single : gset nat;
  outs2 : gset (nat * nat);
  outs2_broken : bool
}.

(** The body of the loop of [find_escape_strings] over the bytes.  The
    inner loop over [j] runs only while [outs2_broken] is clear, and
    nothing in it sets the flag: it adds all its pairs or none. *)
Definition escape_step (raw : raw_dfa) (this_idx : dstate_id_t)
    (out : escape_info) (i : nat) : escape_info :=
  let st := states raw !!! this_idx in
  let nx := next st !!! (alpha_remap raw !!! i) in
  if bool_decide (nx ≠ this_idx) then
    let raw_next := states raw !!! nx in
    let broken1 :=
      if negb (bool_decide (reports raw_next = ∅))
         && generates_callbacks (kind raw)
      then true else outs2_broken out in
    let outs2_local : gset (nat * nat) :=
      if broken1 then ∅
      else list_to_set
             ((λ j, (i, j))
                <$> filter (λ j, next raw_next !!! (alpha_remap raw !!! j)
                                 ≠ next st !!! (alpha_remap raw !!! j))
                           (seq 0 N_CHARS)) in
    let single := if 8 <? size outs2_local
                  then {[i]} ∪ outs2_single out else outs2_single out in
    let o2 := if 8 <? size outs2_local
              then outs2 out else outs2_local ∪ outs2 out in
    EscapeInfo ({[i]} ∪ outs out) single o2
               (if 8 <? size o2 then true else broken1)
  else out.

(** [mcclellan_build_strat::find_escape_strings] *)
Definition find_escape_strings (raw : raw_dfa) (this_idx : dstate_id_t)
  : escape_info :=
  foldl (escape_step raw this_idx) (EscapeInfo ∅ ∅ ∅ false) (seq 0 N_CHARS).

(** [union AccelAux], by its [accel_type]; the masks of the shufti and
    truffle schemes are built by collaborators and are not tracked. *)
Inductive AccelAux :=
  | ACCEL_NONE
  | ACCEL_VERM (c : Z)
  | ACCEL_VERM_NOCASE (c : Z)
  | ACCEL_DVERM (c1 c2 : Z)
  | ACCEL_DVERM_NOCASE (c1 c2 : Z)
  | ACCEL_SHUFTI
  | ACCEL_DSHUFTI
  | ACCEL_TRUFFLE
  | ACCEL_RED_TAPE.

(** The order of [std::pair<u8, u8>]. *)
Definition pair_le (p q : nat * nat) : Prop :=
  p.1 < q.1 ∨ (p.1 = q.1 ∧ p.2 ≤ q.2).

#[export] Instance pair_le_dec p q : Decision (pair_le p q).
Proof. unfold pair_le. apply _. Defined.

(** [*outs2.begin()] and [outs.find_first()]. *)
Definition pairs_begin (s : gset (nat * nat)) : nat * nat :=
  hd (0, 0) (merge_sort pair_le (elements s)).
Definition find_first (s : gset nat) : nat :=
  hd 0 (merge_sort Nat.le (elements s)).

Section accel_schemes.
(** [CASE_CLEAR], [CharReach::isCaselessChar] and the outcome of
    [shuftiBuildMasks] (whether it returns something other than -1)
    belong to headers and collaborators that are not part of the sources
    at hand; the development is parametric in them. *)
Context (CASE_CLEAR : Z) (isCaselessChar : gset nat → bool)
        (shuftiBuildMasks_ok : gset nat → bool).

(** [mcclellan_build_strat::buildAccel]: what it stores in [*accel_out]. *)
Definition buildAccel (raw : raw_dfa) (this_idx : dstate_id_t) : AccelAux :=
  let out := find_escape_strings raw this_idx in
  let n1 := size (outs2_single out) in
  let n2 := size (outs2 out) in
  let first := pairs_begin (outs2 out) in
  if negb (outs2_broken out) && (n1 =? 0) && (n2 =? 1)
  then ACCEL_DVERM (Z.of_nat first.1) (Z.of_nat first.2)
  else
    let firstC := Z.land (Z.of_nat first.1) CASE_CLEAR in
    let secondC := Z.land (Z.of_nat first.2) CASE_CLEAR in
    if negb (outs2_broken out) && (n1 =? 0) && ((n2 =? 2) || (n2 =? 4))
       && forallb (λ p : nat * nat,
                     (Z.land (Z.of_nat p.1) CASE_CLEAR =? firstC)%Z
                     && (Z.land (Z.of_nat p.2) CASE_CLEAR =? secondC)%Z)
                  (elements (outs2 out))
    then ACCEL_DVERM_NOCASE firstC secondC
    else if negb (outs2_broken out) && (n1 + n2 <=? 8) && (n1 <? n2)
            && (n1 <=? 2) && negb (n2 =? 0)
    then ACCEL_DSHUFTI
    else if size (outs out) =? 0 then ACCEL_RED_TAPE
    else if size (outs out) =? 1
    then ACCEL_VERM (Z.of_nat (find_first (outs out)))
    else if (size (outs out) =? 2) && isCaselessChar (outs out)
    then ACCEL_VERM_NOCASE (Z.land (Z.of_nat (find_first (outs out)))
                                   CASE_CLEAR)
    else if ACCEL_MAX_FLOATING_STOP_CHAR <? size (outs out) then ACCEL_NONE
    else if shuftiBuildMasks_ok (outs out) then ACCEL_SHUFTI
    else ACCEL_TRUFFLE.

End accel_schemes.

(** The bytes on which state [s] goes to another state. *)
Definition leaves (raw : raw_dfa) (s : dstate_id_t) (c : nat) : Prop :=
  next_of raw s (alpha_remap raw !!! c) ≠ s.

(** Two bytes with a class of their own.  State 1 is left on byte 0 only,
    for state 2, which differs from state 1 on byte 1 only, where it goes
    to the reporting state 3. *)
Definition remap_two_bytes : list nat := [0; 1] ++ replicate 254 2 ++ [3].

Definition dverm_dfa : raw_dfa :=
  RawDfa KIND_CALLBACKS
         [ plain_state [0; 0; 0; 0];
           plain_state [2; 1; 1; 0];
           plain_state [2; 3; 1; 0];
           Dstate [3; 3; 3; 0] 0 0 {[9%Z]} ∅ ]
         1 0 4 remap_two_bytes.

(** Stand-ins for the three collaborators of [buildAccel] in the
    examples. *)
Definition example_CASE_CLEAR : Z := 0xdf.
Definition example_isCaselessChar (s : gset nat) : bool := false.
Definition example_shufti_ok (s : gset nat) : bool := true.

(** ** Queries *)

(** [mcclellanStartReachSize] *)
Definition mcclellanStartReachSize (raw : raw_dfa) : Z :=
  if length (states raw) <? 2 then 0%Z
  else
    let out := filter (λ i, next_of raw (start_anchored raw)
                                    (alpha_remap raw !!! i) ≠ DEAD_STATE)
                      (seq 0 N_CHARS) in
    Z.of_nat (length out).

(** [has_accel_dfa] *)
Definition has_accel_dfa (nfa : NFA) : bool := negb (m_has_accel nfa =? 0)%Z.

(** ** What the image holds *)

(** The header fields that name states, and the acceleration marks they
    go with. *)
Definition image_header (g : Grey) (info : dfa_info) (nfa : NFA) : Prop :=
  m_state_count nfa = info_size info
  ∧ nPositions nfa = Z.of_nat (info_size info)
  ∧ m_start_anchored nfa = implId info (start_anchored (raw info))
  ∧ m_start_floating nfa = implId info (start_floating (raw info))
  ∧ implId info 0 = 0
  ∧ (∀ i, i < info_size info →
          info_is_accel info i
          = accelerateDFA g
            && is_accel (raw info) (get_sds_or_proxy (raw info)) i)
  ∧ (has_accel_dfa nfa = true
     ↔ ∃ i, i < info_size info ∧ info_is_accel info i = true).

(** The raw state whose id [fillInAux] and [fillInBasicState8] store in
    the [top] field of state [i]. *)
Definition raw_top_of (r : raw_dfa) (i : dstate_id_t) : dstate_id_t :=
  if i =? 0 then start_floating r
  else next (states r !!! i) !!! (alpha_remap r !!! TOP).

(** Two raw DFAs that are the same automaton with the same ordinary
    reports; the passes of the compiler change at most the daddies, the
    ids and the end-of-data reports. *)
Definition same_automaton (r r' : raw_dfa) : Prop :=
  kind r = kind r'
  ∧ start_anchored r = start_anchored r'
  ∧ start_floating r = start_floating r'
  ∧ alpha_size r = alpha_size r'
  ∧ alpha_remap r = alpha_remap r'
  ∧ length (states r) = length (states r')
  ∧ ∀ s, next (states r !!! s) = next (states r' !!! s)
         ∧ reports (states r !!! s) = reports (states r' !!! s).

(** What [fillInAux] and [fillInBasicState8] store in the [accept] and
    [accept_eod] fields of state [i]. *)
Definition accept_of (info : dfa_info) (g : gathered) (ro : list Z)
    (i : dstate_id_t) : Z :=
  if bool_decide (reports (states (raw info) !!! i) = ∅) then 0%Z
  else ro !!! Z.to_nat (g_reports g !!! i).
Definition accept_eod_of (info : dfa_info) (g : gathered) (ro : list Z)
    (i : dstate_id_t) : Z :=
  if bool_decide (reports_eod (states (raw info) !!! i) = ∅) then 0%Z
  else ro !!! Z.to_nat (g_reports_eod g !!! i).

(** The size of the successor table, [tran_size] in both compile
    functions, from the header: a row of [1 << alphaShift] slots of one
    byte for every state in the 8-bit layout, and of two bytes for every
    state below [sherman_limit] in the 16-bit layout. *)
Definition tran_size_of (nfa : NFA) : Z :=
  match nfa_type_of nfa with
  | MCCLELLAN_NFA_8 =>
    Z.of_nat (Nat.shiftl 1 (m_alphaShift nfa) * m_state_count nfa)
  | MCCLELLAN_NFA_16 =>
    2 * Z.of_nat (Nat.shiftl 1 (m_alphaShift nfa) * m_sherman_limit nfa)
  end.

(** Where the report lists start: right behind the [mstate_aux] array,
    [aux_offset + aux_size] in both compile functions. *)
Definition report_lists_base (L : layout) (nfa : NFA) (n_states : nat) : Z :=
  (m_aux_offset nfa + sizeof_mstate_aux L * Z.of_nat n_states)%Z.

(** The report offsets in the [mstate_aux] array: the array follows the
    successor table, and the lists are those of [gatherReports], laid out
    by [fillReportLists] behind the [mstate_aux] array. *)
Definition image_accepts (L : layout) (info : dfa_info) (nfa : NFA) : Prop :=
  m_aux_offset nfa
  = u32 (ROUNDUP_16 (sizeof_NFA L + sizeof_mcclellan L + tran_size_of nfa))
  ∧ let g := gatherReports (raw info) in
    let ro := fillReportLists L (g_ri g)
                (report_lists_base L nfa (info_size info)) in
    ∀ i, i < info_size info →
         accept (aux nfa !!! implId info i) = accept_of info g ro i
         ∧ accept_eod (aux nfa !!! implId info i) = accept_eod_of info g ro i.

(** The header fields and the [mstate_aux] array, in either layout. *)
Definition image_common (info : dfa_info) (nfa : NFA) : Prop :=
  m_alphaShift nfa = getAlphaShift info
  ∧ m_remap nfa
    = (λ i, Z.to_nat (u8 (Z.of_nat (alpha_remap (raw info) !!! i))))
        <$> seq 0 256
  ∧ length (aux nfa) = info_size info
  ∧ (∀ i, i < info_size info →
          top (aux nfa !!! implId info i)
          = implId info (raw_top_of (raw info) i))
  ∧ (∀ i i', i < info_size info → i' < info_size info →
             implId info i = implId info i' → i = i')
  ∧ (∀ i, i < info_size info → implId info i < info_size info).

(** The 8-bit image: every state has a row of plain ids. *)
Definition image8_ok (info : dfa_info) (nfa : NFA) : Prop :=
  nfa_type_of nfa = MCCLELLAN_NFA_8
  ∧ info_size info ≤ 256
  ∧ image_common info nfa
  ∧ ∀ i j, i < info_size info → j < impl_alpha_size info →
           succ_table nfa
             !!! (Nat.shiftl (implId info i) (getAlphaShift info) + j)
           = Z.of_nat (implId info (next_of (raw info) i j)).

(** The 8-bit image tells reports and acceleration by the zone of the
    id. *)
Definition zones8 (info : dfa_info) (nfa : NFA) : Prop :=
  (1 ≤ m_accel_limit_8 nfa ≤ m_accept_limit_8 nfa)%Z
  ∧ (m_accept_limit_8 nfa ≤ Z.of_nat (info_size info))%Z
  ∧ ∀ i, 0 < i < info_size info →
         let id := Z.of_nat (implId info i) in
         let rep := reports (states (raw info) !!! i) in
         ((id < m_accel_limit_8 nfa)%Z
          ↔ rep = ∅ ∧ info_is_accel info i = false)
         ∧ ((m_accel_limit_8 nfa ≤ id < m_accept_limit_8 nfa)%Z
            ↔ rep = ∅ ∧ info_is_accel info i = true)
         ∧ ((m_accept_limit_8 nfa ≤ id)%Z ↔ rep ≠ ∅).

(** The 16-bit image: the states below [sherman_limit] have a row of
    flagged ids, the others a Sherman record. *)
Definition image16_ok (L : layout) (info : dfa_info) (nfa : NFA) : Prop :=
  nfa_type_of nfa = MCCLELLAN_NFA_16
  ∧ (Z.of_nat (info_size info) ≤ 16384)%Z
  ∧ image_common info nfa
  ∧ numbering_ok info (m_sherman_limit nfa)
  ∧ sherman_inv info
  ∧ (∀ i j, i < info_size info → is_sherman info i = false →
            j < impl_alpha_size info →
            succ_table nfa
              !!! (Nat.shiftl (implId info i) (getAlphaShift info) + j)
            = mark_succ (aux nfa)
                (Z.of_nat (implId info (next_of (raw info) i j))))
  ∧ (sherman_layout_ok L →
     ∀ i, i < info_size info → is_sherman info i = true →
          let d := daddy (states (raw info) !!! i) in
          sherman_record L (sherman_table nfa)
            ((implId info i - m_sherman_limit nfa) * SHERMAN_FIXED_SIZE L)
            (length (overrides info i d))
            (Z.of_nat (implId info d))
            (Z.of_nat <$> overrides info i d)
            (mark_succ (aux nfa)
               <$> ((λ s, Z.of_nat (implId info (next_of (raw info) i s)))
                      <$> overrides info i d))).

(* ===== theorems ===== *)

(** * Theorems *)

(** ** Lists and searches *)

Lemma find_Some_seq (f : nat → bool) n i :
  find f (seq 0 n) = Some i → i < n ∧ f i = true.
Proof.
  intros H. apply find_some in H as [Hin Hf]. split; [|done].
  apply in_seq in Hin. lia.
Qed.

Lemma find_None_seq (f : nat → bool) n i :
  find f (seq 0 n) = None → i < n → f i = false.
Proof.
  intros H Hi. apply (find_none _ _ H). apply in_seq. lia.
Qed.

(** ** Well-formedness, unpacked *)

Lemma wf_next_of r s i :
  wf_raw r → s < length (states r) → i < alpha_size r →
  next_of r s i < length (states r).
Proof.
  intros (_ & _ & _ & _ & _ & Hst & _) Hs Hi.
  destruct (lookup_lt_is_Some_2 _ _ Hs) as [ds Hds].
  rewrite Forall_lookup in Hst. destruct (Hst _ _ Hds) as (Hlen & Hnx & _).
  unfold next_of. rewrite (list_lookup_total_correct _ _ _ Hds).
  rewrite Forall_lookup in Hnx.
  destruct (lookup_lt_is_Some_2 (next ds) i) as [t Ht]; [lia|].
  rewrite (list_lookup_total_correct _ _ _ Ht). eauto.
Qed.

Lemma wf_next_length r s :
  wf_raw r → s < length (states r) →
  length (next (states r !!! s)) = alpha_size r.
Proof.
  intros (_ & _ & _ & _ & _ & Hst & _) Hs.
  destruct (lookup_lt_is_Some_2 _ _ Hs) as [ds Hds].
  rewrite Forall_lookup in Hst. destruct (Hst _ _ Hds) as (Hlen & _).
  by rewrite (list_lookup_total_correct _ _ _ Hds).
Qed.

(** ** The proxy walk *)

Lemma has_self_loop_true s raw :
  has_self_loop s raw = true ↔
  ∃ i, i < length (next (states raw !!! s))
       ∧ i ≠ alpha_remap raw !!! TOP ∧ next_of raw s i = s.
Proof.
  unfold has_self_loop. rewrite existsb_exists. split.
  - intros (i & Hin & Hi). apply in_seq in Hin.
    apply andb_true_iff in Hi as [Hne Heq].
    apply negb_true_iff, Nat.eqb_neq in Hne. apply Nat.eqb_eq in Heq.
    exists i. split; [lia|done].
  - intros (i & Hlt & Hne & Heq). exists i. split; [apply in_seq; lia|].
    apply andb_true_iff. split.
    + by apply negb_true_iff, Nat.eqb_neq.
    + by apply Nat.eqb_eq.
Qed.

Lemma sds_find_loop_Some raw s i :
  sds_find_loop raw s = Some i →
  i < length (next (states raw !!! s))
  ∧ i ≠ alpha_remap raw !!! TOP
  ∧ next_of raw s i ≠ DEAD_STATE
  ∧ has_self_loop (next_of raw s i) raw = true.
Proof.
  intros [Hi Hp]%find_Some_seq.
  apply andb_true_iff in Hp as [Hp Hloop].
  apply andb_true_iff in Hp as [Htop Hdead].
  apply negb_true_iff, Nat.eqb_neq in Htop, Hdead. done.
Qed.

Lemma sds_find_basis_Some raw s seen i :
  sds_find_basis raw s seen = Some i →
  i < length (next (states raw !!! s))
  ∧ i ≠ alpha_remap raw !!! TOP
  ∧ next_of raw s i ≠ DEAD_STATE
  ∧ next_of raw s i ∉ seen.
Proof.
  intros [Hi Hp]%find_Some_seq.
  apply andb_true_iff in Hp as [Hp Hseen].
  apply andb_true_iff in Hp as [Htop Hdead].
  apply negb_true_iff, Nat.eqb_neq in Htop, Hdead.
  apply negb_true_iff, bool_decide_eq_false in Hseen. done.
Qed.

Lemma sds_walk_unfold fuel raw s seen :
  sds_walk (S fuel) raw s seen =
  match sds_find_loop raw s with
  | Some i => Some (next_of raw s i)
  | None =>
    match sds_find_basis raw s ({[s]} ∪ seen) with
    | None => Some DEAD_STATE
    | Some i => sds_walk fuel raw (next_of raw s i)
                         ({[next_of raw s i]} ∪ ({[s]} ∪ seen))
    end
  end.
Proof. reflexivity. Qed.

Lemma seen_bounded (n s : nat) (seen : gset nat) :
  s < n → seen ⊆ set_seq 0 n → {[s]} ∪ seen ⊆ set_seq 0 n.
Proof.
  intros Hs Hseen x Hx.
  apply elem_of_union in Hx as [Hx|Hx]; [|by apply Hseen].
  apply elem_of_singleton in Hx as ->. apply elem_of_set_seq. lia.
Qed.

(** Every iteration either returns or moves on to a live state that is
    not in the seen set, so the loop is left after at most as many
    iterations as there are states outside the seen set. *)
Lemma sds_walk_terminates raw :
  wf_raw raw →
  ∀ fuel s seen,
    s < length (states raw) →
    seen ⊆ set_seq 0 (length (states raw)) →
    length (states raw) < fuel + size ({[s]} ∪ seen) →
    ∃ r, ∀ fuel', fuel ≤ fuel' → sds_walk fuel' raw s seen = Some r.
Proof.
  intros Hwf. induction fuel as [|fuel IH]; intros s seen Hs Hseen Hfuel.
  - assert (size ({[s]} ∪ seen) ≤ length (states raw)); [|lia].
    rewrite <-(size_set_seq (C:=gset nat) 0 (length (states raw))).
    by apply subseteq_size, seen_bounded.
  - destruct (sds_find_loop raw s) as [i|] eqn:Hloop.
    { exists (next_of raw s i). intros [|fuel'] Hle; [lia|].
      by rewrite sds_walk_unfold, Hloop. }
    destruct (sds_find_basis raw s ({[s]} ∪ seen)) as [i|] eqn:Hbasis.
    2:{ exists DEAD_STATE. intros [|fuel'] Hle; [lia|].
        by rewrite sds_walk_unfold, Hloop, Hbasis. }
    destruct (sds_find_basis_Some _ _ _ _ Hbasis) as (Hi & _ & _ & Hnew).
    rewrite wf_next_length in Hi by done.
    pose proof (wf_next_of raw s i Hwf Hs Hi) as Hrange.
    destruct (IH (next_of raw s i) ({[next_of raw s i]} ∪ ({[s]} ∪ seen)))
      as [r Hr]; [done|by apply seen_bounded, seen_bounded|..].
    + rewrite (union_assoc_L {[next_of raw s i]}), union_idemp_L.
      rewrite size_union, size_singleton; [lia|].
      intros x Hx%elem_of_singleton. by subst x.
    + exists r. intros [|fuel'] Hle; [lia|].
      rewrite sds_walk_unfold, Hloop, Hbasis. apply Hr. lia.
Qed.

(** Whatever live state the walk returns has a self loop and is reached
    from the state the walk started at. *)
Lemma sds_walk_sound raw s0 :
  ∀ fuel s seen r,
    sds_reach raw s0 s →
    sds_walk fuel raw s seen = Some r →
    r = DEAD_STATE ∨ (has_self_loop r raw = true ∧ sds_reach raw s0 r).
Proof.
  induction fuel as [|fuel IH]; intros s seen r Hreach; [done|].
  rewrite sds_walk_unfold.
  destruct (sds_find_loop raw s) as [i|] eqn:Hloop.
  { intros [= <-]. right.
    destruct (sds_find_loop_Some _ _ _ Hloop) as (Hi & Htop & Hdead & Hself).
    split; [done|]. by apply sds_reach_step. }
  destruct (sds_find_basis raw s ({[s]} ∪ seen)) as [i|] eqn:Hbasis.
  2:{ intros [= <-]. by left. }
  destruct (sds_find_basis_Some _ _ _ _ Hbasis) as (Hi & Htop & Hdead & _).
  apply IH. by apply sds_reach_step.
Qed.

(** C9. [get_sds_or_proxy] terminates on every (well-formed) finite raw
    DFA: as many iterations of its loop as the DFA has states always
    suffice for it to return, and more iterations do not change what it
    returns. *)
Theorem get_sds_or_proxy_terminates raw :
  wf_raw raw →
  ∃ r, get_sds_or_proxy raw = r
       ∧ ∀ fuel, length (states raw) ≤ fuel →
                 get_sds_or_proxy_fuel fuel raw = Some r.
Proof.
  intros Hwf.
  assert (∃ r, ∀ fuel, length (states raw) ≤ fuel →
                       get_sds_or_proxy_fuel fuel raw = Some r) as [r Hr].
  { unfold get_sds_or_proxy_fuel.
    destruct (negb _); [eauto|]. destruct (has_self_loop _ _); [eauto|].
    apply (sds_walk_terminates raw Hwf).
    - apply Hwf.
    - apply empty_subseteq.
    - rewrite union_empty_r_L, size_singleton. lia. }
  exists r. split; [|done].
  unfold get_sds_or_proxy. by rewrite Hr.
Qed.

Lemma wf_sds_dead_end_dfa : wf_raw sds_dead_end_dfa.
Proof. apply (bool_decide_unpack _). vm_compute. exact I. Qed.

Lemma get_sds_or_proxy_terminates_witness :
  ∃ r, get_sds_or_proxy sds_dead_end_dfa = r
       ∧ ∀ fuel, length (states sds_dead_end_dfa) ≤ fuel →
                 get_sds_or_proxy_fuel fuel sds_dead_end_dfa = Some r.
Proof.
  apply (get_sds_or_proxy_terminates sds_dead_end_dfa).
  apply (bool_decide_unpack _). vm_compute. exact I.
Defined.

Lemma find_Some_seq_first (f : nat → bool) n i :
  find f (seq 0 n) = Some i → ∀ j, j < i → f j = false.
Proof.
  assert (H : ∀ n a, find f (seq a n) = Some i →
                     ∀ j, a ≤ j < i → f j = false).
  { clear n. induction n as [|n IH]; intros a; [done|].
    cbn [seq find]. destruct (f a) eqn:Ha.
    - intros [= <-] j Hj. lia.
    - intros Hf j Hj. destruct (decide (j = a)) as [->|]; [done|].
      apply (IH (S a) Hf). lia. }
  intros Hf j Hj. apply (H n 0 Hf). lia.
Qed.

Lemma sds_find_loop_first raw s i :
  sds_find_loop raw s = Some i →
  first_succ raw s (λ u, has_self_loop u raw = true) (next_of raw s i).
Proof.
  intros Hf. destruct (sds_find_loop_Some _ _ _ Hf) as (Hi & Htop & Hdead & Hself).
  exists i. split_and!; try done.
  intros j Hj Hjtop Hjdead Hjself.
  pose proof (find_Some_seq_first _ _ _ Hf j Hj) as Hp. cbv beta in Hp.
  apply Nat.eqb_neq in Hjtop, Hjdead. by rewrite Hjtop, Hjdead, Hjself in Hp.
Qed.

Lemma sds_find_loop_none raw s :
  sds_find_loop raw s = None →
  no_succ raw s (λ u, has_self_loop u raw = true).
Proof.
  intros Hf j Hj Hjtop Hjdead Hjself.
  pose proof (find_None_seq _ _ j Hf Hj) as Hp. cbv beta in Hp.
  apply Nat.eqb_neq in Hjtop, Hjdead. by rewrite Hjtop, Hjdead, Hjself in Hp.
Qed.

Lemma sds_find_basis_first raw s seen i :
  sds_find_basis raw s seen = Some i →
  first_succ raw s (λ u, u ∉ seen) (next_of raw s i).
Proof.
  intros Hf. destruct (sds_find_basis_Some _ _ _ _ Hf) as (Hi & Htop & Hdead & Hnew).
  exists i. split_and!; try done.
  intros j Hj Hjtop Hjdead Hjnew.
  pose proof (find_Some_seq_first _ _ _ Hf j Hj) as Hp. cbv beta in Hp.
  apply Nat.eqb_neq in Hjtop, Hjdead.
  by rewrite Hjtop, Hjdead, (bool_decide_eq_false_2 _ Hjnew) in Hp.
Qed.

Lemma sds_find_basis_none raw s seen :
  sds_find_basis raw s seen = None →
  no_succ raw s (λ u, u ∉ seen).
Proof.
  intros Hf j Hj Hjtop Hjdead Hjnew.
  pose proof (find_None_seq _ _ j Hf Hj) as Hp. cbv beta in Hp.
  apply Nat.eqb_neq in Hjtop, Hjdead.
  by rewrite Hjtop, Hjdead, (bool_decide_eq_false_2 _ Hjnew) in Hp.
Qed.

(** The loop follows the path: the seen set of the code holds the states
    visited before the current one, and possibly the current one. *)
Lemma sds_walk_path raw :
  ∀ fuel s seen visited r,
    {[s]} ∪ seen = {[s]} ∪ visited →
    sds_walk fuel raw s seen = Some r →
    sds_path raw visited s r.
Proof.
  induction fuel as [|fuel IH]; intros s seen visited r Hseen; [done|].
  rewrite sds_walk_unfold.
  destruct (sds_find_loop raw s) as [i|] eqn:Hloop.
  { intros [= <-]. by apply sds_path_found, sds_find_loop_first. }
  apply sds_find_loop_none in Hloop.
  destruct (sds_find_basis raw s ({[s]} ∪ seen)) as [i|] eqn:Hbasis.
  2:{ intros [= <-]. apply sds_path_stuck; [done|].
      rewrite <-Hseen. by apply sds_find_basis_none. }
  intros Hwalk. apply sds_path_move with (next_of raw s i); [done|..].
  - rewrite <-Hseen. by apply sds_find_basis_first.
  - refine (IH _ _ _ _ _ Hwalk). rewrite Hseen. set_solver.
Qed.

Lemma first_succ_unique raw s P t t' :
  first_succ raw s P t → first_succ raw s P t' → t = t'.
Proof.
  intros (i & Hi & Htop & Hdead & HP & -> & Hmin)
         (i' & Hi' & Htop' & Hdead' & HP' & -> & Hmin').
  destruct (Nat.lt_trichotomy i i') as [Hlt|[->|Hlt]]; [|done|].
  - by destruct (Hmin' i Hlt Htop Hdead).
  - by destruct (Hmin i' Hlt Htop' Hdead').
Qed.

Lemma first_succ_no_succ raw s P t :
  first_succ raw s P t → no_succ raw s P → False.
Proof.
  intros (i & Hi & Htop & Hdead & HP & _) Hno. by apply (Hno i).
Qed.

(** The path is determined by the DFA: it has one result. *)
Lemma sds_path_functional raw visited s r r' :
  sds_path raw visited s r → sds_path raw visited s r' → r = r'.
Proof.
  intros H. revert r'.
  induction H as [visited s t Hf|visited s Hn Hn'|visited s t r Hn Hf Hp IH];
    intros r' H'; inversion H' as [? ? ? Hf'|? ? Hm Hm'|? ? t' ? Hm Hf' Hp'];
    subst; try done;
    try (by eapply first_succ_unique);
    try match goal with
        | Hf1 : first_succ _ ?s ?P _, Hn1 : no_succ _ ?s ?P |- _ =>
          by destruct (first_succ_no_succ _ _ _ _ Hf1 Hn1)
        end.
  apply IH. by rewrite (first_succ_unique _ _ _ _ _ Hf Hf').
Qed.

(** C6, as the code has it.  A live floating start is the proxy.
    Otherwise an anchored start with a self loop is the proxy.  Otherwise
    the walk follows one path from the anchored start and never
    backtracks: at the current state it returns the successor on the
    first symbol other than [TOP] that leads to a live state with a self
    loop; without one it moves on to the successor on the first such
    symbol that leads to a live state not visited yet; without one it
    returns the dead state.  On a well-formed DFA the result is exactly
    the one this path ends with.  So the result is either the dead state
    or a self-looping state that is reachable from the anchored start
    through non-TOP transitions between live states; it is the dead state
    when no such state is reachable, but it may also be the dead state
    when the path ends before one is met. *)
Theorem get_sds_or_proxy_selection raw :
  (start_floating raw ≠ DEAD_STATE →
     get_sds_or_proxy raw = start_floating raw)
  ∧ (start_floating raw = DEAD_STATE →
     (has_self_loop (start_anchored raw) raw = true →
        get_sds_or_proxy raw = start_anchored raw)
     ∧ (has_self_loop (start_anchored raw) raw = false → wf_raw raw →
        ∀ r, sds_path raw ∅ (start_anchored raw) r ↔ r = get_sds_or_proxy raw)
     ∧ (get_sds_or_proxy raw = DEAD_STATE
        ∨ (has_self_loop (get_sds_or_proxy raw) raw = true
           ∧ sds_reach raw (start_anchored raw) (get_sds_or_proxy raw)))
     ∧ ((¬ ∃ t, sds_reach raw (start_anchored raw) t
                ∧ has_self_loop t raw = true) →
        get_sds_or_proxy raw = DEAD_STATE)).
Proof.
  assert (Hsound : start_floating raw = DEAD_STATE →
            get_sds_or_proxy raw = DEAD_STATE
            ∨ (has_self_loop (get_sds_or_proxy raw) raw = true
               ∧ sds_reach raw (start_anchored raw) (get_sds_or_proxy raw))).
  { intros Hsf. unfold get_sds_or_proxy, get_sds_or_proxy_fuel.
    rewrite Hsf. cbn [Nat.eqb DEAD_STATE negb].
    destruct (has_self_loop (start_anchored raw) raw) eqn:Hself.
    - right. split; [done|]. apply sds_reach_refl.
    - destruct (sds_walk _ _ _ _) as [r|] eqn:Hwalk; [|by left].
      apply (sds_walk_sound raw (start_anchored raw)) in Hwalk;
        [done|apply sds_reach_refl]. }
  split.
  - intros Hsf. unfold get_sds_or_proxy, get_sds_or_proxy_fuel.
    apply Nat.eqb_neq in Hsf. by rewrite Hsf.
  - intros Hsf. split_and!; [| |by apply Hsound|].
    + intros Hself. unfold get_sds_or_proxy, get_sds_or_proxy_fuel.
      rewrite Hsf, Hself. done.
    + intros Hself Hwf.
      assert (Hpath : sds_path raw ∅ (start_anchored raw)
                               (get_sds_or_proxy raw)).
      { unfold get_sds_or_proxy, get_sds_or_proxy_fuel.
        rewrite Hsf, Hself. cbn [Nat.eqb DEAD_STATE negb].
        destruct (sds_walk_terminates raw Hwf (length (states raw))
                    (start_anchored raw) ∅) as [r Hr].
        { apply Hwf. }
        { apply empty_subseteq. }
        { rewrite union_empty_r_L, size_singleton. lia. }
        rewrite (Hr _ (Nat.le_refl _)). cbn [default].
        apply (sds_walk_path raw (length (states raw)) _ ∅ ∅ r eq_refl).
        by apply Hr. }
      intros r. split; [|by intros ->].
      intros Hr. by apply (sds_path_functional _ _ _ _ _ Hr Hpath).
    + intros Hnone. destruct (Hsound Hsf) as [?|[Hself Hreach]]; [done|].
      exfalso. apply Hnone. eauto.
Qed.

Lemma wf_sds_chain_dfa : wf_raw sds_chain_dfa.
Proof. apply (bool_decide_unpack _). vm_compute. exact I. Qed.

Lemma get_sds_or_proxy_selection_witness :
  start_floating sds_chain_dfa = DEAD_STATE
  ∧ has_self_loop (start_anchored sds_chain_dfa) sds_chain_dfa = false
  ∧ wf_raw sds_chain_dfa
  ∧ get_sds_or_proxy sds_chain_dfa = 4
  ∧ ∀ r, sds_path sds_chain_dfa ∅ (start_anchored sds_chain_dfa) r
         ↔ r = get_sds_or_proxy sds_chain_dfa.
Proof.
  split; [reflexivity|]. split; [reflexivity|].
  split; [exact wf_sds_chain_dfa|]. split; [reflexivity|].
  destruct (get_sds_or_proxy_selection sds_chain_dfa) as [_ H].
  destruct (H eq_refl) as (_ & Hpath & _).
  exact (Hpath eq_refl wf_sds_chain_dfa).
Defined.

(** C6, counterexample.  On [sds_dead_end_dfa] there is no floating
    start, the self-looping state 4 is reachable from the anchored start
    (1 -> 3 -> 4), and the walk returns the dead state: it moved from 1 to
    its first live successor 2, which has no live successor. *)
Lemma get_sds_or_proxy_misses_self_loop :
  wf_raw sds_dead_end_dfa
  ∧ start_floating sds_dead_end_dfa = DEAD_STATE
  ∧ sds_reach sds_dead_end_dfa (start_anchored sds_dead_end_dfa) 4
  ∧ has_self_loop 4 sds_dead_end_dfa = true
  ∧ get_sds_or_proxy sds_dead_end_dfa = DEAD_STATE
  ∧ ¬ sds_selection_as_specified sds_dead_end_dfa.
Proof.
  assert (Hreach : sds_reach sds_dead_end_dfa (start_anchored sds_dead_end_dfa) 4).
  { change 4 with (next_of sds_dead_end_dfa 3 0).
    apply sds_reach_step; [|cbn; lia|vm_compute; lia|vm_compute; lia].
    change 3 with (next_of sds_dead_end_dfa 1 1) at 1.
    apply sds_reach_step; [|cbn; lia|vm_compute; lia|vm_compute; lia].
    apply sds_reach_refl. }
  assert (Hself : has_self_loop 4 sds_dead_end_dfa = true) by (by vm_compute).
  assert (Hres : get_sds_or_proxy sds_dead_end_dfa = DEAD_STATE) by (by vm_compute).
  split_and!; try done.
  - apply wf_sds_dead_end_dfa.
  - intros [_ Hspec]. destruct Hspec as [_ Hdead]; [done|].
    apply (Hdead Hres). eauto.
Qed.

(** ** Report gathering *)

Lemma index_ok_app rl ext rs idx :
  index_ok rl rs idx → index_ok (rl ++ ext) rs idx.
Proof.
  unfold index_ok. case_bool_decide; [done|].
  intros [? Hl]. split; [done|]. by apply lookup_app_l_Some.
Qed.

Lemma rev_ok_app rl ext rev : rev_ok rl rev → rev_ok (rl ++ ext) rev.
Proof.
  intros H k idx Hk. destruct (H k idx Hk) as [? Hl].
  split; [done|]. by apply lookup_app_l_Some.
Qed.

Lemma gather_fold rss :
  ∀ rl0 rev0 out0,
    rev_ok rl0 rev0 →
    (Z.of_nat (length rl0 + length rss) < MO_INVALID_IDX)%Z →
    ∃ ext rev outs,
      foldl gather_step (rl0, rev0, out0) rss = (rl0 ++ ext, rev, out0 ++ outs)
      ∧ rev_ok (rl0 ++ ext) rev
      ∧ length ext ≤ length rss
      ∧ Forall2 (index_ok (rl0 ++ ext)) rss outs.
Proof.
  induction rss as [|rs rss IH]; intros rl0 rev0 out0 Hrev Hlen.
  { exists [], rev0, []. rewrite !app_nil_r. split_and!; [done..|constructor]. }
  cbn [length] in Hlen. cbn [foldl gather_step].
  case_bool_decide as Hempty.
  - destruct (IH rl0 rev0 (out0 ++ [MO_INVALID_IDX]) Hrev)
      as (ext & rev & outs & Hfold & Hrev' & Hext & Hall); [lia|].
    exists ext, rev, (MO_INVALID_IDX :: outs).
    rewrite Hfold, <-app_assoc. split_and!; [done|done|cbn; lia|].
    constructor; [|done]. unfold index_ok. by rewrite bool_decide_eq_true_2.
  - destruct (rev0 !! rs) as [idx|] eqn:Hlook.
    + destruct (IH rl0 rev0 (out0 ++ [idx]) Hrev)
        as (ext & rev & outs & Hfold & Hrev' & Hext & Hall); [lia|].
      exists ext, rev, (idx :: outs).
      rewrite Hfold, <-app_assoc. split_and!; [done|done|cbn; lia|].
      constructor; [|done]. unfold index_ok.
      rewrite bool_decide_eq_false_2 by done.
      destruct (Hrev rs idx Hlook) as [? Hl].
      split; [done|]. by apply lookup_app_l_Some.
    + assert (Hsz : u32 (Z.of_nat (length rl0)) = Z.of_nat (length rl0)).
      { unfold u32, MO_INVALID_IDX in *. lia. }
      rewrite Hsz.
      destruct (IH (rl0 ++ [rs]) (<[rs := Z.of_nat (length rl0)]> rev0)
                   (out0 ++ [Z.of_nat (length rl0)]))
        as (ext & rev & outs & Hfold & Hrev' & Hext & Hall).
      * intros k idx. rewrite lookup_insert. case_decide as Hk.
        -- intros [= <-]. subst k. split; [unfold MO_INVALID_IDX in *; lia|].
           rewrite Nat2Z.id. apply list_lookup_middle. done.
        -- intros Hk'. by apply (rev_ok_app rl0 [rs] rev0 Hrev).
      * rewrite length_app. cbn [length]. lia.
      * exists ([rs] ++ ext), rev, (Z.of_nat (length rl0) :: outs).
        rewrite Hfold, <-!app_assoc. split_and!.
        -- done.
        -- by rewrite <-app_assoc in Hrev'.
        -- cbn [length app] in *. lia.
        -- rewrite <-app_assoc in Hall. constructor; [|done].
           unfold index_ok. rewrite bool_decide_eq_false_2 by done.
           split; [unfold MO_INVALID_IDX in *; lia|].
           rewrite Nat2Z.id. by apply list_lookup_middle.
Qed.

(** The loop of [gatherReports] that collects [reps]. *)
Lemma gather_reps_fold rl rss :
  ∀ outs (acc : gset Z),
    Forall2 (index_ok rl) rss outs →
    foldl (λ reps rl_index,
             if (rl_index =? MO_INVALID_IDX)%Z then reps
             else (rl !!! Z.to_nat rl_index) ∪ reps) acc outs
    = acc ∪ ⋃ rss.
Proof.
  induction rss as [|rs rss IH]; intros outs acc Hall.
  { apply Forall2_nil_inv_l in Hall as ->. cbn. by rewrite union_empty_r_L. }
  apply Forall2_cons_inv_l in Hall as (idx & outs' & Hidx & Hall & ->).
  cbn [foldl union_list]. unfold index_ok in Hidx.
  case_bool_decide as Hempty.
  - subst idx rs. rewrite Z.eqb_refl, (IH _ _ Hall). set_solver.
  - destruct Hidx as [Hne Hl]. apply Z.eqb_neq in Hne. rewrite Hne.
    rewrite (list_lookup_total_correct _ _ _ Hl), (IH _ _ Hall). set_solver.
Qed.

Lemma set_begin_singleton (x : Z) : set_begin {[x]} = x.
Proof. unfold set_begin. by rewrite elements_singleton. Qed.

(** C7. [gatherReports] sets [isSingleReport] to a non-zero value (to 1)
    exactly when the union over all states of the non-EOD report sets has
    one element, and then [arbReport] is that element. *)
Theorem gatherReports_single_report rdfa :
  (Z.of_nat (length (states rdfa)) < MO_INVALID_IDX)%Z →
  let g := gatherReports rdfa in
  let all_reports : gset Z := ⋃ (reports <$> states rdfa) in
  (g_isSingleReport g = 1%Z ↔ size all_reports = 1)
  ∧ (g_isSingleReport g ≠ 0%Z ↔ size all_reports = 1)
  ∧ (size all_reports = 1 → all_reports = {[g_arbReport g]}).
Proof.
  intros Hlen g all_reports. subst g all_reports. unfold gatherReports.
  destruct (gather_fold (reports <$> states rdfa) [] ∅ [])
    as (rl1 & rev1 & reps1 & Hfold1 & Hrev1 & Hext1 & Hall1).
  { intros k idx. by rewrite lookup_empty. }
  { rewrite length_fmap. cbn [length]. lia. }
  cbn [app] in Hfold1, Hrev1, Hall1. rewrite Hfold1.
  destruct (foldl gather_step (rl1, rev1, []) (reports_eod <$> states rdfa))
    as [[rl rev] reps_eod] eqn:Hfold2.
  assert (∃ ext, rl = rl1 ++ ext) as [ext ->].
  { clear -Hfold2. revert rl1 rev1 Hfold2. generalize (@nil Z).
    induction (reports_eod <$> states rdfa) as [|rs rss IH];
      intros out rl1 rev1.
    - intros [= <- _ _]. exists []. by rewrite app_nil_r.
    - cbn [foldl gather_step]. case_bool_decide; [apply IH|].
      destruct (rev1 !! rs); [apply IH|].
      intros (ext & ->)%IH. exists ([rs] ++ ext). by rewrite app_assoc. }
  rewrite (gather_reps_fold (rl1 ++ ext) (reports <$> states rdfa)).
  2:{ eapply Forall2_impl; [done|]. intros ??. apply index_ok_app. }
  rewrite union_empty_l_L.
  set (all_reports := ⋃ (reports <$> states rdfa)).
  destruct (size all_reports =? 1) eqn:Hsize.
  - apply Nat.eqb_eq in Hsize. cbn [g_isSingleReport g_arbReport].
    repeat split; try done.
    intros _. apply size_1_elem_of in Hsize as [x Hx].
    apply leibniz_equiv in Hx. rewrite Hx.
    by rewrite union_empty_l_L, set_begin_singleton.
  - apply Nat.eqb_neq in Hsize. cbn [g_isSingleReport g_arbReport].
    repeat split; done.
Qed.

Lemma gatherReports_single_report_witness :
  (Z.of_nat (length (states match_any_dfa)) < MO_INVALID_IDX)%Z
  ∧ let g := gatherReports match_any_dfa in
    let all_reports : gset Z := ⋃ (reports <$> states match_any_dfa) in
    (g_isSingleReport g = 1%Z ↔ size all_reports = 1)
    ∧ (g_isSingleReport g ≠ 0%Z ↔ size all_reports = 1)
    ∧ (size all_reports = 1 → all_reports = {[g_arbReport g]}).
Proof.
  split; [vm_compute; reflexivity|].
  apply (gatherReports_single_report match_any_dfa).
  vm_compute. reflexivity.
Defined.

(** ** The search for a daddy *)

Lemma u16n_small (n : nat) : (Z.of_nat n < 65536)%Z → u16n (Z.of_nat n) = n.
Proof. unfold u16n, u16. lia. Qed.

Lemma u16n_bound z : (Z.of_nat (u16n z) < 65536)%Z.
Proof. unfold u16n, u16. lia. Qed.

Lemma impl_alpha_size_bound info : (Z.of_nat (impl_alpha_size info) < 65536)%Z.
Proof. apply u16n_bound. Qed.

Lemma daddy_score_le info curr_id donor :
  daddy_score info curr_id donor ≤ impl_alpha_size info.
Proof.
  unfold daddy_score.
  etrans; [apply length_filter|]. by rewrite length_seq.
Qed.

Lemma daddy_score_u16 info curr_id donor :
  u16n (Z.of_nat (daddy_score info curr_id donor))
  = daddy_score info curr_id donor.
Proof.
  apply u16n_small.
  pose proof (daddy_score_le info curr_id donor).
  pose proof (impl_alpha_size_bound info). lia.
Qed.

(** The loop over the donors keeps the best score seen so far and the
    donor it belongs to: the result either is what the loop started with,
    or is one of the donors, not a Sherman state, with its score; and no
    donor that is not a Sherman state scores more. *)
Lemma daddy_search_spec info curr_id donors :
  ∀ bd bs,
    let r := daddy_search info curr_id donors bd bs in
    bs ≤ r.2
    ∧ (r = (bd, bs)
       ∨ (r.1 ∈ donors ∧ is_sherman info r.1 = false
          ∧ r.2 = daddy_score info curr_id r.1))
    ∧ (∀ donor, donor ∈ donors → is_sherman info donor = false →
                daddy_score info curr_id donor ≤ r.2).
Proof.
  induction donors as [|donor rest IH]; intros bd bs; cbn [daddy_search].
  { split_and!; [done|by left|]. intros ? []%elem_of_nil. }
  destruct (is_sherman info donor) eqn:Hsh.
  { destruct (IH bd bs) as (Hle & Hres & Hmax). split_and!; [done|..].
    - destruct Hres as [?|(? & ? & ?)]; [by left|right].
      split_and!; [by apply list_elem_of_further|done..].
    - intros d [->|Hd]%elem_of_cons ?; [congruence|by apply Hmax]. }
  rewrite daddy_score_u16.
  pose proof (daddy_score_le info curr_id donor) as Hscore.
  destruct (_ || _) eqn:Hbetter.
  - assert (bs ≤ daddy_score info curr_id donor) as Hbs.
    { apply orb_true_iff in Hbetter as [?%Nat.ltb_lt|[?%Nat.eqb_eq _]%andb_true_iff];
        lia. }
    destruct (daddy_score info curr_id donor =? impl_alpha_size info) eqn:Hfull.
    + apply Nat.eqb_eq in Hfull. cbn [fst snd]. split_and!; [done|..].
      * right. split_and!; [by apply list_elem_of_here|done..].
      * intros d _ _. rewrite Hfull. apply daddy_score_le.
    + destruct (IH donor (daddy_score info curr_id donor)) as (Hle & Hres & Hmax).
      split_and!; [lia|..].
      * right. destruct Hres as [->|(? & ? & ?)].
        -- cbn [fst snd]. split_and!; [by apply list_elem_of_here|done..].
        -- split_and!; [by apply list_elem_of_further|done..].
      * intros d [->|Hd]%elem_of_cons ?; [done|by apply Hmax].
  - assert (daddy_score info curr_id donor ≤ bs) as Hbs.
    { apply orb_false_iff in Hbetter as [?%Nat.ltb_ge _]. lia. }
    destruct (IH bd bs) as (Hle & Hres & Hmax). split_and!; [done|..].
    + destruct Hres as [?|(? & ? & ?)]; [by left|right].
      split_and!; [by apply list_elem_of_further|done..].
    + intros d [->|Hd]%elem_of_cons ?; [lia|by apply Hmax].
Qed.

Lemma addIfEarlier_elem dest candidate max x :
  x ∈ addIfEarlier dest candidate max ↔
  (x = candidate ∧ candidate < max) ∨ x ∈ dest.
Proof.
  unfold addIfEarlier. destruct (candidate <? max) eqn:Hlt.
  - apply Nat.ltb_lt in Hlt. set_solver.
  - apply Nat.ltb_ge in Hlt. split; [by right|]. intros [[_ ?]|?]; [lia|done].
Qed.

Lemma addSuccessors_earlier dest source alphasize curr_id :
  (∀ x, x ∈ dest → x < curr_id) →
  ∀ x, x ∈ addSuccessors dest source alphasize curr_id → x < curr_id.
Proof.
  unfold addSuccessors. revert dest.
  induction (seq 0 alphasize) as [|s l IH]; intros dest Hdest; [done|].
  cbn [foldl]. apply IH. intros x [[-> ?]|?]%addIfEarlier_elem; auto.
Qed.

(** Every hinted state is earlier than the current one (the [assert] at
    the head of the loop over the donors). *)
Lemma hinted_set_earlier info curr_id x :
  x ∈ hinted_set info curr_id → x < curr_id.
Proof.
  unfold hinted_set.
  assert (H2 : ∀ x, x ∈ addIfEarlier
                 (addIfEarlier (addIfEarlier ∅ 0 curr_id)
                    (start_anchored (raw info)) curr_id)
                 (start_floating (raw info)) curr_id → x < curr_id).
  { intros y Hy. repeat (apply addIfEarlier_elem in Hy as [[-> ?]|Hy]; [done|]).
    by apply elem_of_empty in Hy. }
  revert x. destruct (_ =? 0); [done|].
  assert (H4 : ∀ x, x ∈ addSuccessors
                 (addIfEarlier
                    (addIfEarlier
                       (addIfEarlier (addIfEarlier ∅ 0 curr_id)
                          (start_anchored (raw info)) curr_id)
                       (start_floating (raw info)) curr_id)
                    (daddy (states (raw info) !!! curr_id)) curr_id)
                 (states (raw info) !!! daddy (states (raw info) !!! curr_id))
                 (impl_alpha_size info) curr_id → x < curr_id).
  { apply addSuccessors_earlier.
    intros y [[-> ?]|Hy]%addIfEarlier_elem; auto. }
  destruct (_ =? 0); [done|].
  apply addSuccessors_earlier.
  intros y [[-> ?]|Hy]%addIfEarlier_elem; auto.
Qed.

Lemma elem_of_sorted_elements (X : gset nat) x :
  x ∈ merge_sort Nat.le (elements X) ↔ x ∈ X.
Proof. by rewrite merge_sort_Permutation, elem_of_elements. Qed.

(** What [best_daddy_of] returns: the best-scoring donor among the hinted
    states that are not Sherman states (or the dead state with score 0
    when no donor scores). *)
Lemma best_daddy_of_spec info curr_id :
  let r := best_daddy_of info curr_id in
  (r = (0, 0)
   ∨ (r.1 ∈ hinted_set info curr_id ∧ is_sherman info r.1 = false
      ∧ r.2 = daddy_score info curr_id r.1))
  ∧ (∀ donor, donor ∈ hinted_set info curr_id → is_sherman info donor = false →
              daddy_score info curr_id donor ≤ r.2).
Proof.
  unfold best_daddy_of.
  destruct (daddy_search_spec info curr_id
              (merge_sort Nat.le (elements (hinted_set info curr_id))) 0 0)
    as (_ & Hres & Hmax).
  split.
  - destruct Hres as [?|(Hin & ? & ?)]; [by left|right].
    by rewrite elem_of_sorted_elements in Hin.
  - intros donor Hin. apply Hmax. by rewrite elem_of_sorted_elements.
Qed.

Lemma alter_extra_lookup (f : dstate_extra → dstate_extra) ex (i j : nat) :
  alter f i ex !!! j = if decide (i = j ∧ i < length ex) then f (ex !!! i)
                       else ex !!! j.
Proof. apply list_lookup_total_alter. Qed.

(** C5, as the code has it.  With Sherman states enabled, a state that
    neither of the two near-start bans applies to gets the best-scoring
    hinted earlier donor that is not a Sherman state as its daddy and that
    donor's score as [daddytaken], whether or not it goes on to become a
    Sherman state; a banned state is left as it was, daddy and
    [daddytaken] included. *)
Theorem find_better_daddy_records_daddy info curr_id using8bit cyc g :
  allowShermanStates g = true →
  curr_id < info_size info →
  length (extra info) = info_size info →
  let info' := find_better_daddy info curr_id using8bit cyc g in
  let best := best_daddy_of info curr_id in
  (if banned_near_anchored info curr_id cyc || banned_near_floating info curr_id
   then info' = info
   else daddy_recorded info info' curr_id)
  ∧ (best = (0, 0)
     ∨ (best.1 ∈ hinted_set info curr_id ∧ best.1 < curr_id
        ∧ is_sherman info best.1 = false
        ∧ best.2 = daddy_score info curr_id best.1))
  ∧ (∀ donor, donor ∈ hinted_set info curr_id → is_sherman info donor = false →
              daddy_score info curr_id donor ≤ best.2).
Proof.
  intros Hallow Hcurr Hextra info' best.
  destruct (best_daddy_of_spec info curr_id) as [Hres Hmax].
  split_and!; [|by destruct Hres as [?|(Hin & ? & ?)];
                  [left|right; split_and!; try done;
                         by apply (hinted_set_earlier info)]|done].
  subst info'. unfold find_better_daddy. rewrite Hallow. cbn [negb].
  destruct (banned_near_anchored info curr_id cyc); [done|].
  destruct (banned_near_floating info curr_id); [done|].
  cbn [orb]. unfold daddy_recorded.
  destruct (best_daddy_of info curr_id) as [bd bs]. cbn [fst snd].
  unfold set_info_extra, record_daddy.
  repeat match goal with |- context [if ?c then _ else _] => destruct c end;
    cbn [raw extra states set_states];
    (split;
     [rewrite list_lookup_total_alter;
      by rewrite decide_True by (unfold info_size in Hcurr; lia)|]);
    rewrite ?alter_extra_lookup, ?length_alter;
    rewrite ?decide_True by (rewrite ?length_alter; lia);
    rewrite ?alter_extra_lookup, ?decide_True by lia; done.
Qed.

Lemma find_better_daddy_records_daddy_witness :
  let info := mk_dfa_info sherman_dfa in
  let info' := find_better_daddy info 2 false false grey_16bit in
  let best := best_daddy_of info 2 in
  (if banned_near_anchored info 2 false || banned_near_floating info 2
   then info' = info
   else daddy_recorded info info' 2)
  ∧ (best = (0, 0)
     ∨ (best.1 ∈ hinted_set info 2 ∧ best.1 < 2
        ∧ is_sherman info best.1 = false
        ∧ best.2 = daddy_score info 2 best.1))
  ∧ (∀ donor, donor ∈ hinted_set info 2 → is_sherman info donor = false →
              daddy_score info 2 donor ≤ best.2).
Proof.
  apply (find_better_daddy_records_daddy (mk_dfa_info sherman_dfa) 2
           false false grey_16bit).
  - reflexivity.
  - vm_compute. lia.
  - reflexivity.
Defined.

(** C5, counterexample.  In [floating_dfa] state 2 lies in the window
    after the live floating start, so [find_better_daddy] returns before
    it looks for a daddy: [daddytaken] stays 0 although the dead state is
    an earlier donor, not a Sherman state, that agrees with state 2 on two
    symbols. *)
Lemma find_better_daddy_banned_records_nothing :
  let info := mk_dfa_info floating_dfa in
  let info' := find_better_daddy info 2 false false grey_16bit in
  allowShermanStates grey_16bit = true
  ∧ banned_near_floating info 2 = true
  ∧ best_daddy_of info 2 = (0, 2)
  ∧ daddy_score info 2 0 = 2
  ∧ daddytaken (extra info' !!! 2) = 0
  ∧ ¬ daddy_recorded info info' 2.
Proof.
  cbv zeta. split_and!; try (vm_compute; reflexivity).
  intros [_ Htaken]. vm_compute in Htaken. discriminate.
Qed.

(** ** The Sherman gate *)

(** [max_list_len] is the spec's formula, with the division of C (towards
    zero), for every alphabet the compiler admits. *)
Lemma max_list_len_formula using8bit (a : nat) :
  1 ≤ a ≤ 256 →
  Z.of_nat (max_list_len using8bit a)
  = Z.min 8 (Z.quot (sherman_width using8bit * Z.of_nat a - 2)
                    (sherman_width using8bit + 1)).
Proof.
  intros Ha. unfold max_list_len, u16n, u16, MIN, MAX_SHERMAN_LIST_LEN.
  destruct using8bit; cbn [sherman_width];
    destruct (_ <? _)%Z eqn:Hlt;
    [apply Z.ltb_lt in Hlt|apply Z.ltb_ge in Hlt
    |apply Z.ltb_lt in Hlt|apply Z.ltb_ge in Hlt]; lia.
Qed.

Lemma max_list_len_le using8bit (a : nat) :
  1 ≤ a → (Z.of_nat a < 65536)%Z → max_list_len using8bit a ≤ 8.
Proof.
  intros Ha Hb. unfold max_list_len, u16n, u16, MIN, MAX_SHERMAN_LIST_LEN.
  destruct using8bit; cbn [sherman_width];
    destruct (_ <? _)%Z eqn:Hlt;
    [apply Z.ltb_lt in Hlt|apply Z.ltb_ge in Hlt
    |apply Z.ltb_lt in Hlt|apply Z.ltb_ge in Hlt]; lia.
Qed.

(** The three ways [find_better_daddy] ends: before the search, after
    recording the daddy, or with the state marked. *)
Lemma find_better_daddy_cases info curr_id using8bit cyc g :
  curr_id < info_size info →
  let best := best_daddy_of info curr_id in
  let info1 := record_daddy info curr_id best.1 best.2 in
  let info' := find_better_daddy info curr_id using8bit cyc g in
  info' = info
  ∨ info' = info1
  ∨ (info' = set_info_extra info1 (alter with_sherman curr_id (extra info1))
     ∧ impl_alpha_size info
       ≤ best.2 + max_list_len using8bit (impl_alpha_size info)
     ∧ is_sherman info1 best.1 = false
     ∧ self_loop_width info1 curr_id ≤ MAX_SHERMAN_SELF_LOOP).
Proof.
  intros Hcurr best info1 info'. subst info' info1 best.
  unfold find_better_daddy.
  destruct (negb _); [by left|].
  destruct (banned_near_anchored _ _ _); [by left|].
  destruct (banned_near_floating _ _); [by left|].
  destruct (best_daddy_of info curr_id) as [bd bs]. cbn [fst snd].
  destruct (_ <? _) eqn:Hgate; [by right; left|].
  apply Nat.ltb_ge in Hgate.
  assert (Hd : daddy (states (raw (record_daddy info curr_id bd bs)) !!! curr_id)
               = bd).
  { unfold record_daddy. cbn [raw states set_states].
    rewrite list_lookup_total_alter.
    by rewrite decide_True by (unfold info_size in Hcurr; lia). }
  rewrite Hd.
  destruct (is_sherman _ bd) eqn:Hsh; [by right; left|].
  destruct (_ <? _) eqn:Hloop; [by right; left|].
  apply Nat.ltb_ge in Hloop. right; right. done.
Qed.

Lemma is_sherman_record_daddy info curr_id bd bs j :
  is_sherman (record_daddy info curr_id bd bs) j = is_sherman info j.
Proof.
  unfold is_sherman, record_daddy. cbn [extra].
  rewrite list_lookup_total_alter.
  case_decide as H; [destruct H as [-> _]|]; done.
Qed.

(** C4, as the code has it.  [max_list_len] is
    [min(8, (width * impl_alpha_size - 2) / (width + 1))]; a state whose
    distance [impl_alpha_size - best_score] from its best daddy exceeds
    [max_list_len] is left as it is, and a state that gets marked as a
    Sherman state has a distance of at most [max_list_len]: a distance
    equal to [max_list_len] passes the gate. *)
Theorem sherman_gate info curr_id using8bit cyc g :
  curr_id < info_size info →
  1 ≤ impl_alpha_size info ≤ 256 →
  let a := impl_alpha_size info in
  let best_score := (best_daddy_of info curr_id).2 in
  let info' := find_better_daddy info curr_id using8bit cyc g in
  Z.of_nat (max_list_len using8bit a)
  = Z.min 8 (Z.quot (sherman_width using8bit * Z.of_nat a - 2)
                    (sherman_width using8bit + 1))
  ∧ (max_list_len using8bit a < a - best_score →
     is_sherman info' curr_id = is_sherman info curr_id)
  ∧ (is_sherman info curr_id = false → is_sherman info' curr_id = true →
     a - best_score ≤ max_list_len using8bit a).
Proof.
  intros Hcurr Ha a best_score info'.
  split; [by apply max_list_len_formula|].
  destruct (find_better_daddy_cases info curr_id using8bit cyc g Hcurr)
    as [Heq|[Heq|(Heq & Hgate & _)]];
    fold info' in Heq; rewrite Heq; clear Heq;
    rewrite ?is_sherman_record_daddy.
  - split; [done|congruence].
  - split; [done|congruence].
  - fold a best_score in Hgate. split; [lia|]. intros _ _. lia.
Qed.

Lemma sherman_gate_witness :
  let info := mk_dfa_info sherman_dfa in
  let a := impl_alpha_size info in
  let best_score := (best_daddy_of info 2).2 in
  let info' := find_better_daddy info 2 false false grey_16bit in
  Z.of_nat (max_list_len false a)
  = Z.min 8 (Z.quot (sherman_width false * Z.of_nat a - 2)
                    (sherman_width false + 1))
  ∧ (max_list_len false a < a - best_score →
     is_sherman info' 2 = is_sherman info 2)
  ∧ (is_sherman info 2 = false → is_sherman info' 2 = true →
     a - best_score ≤ max_list_len false a).
Proof.
  apply (sherman_gate (mk_dfa_info sherman_dfa) 2 false false grey_16bit).
  - vm_compute. lia.
  - vm_compute. lia.
Defined.

(** C4, counterexample.  In the 16-bit build of [sherman_dfa] the
    alphabet has four symbols, so [max_list_len] is 2; state 2 agrees with
    its best daddy on two symbols, a distance of exactly 2, and is marked
    as a Sherman state. *)
Lemma sherman_gate_admits_max_list_len :
  let info := mk_dfa_info sherman_dfa in
  max_list_len false (impl_alpha_size info) = 2
  ∧ impl_alpha_size info - (best_daddy_of info 2).2 = 2
  ∧ is_sherman info 2 = false
  ∧ is_sherman (find_better_daddy info 2 false false grey_16bit) 2 = true
  ∧ ¬ sherman_gate_as_specified info 2 false false grey_16bit.
Proof.
  cbv zeta. split_and!; try (vm_compute; reflexivity).
  unfold sherman_gate_as_specified. intros Hspec.
  assert (Hpre : max_list_len false (impl_alpha_size (mk_dfa_info sherman_dfa))
                 ≤ impl_alpha_size (mk_dfa_info sherman_dfa)
                   - (best_daddy_of (mk_dfa_info sherman_dfa) 2).2)
    by (vm_compute; lia).
  specialize (Hspec Hpre). vm_compute in Hspec. discriminate.
Qed.

(** ** What the passes leave alone *)

Lemma length_states_record_daddy info curr_id bd bs :
  info_size (record_daddy info curr_id bd bs) = info_size info.
Proof. unfold info_size, record_daddy. cbn. apply length_alter. Qed.

Lemma find_better_daddy_size info curr_id using8bit cyc g :
  info_size (find_better_daddy info curr_id using8bit cyc g) = info_size info.
Proof.
  unfold find_better_daddy.
  repeat match goal with
         | |- context [if ?c then _ else _] => destruct c
         | |- context [let '(_, _) := ?p in _] => destruct p
         end; try done;
    unfold set_info_extra, info_size; cbn [raw];
    apply length_states_record_daddy.
Qed.

Lemma find_all_daddies_size info using8bit cyc g :
  info_size (find_all_daddies info using8bit cyc g) = info_size info.
Proof.
  unfold find_all_daddies. generalize (seq 0 (info_size info)).
  intros l. revert info. induction l as [|i l IH]; intros info; [done|].
  cbn [foldl]. by rewrite IH, find_better_daddy_size.
Qed.

(** ** State numbering *)

Lemma assign_ids_counter ids :
  ∀ sts c, (0 ≤ c < 65536)%Z →
    (assign_ids sts ids c).2 = u16 (c + Z.of_nat (length ids)).
Proof.
  unfold assign_ids.
  induction ids as [|s ids IH]; intros sts c Hc; cbn [foldl length snd].
  { unfold u16. lia. }
  rewrite IH by (unfold u16; lia). unfold u16. cbn [snd].
  rewrite Zplus_mod_idemp_l. f_equal. lia.
Qed.

Lemma length_filter_split {A} (P : A → Prop) `{!∀ x, Decision (P x)}
    (Q : A → Prop) `{!∀ x, Decision (Q x)} (l : list A) :
  (∀ x, P x ↔ ¬ Q x) →
  length (filter P l) + length (filter Q l) = length l.
Proof.
  intros HPQ. induction l as [|x l IH]; [done|].
  rewrite !filter_cons. specialize (HPQ x).
  destruct (decide (P x)), (decide (Q x)); cbn [length]; try lia; tauto.
Qed.

(** [allocateFSN16] reports an error exactly when there are more than
    [STATE_MASK + 1] states. *)
Lemma allocateFSN16_error info :
  0 < info_size info →
  (allocateFSN16 info).2 = bool_decide (16384 < Z.of_nat (info_size info))%Z.
Proof.
  intros Hpos. unfold allocateFSN16.
  destruct (65536 <? _)%Z eqn:Hbig.
  { apply Z.ltb_lt in Hbig. cbn [snd]. symmetry. apply bool_decide_eq_true. lia. }
  apply Z.ltb_ge in Hbig.
  set (ids := seq 1 (info_size info - 1)).
  set (norm := filter (λ i, is_sherman info i = false) ids).
  set (sherm := filter (λ i, is_sherman info i = true) ids).
  assert (Hcount : length sherm + length norm = info_size info - 1).
  { subst sherm norm. rewrite length_filter_split.
    - subst ids. apply length_seq.
    - intros x. destruct (is_sherman info x); naive_solver. }
  pose proof (assign_ids_counter norm
                (alter (with_impl_id 0) 0 (states (raw info))) 1) as Hn.
  destruct (assign_ids _ norm 1) as [sts1 next_norm]. cbn [snd] in Hn.
  pose proof (assign_ids_counter sherm sts1 next_norm) as Hs.
  destruct (assign_ids sts1 sherm next_norm) as [sts2 next_sherman].
  cbn [snd] in Hs |- *.
  rewrite Hn in Hs by lia. rewrite Hs by (unfold u16; lia).
  change STATE_MASK with (Z.ones 14). rewrite Z.land_ones by lia.
  unfold u16. change (2 ^ 14)%Z with 16384%Z.
  destruct (decide (16384 < Z.of_nat (info_size info))%Z) as [Hlt|Hge].
  - rewrite (bool_decide_eq_true_2 _ Hlt). apply negb_true_iff, Z.eqb_neq. lia.
  - rewrite (bool_decide_eq_false_2 _ Hge). apply negb_false_iff, Z.eqb_eq. lia.
Qed.

Section with_layout.
Context (L : layout).

Lemma mcclellanCompile16_overflow info cc :
  (16384 < Z.of_nat (info_size info))%Z →
  (mcclellanCompile16 L info cc).2 = None.
Proof.
  intros Hbig. unfold mcclellanCompile16.
  pose proof (allocateFSN16_error info) as Herr.
  destruct (allocateFSN16 info) as [[info1 base] err]. cbn [snd] in Herr.
  rewrite Herr by lia. by rewrite bool_decide_eq_true_2.
Qed.

(** What [mcclellanCompile_i] comes to when the state numbering
    overflows: the null handle is returned only if no state is left with
    reports at end of data; otherwise [nfa->flags] is written through the
    null [nfa]. *)
Lemma mcclellanCompile_i_overflow raw0 cc acc :
  (16384 < Z.of_nat (length (states raw0)))%Z →
  res_nfa (mcclellanCompile_i L raw0 cc acc)
  = if hasEodReports (if negb (streaming cc) then stripExtraEodReports raw0
                      else raw0)
    then NullDereference else NullHandle.
Proof.
  intros Hbig. unfold mcclellanCompile_i.
  assert (H8 : allowMcClellan8 (grey cc) && (length (states raw0) <=? 256)
               = false).
  { apply andb_false_iff. right. apply Nat.leb_gt. lia. }
  rewrite H8. cbn [negb].
  set (raw1 := if negb (streaming cc) then stripExtraEodReports raw0 else raw0).
  set (info1 := find_all_daddies _ _ _ _).
  pose proof (mcclellanCompile16_overflow info1 cc) as Hnull.
  destruct (mcclellanCompile16 L info1 cc) as [info2 nfa]. cbn [snd] in Hnull.
  rewrite Hnull.
  - by destruct (hasEodReports raw1).
  - subst info1. rewrite find_all_daddies_size. unfold info_size. cbn [raw].
    subst raw1. destruct (negb _); [|done].
    unfold stripExtraEodReports. cbn [states set_states].
    by rewrite length_fmap.
Qed.

(** C3, at the failing input.  For the 70,000-state DFA [overflow_dfa],
    one state of which has a report at end of data, the compile does not
    return the null handle: the numbering fails, [mcclellanCompile16]
    returns null, and [mcclellanCompile_i] then dereferences it. *)
Theorem compile_overflow_dereferences_null :
  length (states overflow_dfa) = Z.to_nat 70000
  ∧ hasEodReports (stripExtraEodReports overflow_dfa) = true
  ∧ res_nfa (mcclellanCompile_i L overflow_dfa cc_default None)
    = NullDereference.
Proof.
  assert (Heod : hasEodReports (stripExtraEodReports overflow_dfa) = true).
  { unfold hasEodReports. apply existsb_exists. eexists. split.
    - unfold stripExtraEodReports. cbn [states set_states].
      apply list_elem_of_In, list_elem_of_fmap_2.
      apply list_elem_of_further, list_elem_of_here.
    - vm_compute. reflexivity. }
  assert (Hlen : length (states overflow_dfa) = Z.to_nat 70000).
  { unfold overflow_dfa. cbn [states length].
    rewrite length_replicate. lia. }
  split_and!; [done..|].
  rewrite mcclellanCompile_i_overflow by (rewrite Hlen; lia).
  cbn [cc_default streaming negb]. by rewrite Heod.
Qed.

(** C10. Whenever the 8-bit path is taken ([allowMcClellan8] enabled and
    at most 256 states), the compile returns an image, of the 8-bit
    kind. *)
Theorem compile_8bit_never_null raw0 cc acc :
  allowMcClellan8 (grey cc) = true →
  length (states raw0) ≤ 256 →
  ∃ n, res_nfa (mcclellanCompile_i L raw0 cc acc) = Compiled n
       ∧ nfa_type_of n = MCCLELLAN_NFA_8.
Proof.
  intros Hallow Hsize. unfold mcclellanCompile_i.
  rewrite Hallow. apply Nat.leb_le in Hsize. rewrite Hsize. cbn [andb negb].
  set (info1 := find_all_daddies _ _ _ _).
  assert (Htype : nfa_type_of (mcclellanCompile8 L info1 cc).2 = MCCLELLAN_NFA_8).
  { unfold mcclellanCompile8.
    destruct (populateAccelerationInfo info1 (grey cc)) as [info2 ac].
    destruct (allocateFSN8 info2) as [[info3 l1] l2]. done. }
  destruct (mcclellanCompile8 L info1 cc) as [info2 n]. cbn [snd] in Htype.
  destruct (hasEodReports _); eauto.
Qed.

End with_layout.

Lemma compile_8bit_never_null_witness :
  allowMcClellan8 (grey cc_default) = true
  ∧ length (states match_any_dfa) ≤ 256
  ∧ ∃ n, res_nfa (mcclellanCompile_i example_layout match_any_dfa cc_default None)
         = Compiled n
         ∧ nfa_type_of n = MCCLELLAN_NFA_8.
Proof.
  split; [reflexivity|]. split; [vm_compute; lia|].
  apply (compile_8bit_never_null example_layout match_any_dfa cc_default None).
  - reflexivity.
  - vm_compute. lia.
Defined.

(** ** Arrays written in loops *)

Section array_loops.
Context {B : Type} `{!Inhabited B}.

(** A row of consecutive stores, as in the loops over the symbols. *)
Lemma foldl_insert_row_length (base : nat) (val : nat → B) (l : list nat) (t : list B) :
  length (foldl (λ t j, <[base + j := val j]> t) t l) = length t.
Proof.
  revert t. induction l as [|j l IH]; intros t; [done|].
  cbn [foldl]. by rewrite IH, length_insert.
Qed.

Lemma foldl_insert_row_other (base : nat) (val : nat → B) (l : list nat) (t : list B) c :
  (∀ j, j ∈ l → base + j ≠ c) →
  foldl (λ t j, <[base + j := val j]> t) t l !!! c = t !!! c.
Proof.
  revert t. induction l as [|j l IH]; intros t Hc; [done|].
  cbn [foldl]. rewrite IH.
  - apply list_lookup_total_insert_ne, Hc, list_elem_of_here.
  - intros j' Hj'. by apply Hc, list_elem_of_further.
Qed.

Lemma foldl_insert_row_lookup (base : nat) (val : nat → B) (l : list nat) (t : list B) j :
  NoDup l → j ∈ l → base + j < length t →
  foldl (λ t j, <[base + j := val j]> t) t l !!! (base + j) = val j.
Proof.
  revert t. induction l as [|j' l IH]; intros t Hnd Hj Hlen.
  { by apply elem_of_nil in Hj. }
  apply NoDup_cons in Hnd as [Hnotin Hnd]. cbn [foldl].
  apply elem_of_cons in Hj as [->|Hj].
  - rewrite foldl_insert_row_other.
    + by apply list_lookup_total_insert_eq.
    + intros j Hj ?. assert (j = j') as -> by lia. done.
  - apply IH; [done..|]. by rewrite length_insert.
Qed.

(** A row updated in place, as in [markEdges]. *)
Lemma foldl_update_row_length (base : nat) (f : B → B) (l : list nat) (t : list B) :
  length (foldl (λ t j, <[base + j := f (t !!! (base + j))]> t) t l) = length t.
Proof.
  revert t. induction l as [|j l IH]; intros t; [done|].
  cbn [foldl]. by rewrite IH, length_insert.
Qed.

Lemma foldl_update_row_other (base : nat) (f : B → B) (l : list nat) (t : list B) c :
  (∀ j, j ∈ l → base + j ≠ c) →
  foldl (λ t j, <[base + j := f (t !!! (base + j))]> t) t l !!! c = t !!! c.
Proof.
  revert t. induction l as [|j l IH]; intros t Hc; [done|].
  cbn [foldl]. rewrite IH.
  - apply list_lookup_total_insert_ne, Hc, list_elem_of_here.
  - intros j' Hj'. by apply Hc, list_elem_of_further.
Qed.

Lemma foldl_update_row_lookup (base : nat) (f : B → B) (l : list nat) (t : list B) j :
  NoDup l → j ∈ l → base + j < length t →
  foldl (λ t j, <[base + j := f (t !!! (base + j))]> t) t l !!! (base + j)
  = f (t !!! (base + j)).
Proof.
  revert t. induction l as [|j' l IH]; intros t Hnd Hj Hlen.
  { by apply elem_of_nil in Hj. }
  apply NoDup_cons in Hnd as [Hnotin Hnd]. cbn [foldl].
  apply elem_of_cons in Hj as [->|Hj].
  - rewrite foldl_update_row_other.
    + by apply list_lookup_total_insert_eq.
    + intros j Hj ?. assert (j = j') as -> by lia. done.
  - rewrite IH; [|done..|by rewrite length_insert].
    f_equal. apply list_lookup_total_insert_ne.
    intros ?. assert (j = j') as -> by lia. done.
Qed.

End array_loops.

(** A loop over the first [n] indices, one more index at a time. *)
Lemma foldl_seq_S {A} (f : A → nat → A) (a : A) (n : nat) :
  foldl f a (seq 0 (S n)) = f (foldl f a (seq 0 n)) n.
Proof. by rewrite seq_S, foldl_app. Qed.

(** Rows of a packed table do not overlap. *)
Lemma shiftl_row (fs shift : nat) : Nat.shiftl fs shift = fs * 2 ^ shift.
Proof. apply Nat.shiftl_mul_pow2. Qed.

Lemma row_index_inj (w i j i' j' : nat) :
  j < w → j' < w → i * w + j = i' * w + j' → i = i' ∧ j = j'.
Proof.
  intros Hj Hj' Heq. destruct (decide (i = i')) as [->|Hne]; [lia|].
  exfalso. destruct (decide (i < i')).
  - assert ((i + 1) * w ≤ i' * w) by (apply Nat.mul_le_mono_r; lia). lia.
  - assert ((i' + 1) * w ≤ i * w) by (apply Nat.mul_le_mono_r; lia). lia.
Qed.

Lemma row_index_lt (w n i j : nat) : i < n → j < w → i * w + j < w * n.
Proof.
  intros Hi Hj.
  assert ((i + 1) * w ≤ n * w) by (apply Nat.mul_le_mono_r; lia). lia.
Qed.

(** ** The stages of a compile agree on the rows *)

Lemma same_row_refl s : same_row s s.
Proof. done. Qed.

Lemma same_row_trans s1 s2 s3 : same_row s1 s2 → same_row s2 s3 → same_row s1 s3.
Proof. unfold same_row. naive_solver congruence. Qed.

Lemma rows_agree_refl r : rows_agree r r.
Proof. by repeat split. Qed.

Lemma rows_agree_trans r1 r2 r3 :
  rows_agree r1 r2 → rows_agree r2 r3 → rows_agree r1 r3.
Proof.
  intros (? & ? & ? & ? & ? & ? & H12) (? & ? & ? & ? & ? & ? & H23).
  split_and!; try congruence.
  intros s. eapply same_row_trans; [apply H12|apply H23].
Qed.

Lemma rows_agree_next_of r r' s i : rows_agree r r' → next_of r s i = next_of r' s i.
Proof.
  intros (_ & _ & _ & _ & _ & _ & Hrow). unfold next_of.
  by destruct (Hrow s) as [-> _].
Qed.

Lemma rows_agree_impl_alpha r r' :
  rows_agree r r' → getImplAlphaSize r = getImplAlphaSize r'.
Proof. intros (_ & _ & _ & Ha & _). unfold getImplAlphaSize. by rewrite Ha. Qed.

(** Updating one state of the vector with a function that keeps the
    row. *)
Lemma rows_agree_alter r (f : dstate → dstate) i :
  (∀ s, same_row s (f s)) →
  rows_agree r (set_states r (alter f i (states r))).
Proof.
  intros Hf. split_and!; try done.
  - cbn. by rewrite length_alter.
  - intros s. cbn [states set_states]. rewrite list_lookup_total_alter.
    case_decide as H; [destruct H as [-> _]|]; [apply Hf|done].
Qed.

Lemma lookup_total_fmap_dstate (f : dstate → dstate) (l : list dstate) s :
  f inhabitant = inhabitant → (f <$> l) !!! s = f (l !!! s).
Proof.
  intros Hf. destruct (decide (s < length l)) as [Hlt|Hge].
  - by apply list_lookup_total_fmap.
  - rewrite !list_lookup_total_alt.
    assert (l !! s = None) as -> by (apply lookup_ge_None_2; lia).
    assert ((f <$> l) !! s = None) as ->
      by (apply lookup_ge_None_2; rewrite length_fmap; lia).
    done.
Qed.

Lemma strip_agree r :
  kind r = kind (stripExtraEodReports r)
  ∧ start_anchored r = start_anchored (stripExtraEodReports r)
  ∧ start_floating r = start_floating (stripExtraEodReports r)
  ∧ alpha_size r = alpha_size (stripExtraEodReports r)
  ∧ alpha_remap r = alpha_remap (stripExtraEodReports r)
  ∧ length (states r) = length (states (stripExtraEodReports r))
  ∧ ∀ s, next (states r !!! s) = next (states (stripExtraEodReports r) !!! s)
         ∧ daddy (states r !!! s) = daddy (states (stripExtraEodReports r) !!! s)
         ∧ reports (states r !!! s)
           = reports (states (stripExtraEodReports r) !!! s).
Proof.
  unfold stripExtraEodReports. cbn [kind start_anchored start_floating
    alpha_size alpha_remap states set_states].
  split_and!; try done.
  - by rewrite length_fmap.
  - intros s. rewrite lookup_total_fmap_dstate; [done|].
    cbn. unfold with_reports_eod. cbn. by rewrite elements_empty.
Qed.

Lemma wf_raw_rows r : wf_raw r → wf_rows r.
Proof.
  intros Hwf.
  pose proof Hwf as (Hpos & Ha & Hlen & Hbytes & Htop & Hst & Hsa & Hsf).
  split_and!; try done; try lia.
  - intros c Hc. rewrite Forall_lookup in Hbytes.
    destruct (lookup_lt_is_Some_2 (alpha_remap r) c) as [a Hl].
    { rewrite Hlen. unfold ALPHABET_SIZE, N_CHARS in *. lia. }
    rewrite (list_lookup_total_correct _ _ _ Hl). apply (Hbytes c).
    rewrite lookup_take_lt by done. done.
  - intros s i. by apply wf_next_of.
Qed.

(** [wf_rows] with the rows of the raw DFA replaced by equal rows. *)
Lemma wf_rows_agree r r' :
  start_anchored r = start_anchored r' →
  start_floating r = start_floating r' →
  alpha_size r = alpha_size r' →
  alpha_remap r = alpha_remap r' →
  length (states r) = length (states r') →
  (∀ s, next (states r !!! s) = next (states r' !!! s)) →
  wf_rows r → wf_rows r'.
Proof.
  intros Hsa Hsf Ha Hremap Hlen Hnext (? & ? & ? & ? & Hn & ? & ?).
  unfold wf_rows. rewrite <-Hsa, <-Hsf, <-Ha, <-Hremap, <-Hlen.
  split_and!; try done; try lia.
  intros s i Hs Hi. unfold next_of. rewrite <-Hnext. by apply Hn.
Qed.

Lemma wf_rows_rows_agree r r' : rows_agree r r' → wf_rows r → wf_rows r'.
Proof.
  intros (_ & ? & ? & ? & ? & ? & Hrow). apply wf_rows_agree; try done.
  intros s. by destruct (Hrow s).
Qed.

(** ** The Sherman marks *)

Lemma max_list_len_lt using8bit (a : nat) :
  1 ≤ a → (Z.of_nat a < 65536)%Z → max_list_len using8bit a < a.
Proof.
  intros Ha Hb. unfold max_list_len, u16n, u16, MIN, MAX_SHERMAN_LIST_LEN.
  destruct using8bit; cbn [sherman_width];
    destruct (_ <? _)%Z eqn:Hlt;
    [apply Z.ltb_lt in Hlt|apply Z.ltb_ge in Hlt
    |apply Z.ltb_lt in Hlt|apply Z.ltb_ge in Hlt]; lia.
Qed.

(** What one call of [find_better_daddy] changes. *)
Lemma find_better_daddy_effect info k using8bit cyc g :
  k < info_size info →
  length (extra info) = info_size info →
  let info' := find_better_daddy info k using8bit cyc g in
  let best := best_daddy_of info k in
  rows_agree (raw info) (raw info')
  ∧ length (extra info') = length (extra info)
  ∧ (∀ s, s ≠ k →
       daddy (states (raw info') !!! s) = daddy (states (raw info) !!! s)
       ∧ extra info' !!! s = extra info !!! s)
  ∧ (is_sherman info' k = is_sherman info k
     ∨ (daddy (states (raw info') !!! k) = best.1
        ∧ daddytaken (extra info' !!! k) = best.2
        ∧ impl_alpha_size info
          ≤ best.2 + max_list_len using8bit (impl_alpha_size info))).
Proof.
  intros Hk Hlen info' best.
  assert (Hrec : ∀ bd bs,
    rows_agree (raw info) (raw (record_daddy info k bd bs))
    ∧ length (extra (record_daddy info k bd bs)) = length (extra info)
    ∧ (∀ s, s ≠ k →
         daddy (states (raw (record_daddy info k bd bs)) !!! s)
         = daddy (states (raw info) !!! s)
         ∧ extra (record_daddy info k bd bs) !!! s = extra info !!! s)
    ∧ daddy (states (raw (record_daddy info k bd bs)) !!! k) = bd
    ∧ daddytaken (extra (record_daddy info k bd bs) !!! k) = bs).
  { intros bd bs. unfold record_daddy. cbn [raw extra states set_states].
    split_and!.
    - by apply rows_agree_alter.
    - apply length_alter.
    - intros s Hs. rewrite !list_lookup_total_alter.
      rewrite !decide_False by naive_solver. done.
    - rewrite list_lookup_total_alter.
      by rewrite decide_True by (unfold info_size in Hk; lia).
    - rewrite list_lookup_total_alter. by rewrite decide_True by lia. }
  destruct (find_better_daddy_cases info k using8bit cyc g Hk)
    as [Heq|[Heq|(Heq & Hgate & _)]]; fold info' in Heq; rewrite Heq.
  - split_and!; [apply rows_agree_refl|done|done|by left].
  - destruct (Hrec best.1 best.2) as (? & ? & ? & _).
    split_and!; [done..|]. left. apply is_sherman_record_daddy.
  - destruct (Hrec best.1 best.2) as (? & Hl & Ho & Hd & Ht).
    unfold set_info_extra. cbn [raw extra]. split_and!.
    + done.
    + by rewrite length_alter.
    + intros s Hs. destruct (Ho s Hs) as [? <-]. split; [done|].
      rewrite list_lookup_total_alter. by rewrite decide_False by naive_solver.
    + right. split_and!; [done| |done].
      rewrite list_lookup_total_alter.
      rewrite decide_True by (split; [done|]; fold best; lia). done.
Qed.

(** The invariant of the loop that calls [find_better_daddy] on the
    states in order. *)
Lemma find_better_daddy_inv info k using8bit cyc g :
  k < info_size info →
  1 ≤ impl_alpha_size info →
  length (extra info) = info_size info →
  (∀ i, is_sherman info i = true → i < k) →
  sherman_inv info →
  let info' := find_better_daddy info k using8bit cyc g in
  (∀ i, is_sherman info' i = true → i < S k) ∧ sherman_inv info'.
Proof.
  intros Hk Ha Hlen Hbelow Hinv info'.
  destruct (find_better_daddy_effect info k using8bit cyc g Hk Hlen)
    as (Hrows & Hlen' & Hother & Hcurr). fold info' in Hrows, Hlen', Hother, Hcurr.
  assert (Hsh : ∀ s, s ≠ k → is_sherman info' s = is_sherman info s).
  { intros s Hs. unfold is_sherman. by destruct (Hother s Hs) as [_ ->]. }
  assert (Hk_normal : is_sherman info k = false).
  { destruct (is_sherman info k) eqn:E; [|done]. apply Hbelow in E. lia. }
  assert (Hscore : ∀ i d, daddy_score info' i d = daddy_score info i d).
  { intros i d. unfold daddy_score, impl_alpha_size.
    rewrite <-(rows_agree_impl_alpha _ _ Hrows).
    apply (f_equal length), list_filter_iff. intros s.
    by rewrite !(rows_agree_next_of _ _ _ _ Hrows). }
  assert (Hsize : info_size info' = info_size info).
  { unfold info_size. by destruct Hrows as (_ & _ & _ & _ & _ & <- & _). }
  assert (Halpha : impl_alpha_size info' = impl_alpha_size info).
  { unfold impl_alpha_size. by rewrite <-(rows_agree_impl_alpha _ _ Hrows). }
  split.
  - intros i Hi. destruct (decide (i = k)) as [->|Hne]; [lia|].
    rewrite Hsh in Hi by done. apply Hbelow in Hi. lia.
  - intros i Hi. destruct (decide (i = k)) as [->|Hne].
    + destruct Hcurr as [Hsame|(Hd & Ht & Hgate)]; [congruence|].
      cbv zeta. rewrite Hd, Ht, Hsize, Halpha, Hscore.
      pose proof (max_list_len_lt using8bit (impl_alpha_size info) Ha
                    (impl_alpha_size_bound info)) as Hlt.
      pose proof (max_list_len_le using8bit (impl_alpha_size info) Ha
                    (impl_alpha_size_bound info)) as Hle.
      destruct (best_daddy_of_spec info k) as [[Hzero|(Hin & Hnsh & Hsc)] _].
      { rewrite Hzero in Hgate. cbn [snd] in Hgate. lia. }
      apply hinted_set_earlier in Hin as Hearlier.
      split_and!; [done..| |done|lia].
      rewrite Hsh by lia. done.
    + rewrite Hsh in Hi by done. pose proof (Hbelow i Hi) as Hik.
      destruct (Hinv i Hi) as (Hd & Hi' & Hdsh & Ht & Hlen8).
      destruct (Hother i Hne) as [Hdaddy Hextra].
      cbv zeta. rewrite Hdaddy, Hextra, Hsize, Halpha, Hscore.
      split_and!; [done..| |done|done].
      rewrite Hsh by lia. done.
Qed.

Lemma find_all_daddies_spec info using8bit cyc g :
  1 ≤ impl_alpha_size info →
  (Z.of_nat (info_size info) ≤ 65536)%Z →
  length (extra info) = info_size info →
  (∀ i, is_sherman info i = false) →
  let info' := find_all_daddies info using8bit cyc g in
  rows_agree (raw info) (raw info')
  ∧ length (extra info') = info_size info
  ∧ sherman_inv info'.
Proof.
  intros Ha Hsize Hlen Hnone. unfold find_all_daddies.
  set (step := λ inf i, find_better_daddy inf (u16n (Z.of_nat i)) using8bit cyc g).
  assert (Hloop : ∀ n, n ≤ info_size info →
    let info' := foldl step info (seq 0 n) in
    rows_agree (raw info) (raw info')
    ∧ length (extra info') = info_size info
    ∧ (∀ i, is_sherman info' i = true → i < n)
    ∧ sherman_inv info').
  { induction n as [|n IH]; intros Hn.
    - cbn. split_and!; [apply rows_agree_refl|done|..].
      + intros i. by rewrite Hnone.
      + intros i. by rewrite Hnone.
    - rewrite foldl_seq_S. destruct IH as (Hrows & Hlen' & Hbelow & Hinv); [lia|].
      set (inf := foldl step info (seq 0 n)) in *.
      assert (Hsz : info_size inf = info_size info).
      { unfold info_size. by destruct Hrows as (_ & _ & _ & _ & _ & <- & _). }
      assert (Hal : impl_alpha_size inf = impl_alpha_size info).
      { unfold impl_alpha_size. by rewrite <-(rows_agree_impl_alpha _ _ Hrows). }
      unfold step at 1. rewrite u16n_small by lia.
      destruct (find_better_daddy_effect inf n using8bit cyc g)
        as (Hrows' & Hlen'' & _); [lia..|].
      destruct (find_better_daddy_inv inf n using8bit cyc g)
        as [Hbelow' Hinv']; [lia..|done|done|].
      split_and!; [|lia|done|done].
      eapply rows_agree_trans; [apply Hrows|apply Hrows']. }
  destruct (Hloop (info_size info)) as (? & ? & _ & ?); done.
Qed.

(** ** The numbering *)

Lemma assign_ids_spec ids :
  ∀ (sts : list dstate) c,
    NoDup ids →
    (0 ≤ c)%Z → (c + Z.of_nat (length ids) ≤ 65536)%Z →
    let r := assign_ids sts ids c in
    length r.1 = length sts
    ∧ (∀ k s, ids !! k = Some s → s < length sts →
              impl_id (r.1 !!! s) = Z.to_nat (c + Z.of_nat k))
    ∧ (∀ s, s ∉ ids → r.1 !!! s = sts !!! s)
    ∧ (∀ s, same_row (sts !!! s) (r.1 !!! s)
            ∧ daddy (sts !!! s) = daddy (r.1 !!! s)).
Proof.
  unfold assign_ids.
  induction ids as [|s0 ids IH]; intros sts c Hnd Hc Hlen; cbn [foldl fst snd].
  { split_and!; [done| |done|done]. intros k s. by rewrite lookup_nil. }
  apply NoDup_cons in Hnd as [Hnotin Hnd]. cbn [length] in Hlen.
  destruct (IH (alter (with_impl_id (Z.to_nat c)) s0 sts) (u16 (c + 1)))
    as (Hl & Hpos & Hout & Hrow); [done|unfold u16; lia|unfold u16; lia|].
  rewrite length_alter in Hl. split_and!.
  - done.
  - intros [|k] s.
    + intros [= <-] Hs. rewrite Hout by done.
      rewrite list_lookup_total_alter, decide_True by done. cbn. f_equal. lia.
    + cbn [lookup list_lookup]. intros Hk Hs.
      rewrite (Hpos k s Hk) by (by rewrite length_alter).
      apply lookup_lt_Some in Hk. unfold u16. lia.
  - intros s Hs. rewrite Hout.
    + rewrite list_lookup_total_alter. rewrite decide_False; [done|].
      intros [<- _]. apply Hs, list_elem_of_here.
    + intros ?. by apply Hs, list_elem_of_further.
  - intros s. destruct (Hrow s) as [Hr Hd].
    assert (same_row (sts !!! s)
              (alter (with_impl_id (Z.to_nat c)) s0 sts !!! s)
            ∧ daddy (sts !!! s)
              = daddy (alter (with_impl_id (Z.to_nat c)) s0 sts !!! s))
      as [Hr0 Hd0].
    { rewrite list_lookup_total_alter.
      case_decide as H; [destruct H as [<- _]|]; done. }
    split; [by eapply same_row_trans|congruence].
Qed.

(** The states kept by a filter over a range of indices come in
    increasing order. *)
Lemma filter_seq_lookup_mono (P : nat → Prop) `{!∀ x, Decision (P x)} m :
  ∀ a k k' i i',
    filter P (seq a m) !! k = Some i →
    filter P (seq a m) !! k' = Some i' →
    k < k' → i < i'.
Proof.
  induction m as [|m IH]; intros a k k' i i'; cbn [seq].
  { by rewrite filter_nil, lookup_nil. }
  rewrite filter_cons. destruct (decide (P a)); [|apply IH].
  destruct k as [|k], k' as [|k']; cbn [lookup list_lookup]; try lia.
  - intros [= <-] Hk' _.
    apply list_elem_of_lookup_2, list_elem_of_filter in Hk' as [_ Hk'].
    apply elem_of_seq in Hk'. lia.
  - intros Hk Hk' ?. eapply IH; [apply Hk|apply Hk'|lia].
Qed.

Lemma allocateFSN16_spec info info' base :
  0 < info_size info →
  is_sherman info 0 = false →
  allocateFSN16 info = (info', base, false) →
  (Z.of_nat (info_size info) ≤ 16384)%Z
  ∧ info_agree info info'
  ∧ extra info' = extra info
  ∧ numbering_ok info' base
  ∧ base + length (filter (λ i, is_sherman info i = true)
                          (seq 0 (info_size info))) = info_size info
  ∧ (∀ i i', i < i' < info_size info →
             is_sherman info i = is_sherman info i' →
             implId info' i < implId info' i').
Proof.
  intros Hpos Hdead Halloc.
  pose proof (allocateFSN16_error info Hpos) as Herr.
  rewrite Halloc in Herr. cbn [snd] in Herr. symmetry in Herr.
  apply bool_decide_eq_false in Herr.
  revert Halloc. unfold allocateFSN16.
  destruct (65536 <? _)%Z; [done|].
  set (n := info_size info) in *.
  assert (Hlenn : length (states (raw info)) = n) by done.
  set (ids := seq 1 (n - 1)).
  set (norm := filter (λ i, is_sherman info i = false) ids).
  set (sherm := filter (λ i, is_sherman info i = true) ids).
  set (sts0 := alter (with_impl_id 0) 0 (states (raw info))).
  assert (Hcount : length sherm + length norm = n - 1).
  { subst sherm norm. rewrite length_filter_split.
    - subst ids. apply length_seq.
    - intros x. destruct (is_sherman info x); naive_solver. }
  assert (Hids : NoDup ids) by apply NoDup_seq.
  assert (Hl0 : length sts0 = n) by apply length_alter.
  destruct (assign_ids_spec norm sts0 1) as (Hl1 & Hpos1 & Hout1 & Hrow1);
    [by apply NoDup_filter|lia|lia|].
  pose proof (assign_ids_counter norm sts0 1) as Hc1.
  destruct (assign_ids sts0 norm 1) as [sts1 next_norm].
  cbn [fst snd] in Hl1, Hpos1, Hout1, Hrow1, Hc1.
  rewrite Hc1 by lia.
  assert (Hnn : u16 (1 + Z.of_nat (length norm)) = (1 + Z.of_nat (length norm))%Z)
    by (unfold u16; lia).
  rewrite Hnn in *. clear Hc1.
  destruct (assign_ids_spec sherm sts1 (1 + Z.of_nat (length norm)))
    as (Hl2 & Hpos2 & Hout2 & Hrow2); [by apply NoDup_filter|lia|lia|].
  destruct (assign_ids sts1 sherm _) as [sts2 next_sherman].
  cbn [fst snd] in Hl2, Hpos2, Hout2, Hrow2.
  intros [= <- <- _].
  assert (Hrow0 : ∀ s, same_row (states (raw info) !!! s) (sts0 !!! s)
                       ∧ daddy (states (raw info) !!! s) = daddy (sts0 !!! s)).
  { intros s. subst sts0. rewrite list_lookup_total_alter.
    case_decide as H; [destruct H as [<- _]|]; done. }
  assert (Hin : ∀ i, 0 < i < n →
            if is_sherman info i then i ∈ sherm ∧ i ∉ norm
            else i ∈ norm ∧ i ∉ sherm).
  { intros i Hi. subst sherm norm.
    assert (i ∈ ids) by (apply elem_of_seq; lia).
    destruct (is_sherman info i) eqn:E; rewrite !list_elem_of_filter;
      (split; [done|intros [? _]; congruence]). }
  assert (Hclass : ∀ i, i < n →
            (i = 0 ∧ implId (set_info_states info sts2) i = 0)
            ∨ (0 < i ∧ is_sherman info i = false
               ∧ ∃ k, norm !! k = Some i
                      ∧ implId (set_info_states info sts2) i = 1 + k)
            ∨ (0 < i ∧ is_sherman info i = true
               ∧ ∃ k, sherm !! k = Some i
                      ∧ implId (set_info_states info sts2) i
                        = 1 + length norm + k)).
  { intros i Hi. unfold implId, set_info_states. cbn [raw states set_states].
    destruct (decide (i = 0)) as [->|Hne].
    - left. split; [done|].
      rewrite Hout2, Hout1.
      + subst sts0. rewrite list_lookup_total_alter.
        by rewrite decide_True by lia.
      + subst norm ids. rewrite list_elem_of_filter, elem_of_seq. lia.
      + subst sherm ids. rewrite list_elem_of_filter, elem_of_seq. lia.
    - right. specialize (Hin i ltac:(lia)).
      destruct (is_sherman info i) eqn:E.
      + right. destruct Hin as [Hs Hn].
        apply list_elem_of_lookup in Hs as [k Hk].
        split_and!; [lia|done|]. exists k. split; [done|].
        rewrite (Hpos2 k i Hk) by lia. lia.
      + left. destruct Hin as [Hn Hs].
        apply list_elem_of_lookup in Hn as [k Hk].
        split_and!; [lia|done|]. exists k. split; [done|].
        rewrite Hout2 by done. rewrite (Hpos1 k i Hk) by lia. lia. }
  assert (Hsize' : info_size (set_info_states info sts2) = n).
  { unfold info_size, set_info_states. cbn. lia. }
  split_and!.
  - lia.
  - unfold info_agree, set_info_states. cbn [raw extra states set_states].
    split_and!; try done.
    + unfold rows_agree. cbn. split_and!; try done; try lia.
      intros s. eapply same_row_trans; [apply Hrow0|].
      eapply same_row_trans; [apply Hrow1|apply Hrow2].
    + intros s. destruct (Hrow0 s) as [_ ->], (Hrow1 s) as [_ ->].
      by destruct (Hrow2 s) as [_ ->].
  - done.
  - unfold numbering_ok. rewrite Hsize'.
    assert (Hshs : ∀ i, is_sherman (set_info_states info sts2) i
                        = is_sherman info i) by done.
    split_and!.
    + destruct (Hclass 0) as [[_ ?]|[(? & _)|(? & _)]]; [lia|done|lia..].
    + lia.
    + lia.
    + intros i Hi Hsh. rewrite Hshs in Hsh.
      destruct (Hclass i) as [[? _]|[(_ & _ & k & Hk & ->)|(_ & ? & _)]];
        [lia|lia| |congruence].
      apply lookup_lt_Some in Hk. lia.
    + intros i Hi Hsh. rewrite Hshs in Hsh.
      destruct (Hclass i) as [[? _]|[(_ & ? & _)|(_ & _ & k & Hk & ->)]];
        [lia|lia|congruence|].
      apply lookup_lt_Some in Hk. lia.
    + intros i i' Hi Hi' Heq.
      destruct (Hclass i Hi) as [[-> E]|[(? & _ & k & Hk & E)|(? & _ & k & Hk & E)]];
        destruct (Hclass i' Hi')
          as [[-> E']|[(? & _ & k' & Hk' & E')|(? & _ & k' & Hk' & E')]];
        rewrite ?E, ?E' in Heq;
        try apply lookup_lt_Some in Hk as Hlt;
        try apply lookup_lt_Some in Hk' as Hlt';
        try lia.
      * assert (k = k') as -> by lia. congruence.
      * assert (k = k') as -> by lia. congruence.
    + intros fs Hfs. destruct (decide (fs = 0)) as [->|Hfs0].
      { exists 0. destruct (Hclass 0) as [[_ ?]|[(? & _)|(? & _)]]; [lia| |lia..].
        split_and!; [lia|done|]. rewrite Hshs, Hdead.
        symmetry. apply negb_false_iff, Nat.ltb_lt. lia. }
      destruct (decide (fs < 1 + length norm)) as [Hlt|Hge].
      * destruct (lookup_lt_is_Some_2 norm (fs - 1)) as [i Hk]; [lia|].
        assert (Hi : i ∈ norm) by (by eapply list_elem_of_lookup_2).
        subst norm ids. apply list_elem_of_filter in Hi as [Hsh Hi].
        apply elem_of_seq in Hi. exists i.
        destruct (Hclass i) as [[? _]|[(_ & _ & k' & Hk' & E)|(_ & ? & _)]];
          [lia|lia| |congruence].
        assert (k' = fs - 1) as ->.
        { eapply NoDup_lookup; [|apply Hk'|apply Hk].
          apply NoDup_filter, NoDup_seq. }
        split_and!; [lia|lia|]. rewrite Hshs, Hsh.
        symmetry. apply negb_false_iff, Nat.ltb_lt. lia.
      * destruct (lookup_lt_is_Some_2 sherm (fs - (1 + length norm)))
          as [i Hk]; [lia|].
        assert (Hi : i ∈ sherm) by (by eapply list_elem_of_lookup_2).
        subst sherm ids. apply list_elem_of_filter in Hi as [Hsh Hi].
        apply elem_of_seq in Hi. exists i.
        destruct (Hclass i) as [[? _]|[(_ & ? & _)|(_ & _ & k' & Hk' & E)]];
          [lia|lia|congruence|].
        assert (k' = fs - (1 + length norm)) as ->.
        { eapply NoDup_lookup; [|apply Hk'|apply Hk].
          apply NoDup_filter, NoDup_seq. }
        split_and!; [lia|lia|]. rewrite Hshs, Hsh.
        symmetry. apply negb_true_iff, Nat.ltb_ge. lia.
  - assert (Hsplit : filter (λ i, is_sherman info i = true) (seq 0 n) = sherm).
    { subst sherm ids. replace n with (1 + (n - 1)) at 1 by lia.
      rewrite seq_app. cbn [seq app Nat.add]. rewrite filter_cons.
      rewrite decide_False by congruence. done. }
    rewrite Hsplit. lia.
  - intros i i' Hii Hsame.
    destruct (Hclass i ltac:(lia))
      as [[-> E]|[(? & Hsh & k & Hk & E)|(? & Hsh & k & Hk & E)]];
      destruct (Hclass i' ltac:(lia))
        as [[-> E']|[(? & Hsh' & k' & Hk' & E')|(? & Hsh' & k' & Hk' & E')]];
      rewrite ?E, ?E'; try lia; try congruence.
    + destruct (decide (k < k')) as [|Hge]; [lia|]. exfalso.
      destruct (decide (k = k')) as [->|]; [rewrite Hk in Hk'; naive_solver lia|].
      pose proof (filter_seq_lookup_mono _ _ _ _ _ _ _ Hk' Hk ltac:(lia)). lia.
    + destruct (decide (k < k')) as [|Hge]; [lia|]. exfalso.
      destruct (decide (k = k')) as [->|]; [rewrite Hk in Hk'; naive_solver lia|].
      pose proof (filter_seq_lookup_mono _ _ _ _ _ _ _ Hk' Hk ltac:(lia)). lia.
Qed.

(** ** Acceleration marks *)

Lemma populateAccelerationInfo_spec info g :
  let r := populateAccelerationInfo info g in
  raw r.1 = raw info
  ∧ length (extra r.1) = length (extra info)
  ∧ ∀ s, shermanState (extra r.1 !!! s) = shermanState (extra info !!! s)
         ∧ daddytaken (extra r.1 !!! s) = daddytaken (extra info !!! s).
Proof.
  unfold populateAccelerationInfo. destruct (negb _); [done|].
  set (f := λ (st : dfa_info * Z) (i : nat),
              if is_accel (raw info) (get_sds_or_proxy (raw info))
                          (u16n (Z.of_nat i))
              then (set_info_extra st.1 (alter with_accelerable i (extra st.1)),
                    u32 (st.2 + 1))
              else st).
  assert (H : ∀ l (st : dfa_info * Z),
    raw (foldl f st l).1 = raw st.1
    ∧ length (extra (foldl f st l).1) = length (extra st.1)
    ∧ ∀ s, shermanState (extra (foldl f st l).1 !!! s)
           = shermanState (extra st.1 !!! s)
           ∧ daddytaken (extra (foldl f st l).1 !!! s)
             = daddytaken (extra st.1 !!! s)).
  { induction l as [|i l IH]; intros st; [done|].
    cbn [foldl]. unfold f at 2 4 6 8. destruct (is_accel _ _ _); [|apply IH].
    destruct (IH (set_info_extra st.1 (alter with_accelerable i (extra st.1)),
                  u32 (st.2 + 1))) as (Hr & Hl & Hs).
    cbn [fst] in Hr, Hl, Hs. rewrite Hr, Hl. split_and!.
    - done.
    - cbn. apply length_alter.
    - intros s. destruct (Hs s) as [-> ->]. cbn [set_info_extra extra].
      rewrite list_lookup_total_alter.
      case_decide as H; [destruct H as [<- _]|]; done. }
  apply (H _ (info, 0%Z)).
Qed.

Lemma info_agree_refl info : info_agree info info.
Proof. split_and!; try done; apply rows_agree_refl. Qed.

Lemma info_agree_trans i1 i2 i3 :
  info_agree i1 i2 → info_agree i2 i3 → info_agree i1 i3.
Proof.
  intros (Hr & Hd & Hl & He) (Hr' & Hd' & Hl' & He').
  split_and!.
  - by eapply rows_agree_trans.
  - intros s. by rewrite Hd.
  - congruence.
  - intros s. destruct (He s) as [-> ->]. apply He'.
Qed.

Lemma populateAccelerationInfo_agree info g :
  info_agree info (populateAccelerationInfo info g).1
  ∧ raw (populateAccelerationInfo info g).1 = raw info.
Proof.
  destruct (populateAccelerationInfo_spec info g) as (Hr & Hl & Hs).
  split; [|done]. split_and!.
  - rewrite Hr. apply rows_agree_refl.
  - by rewrite Hr.
  - done.
  - intros s. by destruct (Hs s) as [-> ->].
Qed.

(** [info_agree] keeps what the assembler reads of the Sherman marks. *)
Lemma info_agree_sherman info info' s :
  info_agree info info' → is_sherman info' s = is_sherman info s.
Proof. intros (_ & _ & _ & He). unfold is_sherman. by destruct (He s) as [-> _]. Qed.

Lemma info_agree_size info info' :
  info_agree info info' → info_size info' = info_size info.
Proof. intros ((_ & _ & _ & _ & _ & Hl & _) & _). unfold info_size. done. Qed.

Lemma info_agree_alpha info info' :
  info_agree info info' → impl_alpha_size info' = impl_alpha_size info.
Proof.
  intros (Hr & _). unfold impl_alpha_size.
  by rewrite (rows_agree_impl_alpha _ _ Hr).
Qed.

Lemma info_agree_next_of info info' s i :
  info_agree info info' → next_of (raw info') s i = next_of (raw info) s i.
Proof. intros (Hr & _). by rewrite (rows_agree_next_of _ _ s i Hr). Qed.

Lemma info_agree_score info info' i d :
  info_agree info info' → daddy_score info' i d = daddy_score info i d.
Proof.
  intros Hag. unfold daddy_score. rewrite (info_agree_alpha _ _ Hag).
  apply (f_equal length), list_filter_iff. intros s.
  by rewrite !(info_agree_next_of _ _ _ _ Hag).
Qed.

Lemma sherman_inv_agree info info' :
  info_agree info info' → sherman_inv info → sherman_inv info'.
Proof.
  intros Hag Hinv i Hi.
  rewrite (info_agree_sherman _ _ _ Hag) in Hi.
  destruct (Hinv i Hi) as (Hd & Hsz & Hsh & Ht & Hlen).
  pose proof Hag as (_ & Hdaddy & _ & He).
  cbv zeta. rewrite <-Hdaddy. destruct (He i) as [_ <-].
  rewrite (info_agree_size _ _ Hag), (info_agree_sherman _ _ _ Hag),
    (info_agree_score _ _ _ _ Hag), (info_agree_alpha _ _ Hag).
  done.
Qed.

(** ** Flag bits *)

Lemma land_flag_clear v flag :
  (0 ≤ v < 16384)%Z → Z.land (Z.ones 14) flag = 0%Z → Z.land v flag = 0%Z.
Proof.
  intros Hv Hflag.
  rewrite <-(Z.mod_small v (2 ^ 14)) by lia.
  rewrite <-Z.land_ones by lia.
  by rewrite <-Z.land_assoc, Hflag, Z.land_0_r.
Qed.

(** What [markEdges] makes of a successor: the state index is kept in the
    [STATE_MASK] bits, and each flag is set exactly when the field of the
    successor's [mstate_aux] it stands for is not zero. *)
Lemma mark_succ_spec ax v :
  (0 ≤ v < 16384)%Z →
  Z.land (mark_succ ax v) STATE_MASK = v
  ∧ has_flag (mark_succ ax v) ACCEPT_FLAG
    = negb (accept (getAux ax v) =? 0)%Z
  ∧ has_flag (mark_succ ax v) ACCEL_FLAG
    = negb (accel_offset (getAux ax v) =? 0)%Z
  ∧ (0 ≤ mark_succ ax v < 65536)%Z.
Proof.
  intros Hv. unfold mark_succ, has_flag.
  assert (Hmask : Z.land v STATE_MASK = v).
  { change STATE_MASK with (Z.ones 14). rewrite Z.land_ones by lia.
    apply Z.mod_small. lia. }
  assert (H16 : Z.land v (Z.ones 16) = v).
  { rewrite Z.land_ones by lia. apply Z.mod_small. lia. }
  assert (Ha : Z.land v ACCEPT_FLAG = 0%Z) by (by apply land_flag_clear).
  assert (Hb : Z.land v ACCEL_FLAG = 0%Z) by (by apply land_flag_clear).
  assert (Hrange : ∀ x, Z.land x (Z.ones 16) = x → (0 ≤ x < 65536)%Z).
  { intros x Hx. rewrite Z.land_ones in Hx by lia.
    change (2 ^ 16)%Z with 65536%Z in Hx. lia. }
  destruct (accept (getAux ax v) =? 0)%Z, (accel_offset (getAux ax v) =? 0)%Z;
    cbn [negb]; (split; [|split; [|split; [|apply Hrange]]]);
    rewrite ?Z.land_lor_distr_l, ?Hmask, ?H16, ?Ha, ?Hb;
    unfold ACCEPT_FLAG, ACCEL_FLAG, STATE_MASK; cbn;
    rewrite ?Z.lor_0_r; done.
Qed.

(** ** Byte regions *)

Lemma write_bytes_length bs : ∀ mem p, length (write_bytes mem p bs) = length mem.
Proof.
  induction bs as [|b bs IH]; intros mem p; [done|].
  cbn [write_bytes]. by rewrite IH, length_insert.
Qed.

Lemma write_bytes_lookup bs :
  ∀ mem p q,
    write_bytes mem p bs !!! q
    = if decide (p ≤ q < p + length bs ∧ q < length mem)
      then bs !!! (q - p) else mem !!! q.
Proof.
  induction bs as [|b bs IH]; intros mem p q; cbn [write_bytes length].
  { by rewrite decide_False by lia. }
  rewrite IH, length_insert.
  destruct (decide (q = p)) as [->|Hne].
  - rewrite decide_False by lia.
    destruct (decide (p < length mem)).
    + rewrite decide_True by lia. rewrite Nat.sub_diag.
      by rewrite list_lookup_total_insert_eq.
    + rewrite decide_False by lia. by rewrite list_insert_ge by lia.
  - rewrite list_lookup_total_insert_ne by done.
    destruct (decide (p ≤ q < p + S (length bs) ∧ q < length mem)).
    + rewrite decide_True by lia.
      replace (q - p) with (S (q - S p)) by lia. done.
    + by rewrite decide_False by lia.
Qed.

Lemma store_u16_write mem p v : store_u16 mem p v = write_bytes mem p (u16_bytes v).
Proof. done. Qed.

Lemma load_u16_bytes (lo hi : Z) v :
  (0 ≤ v < 65536)%Z → lo = u8 v → hi = u8 (v / 256) → (lo + 256 * hi)%Z = v.
Proof. intros Hv -> ->. unfold u8. lia. Qed.

(** The bytes of a vector of [u16]s. *)
Lemma u16_bytes_bind_length (l : list Z) : length (l ≫= u16_bytes) = 2 * length l.
Proof. induction l as [|v l IH]; cbn; [done|]. cbn in IH. rewrite IH. lia. Qed.

Lemma u16_bytes_bind_lookup (l : list Z) k :
  k < length l →
  (l ≫= u16_bytes) !!! (2 * k) = u8 (l !!! k)
  ∧ (l ≫= u16_bytes) !!! S (2 * k) = u8 (l !!! k / 256).
Proof.
  revert k. induction l as [|v l IH]; intros k Hk; [cbn in Hk; lia|].
  destruct k as [|k]; [done|].
  cbn [length] in Hk. destruct (IH k) as [H0 H1]; [lia|].
  replace (2 * S k) with (S (S (2 * k))) by lia. done.
Qed.

(** ** The alphabet shift *)

Lemma getAlphaShift_bound info :
  1 ≤ impl_alpha_size info ≤ 256 →
  impl_alpha_size info ≤ 2 ^ getAlphaShift info.
Proof.
  intros Ha. unfold getAlphaShift.
  destruct (impl_alpha_size info <? 2) eqn:Hsmall.
  { apply Nat.ltb_lt in Hsmall. cbn. lia. }
  apply Nat.ltb_ge in Hsmall.
  set (x := (Z.of_nat (impl_alpha_size info) - 1)%Z).
  assert (Hx : (0 < x < 2 ^ 8)%Z) by (subst x; lia).
  pose proof (Z.log2_spec x ltac:(lia)) as Hspec.
  assert (Hlog : (0 ≤ Z.log2 x < 8)%Z).
  { split; [apply Z.log2_nonneg|]. apply Z.log2_lt_pow2; lia. }
  unfold clz32, u8.
  replace ((32 - (31 - Z.log2 x)) mod 256)%Z with (Z.succ (Z.log2 x)) by lia.
  apply Nat2Z.inj_le. rewrite Nat2Z.inj_pow, Z2Nat.id by lia.
  change (Z.of_nat 2) with 2%Z. lia.
Qed.

Lemma wf_rows_alpha r :
  wf_rows r → 1 ≤ getImplAlphaSize r ≤ 256
              ∧ getImplAlphaSize r = alpha_size r - 1.
Proof.
  intros (_ & Ha & _). unfold getImplAlphaSize, u16n, u16, N_SPECIAL_SYMBOL.
  unfold ALPHABET_SIZE in Ha. lia.
Qed.

(** ** Assembly of the 16-bit image *)

Section compile16_loops.
Context (L : layout) (info : dfa_info) (base : nat) (g : gathered)
        (ro : list Z).
Hypothesis Hrows : wf_rows (raw info).
Hypothesis Hnum : numbering_ok info base.

Local Notation a := (impl_alpha_size info).
Local Notation shift := (getAlphaShift info).
Local Notation n := (info_size info).

(** The raw state whose id goes to the [top] field of state [i]. *)
Local Notation raw_top i :=
  (if i =? 0 then start_floating (raw info)
   else next (states (raw info) !!! i) !!! (alpha_remap (raw info) !!! TOP)).

Lemma alpha_le_row : 1 ≤ a ∧ a ≤ 256 ∧ a ≤ 2 ^ shift.
Proof.
  destruct (wf_rows_alpha _ Hrows) as [Ha _].
  fold (impl_alpha_size info) in Ha.
  split_and!; [lia..|]. by apply getAlphaShift_bound.
Qed.

Lemma implId_inj i i' : i < n → i' < n → implId info i = implId info i' → i = i'.
Proof. destruct Hnum as (_ & _ & _ & _ & Hinj & _). apply Hinj. Qed.

Lemma implId_normal i :
  i < n → is_sherman info i = false → implId info i < base.
Proof.
  intros Hi Hsh. destruct Hnum as (H0 & Hb & Hnorm & _).
  destruct (decide (i = 0)) as [->|Hne]; [lia|].
  apply Hnorm; [lia|done].
Qed.

Lemma implId_sherman i :
  i < n → is_sherman info i = true → base ≤ implId info i < n.
Proof.
  intros Hi Hsh. destruct Hnum as (H0 & Hb & _ & Hsherm & _).
  destruct (decide (i = 0)) as [->|Hne]; [|apply Hsherm; [lia|done]].
  destruct Hnum as (_ & _ & _ & _ & _ & Hsurj).
  destruct (Hsurj 0) as (i' & Hi' & Hid & Hsh'); [lia|].
  assert (i' = 0) as -> by (apply implId_inj; [done..|congruence]).
  rewrite Hsh in Hsh'. symmetry in Hsh'.
  apply negb_true_iff, Nat.ltb_ge in Hsh'. lia.
Qed.

(** *** The successor table *)

Lemma compile16_normal_succ st i :
  as_succ (compile16_normal L info g ro st i)
  = if is_sherman info i then as_succ st
    else foldl (λ t j, <[Nat.shiftl (implId info i) shift + j
                         := Z.of_nat (implId info (next_of (raw info) i j))]> t)
               (as_succ st) (seq 0 a).
Proof.
  unfold compile16_normal. destruct (is_sherman info i); [done|].
  by destruct (place_accel _ _ _ _ _).
Qed.

Lemma compile16_normal_sherman st i :
  as_sherman (compile16_normal L info g ro st i) = as_sherman st.
Proof.
  unfold compile16_normal. destruct (is_sherman info i); [done|].
  by destruct (place_accel _ _ _ _ _).
Qed.

Lemma compile16_sherman_succ limit st i :
  as_succ (compile16_sherman L info g ro limit st i) = as_succ st.
Proof.
  unfold compile16_sherman. destruct (negb _); [done|].
  by destruct (place_accel _ _ _ _ _).
Qed.

(** After the loop over the normal states every normal state has its row
    in the table. *)
Lemma compile16_normal_table st0 :
  length (as_succ st0) = Nat.shiftl 1 shift * base →
  ∀ k, k ≤ n →
    let st := foldl (compile16_normal L info g ro) st0 (seq 0 k) in
    length (as_succ st) = length (as_succ st0)
    ∧ ∀ i j, i < k → is_sherman info i = false → j < a →
             as_succ st !!! (Nat.shiftl (implId info i) shift + j)
             = Z.of_nat (implId info (next_of (raw info) i j)).
Proof.
  intros Hlen. destruct alpha_le_row as (Ha1 & Ha256 & Haw).
  induction k as [|k IH]; intros Hk.
  { cbn. split; [done|]. lia. }
  rewrite foldl_seq_S. destruct IH as [IHlen IHrow]; [lia|].
  set (st := foldl (compile16_normal L info g ro) st0 (seq 0 k)) in *.
  cbv zeta. rewrite compile16_normal_succ.
  destruct (is_sherman info k) eqn:Hsh.
  { split; [done|]. intros i j Hi Hsi Hj.
    destruct (decide (i = k)) as [->|Hne]; [congruence|].
    apply IHrow; [lia|done..]. }
  rewrite foldl_insert_row_length. split; [done|].
  intros i j Hi Hsi Hj. destruct (decide (i = k)) as [->|Hne].
  - rewrite foldl_insert_row_lookup; [done|apply NoDup_seq|..].
    + apply elem_of_seq. lia.
    + rewrite IHlen, Hlen, !shiftl_row, Nat.mul_1_l.
      apply row_index_lt; [|lia]. apply implId_normal; [lia|done].
  - rewrite foldl_insert_row_other; [apply IHrow; [lia|done..]|].
    intros j' Hj' Heq. apply elem_of_seq in Hj'.
    rewrite !shiftl_row in Heq.
    apply row_index_inj in Heq as [Heq _]; [|lia..].
    apply implId_inj in Heq; [lia..].
Qed.

(** *** The [mstate_aux] array *)

Lemma place_accel_top i fs ax off fs' :
  top ((place_accel L info i fs ax off).1 !!! fs') = top (ax !!! fs')
  ∧ accept ((place_accel L info i fs ax off).1 !!! fs') = accept (ax !!! fs')
  ∧ length (place_accel L info i fs ax off).1 = length ax.
Proof.
  unfold place_accel. destruct (info_is_accel info i); [|done]. cbn [fst].
  rewrite list_lookup_total_alter, length_alter.
  case_decide as H; [destruct H as [<- _]|]; done.
Qed.

Lemma fillInAux_step i ax off fs' :
  let ax' := (place_accel L info i (implId info i)
                (alter (fillInAux info i (g_reports g) (g_reports_eod g) ro)
                       (implId info i) ax) off).1 in
  length ax' = length ax
  ∧ top (ax' !!! fs')
    = if decide (implId info i = fs' ∧ implId info i < length ax)
      then implId info (raw_top i) else top (ax !!! fs').
Proof.
  cbv zeta.
  destruct (place_accel_top i (implId info i)
              (alter (fillInAux info i (g_reports g) (g_reports_eod g) ro)
                     (implId info i) ax) off fs') as (-> & _ & ->).
  rewrite length_alter, list_lookup_total_alter. split; [done|].
  case_decide as H; [destruct H as [<- _]|]; done.
Qed.

Lemma compile16_normal_aux st i :
  as_aux (compile16_normal L info g ro st i)
  = if is_sherman info i then as_aux st
    else (place_accel L info i (implId info i)
            (alter (fillInAux info i (g_reports g) (g_reports_eod g) ro)
                   (implId info i) (as_aux st)) (as_accel_offset st)).1.
Proof.
  unfold compile16_normal. destruct (is_sherman info i); [done|].
  by destruct (place_accel _ _ _ _ _).
Qed.

Lemma compile16_sherman_aux limit st i :
  as_aux (compile16_sherman L info g ro limit st i)
  = if is_sherman info i
    then (place_accel L info i (implId info i)
            (alter (fillInAux info i (g_reports g) (g_reports_eod g) ro)
                   (implId info i) (as_aux st)) (as_accel_offset st)).1
    else as_aux st.
Proof.
  unfold compile16_sherman. destruct (is_sherman info i); [|done].
  cbn [negb]. by destruct (place_accel _ _ _ _ _).
Qed.

(** Either loop fills in the [top] field of the states it handles
    ([sh] tells which) and leaves the others alone. *)
Lemma compile16_aux_loop (sh : bool) (step : asm_state → nat → asm_state) st0 :
  length (as_aux st0) = n →
  (∀ st i, as_aux (step st i)
           = if bool_decide (is_sherman info i = sh)
             then (place_accel L info i (implId info i)
                     (alter (fillInAux info i (g_reports g) (g_reports_eod g) ro)
                            (implId info i) (as_aux st))
                     (as_accel_offset st)).1
             else as_aux st) →
  ∀ k, k ≤ n →
    let st := foldl step st0 (seq 0 k) in
    length (as_aux st) = n
    ∧ ∀ i, i < n →
           top (as_aux st !!! implId info i)
           = if bool_decide (i < k ∧ is_sherman info i = sh)
             then implId info (raw_top i)
             else top (as_aux st0 !!! implId info i).
Proof.
  intros Hlen Hstep. induction k as [|k IH]; intros Hk.
  { cbn [seq foldl]. split; [done|]. intros i Hi.
    by rewrite bool_decide_eq_false_2 by lia. }
  rewrite foldl_seq_S. destruct IH as [IHlen IHtop]; [lia|].
  set (st := foldl step st0 (seq 0 k)) in *.
  cbv zeta. rewrite Hstep. case_bool_decide as Hsh.
  - destruct (fillInAux_step k (as_aux st) (as_accel_offset st) 0) as [Hl _].
    split; [lia|]. intros i Hi.
    destruct (fillInAux_step k (as_aux st) (as_accel_offset st)
                (implId info i)) as [_ ->].
    case_decide as Hid.
    + destruct Hid as [Hid _]. apply implId_inj in Hid as ->; [|lia..].
      by rewrite bool_decide_eq_true_2 by (split; [lia|done]).
    + assert (i ≠ k).
      { intros ->. apply Hid. split; [done|].
        rewrite IHlen. destruct (is_sherman info k) eqn:E.
        - apply implId_sherman; [lia|done].
        - pose proof (implId_normal k ltac:(lia) E).
          destruct Hnum as (_ & ? & _). lia. }
      rewrite IHtop by done.
      assert (bool_decide (i < k ∧ is_sherman info i = sh)
              = bool_decide (i < S k ∧ is_sherman info i = sh)) as ->;
        [|done].
      apply bool_decide_ext. split; intros [? ?]; (split; [lia|done]).
  - split; [done|]. intros i Hi. rewrite IHtop by done.
    assert (bool_decide (i < k ∧ is_sherman info i = sh)
            = bool_decide (i < S k ∧ is_sherman info i = sh)) as ->;
      [|done].
    apply bool_decide_ext. split; [intros []; split; [lia|done]|].
    intros [Hik Hsi]. split; [|done].
    destruct (decide (i = k)) as [->|]; [done|lia].
Qed.

End compile16_loops.

(** ** Loops that advance a pointer *)

Lemma write_bytes_app bs1 bs2 :
  ∀ mem p, write_bytes mem p (bs1 ++ bs2)
           = write_bytes (write_bytes mem p bs1) (p + length bs1) bs2.
Proof.
  induction bs1 as [|b bs1 IH]; intros mem p; cbn [write_bytes app length].
  { by rewrite Nat.add_0_r. }
  rewrite IH. f_equal. lia.
Qed.

Lemma pointer_loop_bytes (P : nat → Prop) `{!∀ s, Decision (P s)}
    (val : nat → Z) (l : list nat) :
  ∀ mem p,
    foldl (λ (mp : list Z * nat) s,
             if bool_decide (P s) then (<[mp.2 := val s]> mp.1, S mp.2) else mp)
          (mem, p) l
    = (write_bytes mem p (val <$> filter P l), p + length (filter P l)).
Proof.
  induction l as [|s l IH]; intros mem p; cbn [foldl].
  { by rewrite Nat.add_0_r. }
  rewrite filter_cons. cbn [fst snd]. case_bool_decide.
  - rewrite decide_True by done. rewrite IH. cbn [fmap list_fmap length write_bytes].
    f_equal. lia.
  - rewrite decide_False by done. apply IH.
Qed.

Lemma pointer_loop_u16 (P : nat → Prop) `{!∀ s, Decision (P s)}
    (val : nat → Z) (l : list nat) :
  ∀ mem p,
    foldl (λ (mp : list Z * nat) s,
             if bool_decide (P s)
             then (store_u16 mp.1 mp.2 (val s), 2 + mp.2) else mp)
          (mem, p) l
    = (write_bytes mem p ((val <$> filter P l) ≫= u16_bytes),
       p + 2 * length (filter P l)).
Proof.
  induction l as [|s l IH]; intros mem p; cbn [foldl].
  { by rewrite Nat.add_0_r. }
  rewrite filter_cons. cbn [fst snd]. case_bool_decide.
  - rewrite decide_True by done. rewrite IH.
    cbn [fmap list_fmap length mbind list_bind].
    rewrite write_bytes_app. cbn [length u16_bytes].
    rewrite store_u16_write. replace (2 + p) with (p + 2) by lia.
    f_equal. lia.
  - rewrite decide_False by done. apply IH.
Qed.

Lemma load_u16_written mem p (vs : list Z) k :
  k < length vs →
  p + 2 * length vs ≤ length mem →
  (0 ≤ vs !!! k < 65536)%Z →
  load_u16 (write_bytes mem p (vs ≫= u16_bytes)) (p + 2 * k) = vs !!! k.
Proof.
  intros Hk Hlen Hv. unfold load_u16.
  rewrite !write_bytes_lookup, u16_bytes_bind_length.
  rewrite !decide_True by lia.
  replace (p + 2 * k - p) with (2 * k) by lia.
  replace (S (p + 2 * k) - p) with (S (2 * k)) by lia.
  destruct (u16_bytes_bind_lookup vs k Hk) as [-> ->].
  by apply load_u16_bytes.
Qed.

(** A Sherman record only depends on the bytes of its own slot. *)
Lemma sherman_record_frame L mem mem' cur len d chars succs :
  sherman_layout_ok L → len ≤ 8 →
  (∀ q, cur ≤ q < cur + SHERMAN_FIXED_SIZE L → mem' !!! q = mem !!! q) →
  sherman_record L mem cur len d chars succs →
  sherman_record L mem' cur len d chars succs.
Proof.
  intros Hlay Hlen Hsame (Hl & Hd & Hc & Hs & Hchars & Hsuccs).
  destruct (Hlay len Hlen) as [Hlo Hhi].
  unfold sherman_record, load_u16 in *.
  unfold SHERMAN_CHARS_OFFSET, SHERMAN_LEN_OFFSET, SHERMAN_DADDY_OFFSET in *.
  split_and!; try done.
  - rewrite Hsame by lia. done.
  - rewrite !Hsame by lia. done.
  - intros k Hk. rewrite Hsame by lia. by apply Hchars.
  - intros k Hk. rewrite !Hsame by lia. by apply Hsuccs.
Qed.

Lemma overrides_length info i d :
  daddy_score info i d + length (overrides info i d) = impl_alpha_size info.
Proof.
  unfold daddy_score, overrides. rewrite length_filter_split.
  - apply length_seq.
  - intros s. split; [by intros ? ?|]. intros H.
    by destruct (decide (next_of (raw info) i s = next_of (raw info) d s)).
Qed.

Lemma overrides_elem info i d s :
  s ∈ overrides info i d ↔
  s < impl_alpha_size info
  ∧ next_of (raw info) i s ≠ next_of (raw info) d s.
Proof.
  unfold overrides. rewrite list_elem_of_filter, elem_of_seq. naive_solver lia.
Qed.

Lemma overrides_NoDup info i d : NoDup (overrides info i d).
Proof. apply NoDup_filter, NoDup_seq. Qed.

Lemma lookup_total_fmap_nat {B} `{!Inhabited B} (f : nat → B) (l : list nat) k :
  k < length l → (f <$> l) !!! k = f (l !!! k).
Proof. apply list_lookup_total_fmap. Qed.

Lemma insert_write_bytes (mem : list Z) p b : <[p := b]> mem = write_bytes mem p [b].
Proof. done. Qed.

Section compile16_sherman_region.
Context (L : layout) (info : dfa_info) (base : nat) (g : gathered)
        (ro : list Z).
Hypothesis Hlayout : sherman_layout_ok L.
Hypothesis Hrows : wf_rows (raw info).
Hypothesis Hnum : numbering_ok info base.
Hypothesis Hinv : sherman_inv info.
Hypothesis Hsize : (Z.of_nat (info_size info) ≤ 16384)%Z.

Local Notation a := (impl_alpha_size info).
Local Notation n := (info_size info).
Local Notation daddy_of i := (daddy (states (raw info) !!! i)).
Local Notation ov_of i := (overrides info i (daddy_of i)).
Local Notation cur_of i := ((implId info i - base) * SHERMAN_FIXED_SIZE L).
Local Notation chars_of i := (Z.of_nat <$> ov_of i).
Local Notation succs_of i :=
  ((λ s, Z.of_nat (implId info (next_of (raw info) i s))) <$> ov_of i).

Lemma sherman_len i :
  is_sherman info i = true →
  length (ov_of i) ≤ 8
  ∧ u8 (Z.of_nat a - Z.of_nat (daddytaken (extra info !!! i)))
    = Z.of_nat (length (ov_of i)).
Proof.
  intros Hsh. destruct (Hinv i Hsh) as (_ & _ & _ & Ht & Hlen).
  pose proof (overrides_length info i (daddy_of i)) as Hov.
  rewrite <-Ht in Hov. split; [lia|]. unfold u8. lia.
Qed.

Lemma implId_u16 i : i < n → (0 ≤ Z.of_nat (implId info i) < 16384)%Z.
Proof.
  intros Hi. destruct Hnum as (H0 & Hb & Hnorm & Hsherm & _).
  destruct (decide (i = 0)) as [->|Hne]; [lia|].
  destruct (is_sherman info i) eqn:E.
  - pose proof (Hsherm i ltac:(lia) E). lia.
  - pose proof (Hnorm i ltac:(lia) E). lia.
Qed.

Lemma next_of_lt i s : i < n → s < a → next_of (raw info) i s < n.
Proof.
  intros Hi Hs. destruct (wf_rows_alpha _ Hrows) as [_ Ha].
  destruct Hrows as (_ & _ & _ & _ & Hnext & _).
  apply Hnext; [done|]. unfold impl_alpha_size in Hs. lia.
Qed.

(** What the body of the loop over the Sherman states leaves in the
    Sherman region: the record of state [i], in its own slot. *)
Lemma compile16_sherman_record st i :
  i < n → is_sherman info i = true →
  cur_of i + SHERMAN_FIXED_SIZE L ≤ length (as_sherman st) →
  let st' := compile16_sherman L info g ro base st i in
  length (as_sherman st') = length (as_sherman st)
  ∧ (∀ q, ¬ (cur_of i ≤ q < cur_of i + SHERMAN_FIXED_SIZE L) →
          as_sherman st' !!! q = as_sherman st !!! q)
  ∧ sherman_record L (as_sherman st') (cur_of i) (length (ov_of i))
      (Z.of_nat (implId info (daddy_of i))) (chars_of i) (succs_of i).
Proof.
  intros Hi Hsh Hfit. destruct (sherman_len i Hsh) as [Hlen8 Hlen].
  destruct (Hlayout _ Hlen8) as [Hlo Hhi].
  destruct (Hinv i Hsh) as (Hd & _).
  destruct (wf_rows_alpha _ Hrows) as [Ha _]. fold a in Ha.
  cbv zeta. unfold compile16_sherman. rewrite Hsh. cbn [negb].
  destruct (place_accel _ _ _ _ _) as [ax2 off]. cbn [as_sherman].
  rewrite Hlen, Nat2Z.id.
  rewrite (pointer_loop_bytes
             (λ s, next_of (raw info) i s ≠ next_of (raw info) (daddy_of i) s)).
  cbn [fst].
  rewrite (pointer_loop_u16
             (λ s, next_of (raw info) i s ≠ next_of (raw info) (daddy_of i) s)).
  cbn [fst]. fold (ov_of i).
  rewrite store_u16_write, !insert_write_bytes.
  unfold SHERMAN_TYPE_OFFSET, SHERMAN_LEN_OFFSET, SHERMAN_DADDY_OFFSET,
    SHERMAN_CHARS_OFFSET in *.
  set (mem := as_sherman st) in *.
  set (cur := cur_of i) in *.
  set (ov := ov_of i) in *.
  assert (Hsuccs_len :
    length (((λ s, Z.of_nat (implId info (next_of (raw info) i s))) <$> ov)
              ≫= u16_bytes) = 2 * length ov).
  { by rewrite u16_bytes_bind_length, length_fmap. }
  assert (Hov : ∀ k, k < length ov → ov !!! k < a).
  { intros k Hk. apply (overrides_elem info i (daddy_of i)).
    apply list_elem_of_lookup_total_2. done. }
  split_and!.
  - by rewrite !write_bytes_length.
  - intros q Hq. rewrite !write_bytes_lookup, !write_bytes_length.
    rewrite Hsuccs_len, !length_fmap. cbn [length u16_bytes].
    repeat (rewrite decide_False by lia). done.
  - unfold sherman_record, load_u16.
    unfold SHERMAN_TYPE_OFFSET, SHERMAN_LEN_OFFSET, SHERMAN_DADDY_OFFSET,
      SHERMAN_CHARS_OFFSET.
    split_and!.
    + rewrite !write_bytes_lookup, !write_bytes_length.
      rewrite Hsuccs_len, !length_fmap. cbn [length u16_bytes].
      rewrite decide_False by lia. rewrite decide_False by lia.
      rewrite decide_False by lia. rewrite decide_True by lia.
      by rewrite Nat.sub_diag.
    + rewrite !write_bytes_lookup, !write_bytes_length.
      rewrite Hsuccs_len, !length_fmap. cbn [length u16_bytes].
      rewrite (decide_False (P := cur + SHERMAN_STATES_OFFSET L (length ov)
                                  ≤ cur + 2 < _ ∧ _)) by lia.
      rewrite (decide_False (P := cur + SHERMAN_STATES_OFFSET L (length ov)
                                  ≤ S (cur + 2) < _ ∧ _)) by lia.
      rewrite (decide_False (P := cur + 4 ≤ cur + 2 < _ ∧ _)) by lia.
      rewrite (decide_False (P := cur + 4 ≤ S (cur + 2) < _ ∧ _)) by lia.
      rewrite (decide_True (P := cur + 2 ≤ cur + 2 < _ ∧ _)) by lia.
      rewrite (decide_True (P := cur + 2 ≤ S (cur + 2) < _ ∧ _)) by lia.
      replace (cur + 2 - (cur + 2)) with 0 by lia.
      replace (S (cur + 2) - (cur + 2)) with 1 by lia.
      apply load_u16_bytes; [|done..].
      pose proof (implId_u16 (daddy_of i) ltac:(lia)). lia.
    + by rewrite length_fmap.
    + by rewrite length_fmap.
    + intros k Hk. rewrite !write_bytes_lookup, !write_bytes_length.
      rewrite Hsuccs_len, !length_fmap. cbn [length u16_bytes].
      rewrite decide_False by lia. rewrite decide_True by lia.
      replace (cur + 4 + k - (cur + 4)) with k by lia.
      rewrite !lookup_total_fmap_nat by done.
      unfold u8. pose proof (Hov k Hk). lia.
    + intros k Hk. fold (load_u16
        (write_bytes
           (write_bytes
              (write_bytes
                 (write_bytes (write_bytes mem (cur + 0) [SHERMAN_STATE])
                    (cur + 1) [Z.of_nat (length ov)])
                 (cur + 2) (u16_bytes (Z.of_nat (implId info (daddy_of i)))))
              (cur + 4) ((λ s, u8 (Z.of_nat s)) <$> ov))
           (cur + SHERMAN_STATES_OFFSET L (length ov))
           (((λ s, Z.of_nat (implId info (next_of (raw info) i s))) <$> ov)
              ≫= u16_bytes))
        (cur + SHERMAN_STATES_OFFSET L (length ov) + 2 * k)).
      rewrite load_u16_written; [done|by rewrite length_fmap|..].
      * rewrite !write_bytes_length, length_fmap. lia.
      * rewrite lookup_total_fmap_nat by done.
        pose proof (implId_u16 (next_of (raw info) i (ov !!! k))
                      (next_of_lt i _ Hi (Hov k Hk))). lia.
Qed.

End compile16_sherman_region.

(** * Further properties of the compiler *)

(** ** The alphabet shift *)

(** [getAlphaShift] returns the smallest shift, at least 1, whose rows
    hold the implementation alphabet: a row of [1 << alphaShift] slots
    has room for every symbol, half of it would not (unless the shift is
    the minimal 1), and the shift is at most 8 as [mcclellanCompile16]
    and [fillInBasicState8] assert. *)
Theorem getAlphaShift_smallest info :
  impl_alpha_size info ≤ 256 →
  let k := getAlphaShift info in
  1 ≤ k ≤ 8
  ∧ impl_alpha_size info ≤ 2 ^ k
  ∧ (k = 1 ∨ 2 ^ (k - 1) < impl_alpha_size info).
Proof.
  intros Ha. cbv zeta. unfold getAlphaShift.
  destruct (impl_alpha_size info <? 2) eqn:Hsmall.
  { apply Nat.ltb_lt in Hsmall. cbn. split_and!; try lia. }
  apply Nat.ltb_ge in Hsmall.
  set (x := (Z.of_nat (impl_alpha_size info) - 1)%Z).
  assert (Hx : (0 < x < 2 ^ 8)%Z) by (subst x; lia).
  pose proof (Z.log2_spec x ltac:(lia)) as Hspec.
  assert (Hlog : (0 ≤ Z.log2 x < 8)%Z).
  { split; [apply Z.log2_nonneg|]. apply Z.log2_lt_pow2; lia. }
  unfold clz32, u8.
  replace ((32 - (31 - Z.log2 x)) mod 256)%Z with (Z.succ (Z.log2 x)) by lia.
  rewrite Z2Nat.inj_succ by lia.
  replace (S (Z.to_nat (Z.log2 x)) - 1) with (Z.to_nat (Z.log2 x)) by lia.
  split_and!.
  - lia.
  - lia.
  - apply Nat2Z.inj_le. rewrite Nat2Z.inj_pow.
    replace (Z.of_nat (S (Z.to_nat (Z.log2 x)))) with (Z.succ (Z.log2 x))
      by lia.
    change (Z.of_nat 2) with 2%Z. lia.
  - right. apply Nat2Z.inj_lt. rewrite Nat2Z.inj_pow, Z2Nat.id by lia.
    change (Z.of_nat 2) with 2%Z. lia.
Qed.

Lemma getAlphaShift_smallest_witness :
  impl_alpha_size (mk_dfa_info sherman_dfa) ≤ 256
  ∧ let k := getAlphaShift (mk_dfa_info sherman_dfa) in
    1 ≤ k ≤ 8
    ∧ impl_alpha_size (mk_dfa_info sherman_dfa) ≤ 2 ^ k
    ∧ (k = 1 ∨ 2 ^ (k - 1) < impl_alpha_size (mk_dfa_info sherman_dfa)).
Proof.
  split; [vm_compute; lia|].
  apply (getAlphaShift_smallest (mk_dfa_info sherman_dfa)).
  vm_compute. lia.
Defined.

(** ** The donors of a state *)

(** Every state that [find_better_daddy] considers as a donor for
    [curr_id] precedes it (the [assert(donor < curr_id)] of the search
    loop cannot fail), whatever the daddy hints in the raw DFA are. *)
Theorem hinted_donors_precede info curr_id donor :
  donor ∈ merge_sort Nat.le (elements (hinted_set info curr_id)) →
  donor < curr_id.
Proof.
  intros Hin. apply (hinted_set_earlier info).
  by apply elem_of_sorted_elements.
Qed.

Lemma hinted_donors_precede_witness :
  1 ∈ merge_sort Nat.le (elements (hinted_set (mk_dfa_info sherman_dfa) 2))
  ∧ 1 < 2.
Proof.
  assert (H : 1 ∈ merge_sort Nat.le
                (elements (hinted_set (mk_dfa_info sherman_dfa) 2))).
  { apply (bool_decide_unpack _). vm_compute. exact I. }
  split; [exact H|].
  exact (hinted_donors_precede (mk_dfa_info sherman_dfa) 2 1 H).
Defined.

(** ** The Sherman states of a DFA *)

Lemma mk_dfa_info_fresh r i :
  is_sherman (mk_dfa_info r) i = false
  ∧ info_is_accel (mk_dfa_info r) i = false
  ∧ length (extra (mk_dfa_info r)) = length (states r).
Proof.
  unfold is_sherman, info_is_accel, mk_dfa_info. cbn [extra].
  rewrite length_replicate. split_and!; [| |done].
  - destruct (decide (i < length (states r))).
    + by rewrite lookup_total_replicate_2.
    + rewrite list_lookup_total_alt, lookup_ge_None_2; [done|].
      rewrite length_replicate. lia.
  - destruct (decide (i < length (states r))).
    + by rewrite lookup_total_replicate_2.
    + rewrite list_lookup_total_alt, lookup_ge_None_2; [done|].
      rewrite length_replicate. lia.
Qed.

(** After [find_better_daddy] has run over all the states of a
    well-formed DFA (as in [mcclellanCompile_i]), the dead state is not a
    Sherman state, and every Sherman state has a daddy that precedes it
    and is not itself a Sherman state; its [daddytaken] counts the symbols
    on which it agrees with the daddy, and at most
    [MAX_SHERMAN_LIST_LEN] = 8 symbols are left to override, so that the
    [assert(len <= 9)] of [mcclellanCompile16] holds.  The rows of the DFA
    are not changed. *)
Theorem find_all_daddies_sherman_states r using8bit cyc g :
  wf_raw r →
  (Z.of_nat (length (states r)) ≤ 65536)%Z →
  let info' := find_all_daddies (mk_dfa_info r) using8bit cyc g in
  is_sherman info' 0 = false
  ∧ (∀ s i, next_of (raw info') s i = next_of r s i)
  ∧ ∀ i, is_sherman info' i = true →
         let d := daddy (states (raw info') !!! i) in
         d < i ∧ i < length (states r)
         ∧ is_sherman info' d = false
         ∧ daddytaken (extra info' !!! i) = daddy_score info' i d
         ∧ impl_alpha_size info' - daddytaken (extra info' !!! i) ≤ 8.
Proof.
  intros Hwf Hsize info'.
  destruct (wf_rows_alpha r (wf_raw_rows r Hwf)) as [Ha _].
  destruct (find_all_daddies_spec (mk_dfa_info r) using8bit cyc g)
    as (Hrows & Hlen & Hinv).
  { unfold impl_alpha_size. cbn [raw mk_dfa_info]. lia. }
  { done. }
  { apply (mk_dfa_info_fresh r 0). }
  { intros i. apply (mk_dfa_info_fresh r i). }
  fold info' in Hrows, Hlen, Hinv.
  assert (Hsz : info_size info' = length (states r)).
  { unfold info_size. by destruct Hrows as (_ & _ & _ & _ & _ & <- & _). }
  split_and!.
  - destruct (is_sherman info' 0) eqn:E; [|done].
    destruct (Hinv 0 E) as (? & _). lia.
  - intros s i. symmetry. apply (rows_agree_next_of _ _ s i Hrows).
  - intros i Hi. destruct (Hinv i Hi) as (? & ? & ? & ? & ?).
    cbv zeta. rewrite <-Hsz. split_and!; [done..|lia].
Qed.

Lemma find_all_daddies_sherman_states_witness :
  wf_raw sherman_dfa
  ∧ (Z.of_nat (length (states sherman_dfa)) ≤ 65536)%Z
  ∧ let info' := find_all_daddies (mk_dfa_info sherman_dfa) false false
                                  grey_16bit in
    is_sherman info' 0 = false
    ∧ (∀ s i, next_of (raw info') s i = next_of sherman_dfa s i)
    ∧ ∀ i, is_sherman info' i = true →
           let d := daddy (states (raw info') !!! i) in
           d < i ∧ i < length (states sherman_dfa)
           ∧ is_sherman info' d = false
           ∧ daddytaken (extra info' !!! i) = daddy_score info' i d
           ∧ impl_alpha_size info' - daddytaken (extra info' !!! i) ≤ 8.
Proof.
  assert (Hwf : wf_raw sherman_dfa).
  { apply (bool_decide_unpack _). vm_compute. exact I. }
  assert (Hsz : (Z.of_nat (length (states sherman_dfa)) ≤ 65536)%Z).
  { vm_compute. discriminate. }
  split; [exact Hwf|]. split; [exact Hsz|].
  exact (find_all_daddies_sherman_states sherman_dfa false false grey_16bit
           Hwf Hsz).
Defined.

(** ** The 16-bit numbering *)



(** When [allocateFSN16] succeeds (and the dead state is not marked as a
    Sherman state), the dead state has id 0, the ids are distinct and
    below the number of states, the states that are not Sherman states
    have the ids below [*sherman_base] and the Sherman states the ids from
    [*sherman_base] on, in the order of the input within each group; only
    the ids of the states are changed. *)
Theorem allocateFSN16_numbering info info' sherman_base :
  0 < info_size info →
  is_sherman info 0 = false →
  allocateFSN16 info = (info', sherman_base, false) →
  implId info' 0 = 0
  ∧ 1 ≤ sherman_base ≤ info_size info
  ∧ (∀ i, i < info_size info →
          implId info' i < info_size info
          ∧ (implId info' i < sherman_base ↔ is_sherman info i = false))
  ∧ (∀ i i', i < info_size info → i' < info_size info →
             implId info' i = implId info' i' → i = i')
  ∧ (∀ i i', i < i' < info_size info →
             is_sherman info i = is_sherman info i' →
             implId info' i < implId info' i')
  ∧ extra info' = extra info
  ∧ length (states (raw info')) = info_size info
  ∧ ∀ s, next (states (raw info') !!! s) = next (states (raw info) !!! s)
         ∧ daddy (states (raw info') !!! s) = daddy (states (raw info) !!! s)
         ∧ reports (states (raw info') !!! s)
           = reports (states (raw info) !!! s)
         ∧ reports_eod (states (raw info') !!! s)
           = reports_eod (states (raw info) !!! s).
Proof.
  intros Hpos Hdead Halloc.
  destruct (allocateFSN16_spec info info' sherman_base Hpos Hdead Halloc)
    as (Hsize & Hag & Hextra & Hnum & _ & Horder).
  pose proof (info_agree_size _ _ Hag) as Hsz.
  destruct Hnum as (H0 & Hb & Hnorm & Hsherm & Hinj & _).
  rewrite Hsz in *.
  assert (Hsh : ∀ i, is_sherman info' i = is_sherman info i).
  { intros i. apply (info_agree_sherman _ _ i Hag). }
  split_and!; try done; try lia.
  - intros i Hi. destruct (decide (i = 0)) as [->|Hne].
    { rewrite H0, Hdead. split; [lia|]. split; [done|lia]. }
    destruct (is_sherman info i) eqn:E.
    + pose proof (Hsherm i ltac:(lia) ltac:(by rewrite Hsh)).
      split; [lia|]. split; [lia|done].
    + pose proof (Hnorm i ltac:(lia) ltac:(by rewrite Hsh)).
      split; [lia|]. split; [done|lia].
  - intros s. destruct Hag as ((_ & _ & _ & _ & _ & _ & Hrow) & Hd & _).
    destruct (Hrow s) as (-> & -> & ->). by rewrite Hd.
Qed.

Lemma allocateFSN16_numbering_witness :
  let info := find_all_daddies (mk_dfa_info sherman_dfa) false false
                               grey_16bit in
  ∃ info' sherman_base,
    allocateFSN16 info = (info', sherman_base, false)
    ∧ implId info' 0 = 0
    ∧ 1 ≤ sherman_base ≤ info_size info
    ∧ (∀ i, i < info_size info →
            implId info' i < info_size info
            ∧ (implId info' i < sherman_base ↔ is_sherman info i = false))
    ∧ (∀ i i', i < info_size info → i' < info_size info →
               implId info' i = implId info' i' → i = i')
    ∧ (∀ i i', i < i' < info_size info →
               is_sherman info i = is_sherman info i' →
               implId info' i < implId info' i')
    ∧ extra info' = extra info
    ∧ length (states (raw info')) = info_size info
    ∧ ∀ s, next (states (raw info') !!! s) = next (states (raw info) !!! s)
           ∧ daddy (states (raw info') !!! s)
             = daddy (states (raw info) !!! s)
           ∧ reports (states (raw info') !!! s)
             = reports (states (raw info) !!! s)
           ∧ reports_eod (states (raw info') !!! s)
             = reports_eod (states (raw info) !!! s).
Proof.
  cbv zeta.
  destruct (allocateFSN16 (find_all_daddies (mk_dfa_info sherman_dfa) false
                             false grey_16bit))
    as [[info' sherman_base] err] eqn:Halloc.
  assert (err = false) as ->.
  { apply (f_equal snd) in Halloc. cbn [snd] in Halloc. rewrite <-Halloc.
    vm_compute. reflexivity. }
  exists info', sherman_base. split; [reflexivity|].
  apply (allocateFSN16_numbering _ info' sherman_base).
  - vm_compute. lia.
  - vm_compute. reflexivity.
  - exact Halloc.
Defined.

(** ** Reports at end of data *)

Lemma foldl_difference_singletons (l : list ReportID) :
  ∀ X : gset ReportID,
    foldl (λ eod report, eod ∖ {[report]}) X l = X ∖ list_to_set l.
Proof.
  induction l as [|x l IH]; intros X; cbn [foldl].
  - set_solver.
  - rewrite IH. set_solver.
Qed.


Section with_layout.
Context (L : layout).

(** For a DFA with at least one state, [mcclellanCompile] returns an
    image exactly when the DFA has at most 16384 states. *)
Theorem mcclellanCompile_succeeds_iff raw0 cc acc :
  0 < length (states raw0) →
  (∃ n, res_nfa (mcclellanCompile L raw0 cc acc) = Compiled n)
  ↔ (Z.of_nat (length (states raw0)) ≤ 16384)%Z.
Proof.
  intros Hpos. unfold mcclellanCompile. split.
  - intros [n Hn].
    destruct (decide (Z.of_nat (length (states raw0)) ≤ 16384)%Z); [done|].
    rewrite mcclellanCompile_i_overflow in Hn by lia.
    by destruct (hasEodReports _).
  - intros Hsmall. unfold mcclellanCompile_i.
    set (raw1 := if negb (streaming cc) then stripExtraEodReports raw0
                 else raw0).
    assert (Hlen : length (states raw1) = length (states raw0)).
    { subst raw1. destruct (negb (streaming cc)); [|done].
      pose proof (strip_agree raw0) as (_ & _ & _ & _ & _ & Hl & _). done. }
    set (info1 := find_all_daddies _ _ _ _).
    assert (Hsize : info_size info1 = length (states raw0)).
    { subst info1. rewrite find_all_daddies_size. exact Hlen. }
    destruct (negb (allowMcClellan8 (grey cc)
                    && (length (states raw0) <=? 256))).
    + assert (Hsome : is_Some (mcclellanCompile16 L info1 cc).2).
      { unfold mcclellanCompile16.
        pose proof (allocateFSN16_error info1 ltac:(lia)) as Herr.
        destruct (allocateFSN16 info1) as [[i1 base] err]. cbn [snd] in Herr.
        rewrite Herr, bool_decide_eq_false_2 by lia.
        destruct (populateAccelerationInfo i1 (grey cc)). cbn [snd]. eauto. }
      destruct (mcclellanCompile16 L info1 cc) as [info2 [n|]];
        [|by destruct Hsome].
      cbn. eauto.
    + destruct (mcclellanCompile8 L info1 cc) as [info2 n]. cbn. eauto.
Qed.

End with_layout.

Lemma mcclellanCompile_succeeds_iff_witness :
  0 < length (states sherman_dfa)
  ∧ ((∃ n, res_nfa (mcclellanCompile example_layout sherman_dfa cc_16bit None)
           = Compiled n)
     ↔ (Z.of_nat (length (states sherman_dfa)) ≤ 16384)%Z).
Proof.
  split; [vm_compute; lia|].
  apply (mcclellanCompile_succeeds_iff example_layout sherman_dfa cc_16bit None).
  vm_compute. lia.
Defined.

(** ** The table of report sets *)

Lemma gather_fold_inv rss :
  ∀ rl0 rev0 out0,
    gather_inv rl0 rev0 →
    (Z.of_nat (length rl0 + length rss) < MO_INVALID_IDX)%Z →
    ∃ ext rev outs,
      foldl gather_step (rl0, rev0, out0) rss = (rl0 ++ ext, rev, out0 ++ outs)
      ∧ gather_inv (rl0 ++ ext) rev
      ∧ length ext ≤ length rss
      ∧ Forall2 (index_ok (rl0 ++ ext)) rss outs
      ∧ ∀ k, k ∈ ext → k ∈ rss.
Proof.
  induction rss as [|rs rss IH]; intros rl0 rev0 out0 Hinv Hlen.
  { exists [], rev0, []. rewrite !app_nil_r.
    split_and!; [done..|constructor|done]. }
  cbn [length] in Hlen. cbn [foldl gather_step].
  case_bool_decide as Hempty.
  - destruct (IH rl0 rev0 (out0 ++ [MO_INVALID_IDX]) Hinv)
      as (ext & rev & outs & Hfold & Hinv' & Hext & Hall & Hsrc); [lia|].
    exists ext, rev, (MO_INVALID_IDX :: outs).
    rewrite Hfold, <-app_assoc. split_and!; [done|done|cbn; lia| |].
    + constructor; [|done]. unfold index_ok. by rewrite bool_decide_eq_true_2.
    + intros k Hk. apply list_elem_of_further. by apply Hsrc.
  - destruct (rev0 !! rs) as [idx|] eqn:Hlook.
    + destruct (IH rl0 rev0 (out0 ++ [idx]) Hinv)
        as (ext & rev & outs & Hfold & Hinv' & Hext & Hall & Hsrc); [lia|].
      exists ext, rev, (idx :: outs).
      rewrite Hfold, <-app_assoc. split_and!; [done|done|cbn; lia| |].
      * constructor; [|done]. unfold index_ok.
        rewrite bool_decide_eq_false_2 by done.
        destruct Hinv as [Hrev _]. destruct (Hrev rs idx Hlook) as [? Hl].
        split; [done|]. by apply lookup_app_l_Some.
      * intros k Hk. apply list_elem_of_further. by apply Hsrc.
    + assert (Hsz : u32 (Z.of_nat (length rl0)) = Z.of_nat (length rl0)).
      { unfold u32, MO_INVALID_IDX in *. lia. }
      rewrite Hsz.
      destruct (IH (rl0 ++ [rs]) (<[rs := Z.of_nat (length rl0)]> rev0)
                   (out0 ++ [Z.of_nat (length rl0)]))
        as (ext & rev & outs & Hfold & Hinv' & Hext & Hall & Hsrc).
      * destruct Hinv as [Hrev Hfull]. split.
        -- intros k idx. rewrite lookup_insert. case_decide as Hk.
           ++ intros [= <-]. subst k. split; [unfold MO_INVALID_IDX in *; lia|].
              rewrite Nat2Z.id. apply list_lookup_middle. done.
           ++ intros Hk'. by apply (rev_ok_app rl0 [rs] rev0 Hrev).
        -- intros i k Hik.
           apply lookup_app_Some in Hik as [Hik|[Hge Hik]].
           ++ destruct (Hfull i k Hik) as [Hr Hne]. split; [|done].
              rewrite lookup_insert_ne; [done|]. intros ->. congruence.
           ++ apply list_lookup_singleton_Some in Hik as [Hi <-].
              split; [|done]. rewrite lookup_insert. rewrite decide_True by done.
              f_equal. lia.
      * rewrite length_app. cbn [length]. lia.
      * exists ([rs] ++ ext), rev, (Z.of_nat (length rl0) :: outs).
        rewrite Hfold, <-!app_assoc. split_and!.
        -- done.
        -- by rewrite <-app_assoc in Hinv'.
        -- cbn [length app] in *. lia.
        -- rewrite <-app_assoc in Hall. constructor; [|done].
           unfold index_ok. rewrite bool_decide_eq_false_2 by done.
           split; [unfold MO_INVALID_IDX in *; lia|].
           rewrite Nat2Z.id. by apply list_lookup_middle.
        -- intros k [->%list_elem_of_singleton|Hk]%elem_of_app.
           ++ apply list_elem_of_here.
           ++ apply list_elem_of_further. by apply Hsrc.
Qed.

Lemma gather_inv_NoDup rl rev : gather_inv rl rev → NoDup rl.
Proof.
  intros [_ Hfull]. apply NoDup_alt. intros i j k Hi Hj.
  destruct (Hfull i k Hi) as [Hi' _]. destruct (Hfull j k Hj) as [Hj' _].
  rewrite Hi' in Hj'. injection Hj'. lia.
Qed.

Lemma index_ok_cases rl rs idx :
  index_ok rl rs idx ↔
  (rs = ∅ → idx = MO_INVALID_IDX)
  ∧ (rs ≠ ∅ → idx ≠ MO_INVALID_IDX ∧ rl !! Z.to_nat idx = Some rs).
Proof. unfold index_ok. case_bool_decide; naive_solver. Qed.

Lemma Forall2_index_ok_lookup rl (f : dstate → gset ReportID) sts outs s :
  Forall2 (index_ok rl) (f <$> sts) outs →
  s < length sts →
  index_ok rl (f (sts !!! s)) (outs !!! s).
Proof.
  intros Hall Hs.
  destruct (lookup_lt_is_Some_2 sts s Hs) as [st Hst].
  assert (Hf : (f <$> sts) !! s = Some (f st)) by (by rewrite list_lookup_fmap, Hst).
  destruct (Forall2_lookup_l _ _ _ _ _ Hall Hf) as (idx & Hidx & Hok).
  by rewrite (list_lookup_total_correct _ _ _ Hst),
             (list_lookup_total_correct _ _ _ Hidx).
Qed.

(** The table of [gatherReports] and the indices into it. *)
Lemma gather_table rdfa :
  (2 * Z.of_nat (length (states rdfa)) < MO_INVALID_IDX)%Z →
  let g := gatherReports rdfa in
  let n := length (states rdfa) in
  length (g_reports g) = n
  ∧ length (g_reports_eod g) = n
  ∧ NoDup (g_ri g)
  ∧ (∀ rs, rs ∈ g_ri g →
           rs ≠ ∅ ∧ ∃ s, s < n ∧ (reports (states rdfa !!! s) = rs
                                   ∨ reports_eod (states rdfa !!! s) = rs))
  ∧ ∀ s, s < n →
      let st := states rdfa !!! s in
      (reports st = ∅ → g_reports g !!! s = MO_INVALID_IDX)
      ∧ (reports st ≠ ∅ →
         g_reports g !!! s ≠ MO_INVALID_IDX
         ∧ g_ri g !! Z.to_nat (g_reports g !!! s) = Some (reports st))
      ∧ (reports_eod st = ∅ → g_reports_eod g !!! s = MO_INVALID_IDX)
      ∧ (reports_eod st ≠ ∅ →
         g_reports_eod g !!! s ≠ MO_INVALID_IDX
         ∧ g_ri g !! Z.to_nat (g_reports_eod g !!! s)
           = Some (reports_eod st)).
Proof.
  intros Hlen g n.
  assert (∃ rl1 ext outs outs_eod rev,
            g_ri g = rl1 ++ ext ∧ g_reports g = outs
            ∧ g_reports_eod g = outs_eod
            ∧ gather_inv (rl1 ++ ext) rev
            ∧ Forall2 (index_ok rl1) (reports <$> states rdfa) outs
            ∧ Forall2 (index_ok (rl1 ++ ext)) (reports_eod <$> states rdfa)
                      outs_eod
            ∧ (∀ k, k ∈ rl1 → k ∈ reports <$> states rdfa)
            ∧ (∀ k, k ∈ ext → k ∈ reports_eod <$> states rdfa))
    as (rl1 & ext & outs & outs_eod & rev & Hri & Hout & Hout_eod & Hinv
        & Hall1 & Hall2 & Hsrc1 & Hsrc2).
  { subst g. unfold gatherReports.
    destruct (gather_fold_inv (reports <$> states rdfa) [] ∅ [])
      as (rl1 & rev1 & outs & Hfold1 & Hinv1 & Hext1 & Hall1 & Hsrc1).
    { split; [intros k idx; by rewrite lookup_empty|].
      intros i k. by rewrite lookup_nil. }
    { rewrite length_fmap. cbn [length]. lia. }
    cbn [app] in Hfold1, Hinv1, Hall1. rewrite Hfold1.
    rewrite length_fmap in Hext1.
    destruct (gather_fold_inv (reports_eod <$> states rdfa) rl1 rev1 [])
      as (ext & rev & outs_eod & Hfold2 & Hinv2 & Hext2 & Hall2 & Hsrc2);
      [done|rewrite length_fmap; lia|].
    cbn [app] in Hfold2. rewrite Hfold2.
    exists rl1, ext, outs, outs_eod, rev.
    destruct (size _ =? 1); cbn [g_ri g_reports g_reports_eod];
      split_and!; done. }
  assert (Hall1' : Forall2 (index_ok (rl1 ++ ext)) (reports <$> states rdfa)
                           outs).
  { eapply Forall2_impl; [done|]. intros ??. apply index_ok_app. }
  rewrite Hri, Hout, Hout_eod. subst n. split_and!.
  - apply Forall2_length in Hall1. by rewrite length_fmap in Hall1.
  - apply Forall2_length in Hall2. by rewrite length_fmap in Hall2.
  - by eapply gather_inv_NoDup.
  - intros rs Hrs. split.
    + apply list_elem_of_lookup in Hrs as [i Hi].
      destruct Hinv as [_ Hfull]. by destruct (Hfull i rs Hi).
    + apply elem_of_app in Hrs as [Hrs|Hrs].
      * apply Hsrc1, list_elem_of_fmap in Hrs as (st & -> & Hst).
        apply list_elem_of_lookup in Hst as [s Hs]. exists s. split.
        { by eapply lookup_lt_Some. }
        left. by rewrite (list_lookup_total_correct _ _ _ Hs).
      * apply Hsrc2, list_elem_of_fmap in Hrs as (st & -> & Hst).
        apply list_elem_of_lookup in Hst as [s Hs]. exists s. split.
        { by eapply lookup_lt_Some. }
        right. by rewrite (list_lookup_total_correct _ _ _ Hs).
  - intros s Hs st.
    pose proof (Forall2_index_ok_lookup _ reports _ _ s Hall1' Hs) as H1.
    pose proof (Forall2_index_ok_lookup _ reports_eod _ _ s Hall2 Hs) as H2.
    apply index_ok_cases in H1, H2. fold st in H1, H2. naive_solver.
Qed.

(** [gatherReports] builds a table of the distinct non-empty report sets
    of the DFA: no set occurs twice in it, none is empty and each is the
    report set or the end-of-data report set of some state.  A state with
    no reports gets the index [MO_INVALID_IDX]; any other state gets the
    position of its report set in the table (likewise for the end-of-data
    reports). *)
Theorem gatherReports_table rdfa :
  (2 * Z.of_nat (length (states rdfa)) < MO_INVALID_IDX)%Z →
  let g := gatherReports rdfa in
  let n := length (states rdfa) in
  length (g_reports g) = n
  ∧ length (g_reports_eod g) = n
  ∧ NoDup (g_ri g)
  ∧ (∀ rs, rs ∈ g_ri g →
           rs ≠ ∅ ∧ ∃ s, s < n ∧ (reports (states rdfa !!! s) = rs
                                   ∨ reports_eod (states rdfa !!! s) = rs))
  ∧ ∀ s, s < n →
      let st := states rdfa !!! s in
      (reports st = ∅ → g_reports g !!! s = MO_INVALID_IDX)
      ∧ (reports st ≠ ∅ →
         g_reports g !!! s ≠ MO_INVALID_IDX
         ∧ g_ri g !! Z.to_nat (g_reports g !!! s) = Some (reports st))
      ∧ (reports_eod st = ∅ → g_reports_eod g !!! s = MO_INVALID_IDX)
      ∧ (reports_eod st ≠ ∅ →
         g_reports_eod g !!! s ≠ MO_INVALID_IDX
         ∧ g_ri g !! Z.to_nat (g_reports_eod g !!! s)
           = Some (reports_eod st)).
Proof. apply gather_table. Qed.

Lemma gatherReports_table_witness :
  (2 * Z.of_nat (length (states sherman_dfa)) < MO_INVALID_IDX)%Z
  ∧ let rdfa := sherman_dfa in
    let g := gatherReports rdfa in
    let n := length (states rdfa) in
    length (g_reports g) = n
    ∧ length (g_reports_eod g) = n
    ∧ NoDup (g_ri g)
    ∧ (∀ rs, rs ∈ g_ri g →
             rs ≠ ∅ ∧ ∃ s, s < n ∧ (reports (states rdfa !!! s) = rs
                                     ∨ reports_eod (states rdfa !!! s) = rs))
    ∧ ∀ s, s < n →
        let st := states rdfa !!! s in
        (reports st = ∅ → g_reports g !!! s = MO_INVALID_IDX)
        ∧ (reports st ≠ ∅ →
           g_reports g !!! s ≠ MO_INVALID_IDX
           ∧ g_ri g !! Z.to_nat (g_reports g !!! s) = Some (reports st))
        ∧ (reports_eod st = ∅ → g_reports_eod g !!! s = MO_INVALID_IDX)
        ∧ (reports_eod st ≠ ∅ →
           g_reports_eod g !!! s ≠ MO_INVALID_IDX
           ∧ g_ri g !! Z.to_nat (g_reports_eod g !!! s)
             = Some (reports_eod st)).
Proof.
  split; [vm_compute; reflexivity|].
  apply (gatherReports_table sherman_dfa).
  vm_compute. reflexivity.
Defined.

(** ** Acceleration marks *)

Lemma populate_loop info sds k :
  k ≤ length (extra info) →
  (Z.of_nat k ≤ 65536)%Z →
  let st := foldl (λ (st : dfa_info * Z) i,
                     if is_accel (raw info) sds (u16n (Z.of_nat i))
                     then (set_info_extra st.1
                             (alter with_accelerable i (extra st.1)),
                           u32 (st.2 + 1))
                     else st)
                  (info, 0%Z) (seq 0 k) in
  (∀ i, accelerable (extra st.1 !!! i)
        = accelerable (extra info !!! i)
          || ((i <? k) && is_accel (raw info) sds i))
  ∧ st.2 = Z.of_nat (length (filter (λ i, is_accel (raw info) sds i = true)
                                    (seq 0 k)))
  ∧ length (extra st.1) = length (extra info).
Proof.
  induction k as [|k IH]; intros Hk Hsmall; cbv zeta.
  { cbn. split_and!; try done. intros i. by rewrite orb_false_r. }
  rewrite foldl_seq_S.
  destruct IH as (Hacc & Hcount & Hlen); [lia..|].
  set (st := foldl _ _ (seq 0 k)) in *.
  rewrite seq_S, filter_app, length_app, filter_cons, filter_nil. cbn [Nat.add].
  rewrite u16n_small by lia.
  destruct (is_accel (raw info) sds k) eqn:Hk_accel.
  - rewrite decide_True by done. cbn [fst snd set_info_extra extra length].
    split_and!.
    + intros i. rewrite alter_extra_lookup. case_decide as Hi.
      * destruct Hi as [<- _]. cbn [with_accelerable accelerable].
        assert (k <? S k = true) as -> by (apply Nat.ltb_lt; lia).
        rewrite Hk_accel. by rewrite orb_true_r.
      * rewrite Hacc. f_equal.
        assert (i ≠ k) by (intros ->; apply Hi; split; [done|lia]).
        destruct (i <? k) eqn:E1, (i <? S k) eqn:E2; try done;
          [apply Nat.ltb_lt in E1; apply Nat.ltb_ge in E2
          |apply Nat.ltb_ge in E1; apply Nat.ltb_lt in E2]; lia.
    + rewrite Hcount. unfold u32.
      pose proof (length_filter (λ i, is_accel (raw info) sds i = true)
                                (seq 0 k)) as Hle.
      rewrite length_seq in Hle. lia.
    + by rewrite length_alter.
  - rewrite decide_False by done. cbn [length].
    split_and!.
    + intros i. rewrite Hacc. f_equal.
      destruct (decide (i = k)) as [->|].
      { rewrite Hk_accel. by rewrite !andb_false_r. }
      destruct (i <? k) eqn:E1, (i <? S k) eqn:E2; try done;
        [apply Nat.ltb_lt in E1; apply Nat.ltb_ge in E2
        |apply Nat.ltb_ge in E1; apply Nat.ltb_lt in E2]; lia.
    + rewrite Hcount. f_equal. lia.
    + done.
Qed.

(** What [populateAccelerationInfo] marks and counts. *)
Lemma populate_marks info g :
  (Z.of_nat (info_size info) ≤ 65536)%Z →
  length (extra info) = info_size info →
  (∀ i, info_is_accel info i = false) →
  let info' := (populateAccelerationInfo info g).1 in
  let ac := (populateAccelerationInfo info g).2 in
  raw info' = raw info
  ∧ (∀ i, i < info_size info →
          info_is_accel info' i
          = accelerateDFA g
            && is_accel (raw info) (get_sds_or_proxy (raw info)) i)
  ∧ info_is_accel info' 0 = false
  ∧ ac = Z.of_nat (length (filter (λ i, info_is_accel info' i = true)
                                  (seq 0 (info_size info)))).
Proof.
  intros Hsmall Hlen Hfresh info' ac.
  assert (Hfilter : ∀ (P Q : nat → bool) (l : list nat),
            (∀ i, i ∈ l → P i = Q i) →
            filter (λ i, P i = true) l = filter (λ i, Q i = true) l).
  { intros P Q l. induction l as [|x l IH]; intros HPQ; [done|].
    rewrite !filter_cons, (HPQ x) by apply list_elem_of_here.
    rewrite IH; [done|]. intros i Hi. by apply HPQ, list_elem_of_further. }
  split_and!.
  - apply populateAccelerationInfo_spec.
  - subst info' ac. unfold populateAccelerationInfo.
    destruct (accelerateDFA g); cbn [negb andb fst]; [|intros; apply Hfresh].
    intros i Hi.
    destruct (populate_loop info (get_sds_or_proxy (raw info))
                (info_size info)) as (Hacc & _); [lia..|].
    unfold info_is_accel in *. rewrite Hacc, Hfresh.
    apply Nat.ltb_lt in Hi. by rewrite Hi.
  - subst info' ac. unfold populateAccelerationInfo.
    destruct (accelerateDFA g); cbn [negb andb fst]; [|apply Hfresh].
    destruct (populate_loop info (get_sds_or_proxy (raw info))
                (info_size info)) as (Hacc & _); [lia..|].
    unfold info_is_accel in *. rewrite Hacc, Hfresh. cbn [orb].
    unfold is_accel. cbn [Nat.eqb]. by rewrite andb_false_r.
  - subst info' ac. unfold populateAccelerationInfo.
    destruct (accelerateDFA g); cbn [negb andb fst snd].
    + destruct (populate_loop info (get_sds_or_proxy (raw info))
                  (info_size info)) as (Hacc & Hcount & _); [lia..|].
      rewrite Hcount. do 2 f_equal. apply Hfilter.
      intros i Hi%elem_of_seq. unfold info_is_accel in *.
      rewrite Hacc, Hfresh. cbn [orb].
      assert (i <? info_size info = true) as -> by (apply Nat.ltb_lt; lia).
      done.
    + rewrite (Hfilter _ (λ _, false)) by (intros; apply Hfresh).
      assert (∀ l : list nat, filter (λ _, false = true) l = []) as ->; [|done].
      induction l as [|x l IH]; [done|]. by rewrite filter_cons, decide_False.
Qed.

(** [populateAccelerationInfo], run on a DFA none of whose states is
    marked yet, marks exactly the states that [is_accel] accepts (none if
    acceleration is switched off), never the dead state, and returns in
    [*ac] the number of states it marked; the automaton itself is not
    changed. *)
Theorem populateAccelerationInfo_marks info g :
  (Z.of_nat (info_size info) ≤ 65536)%Z →
  length (extra info) = info_size info →
  (∀ i, info_is_accel info i = false) →
  let info' := (populateAccelerationInfo info g).1 in
  let ac := (populateAccelerationInfo info g).2 in
  raw info' = raw info
  ∧ (∀ i, i < info_size info →
          info_is_accel info' i
          = accelerateDFA g
            && is_accel (raw info) (get_sds_or_proxy (raw info)) i)
  ∧ info_is_accel info' 0 = false
  ∧ ac = Z.of_nat (length (filter (λ i, info_is_accel info' i = true)
                                  (seq 0 (info_size info)))).
Proof. apply populate_marks. Qed.

Lemma populateAccelerationInfo_marks_witness :
  let info := mk_dfa_info dverm_dfa in
  let g := grey_16bit in
  (Z.of_nat (info_size info) ≤ 65536)%Z
  ∧ length (extra info) = info_size info
  ∧ (∀ i, info_is_accel info i = false)
  ∧ let info' := (populateAccelerationInfo info g).1 in
    let ac := (populateAccelerationInfo info g).2 in
    raw info' = raw info
    ∧ (∀ i, i < info_size info →
            info_is_accel info' i
            = accelerateDFA g
              && is_accel (raw info) (get_sds_or_proxy (raw info)) i)
    ∧ info_is_accel info' 0 = false
    ∧ ac = Z.of_nat (length (filter (λ i, info_is_accel info' i = true)
                                    (seq 0 (info_size info)))).
Proof.
  cbv zeta.
  assert (H1 : (Z.of_nat (info_size (mk_dfa_info dverm_dfa)) ≤ 65536)%Z)
    by (vm_compute; discriminate).
  assert (H2 : length (extra (mk_dfa_info dverm_dfa))
               = info_size (mk_dfa_info dverm_dfa)) by reflexivity.
  assert (H3 : ∀ i, info_is_accel (mk_dfa_info dverm_dfa) i = false)
    by (intros i; apply mk_dfa_info_fresh).
  split; [exact H1|]. split; [exact H2|]. split; [exact H3|].
  apply (populateAccelerationInfo_marks (mk_dfa_info dverm_dfa) grey_16bit
           H1 H2 H3).
Defined.

(** ** The 8-bit numbering *)

Lemma assign_ids8_spec ids :
  ∀ (sts : list dstate) c,
    NoDup ids →
    (0 ≤ c)%Z → (c + Z.of_nat (length ids) ≤ 65536)%Z →
    let r := assign_ids8 sts ids c in
    length r.1 = length sts
    ∧ (∀ k s, ids !! k = Some s → s < length sts →
              impl_id (r.1 !!! s) = Z.to_nat (c + Z.of_nat k))
    ∧ (∀ s, s ∉ ids → r.1 !!! s = sts !!! s)
    ∧ (∀ s, same_row (sts !!! s) (r.1 !!! s)
            ∧ daddy (sts !!! s) = daddy (r.1 !!! s))
    ∧ r.2 = (c + Z.of_nat (length ids))%Z.
Proof.
  unfold assign_ids8.
  induction ids as [|s0 ids IH]; intros sts c Hnd Hc Hlen; cbn [foldl fst snd].
  { split_and!; [done| |done|done|cbn; lia]. intros k s. by rewrite lookup_nil. }
  apply NoDup_cons in Hnd as [Hnotin Hnd]. cbn [length] in Hlen.
  destruct (IH (alter (with_impl_id (u16n c)) s0 sts) (u32 (c + 1)))
    as (Hl & Hpos & Hout & Hrow & Hcnt);
    [done|unfold u32; lia|unfold u32; lia|].
  rewrite length_alter in Hl. split_and!.
  - done.
  - intros [|k] s.
    + intros [= <-] Hs. rewrite Hout by done.
      rewrite list_lookup_total_alter, decide_True by done. cbn.
      unfold u16n, u16. f_equal. lia.
    + cbn [lookup list_lookup]. intros Hk Hs.
      rewrite (Hpos k s Hk) by (by rewrite length_alter).
      apply lookup_lt_Some in Hk. unfold u32. lia.
  - intros s Hs. rewrite Hout.
    + rewrite list_lookup_total_alter. rewrite decide_False; [done|].
      intros [<- _]. apply Hs, list_elem_of_here.
    + intros ?. by apply Hs, list_elem_of_further.
  - intros s. destruct (Hrow s) as [Hr Hd].
    assert (same_row (sts !!! s)
              (alter (with_impl_id (u16n c)) s0 sts !!! s)
            ∧ daddy (sts !!! s)
              = daddy (alter (with_impl_id (u16n c)) s0 sts !!! s))
      as [Hr0 Hd0].
    { rewrite list_lookup_total_alter.
      case_decide as H; [destruct H as [<- _]|]; done. }
    split; [by eapply same_row_trans|congruence].
  - rewrite Hcnt. cbn [length]. unfold u32. lia.
Qed.

Lemma length_filter_split3 {A} (P Q R : A → Prop)
    `{!∀ x, Decision (P x)} `{!∀ x, Decision (Q x)} `{!∀ x, Decision (R x)}
    (l : list A) :
  (∀ x, (P x ∧ ¬ Q x ∧ ¬ R x) ∨ (¬ P x ∧ Q x ∧ ¬ R x)
        ∨ (¬ P x ∧ ¬ Q x ∧ R x)) →
  length (filter P l) + length (filter Q l) + length (filter R l) = length l.
Proof.
  intros Hone. induction l as [|x l IH]; [done|].
  rewrite !filter_cons. specialize (Hone x).
  destruct (decide (P x)), (decide (Q x)), (decide (R x));
    cbn [length]; try lia; tauto.
Qed.

(** How [allocateFSN8] numbers a state: the dead state is 0, and any other
    state is numbered by its position in one of the three vectors, which
    are laid out one after the other. *)
Lemma allocateFSN8_class info :
  0 < info_size info ≤ 256 →
  let n := info_size info in
  let r := allocateFSN8 info in
  let rep i := reports (states (raw info) !!! i) in
  ∃ norm accel accept : list nat,
    length norm + length accel + length accept = n - 1
    ∧ NoDup norm ∧ NoDup accel ∧ NoDup accept
    ∧ r.1.2 = (1 + Z.of_nat (length norm))%Z
    ∧ r.2 = (1 + Z.of_nat (length norm) + Z.of_nat (length accel))%Z
    ∧ extra r.1.1 = extra info
    ∧ length (states (raw r.1.1)) = n
    ∧ (∀ s, same_row (states (raw info) !!! s) (states (raw r.1.1) !!! s)
            ∧ daddy (states (raw info) !!! s)
              = daddy (states (raw r.1.1) !!! s))
    ∧ ∀ i, i < n →
        (i = 0 ∧ implId r.1.1 i = 0)
        ∨ (0 < i ∧ rep i = ∅ ∧ info_is_accel info i = false
           ∧ ∃ k, norm !! k = Some i ∧ implId r.1.1 i = 1 + k)
        ∨ (0 < i ∧ rep i = ∅ ∧ info_is_accel info i = true
           ∧ ∃ k, accel !! k = Some i
                  ∧ implId r.1.1 i = 1 + length norm + k)
        ∨ (0 < i ∧ rep i ≠ ∅
           ∧ ∃ k, accept !! k = Some i
                  ∧ implId r.1.1 i = 1 + length norm + length accel + k).
Proof.
  intros Hsize n r rep. subst r. unfold allocateFSN8. fold n.
  assert (Hlenn : length (states (raw info)) = n) by done.
  set (ids := seq 1 (n - 1)).
  set (accept := filter (λ i, reports (states (raw info) !!! i) ≠ ∅) ids).
  set (accel := filter (λ i, reports (states (raw info) !!! i) = ∅
                             ∧ info_is_accel info i = true) ids).
  set (norm := filter (λ i, reports (states (raw info) !!! i) = ∅
                            ∧ info_is_accel info i = false) ids).
  set (sts0 := alter (with_impl_id 0) 0 (states (raw info))).
  assert (Hcount : length norm + length accel + length accept = n - 1).
  { subst norm accel accept. rewrite length_filter_split3.
    - subst ids. apply length_seq.
    - intros x. destruct (decide (reports (states (raw info) !!! x) = ∅)),
        (info_is_accel info x); naive_solver. }
  assert (Hids : NoDup ids) by apply NoDup_seq.
  assert (Hl0 : length sts0 = n) by apply length_alter.
  destruct (assign_ids8_spec norm sts0 1)
    as (Hl1 & Hpos1 & Hout1 & Hrow1 & Hc1); [by apply NoDup_filter|lia|lia|].
  destruct (assign_ids8 sts0 norm 1) as [sts1 j1].
  cbn [fst snd] in Hl1, Hpos1, Hout1, Hrow1, Hc1. subst j1.
  destruct (assign_ids8_spec accel sts1 (1 + Z.of_nat (length norm)))
    as (Hl2 & Hpos2 & Hout2 & Hrow2 & Hc2); [by apply NoDup_filter|lia|lia|].
  destruct (assign_ids8 sts1 accel _) as [sts2 j2].
  cbn [fst snd] in Hl2, Hpos2, Hout2, Hrow2, Hc2. subst j2.
  destruct (assign_ids8_spec accept sts2
              (1 + Z.of_nat (length norm) + Z.of_nat (length accel)))
    as (Hl3 & Hpos3 & Hout3 & Hrow3 & _); [by apply NoDup_filter|lia|lia|].
  destruct (assign_ids8 sts2 accept _) as [sts3 j3].
  cbn [fst snd] in Hl3, Hpos3, Hout3, Hrow3.
  assert (Hrow0 : ∀ s, same_row (states (raw info) !!! s) (sts0 !!! s)
                       ∧ daddy (states (raw info) !!! s) = daddy (sts0 !!! s)).
  { intros s. subst sts0. rewrite list_lookup_total_alter.
    case_decide as H; [destruct H as [<- _]|]; done. }
  exists norm, accel, accept. cbn [fst snd].
  split_and!.
  - done.
  - by apply NoDup_filter.
  - by apply NoDup_filter.
  - by apply NoDup_filter.
  - unfold u16. lia.
  - unfold u16. lia.
  - done.
  - unfold set_info_states. cbn [raw states set_states]. lia.
  - intros s. unfold set_info_states. cbn [raw states set_states].
    destruct (Hrow0 s) as [R0 D0], (Hrow1 s) as [R1 D1],
      (Hrow2 s) as [R2 D2], (Hrow3 s) as [R3 D3].
    split; [|congruence].
    eapply same_row_trans; [apply R0|]. eapply same_row_trans; [apply R1|].
    eapply same_row_trans; [apply R2|apply R3].
  - intros i Hi. unfold implId, set_info_states. cbn [raw states set_states].
    assert (H0 : 0 ∉ norm ∧ 0 ∉ accel ∧ 0 ∉ accept).
    { subst norm accel accept ids.
      rewrite !list_elem_of_filter, !elem_of_seq. lia. }
    destruct (decide (i = 0)) as [->|Hne].
    { left. split; [done|]. destruct H0 as (? & ? & ?).
      rewrite Hout3, Hout2, Hout1 by done.
      subst sts0. rewrite list_lookup_total_alter.
      by rewrite decide_True by lia. }
    right. assert (Hin : i ∈ ids) by (apply elem_of_seq; lia).
    destruct (decide (reports (states (raw info) !!! i) = ∅)) as [Hr|Hr].
    + destruct (info_is_accel info i) eqn:Hacc.
      * right. left.
        assert (Hi2 : i ∈ accel) by (by apply list_elem_of_filter).
        assert (Hi3 : i ∉ accept).
        { subst accept. rewrite list_elem_of_filter. tauto. }
        apply list_elem_of_lookup in Hi2 as [k Hk].
        split_and!; [lia|done|done|]. exists k. split; [done|].
        rewrite Hout3 by done. rewrite (Hpos2 k i Hk) by lia. lia.
      * left.
        assert (Hi1 : i ∈ norm) by (by apply list_elem_of_filter).
        assert (Hi2 : i ∉ accel).
        { subst accel. rewrite list_elem_of_filter. intros [[_ ?] _].
          congruence. }
        assert (Hi3 : i ∉ accept).
        { subst accept. rewrite list_elem_of_filter. tauto. }
        apply list_elem_of_lookup in Hi1 as [k Hk].
        split_and!; [lia|done|done|]. exists k. split; [done|].
        rewrite Hout3, Hout2 by done. rewrite (Hpos1 k i Hk) by lia. lia.
    + right. right.
      assert (Hi3 : i ∈ accept) by (by apply list_elem_of_filter).
      apply list_elem_of_lookup in Hi3 as [k Hk].
      split_and!; [lia|done|]. exists k. split; [done|].
      rewrite (Hpos3 k i Hk) by lia. lia.
Qed.

(** The three zones of [allocateFSN8]. *)
Lemma allocateFSN8_zone_spec info :
  0 < info_size info ≤ 256 →
  let n := info_size info in
  let info' := (allocateFSN8 info).1.1 in
  let accel_limit := (allocateFSN8 info).1.2 in
  let accept_limit := (allocateFSN8 info).2 in
  implId info' 0 = 0
  ∧ (1 ≤ accel_limit ≤ accept_limit)%Z
  ∧ (accept_limit ≤ Z.of_nat n)%Z
  ∧ (∀ i, 0 < i < n →
          let id := Z.of_nat (implId info' i) in
          let rep := reports (states (raw info) !!! i) in
          (1 ≤ id < Z.of_nat n)%Z
          ∧ ((id < accel_limit)%Z
             ↔ rep = ∅ ∧ info_is_accel info i = false)
          ∧ ((accel_limit ≤ id < accept_limit)%Z
             ↔ rep = ∅ ∧ info_is_accel info i = true)
          ∧ ((accept_limit ≤ id)%Z ↔ rep ≠ ∅))
  ∧ (∀ i i', i < n → i' < n → implId info' i = implId info' i' → i = i')
  ∧ extra info' = extra info
  ∧ length (states (raw info')) = n
  ∧ ∀ s, next (states (raw info') !!! s) = next (states (raw info) !!! s)
         ∧ daddy (states (raw info') !!! s) = daddy (states (raw info) !!! s)
         ∧ reports (states (raw info') !!! s)
           = reports (states (raw info) !!! s)
         ∧ reports_eod (states (raw info') !!! s)
           = reports_eod (states (raw info) !!! s).
Proof.
  intros Hsize n info' accel_limit accept_limit.
  destruct (allocateFSN8_class info Hsize)
    as (norm & accel & accept & Hcount & Hnd1 & Hnd2 & Hnd3 & Hl1 & Hl2
        & Hextra & Hlen & Hrows & Hclass).
  fold n in Hcount, Hlen, Hclass. fold info' in Hextra, Hlen, Hrows, Hclass.
  fold accel_limit in Hl1. fold accept_limit in Hl2.
  split_and!; try done; try lia.
  - destruct (Hclass 0) as [[_ ?]|[(? & _)|[(? & _)|(? & _)]]]; [lia|done|lia..].
  - intros i Hi id rep. subst id rep.
    destruct (Hclass i ltac:(lia))
      as [[? _]|[(_ & Hr & Ha & k & Hk & ->)|[(_ & Hr & Ha & k & Hk & ->)
                |(_ & Hr & k & Hk & ->)]]];
      [lia|..]; apply lookup_lt_Some in Hk;
      (split_and!; [lia|lia|..]); rewrite ?Ha;
      (split; [try lia|try (intros; lia)]);
      try (intros _; split; [done|]); try done;
      try (intros [? ?]; congruence).
  - intros i i' Hi Hi' Heq.
    destruct (Hclass i Hi)
      as [[-> E]|[(? & _ & _ & k & Hk & E)|[(? & _ & _ & k & Hk & E)
                 |(? & _ & k & Hk & E)]]];
      destruct (Hclass i' Hi')
        as [[-> E']|[(? & _ & _ & k' & Hk' & E')|[(? & _ & _ & k' & Hk' & E')
                    |(? & _ & k' & Hk' & E')]]];
      rewrite ?E, ?E' in Heq;
      try apply lookup_lt_Some in Hk as Hlt;
      try apply lookup_lt_Some in Hk' as Hlt';
      try lia;
      (assert (k = k') as -> by lia); congruence.
  - intros s. destruct (Hrows s) as [(-> & -> & ->) ->]. done.
Qed.

(** [allocateFSN8] lays the ids out in three zones.  For a DFA with at
    most 256 states the dead state gets id 0, the ids are distinct and
    below the number of states, and for every other state: the id is
    below [*accel_limit] exactly if the state has no reports and is not
    accelerable, from [*accel_limit] and below [*accept_limit] exactly if
    it has no reports and is accelerable, and from [*accept_limit] on
    exactly if it has reports.  Only the ids of the states are changed. *)
Theorem allocateFSN8_zones info :
  0 < info_size info ≤ 256 →
  let n := info_size info in
  let info' := (allocateFSN8 info).1.1 in
  let accel_limit := (allocateFSN8 info).1.2 in
  let accept_limit := (allocateFSN8 info).2 in
  implId info' 0 = 0
  ∧ (1 ≤ accel_limit ≤ accept_limit)%Z
  ∧ (accept_limit ≤ Z.of_nat n)%Z
  ∧ (∀ i, 0 < i < n →
          let id := Z.of_nat (implId info' i) in
          let rep := reports (states (raw info) !!! i) in
          (1 ≤ id < Z.of_nat n)%Z
          ∧ ((id < accel_limit)%Z
             ↔ rep = ∅ ∧ info_is_accel info i = false)
          ∧ ((accel_limit ≤ id < accept_limit)%Z
             ↔ rep = ∅ ∧ info_is_accel info i = true)
          ∧ ((accept_limit ≤ id)%Z ↔ rep ≠ ∅))
  ∧ (∀ i i', i < n → i' < n → implId info' i = implId info' i' → i = i')
  ∧ extra info' = extra info
  ∧ length (states (raw info')) = n
  ∧ ∀ s, next (states (raw info') !!! s) = next (states (raw info) !!! s)
         ∧ daddy (states (raw info') !!! s) = daddy (states (raw info) !!! s)
         ∧ reports (states (raw info') !!! s)
           = reports (states (raw info) !!! s)
         ∧ reports_eod (states (raw info') !!! s)
           = reports_eod (states (raw info) !!! s).
Proof. apply allocateFSN8_zone_spec. Qed.

Lemma allocateFSN8_zones_witness :
  let info := mk_dfa_info sherman_dfa in
  0 < info_size info ≤ 256
  ∧ let n := info_size info in
    let info' := (allocateFSN8 info).1.1 in
    let accel_limit := (allocateFSN8 info).1.2 in
    let accept_limit := (allocateFSN8 info).2 in
    implId info' 0 = 0
    ∧ (1 ≤ accel_limit ≤ accept_limit)%Z
    ∧ (accept_limit ≤ Z.of_nat n)%Z
    ∧ (∀ i, 0 < i < n →
            let id := Z.of_nat (implId info' i) in
            let rep := reports (states (raw info) !!! i) in
            (1 ≤ id < Z.of_nat n)%Z
            ∧ ((id < accel_limit)%Z
               ↔ rep = ∅ ∧ info_is_accel info i = false)
            ∧ ((accel_limit ≤ id < accept_limit)%Z
               ↔ rep = ∅ ∧ info_is_accel info i = true)
            ∧ ((accept_limit ≤ id)%Z ↔ rep ≠ ∅))
    ∧ (∀ i i', i < n → i' < n → implId info' i = implId info' i' → i = i')
    ∧ extra info' = extra info
    ∧ length (states (raw info')) = n
    ∧ ∀ s, next (states (raw info') !!! s) = next (states (raw info) !!! s)
           ∧ daddy (states (raw info') !!! s)
             = daddy (states (raw info) !!! s)
           ∧ reports (states (raw info') !!! s)
             = reports (states (raw info) !!! s)
           ∧ reports_eod (states (raw info') !!! s)
             = reports_eod (states (raw info) !!! s).
Proof.
  cbv zeta. split; [vm_compute; lia|].
  apply (allocateFSN8_zones (mk_dfa_info sherman_dfa)).
  vm_compute. lia.
Defined.

(** * The compiled image *)

(** ** Sizes *)

Lemma ROUNDUP_16_ge x : (0 ≤ x)%Z → (x ≤ ROUNDUP_16 x)%Z.
Proof.
  intros Hx. unfold ROUNDUP_16, ROUNDUP_N.
  change (16 - 1)%Z with (Z.ones 4).
  rewrite <-Z.ldiff_land, Z.ldiff_ones_r by lia.
  rewrite Z.shiftr_div_pow2, Z.shiftl_mul_pow2 by lia.
  change (Z.ones 4) with 15%Z. lia.
Qed.

Lemma sherman_sum (F : Z) (sh : nat → bool) (l : list nat) :
  ∀ acc,
    foldl (λ rv i, if sh i then (rv + F)%Z else rv) acc l
    = (acc + F * Z.of_nat (length (filter (λ i, sh i = true) l)))%Z.
Proof.
  induction l as [|i l IH]; intros acc; cbn [foldl].
  { cbn. lia. }
  rewrite IH, filter_cons. destruct (sh i).
  - rewrite decide_True by done. cbn [length]. lia.
  - rewrite decide_False by done. done.
Qed.

Lemma calcShermanRegionSize_ge L info :
  SHERMAN_FIXED_SIZE L
  * length (filter (λ i, is_sherman info i = true) (seq 0 (info_size info)))
  ≤ Z.to_nat (calcShermanRegionSize L info).
Proof.
  unfold calcShermanRegionSize. rewrite sherman_sum.
  set (x := (0 + _)%Z).
  assert (0 ≤ x)%Z by (subst x; lia).
  pose proof (ROUNDUP_16_ge x ltac:(done)). subst x. lia.
Qed.

(** ** The stages of [mcclellanCompile16] *)

Lemma numbering_ok_agree info info' base :
  raw info' = raw info →
  (∀ i, is_sherman info' i = is_sherman info i) →
  numbering_ok info base → numbering_ok info' base.
Proof.
  intros Hraw Hsh. unfold numbering_ok, implId, info_size.
  rewrite Hraw. intros (H0 & Hb & Hnorm & Hsherm & Hinj & Hsurj).
  split; [done|]. split; [done|]. split; [|split; [|split; [done|]]].
  - intros i Hi. rewrite Hsh. by apply Hnorm.
  - intros i Hi. rewrite Hsh. by apply Hsherm.
  - intros fs Hfs. destruct (Hsurj fs Hfs) as (i & ? & ? & ?).
    exists i. by rewrite Hsh.
Qed.

Lemma sherman_inv_dead info : sherman_inv info → is_sherman info 0 = false.
Proof.
  intros Hinv. destruct (is_sherman info 0) eqn:E; [|done].
  destruct (Hinv 0 E) as [? _]. lia.
Qed.

(** What holds of [info] when the loops of [mcclellanCompile16] run. *)
Lemma compile16_stage info info1 base g :
  wf_rows (raw info) →
  sherman_inv info →
  allocateFSN16 info = (info1, base, false) →
  let info2 := (populateAccelerationInfo info1 g).1 in
  wf_rows (raw info2)
  ∧ numbering_ok info2 base
  ∧ sherman_inv info2
  ∧ info_agree info info2
  ∧ (Z.of_nat (info_size info2) ≤ 16384)%Z
  ∧ base + length (filter (λ i, is_sherman info2 i = true)
                          (seq 0 (info_size info2))) = info_size info2.
Proof.
  intros Hrows Hinv Halloc info2.
  assert (Hpos : 0 < info_size info) by (by destruct Hrows).
  destruct (allocateFSN16_spec info info1 base Hpos (sherman_inv_dead _ Hinv)
              Halloc) as (Hsize & Hag1 & Hextra & Hnum & Hcount & _).
  destruct (populateAccelerationInfo_agree info1 g) as [Hag2 Hraw].
  fold info2 in Hag2, Hraw.
  assert (Hag : info_agree info info2) by (by eapply info_agree_trans).
  pose proof (info_agree_size _ _ Hag) as Hsz.
  split_and!.
  - eapply wf_rows_rows_agree; [apply Hag|done].
  - eapply numbering_ok_agree; [done| |done].
    intros i. apply (info_agree_sherman _ _ i Hag2).
  - by eapply sherman_inv_agree.
  - done.
  - lia.
  - rewrite Hsz.
    rewrite (list_filter_iff (λ i, is_sherman info2 i = true)
                             (λ i, is_sherman info i = true)); [done|].
    intros i. by rewrite (info_agree_sherman _ _ i Hag).
Qed.

(** ** Successors updated in place *)

Lemma load_store_u16 mem p v :
  S p < length mem → (0 ≤ v < 65536)%Z →
  load_u16 (store_u16 mem p v) p = v.
Proof.
  intros Hp Hv. unfold load_u16, store_u16.
  rewrite list_lookup_total_insert_ne by lia.
  rewrite list_lookup_total_insert_eq by lia.
  rewrite list_lookup_total_insert_eq by (rewrite length_insert; lia).
  by apply load_u16_bytes.
Qed.

Lemma lookup_store_u16_ne mem p v q :
  q ≠ p → q ≠ S p → store_u16 mem p v !!! q = mem !!! q.
Proof.
  intros H1 H2. unfold store_u16.
  by rewrite !list_lookup_total_insert_ne by lia.
Qed.

Lemma length_store_u16 mem p v : length (store_u16 mem p v) = length mem.
Proof. unfold store_u16. by rewrite !length_insert. Qed.

(** The loop of [markEdges] over the successors of one Sherman record. *)
Lemma update_u16_loop (f : Z → Z) (mem : list Z) (p : nat) :
  ∀ len,
    p + 2 * len ≤ length mem →
    (∀ k, k < len → (0 ≤ f (load_u16 mem (p + 2 * k)) < 65536)%Z) →
    let mem' := foldl (λ mem i, store_u16 mem (p + 2 * i)
                                  (f (load_u16 mem (p + 2 * i))))
                      mem (seq 0 len) in
    length mem' = length mem
    ∧ (∀ q, ¬ (p ≤ q < p + 2 * len) → mem' !!! q = mem !!! q)
    ∧ ∀ k, k < len → load_u16 mem' (p + 2 * k) = f (load_u16 mem (p + 2 * k)).
Proof.
  induction len as [|len IH]; intros Hfit Hval; cbv zeta.
  { cbn [seq foldl]. split_and!; [done|done|]. intros k Hk. lia. }
  rewrite foldl_seq_S.
  destruct IH as (Hl & Hout & Hin); [lia|intros k Hk; apply Hval; lia|].
  set (mem' := foldl _ mem (seq 0 len)) in *.
  assert (Hsame : load_u16 mem' (p + 2 * len) = load_u16 mem (p + 2 * len)).
  { unfold load_u16. by rewrite !Hout by lia. }
  rewrite Hsame. split_and!.
  - by rewrite length_store_u16.
  - intros q Hq. rewrite lookup_store_u16_ne by lia. apply Hout. lia.
  - intros k Hk. destruct (decide (k = len)) as [->|Hne].
    + apply load_store_u16; [lia|]. apply Hval. lia.
    + unfold load_u16 at 1. rewrite !lookup_store_u16_ne by lia.
      apply Hin. lia.
Qed.

(** The loop of [markEdges] over the rows of the normal states. *)
Lemma markEdges_normal_spec info (ax : list mstate_aux) (succ : list Z)
    (limit : nat) :
  impl_alpha_size info ≤ 2 ^ getAlphaShift info →
  length succ = Nat.shiftl 1 (getAlphaShift info) * limit →
  length (markEdges_normal info limit ax succ) = length succ
  ∧ ∀ fs j, fs < limit → j < impl_alpha_size info →
      markEdges_normal info limit ax succ
        !!! (Nat.shiftl fs (getAlphaShift info) + j)
      = mark_succ ax (succ !!! (Nat.shiftl fs (getAlphaShift info) + j)).
Proof.
  intros Ha Hlen. unfold markEdges_normal.
  set (shift := getAlphaShift info) in *.
  set (a := impl_alpha_size info) in *.
  set (row := λ (t : list Z) (i : nat),
                foldl (λ t j, <[Nat.shiftl i shift + j
                                := mark_succ ax (t !!! (Nat.shiftl i shift + j))]> t)
                      t (seq 0 a)).
  change (foldl _ succ (seq 0 limit)) with (foldl row succ (seq 0 limit)).
  assert (Hloop : ∀ k, k ≤ limit →
    length (foldl row succ (seq 0 k)) = length succ
    ∧ ∀ fs j, fs < limit → j < a →
        foldl row succ (seq 0 k) !!! (Nat.shiftl fs shift + j)
        = if decide (fs < k)
          then mark_succ ax (succ !!! (Nat.shiftl fs shift + j))
          else succ !!! (Nat.shiftl fs shift + j)).
  { induction k as [|k IH]; intros Hk.
    { cbn [seq foldl]. split; [done|]. intros fs j _ _.
      by rewrite decide_False by lia. }
    rewrite foldl_seq_S. destruct IH as [IHl IHrow]; [lia|].
    set (t := foldl row succ (seq 0 k)) in *. unfold row.
    rewrite foldl_update_row_length. split; [done|].
    intros fs j Hfs Hj. destruct (decide (fs = k)) as [->|Hne].
    - rewrite decide_True by lia.
      rewrite foldl_update_row_lookup; [|apply NoDup_seq|apply elem_of_seq; lia|].
      + rewrite IHrow by done. by rewrite decide_False by lia.
      + rewrite IHl, Hlen, !shiftl_row, Nat.mul_1_l.
        apply row_index_lt; lia.
    - rewrite foldl_update_row_other.
      + rewrite IHrow by done.
        destruct (decide (fs < k)), (decide (fs < S k)); try done; lia.
      + intros j' Hj' Heq. apply elem_of_seq in Hj'.
        rewrite !shiftl_row in Heq.
        apply row_index_inj in Heq as [Heq _]; lia. }
  destruct (Hloop limit ltac:(lia)) as [Hl Hrow]. split; [done|].
  intros fs j Hfs Hj. rewrite Hrow by done. by rewrite decide_True.
Qed.

(** ** The Sherman region *)

Section compile16_image.
Context (L : layout) (info : dfa_info) (base : nat) (g : gathered)
        (ro : list Z).
Hypothesis Hlayout : sherman_layout_ok L.
Hypothesis Hrows : wf_rows (raw info).
Hypothesis Hnum : numbering_ok info base.
Hypothesis Hinv : sherman_inv info.
Hypothesis Hsize : (Z.of_nat (info_size info) ≤ 16384)%Z.

Local Notation a := (impl_alpha_size info).
Local Notation n := (info_size info).
Local Notation F := (SHERMAN_FIXED_SIZE L).
Local Notation daddy_of i := (daddy (states (raw info) !!! i)).
Local Notation ov_of i := (overrides info i (daddy_of i)).
Local Notation cur_of i := ((implId info i - base) * SHERMAN_FIXED_SIZE L).
Local Notation chars_of i := (Z.of_nat <$> ov_of i).
Local Notation succs_of i :=
  ((λ s, Z.of_nat (implId info (next_of (raw info) i s))) <$> ov_of i).

(** The records of two Sherman states do not overlap, and all of them lie
    in the region. *)
Lemma sherman_slots i i' :
  i < n → i' < n → is_sherman info i = true → is_sherman info i' = true →
  cur_of i + F ≤ F * (n - base)
  ∧ (i ≠ i' → cur_of i + F ≤ cur_of i' ∨ cur_of i' + F ≤ cur_of i).
Proof.
  intros Hi Hi' Hsh Hsh'.
  pose proof (implId_sherman info base Hnum i Hi Hsh) as Hid.
  pose proof (implId_sherman info base Hnum i' Hi' Hsh') as Hid'.
  split.
  - assert ((implId info i - base + 1) * F ≤ (n - base) * F)
      by (apply Nat.mul_le_mono_r; lia). lia.
  - intros Hne.
    assert (implId info i ≠ implId info i').
    { intros Heq. apply Hne. by eapply implId_inj. }
    destruct (decide (implId info i < implId info i')).
    + left. assert ((implId info i - base + 1) * F ≤ (implId info i' - base) * F)
        by (apply Nat.mul_le_mono_r; lia). lia.
    + right. assert ((implId info i' - base + 1) * F ≤ (implId info i - base) * F)
        by (apply Nat.mul_le_mono_r; lia). lia.
Qed.

(** After the loop over the Sherman states, every Sherman state has its
    record in the region. *)
Lemma compile16_sherman_loop st0 :
  F * (n - base) ≤ length (as_sherman st0) →
  ∀ k, k ≤ n →
    let st := foldl (compile16_sherman L info g ro base) st0 (seq 0 k) in
    length (as_sherman st) = length (as_sherman st0)
    ∧ ∀ i, i < k → is_sherman info i = true →
           sherman_record L (as_sherman st) (cur_of i) (length (ov_of i))
             (Z.of_nat (implId info (daddy_of i))) (chars_of i) (succs_of i).
Proof.
  intros Hfit. induction k as [|k IH]; intros Hk.
  { cbn [seq foldl]. split; [done|]. intros i Hi. lia. }
  rewrite foldl_seq_S. destruct IH as [IHlen IHrec]; [lia|].
  set (st := foldl _ st0 (seq 0 k)) in *. cbv zeta.
  destruct (is_sherman info k) eqn:Hsh.
  - destruct (sherman_slots k k ltac:(lia) ltac:(lia) Hsh Hsh) as [Hin _].
    destruct (compile16_sherman_record L info base g ro Hlayout Hrows Hnum
                Hinv Hsize st k ltac:(lia) Hsh) as (Hl & Hframe & Hrec);
      [lia|].
    split; [lia|]. intros i Hi Hshi.
    destruct (decide (i = k)) as [->|Hne]; [done|].
    destruct (sherman_slots i k ltac:(lia) ltac:(lia) Hshi Hsh) as [_ Hdisj].
    specialize (Hdisj Hne).
    eapply sherman_record_frame; [done|by apply sherman_len| |apply IHrec; [lia|done]].
    intros q Hq. apply Hframe. lia.
  - assert (compile16_sherman L info g ro base st k = st) as ->.
    { unfold compile16_sherman. by rewrite Hsh. }
    split; [done|]. intros i Hi Hshi.
    destruct (decide (i = k)) as [->|Hne]; [congruence|].
    apply IHrec; [lia|done].
Qed.

(** [markEdges] on the Sherman region: the override successors of every
    record get their flags, and nothing else is changed. *)
Lemma markEdges_sherman_spec (ax : list mstate_aux) (sh : list Z) :
  F * (n - base) ≤ length sh →
  (∀ i, i < n → is_sherman info i = true →
        sherman_record L sh (cur_of i) (length (ov_of i))
          (Z.of_nat (implId info (daddy_of i))) (chars_of i) (succs_of i)) →
  let sh' := markEdges_sherman L base n ax sh in
  length sh' = length sh
  ∧ ∀ i, i < n → is_sherman info i = true →
         sherman_record L sh' (cur_of i) (length (ov_of i))
           (Z.of_nat (implId info (daddy_of i))) (chars_of i)
           (mark_succ ax <$> succs_of i).
Proof.
  intros Hfit Hrec. cbv zeta. unfold markEdges_sherman.
  set (body := λ (mem : list Z) (j : nat),
    foldl (λ mem0 i,
             store_u16 mem0
               (findShermanState L base j
                + SHERMAN_STATES_OFFSET L
                    (Z.to_nat (mem !!! (findShermanState L base j
                                        + SHERMAN_LEN_OFFSET)))
                + 2 * i)
               (mark_succ ax
                  (load_u16 mem0
                     (findShermanState L base j
                      + SHERMAN_STATES_OFFSET L
                          (Z.to_nat (mem !!! (findShermanState L base j
                                              + SHERMAN_LEN_OFFSET)))
                      + 2 * i))))
          mem
          (seq 0 (Z.to_nat (mem !!! (findShermanState L base j
                                     + SHERMAN_LEN_OFFSET))))).
  assert (Hsucc : ∀ i k, i < n → k < length (ov_of i) →
            (0 ≤ succs_of i !!! k < 16384)%Z).
  { intros i k Hi Hk. rewrite lookup_total_fmap_nat by done.
    apply (implId_u16 info base Hnum Hsize).
    apply (next_of_lt info Hrows); [done|].
    apply (overrides_elem info i (daddy_of i)).
    by apply list_elem_of_lookup_total_2. }
  assert (Hloop : ∀ m, m ≤ n - base →
    let sh' := foldl body sh (seq base m) in
    length sh' = length sh
    ∧ ∀ i, i < n → is_sherman info i = true →
           sherman_record L sh' (cur_of i) (length (ov_of i))
             (Z.of_nat (implId info (daddy_of i))) (chars_of i)
             (if decide (implId info i < base + m)
              then mark_succ ax <$> succs_of i else succs_of i)).
  { induction m as [|m IH]; intros Hm; cbv zeta.
    { cbn [seq foldl]. split; [done|]. intros i Hi Hsh.
      pose proof (implId_sherman info base Hnum i Hi Hsh).
      rewrite decide_False by lia. by apply Hrec. }
    rewrite seq_S, foldl_app. cbn [foldl].
    destruct IH as [IHlen IHrec]; [lia|].
    set (mem := foldl body sh (seq base m)) in *.
    destruct Hnum as (_ & _ & _ & _ & _ & Hsurj).
    destruct (Hsurj (base + m)) as (i0 & Hi0 & Hid0 & Hsh0); [lia|].
    assert (base + m <? base = false) as Hge by (apply Nat.ltb_ge; lia).
    rewrite Hge in Hsh0. cbn [negb] in Hsh0.
    pose proof (IHrec i0 Hi0 Hsh0) as Hrec0.
    rewrite decide_False in Hrec0 by lia.
    destruct Hrec0 as (Hl0 & Hd0 & Hc0 & Hs0 & Hchars0 & Hsuccs0).
    destruct (sherman_len info Hinv i0 Hsh0) as [Hlen8 _].
    destruct (Hlayout _ Hlen8) as [Hlo Hhi].
    destruct (sherman_slots i0 i0 Hi0 Hi0 Hsh0 Hsh0) as [Hin0 _].
    assert (Hcur : findShermanState L base (base + m) = cur_of i0).
    { unfold findShermanState. rewrite Hid0. lia. }
    unfold body. rewrite Hcur, Hl0, Nat2Z.id.
    set (len := length (ov_of i0)) in *.
    set (p := cur_of i0 + SHERMAN_STATES_OFFSET L len) in *.
    destruct (update_u16_loop (mark_succ ax) mem p len)
      as (Hl' & Hout & Hin).
    { subst p. lia. }
    { intros k Hk. subst p. rewrite (Hsuccs0 k Hk).
      apply mark_succ_spec. by apply Hsucc. }
    split; [lia|]. intros i Hi Hsh.
    destruct (decide (i = i0)) as [->|Hne].
    - rewrite decide_True by lia.
      unfold sherman_record.
      unfold SHERMAN_CHARS_OFFSET, SHERMAN_LEN_OFFSET, SHERMAN_DADDY_OFFSET
        in *.
      split_and!.
      + rewrite Hout by (subst p; lia). done.
      + unfold load_u16 in Hd0 |- *. rewrite !Hout by (subst p; lia). done.
      + done.
      + by rewrite !length_fmap.
      + intros k Hk. rewrite Hout by (subst p; lia). by apply Hchars0.
      + intros k Hk.
        change (cur_of i0 + SHERMAN_STATES_OFFSET L (length (ov_of i0)) + 2 * k)
          with (p + 2 * k).
        rewrite (Hin k Hk), (Hsuccs0 k Hk).
        rewrite (list_lookup_total_fmap (mark_succ ax)); [done|].
        by rewrite length_fmap.
    - destruct (sherman_slots i i0 Hi Hi0 Hsh Hsh0) as [_ Hdisj].
      specialize (Hdisj Hne).
      assert (implId info i ≠ base + m).
      { intros Heq. apply Hne. eapply implId_inj; [done..|congruence]. }
      eapply sherman_record_frame;
        [done|by apply sherman_len| |].
      + intros q Hq. apply Hout. subst p. lia.
      + specialize (IHrec i Hi Hsh).
        destruct (decide (implId info i < base + m)),
          (decide (implId info i < base + S m)); try done; lia. }
  destruct (Hloop (n - base) ltac:(lia)) as [Hl Hr].
  split; [done|]. intros i Hi Hsh. specialize (Hr i Hi Hsh).
  pose proof (implId_sherman info base Hnum i Hi Hsh).
  rewrite decide_True in Hr by lia. done.
Qed.

End compile16_image.

(** ** The image of [mcclellanCompile16] *)

Lemma foldl_proj_inv {A B} (f : A → nat → A) (proj : A → B) :
  (∀ st i, proj (f st i) = proj st) →
  ∀ l st, proj (foldl f st l) = proj st.
Proof.
  intros Hf. induction l as [|i l IH]; intros st; [done|].
  cbn [foldl]. by rewrite IH, Hf.
Qed.

Lemma mcclellanCompile16_image L info cc info2 nfa :
  wf_rows (raw info) →
  sherman_inv info →
  mcclellanCompile16 L info cc = (info2, Some nfa) →
  ∃ base,
    wf_rows (raw info2) ∧ numbering_ok info2 base ∧ sherman_inv info2
    ∧ info_agree info info2
    ∧ (Z.of_nat (info_size info2) ≤ 16384)%Z
    ∧ nfa_type_of nfa = MCCLELLAN_NFA_16
    ∧ m_sherman_limit nfa = base
    ∧ m_alphaShift nfa = getAlphaShift info2
    ∧ m_remap nfa
      = (λ i, Z.to_nat (u8 (Z.of_nat (alpha_remap (raw info2) !!! i))))
          <$> seq 0 256
    ∧ length (aux nfa) = info_size info2
    ∧ (∀ i, i < info_size info2 →
            top (aux nfa !!! implId info2 i)
            = implId info2
                (if i =? 0 then start_floating (raw info2)
                 else next (states (raw info2) !!! i)
                        !!! (alpha_remap (raw info2) !!! TOP)))
    ∧ (∀ i j, i < info_size info2 → is_sherman info2 i = false →
              j < impl_alpha_size info2 →
              succ_table nfa
                !!! (Nat.shiftl (implId info2 i) (getAlphaShift info2) + j)
              = mark_succ (aux nfa)
                  (Z.of_nat (implId info2 (next_of (raw info2) i j))))
    ∧ (sherman_layout_ok L →
       ∀ i, i < info_size info2 → is_sherman info2 i = true →
            let d := daddy (states (raw info2) !!! i) in
            sherman_record L (sherman_table nfa)
              ((implId info2 i - base) * SHERMAN_FIXED_SIZE L)
              (length (overrides info2 i d))
              (Z.of_nat (implId info2 d))
              (Z.of_nat <$> overrides info2 i d)
              (mark_succ (aux nfa)
                 <$> ((λ s, Z.of_nat (implId info2 (next_of (raw info2) i s)))
                        <$> overrides info2 i d))).
Proof.
  intros Hrows Hinv. unfold mcclellanCompile16.
  destruct (allocateFSN16 info) as [[info1 base] err] eqn:Halloc.
  destruct err; [done|].
  pose proof (compile16_stage info info1 base (grey cc) Hrows Hinv Halloc)
    as (Hrows2 & Hnum & Hinv2 & Hag & Hsize & Hcount).
  destruct (populateAccelerationInfo info1 (grey cc)) as [infoP ac].
  cbn [fst] in Hrows2, Hnum, Hinv2, Hag, Hsize, Hcount.
  intros [= <- <-]. exists base.
  set (g := gatherReports (raw info1)).
  set (n := info_size infoP) in *.
  set (shift := getAlphaShift infoP).
  set (slots := Nat.shiftl 1 shift * base).
  match goal with
  | |- context [fillReportLists L (g_ri g) ?x] =>
    set (ro := fillReportLists L (g_ri g) x)
  end.
  match goal with
  | |- context [with_sherman_header ?x ?o ?e base] =>
    set (nfa1 := with_sherman_header x o e base)
  end.
  match goal with
  | |- context [foldl (compile16_normal L infoP g ro) ?s (seq 0 n)] =>
    set (st0 := s)
  end.
  set (st1 := foldl (compile16_normal L infoP g ro) st0 (seq 0 n)).
  set (st2 := foldl (compile16_sherman L infoP g ro base) st1 (seq 0 n)).
  destruct (alpha_le_row infoP Hrows2) as (Ha1 & Ha256 & Haw).
  (* the successor table *)
  assert (Hsucc0 : length (as_succ st0) = slots).
  { subst st0. cbn. by rewrite length_replicate. }
  destruct (compile16_normal_table L infoP base g ro Hrows2 Hnum st0 Hsucc0 n
              ltac:(done)) as [Hsucc1_len Hsucc1]. fold st1 in Hsucc1_len, Hsucc1.
  assert (Hsucc2 : as_succ st2 = as_succ st1).
  { subst st2. apply (foldl_proj_inv _ as_succ).
    intros st i. apply compile16_sherman_succ. }
  (* the aux array *)
  assert (Haux0 : length (as_aux st0) = n).
  { subst st0. cbn. by rewrite length_replicate. }
  destruct (compile16_aux_loop L infoP base g ro Hnum false
              (compile16_normal L infoP g ro) st0 Haux0) with (k := n)
    as [Haux1_len Haux1]; [|done|].
  { intros st i. rewrite compile16_normal_aux.
    destruct (is_sherman infoP i); [by rewrite bool_decide_eq_false_2|].
    by rewrite bool_decide_eq_true_2. }
  fold st1 in Haux1_len, Haux1.
  destruct (compile16_aux_loop L infoP base g ro Hnum true
              (compile16_sherman L infoP g ro base) st1 Haux1_len)
    with (k := n) as [Haux2_len Haux2]; [|done|].
  { intros st i. rewrite compile16_sherman_aux.
    destruct (is_sherman infoP i); [by rewrite bool_decide_eq_true_2|].
    by rewrite bool_decide_eq_false_2. }
  fold st2 in Haux2_len, Haux2.
  (* the Sherman region *)
  assert (Hsh0 : SHERMAN_FIXED_SIZE L * (n - base) ≤ length (as_sherman st0)).
  { subst st0. cbn [as_sherman]. rewrite length_replicate.
    pose proof (calcShermanRegionSize_ge L infoP) as Hge. fold n in Hge.
    replace (n - base) with
      (length (filter (λ i, is_sherman infoP i = true) (seq 0 n))) by lia.
    done. }
  assert (Hsh1 : as_sherman st1 = as_sherman st0).
  { subst st1. apply (foldl_proj_inv _ as_sherman).
    intros st i. apply compile16_normal_sherman. }
  assert (Hsh2_len : length (as_sherman st2) = length (as_sherman st1)).
  { subst st2. generalize (seq 0 n). intros l. generalize st1.
    induction l as [|i l IH] using rev_ind; intros st; [done|].
    rewrite foldl_app. cbn [foldl]. rewrite <-(IH st).
    unfold compile16_sherman. destruct (negb _); [done|].
    destruct (place_accel _ _ _ _ _). cbn [as_sherman].
    rewrite pointer_loop_u16, pointer_loop_bytes. cbn [fst].
    rewrite !write_bytes_length, length_store_u16, !length_insert. done. }
  (* [markEdges] *)
  assert (Hcount_n : u16n (Z.of_nat n) = n) by (apply u16n_small; lia).
  destruct (markEdges_normal_spec infoP (as_aux st2) (as_succ st2) base Haw)
    as [_ Hmark]; [by rewrite Hsucc2, Hsucc1_len|].
  unfold markEdges, with_tables.
  cbn [nfa_type_of m_sherman_limit m_alphaShift m_remap aux succ_table
       sherman_table m_state_count].
  split_and!; try done.
  - intros i Hi. rewrite Haux2 by done.
    destruct (is_sherman infoP i) eqn:Hsh.
    + by rewrite bool_decide_eq_true_2.
    + rewrite bool_decide_eq_false_2 by (intros [_ ?]; congruence).
      rewrite Haux1 by done. by rewrite bool_decide_eq_true_2.
  - intros i j Hi Hsh Hj.
    rewrite Hmark; [|by eapply implId_normal|done].
    rewrite Hsucc2, Hsucc1 by done. done.
  - intros Hlayout i Hi Hsh. cbv zeta.
    destruct (compile16_sherman_loop L infoP base g ro Hlayout Hrows2 Hnum
                Hinv2 Hsize st1) with (k := n) as [_ Hsh2];
      [by rewrite Hsh1|done|].
    fold st2 in Hsh2.
    destruct (markEdges_sherman_spec L infoP base Hlayout Hrows2 Hnum Hinv2
                Hsize (as_aux st2) (as_sherman st2)) as [_ Hmark_sh];
      [rewrite Hsh2_len, Hsh1; done|done|].
    assert (m_state_count nfa1 = n) as -> by (subst nfa1; cbn; done).
    by apply Hmark_sh.
Qed.

(** ** Assembly of the 8-bit image *)

Section compile8_loops.
Context (L : layout) (info : dfa_info) (g : gathered) (ro : list Z).
Hypothesis Hrows : wf_rows (raw info).
Hypothesis Hinj : ∀ i i', i < info_size info → i' < info_size info →
                          implId info i = implId info i' → i = i'.
Hypothesis Hlt : ∀ i, i < info_size info → implId info i < info_size info.

Local Notation a := (impl_alpha_size info).
Local Notation shift := (getAlphaShift info).
Local Notation n := (info_size info).
Local Notation raw_top i :=
  (if i =? 0 then start_floating (raw info)
   else next (states (raw info) !!! i) !!! (alpha_remap (raw info) !!! TOP)).

Lemma compile8_state_succ st i :
  as_succ (compile8_state L info g ro st i)
  = foldl (λ t s, <[Nat.shiftl (implId info i) shift + s
                    := u8 (Z.of_nat (implId info (next_of (raw info) i s)))]> t)
          (as_succ st) (seq 0 a).
Proof.
  unfold compile8_state. destruct (place_accel _ _ _ _ _) as [ax1 off].
  unfold fillInBasicState8. done.
Qed.

Lemma compile8_state_aux st i fs' :
  length (as_aux (compile8_state L info g ro st i)) = length (as_aux st)
  ∧ top (as_aux (compile8_state L info g ro st i) !!! fs')
    = if decide (implId info i = fs' ∧ implId info i < length (as_aux st))
      then implId info (raw_top i) else top (as_aux st !!! fs').
Proof.
  unfold compile8_state.
  destruct (place_accel_top L info i (implId info i) (as_aux st)
              (as_accel_offset st) fs') as (Htop & _ & Hlen).
  destruct (place_accel _ _ _ _ _) as [ax1 off]. cbn [fst] in Htop, Hlen.
  unfold fillInBasicState8. cbn [as_aux fst snd].
  rewrite length_alter, list_lookup_total_alter, Hlen. split; [done|].
  case_decide as H; [destruct H as [<- _]|]; done.
Qed.

(** After the loop of [mcclellanCompile8] every state has its row in the
    table and its [top] in the [mstate_aux] array. *)
Lemma compile8_loop st0 :
  length (as_succ st0) = Nat.shiftl 1 shift * n →
  length (as_aux st0) = n →
  ∀ k, k ≤ n →
    let st := foldl (compile8_state L info g ro) st0 (seq 0 k) in
    length (as_succ st) = length (as_succ st0)
    ∧ length (as_aux st) = n
    ∧ (∀ i j, i < k → j < a →
              as_succ st !!! (Nat.shiftl (implId info i) shift + j)
              = u8 (Z.of_nat (implId info (next_of (raw info) i j))))
    ∧ (∀ i, i < k → top (as_aux st !!! implId info i)
                    = implId info (raw_top i)).
Proof.
  intros Hlen Hauxlen. destruct (alpha_le_row info Hrows) as (Ha1 & Ha256 & Haw).
  induction k as [|k IH]; intros Hk.
  { cbn. split_and!; [done|done|lia|lia]. }
  rewrite foldl_seq_S. destruct IH as (IHlen & IHaux & IHrow & IHtop); [lia|].
  set (st := foldl (compile8_state L info g ro) st0 (seq 0 k)) in *.
  cbv zeta. rewrite compile8_state_succ, foldl_insert_row_length.
  split_and!.
  - done.
  - destruct (compile8_state_aux st k 0) as [-> _]. done.
  - intros i j Hi Hj. destruct (decide (i = k)) as [->|Hne].
    + rewrite foldl_insert_row_lookup; [done|apply NoDup_seq|..].
      * apply elem_of_seq. lia.
      * rewrite IHlen, Hlen, !shiftl_row, Nat.mul_1_l.
        apply row_index_lt; [|lia]. apply Hlt. lia.
    + rewrite foldl_insert_row_other; [apply IHrow; [lia|done]|].
      intros j' Hj' Heq. apply elem_of_seq in Hj'.
      rewrite !shiftl_row in Heq.
      apply row_index_inj in Heq as [Heq _]; [|lia..].
      apply Hinj in Heq; lia.
  - intros i Hi.
    destruct (compile8_state_aux st k (implId info i)) as [_ ->].
    case_decide as Hid.
    + destruct Hid as [Hid _]. apply Hinj in Hid as ->; [done|lia..].
    + destruct (decide (i = k)) as [->|Hne].
      * exfalso. apply Hid. split; [done|]. rewrite IHaux. apply Hlt. lia.
      * apply IHtop. lia.
Qed.

End compile8_loops.

Lemma allocateFSN8_ids info :
  0 < info_size info ≤ 256 →
  let info' := (allocateFSN8 info).1.1 in
  implId info' 0 = 0
  ∧ extra info' = extra info
  ∧ (∀ i, i < info_size info → implId info' i < info_size info)
  ∧ (∀ i i', i < info_size info → i' < info_size info →
             implId info' i = implId info' i' → i = i').
Proof.
  intros Hsize info'.
  destruct (allocateFSN8_class info Hsize)
    as (norm & accel & accept & Hcount & Hnd1 & Hnd2 & Hnd3 & Hl1 & Hl2
        & Hextra & Hlen & Hrows & Hclass).
  fold info' in Hextra, Hlen, Hrows, Hclass.
  split_and!; try done.
  - destruct (Hclass 0) as [[_ ?]|[(? & _)|[(? & _)|(? & _)]]]; [lia|done|lia..].
  - intros i Hi.
    destruct (Hclass i Hi)
      as [[_ ->]|[(_ & _ & _ & k & Hk & ->)|[(_ & _ & _ & k & Hk & ->)
                 |(_ & _ & k & Hk & ->)]]];
      try apply lookup_lt_Some in Hk; lia.
  - intros i i' Hi Hi' Heq.
    destruct (Hclass i Hi)
      as [[-> E]|[(? & _ & _ & k & Hk & E)|[(? & _ & _ & k & Hk & E)
                 |(? & _ & k & Hk & E)]]];
      destruct (Hclass i' Hi')
        as [[-> E']|[(? & _ & _ & k' & Hk' & E')|[(? & _ & _ & k' & Hk' & E')
                    |(? & _ & k' & Hk' & E')]]];
      rewrite ?E, ?E' in Heq;
      try apply lookup_lt_Some in Hk as Hlt;
      try apply lookup_lt_Some in Hk' as Hlt';
      try lia;
      (assert (k = k') as -> by lia); congruence.
Qed.

Lemma allocateFSN8_rows info :
  0 < info_size info ≤ 256 →
  rows_agree (raw info) (raw (allocateFSN8 info).1.1).
Proof.
  intros Hsize.
  destruct (allocateFSN8_class info Hsize)
    as (norm & accel & accept & _ & _ & _ & _ & _ & _ & _ & Hlen & Hrow & _).
  assert (Hfields : ∀ sts, rows_agree (raw info) (set_states (raw info) sts)
                           ↔ length (states (raw info)) = length sts
                             ∧ ∀ s, same_row (states (raw info) !!! s)
                                             (sts !!! s)).
  { intros sts. unfold rows_agree. cbn. naive_solver. }
  revert Hlen Hrow. unfold allocateFSN8.
  destruct (assign_ids8 _ _ 1) as [sts1 j1].
  destruct (assign_ids8 sts1 _ j1) as [sts2 j2].
  destruct (assign_ids8 sts2 _ j2) as [sts3 j3].
  cbn [fst snd set_info_states raw]. intros Hlen Hrow.
  apply Hfields. cbn [states set_states] in Hlen, Hrow.
  split; [done|]. intros s. apply Hrow.
Qed.

Lemma mcclellanCompile8_image L info cc :
  wf_rows (raw info) →
  info_size info ≤ 256 →
  let info2 := (mcclellanCompile8 L info cc).1 in
  let nfa := (mcclellanCompile8 L info cc).2 in
  wf_rows (raw info2)
  ∧ rows_agree (raw info) (raw info2)
  ∧ (∀ i i', i < info_size info2 → i' < info_size info2 →
             implId info2 i = implId info2 i' → i = i')
  ∧ (∀ i, i < info_size info2 → implId info2 i < info_size info2)
  ∧ nfa_type_of nfa = MCCLELLAN_NFA_8
  ∧ m_alphaShift nfa = getAlphaShift info2
  ∧ m_remap nfa
    = (λ i, Z.to_nat (u8 (Z.of_nat (alpha_remap (raw info2) !!! i))))
        <$> seq 0 256
  ∧ length (aux nfa) = info_size info2
  ∧ (∀ i, i < info_size info2 →
          top (aux nfa !!! implId info2 i)
          = implId info2
              (if i =? 0 then start_floating (raw info2)
               else next (states (raw info2) !!! i)
                      !!! (alpha_remap (raw info2) !!! TOP)))
  ∧ (∀ i j, i < info_size info2 → j < impl_alpha_size info2 →
            succ_table nfa
              !!! (Nat.shiftl (implId info2 i) (getAlphaShift info2) + j)
            = Z.of_nat (implId info2 (next_of (raw info2) i j))).
Proof.
  intros Hrows Hsize. cbv zeta. unfold mcclellanCompile8.
  assert (Hpos : 0 < info_size info) by (by destruct Hrows).
  destruct (populateAccelerationInfo_agree info (grey cc)) as [Hag1 Hraw1].
  destruct (populateAccelerationInfo info (grey cc)) as [info1 ac].
  cbn [fst] in Hag1, Hraw1.
  assert (Hsz1 : info_size info1 = info_size info)
    by (unfold info_size; by rewrite Hraw1).
  assert (Hsize1 : 0 < info_size info1 ≤ 256) by lia.
  pose proof (allocateFSN8_rows info1 Hsize1) as Hrows12.
  pose proof (allocateFSN8_ids info1 Hsize1) as (H0 & _ & Hlt1 & Hinj).
  cbv zeta in H0, Hlt1, Hinj.
  destruct (allocateFSN8 info1) as [[infoA accel_limit] accept_limit].
  cbn [fst snd] in *.
  assert (Hsz2 : info_size infoA = info_size info1).
  { destruct Hrows12 as (_ & _ & _ & _ & _ & Hl & _). unfold info_size. lia. }
  assert (Hrows2 : wf_rows (raw infoA)).
  { eapply wf_rows_rows_agree; [apply Hrows12|]. by rewrite Hraw1. }
  assert (Hlt : ∀ i, i < info_size infoA → implId infoA i < info_size infoA).
  { rewrite Hsz2. apply Hlt1. }
  assert (Hinj2 : ∀ i i', i < info_size infoA → i' < info_size infoA →
                          implId infoA i = implId infoA i' → i = i').
  { rewrite Hsz2. apply Hinj. }
  set (g := gatherReports (raw info)).
  match goal with
  | |- context [foldl (compile8_state L infoA g ?r) ?s _] =>
    set (ro := r); set (st0 := s)
  end.
  destruct (compile8_loop L infoA g ro Hrows2 Hinj2 Hlt st0)
    with (k := info_size infoA) as (_ & Hauxlen & Hrow & Htop); [..|done|].
  { subst st0. cbn. rewrite length_replicate, Hsz2.
    unfold getAlphaShift, impl_alpha_size.
    by rewrite (rows_agree_impl_alpha _ _ Hrows12). }
  { subst st0. cbn. by rewrite length_replicate. }
  cbn [nfa_type_of m_alphaShift m_remap aux succ_table with_tables
       with_limits_8 populateBasicInfo].
  split_and!; try done.
  - by rewrite <-Hraw1.
  - intros i j Hi Hj. rewrite Hrow by done.
    pose proof (Hlt (next_of (raw infoA) i j)
                  (next_of_lt infoA Hrows2 i j Hi Hj)).
    unfold u8. lia.
Qed.

(** ** The image of [mcclellanCompile_i] *)

Lemma same_automaton_refl r : same_automaton r r.
Proof. by repeat split. Qed.

Lemma same_automaton_trans r1 r2 r3 :
  same_automaton r1 r2 → same_automaton r2 r3 → same_automaton r1 r3.
Proof.
  intros (? & ? & ? & ? & ? & ? & H12) (? & ? & ? & ? & ? & ? & H23).
  split_and!; try congruence.
  intros s. destruct (H12 s) as [-> ->]. apply H23.
Qed.

Lemma rows_agree_same_automaton r r' : rows_agree r r' → same_automaton r r'.
Proof.
  intros (? & ? & ? & ? & ? & ? & Hrow). split_and!; try done.
  intros s. by destruct (Hrow s) as (-> & -> & _).
Qed.

Lemma strip_same_automaton r : same_automaton r (stripExtraEodReports r).
Proof.
  destruct (strip_agree r) as (? & ? & ? & ? & ? & ? & Hrow).
  split_and!; try done. intros s. by destruct (Hrow s) as (-> & _ & ->).
Qed.

Lemma wf_rows_same_automaton r r' :
  same_automaton r r' → wf_rows r → wf_rows r'.
Proof.
  intros (_ & ? & ? & ? & ? & ? & Hrow). apply wf_rows_agree; try done.
  intros s. by destruct (Hrow s).
Qed.

Lemma image8_ok_of L info cc :
  wf_rows (raw info) → info_size info ≤ 256 →
  image8_ok (mcclellanCompile8 L info cc).1 (mcclellanCompile8 L info cc).2
  ∧ rows_agree (raw info) (raw (mcclellanCompile8 L info cc).1).
Proof.
  intros Hrows Hsize.
  destruct (mcclellanCompile8_image L info cc Hrows Hsize)
    as (Hrows2 & Hag & Hinj & Hlt & Htype & Hshift & Hremap & Hlen & Htop
        & Hrow).
  split; [|done]. unfold image8_ok, image_common.
  split_and!; try done.
  destruct Hag as (_ & _ & _ & _ & _ & Hl & _). unfold info_size in *. lia.
Qed.

Lemma image16_ok_of L info cc info2 nfa :
  wf_rows (raw info) → sherman_inv info →
  mcclellanCompile16 L info cc = (info2, Some nfa) →
  image16_ok L info2 nfa ∧ info_agree info info2.
Proof.
  intros Hrows Hinv Hc.
  destruct (mcclellanCompile16_image L info cc info2 nfa Hrows Hinv Hc)
    as (base & Hrows2 & Hnum & Hinv2 & Hag & Hsize & Htype & Hlimit & Hshift
        & Hremap & Hlen & Htop & Hrow & Hrec).
  split; [|done]. unfold image16_ok, image_common. rewrite Hlimit.
  split_and!; try done.
  - by eapply implId_inj.
  - intros i Hi. destruct (is_sherman info2 i) eqn:E.
    + by apply (implId_sherman info2 base Hnum).
    + pose proof (implId_normal info2 base Hnum i Hi E).
      destruct Hnum as (_ & ? & _). lia.
Qed.

Lemma image8_ok_accepts_eod info nfa :
  image8_ok info nfa → image8_ok info (with_accepts_eod nfa).
Proof. done. Qed.

Lemma image16_ok_accepts_eod L info nfa :
  image16_ok L info nfa → image16_ok L info (with_accepts_eod nfa).
Proof. done. Qed.

(** ** Acceleration through the passes *)

Lemma same_automaton_next_of r r' s i :
  same_automaton r r' → next_of r s i = next_of r' s i.
Proof.
  intros (_ & _ & _ & _ & _ & _ & Hrow). unfold next_of.
  by destruct (Hrow s) as [-> _].
Qed.

Lemma find_ext_seq (f f' : nat → bool) l :
  (∀ i, f i = f' i) → find f l = find f' l.
Proof.
  intros Hf. induction l as [|x l IH]; [done|].
  cbn [find]. by rewrite Hf, IH.
Qed.

Lemma existsb_ext_seq (f f' : nat → bool) (l : list nat) :
  (∀ i, f i = f' i) → existsb f l = existsb f' l.
Proof.
  intros Hf. induction l as [|x l IH]; [done|].
  cbn [existsb]. by rewrite Hf, IH.
Qed.

Lemma has_self_loop_same r r' s :
  same_automaton r r' → has_self_loop s r = has_self_loop s r'.
Proof.
  intros Hsame. pose proof Hsame as (_ & _ & _ & _ & Hremap & _ & Hrow).
  unfold has_self_loop. destruct (Hrow s) as [<- _]. rewrite <-Hremap.
  apply existsb_ext_seq. intros i.
  by rewrite (same_automaton_next_of _ _ s i Hsame).
Qed.

Lemma sds_find_loop_same r r' s :
  same_automaton r r' → sds_find_loop r s = sds_find_loop r' s.
Proof.
  intros Hsame. pose proof Hsame as (_ & _ & _ & _ & Hremap & _ & Hrow).
  unfold sds_find_loop. destruct (Hrow s) as [<- _]. rewrite <-Hremap.
  apply find_ext_seq. intros i.
  rewrite (same_automaton_next_of _ _ s i Hsame).
  by rewrite (has_self_loop_same _ _ _ Hsame).
Qed.

Lemma sds_find_basis_same r r' s seen :
  same_automaton r r' → sds_find_basis r s seen = sds_find_basis r' s seen.
Proof.
  intros Hsame. pose proof Hsame as (_ & _ & _ & _ & Hremap & _ & Hrow).
  unfold sds_find_basis. destruct (Hrow s) as [<- _]. rewrite <-Hremap.
  apply find_ext_seq. intros i.
  by rewrite (same_automaton_next_of _ _ s i Hsame).
Qed.

Lemma sds_walk_same r r' fuel :
  same_automaton r r' →
  ∀ s seen, sds_walk fuel r s seen = sds_walk fuel r' s seen.
Proof.
  intros Hsame. induction fuel as [|fuel IH]; intros s seen; [done|].
  cbn [sds_walk].
  rewrite (sds_find_loop_same _ _ s Hsame).
  rewrite (sds_find_basis_same _ _ s _ Hsame).
  destruct (sds_find_loop r' s) as [i|].
  { by rewrite (same_automaton_next_of _ _ s i Hsame). }
  destruct (sds_find_basis r' s _) as [i|]; [|done].
  rewrite (same_automaton_next_of _ _ s i Hsame). apply IH.
Qed.

(** The start-of-data-stream proxy and [is_accel] depend on the
    automaton only. *)
Lemma get_sds_or_proxy_same r r' :
  same_automaton r r' → get_sds_or_proxy r = get_sds_or_proxy r'.
Proof.
  intros Hsame. pose proof Hsame as (_ & Hsa & Hsf & _ & _ & Hlen & _).
  unfold get_sds_or_proxy, get_sds_or_proxy_fuel.
  rewrite <-Hsa, <-Hsf, <-Hlen.
  rewrite (has_self_loop_same _ _ _ Hsame).
  by rewrite (sds_walk_same _ _ _ Hsame).
Qed.

Lemma is_accel_same r r' sds i :
  same_automaton r r' → is_accel r sds i = is_accel r' sds i.
Proof.
  intros Hsame. pose proof Hsame as (Hkind & _ & _ & _ & Hremap & _ & Hrow).
  unfold is_accel. rewrite <-Hkind, <-Hremap.
  destruct (Hrow i) as [_ <-].
  destruct (i =? 0); [done|]. destruct (_ && _); [done|].
  f_equal. f_equal. apply list_filter_iff. intros c.
  by rewrite (same_automaton_next_of _ _ i _ Hsame).
Qed.

Lemma find_better_daddy_accel info k using8bit cyc g i :
  info_is_accel (find_better_daddy info k using8bit cyc g) i
  = info_is_accel info i.
Proof.
  assert (Hrec : ∀ bd bs, info_is_accel (record_daddy info k bd bs) i
                          = info_is_accel info i).
  { intros bd bs. unfold info_is_accel, record_daddy. cbn [extra].
    rewrite alter_extra_lookup. case_decide as H; [destruct H as [<- _]|]; done. }
  unfold find_better_daddy.
  repeat match goal with
         | |- context [if ?c then _ else _] => destruct c
         | |- context [let '(_, _) := ?p in _] => destruct p
         end; try done; try apply Hrec.
  unfold info_is_accel, set_info_extra. cbn [extra].
  rewrite alter_extra_lookup.
  case_decide as H; [destruct H as [<- _]|]; apply Hrec.
Qed.

Lemma find_all_daddies_accel info using8bit cyc g i :
  info_is_accel (find_all_daddies info using8bit cyc g) i
  = info_is_accel info i.
Proof.
  unfold find_all_daddies. generalize (seq 0 (info_size info)).
  intros l. revert info. induction l as [|k l IH]; intros info; [done|].
  cbn [foldl]. by rewrite IH, find_better_daddy_accel.
Qed.

(** [fillAccelOut] adds the accelerable states to the set it is given. *)
Lemma fillAccelOut_spec info (acc : gset dstate_id_t) x :
  x ∈ fillAccelOut info acc
  ↔ x ∈ acc ∨ (x < info_size info ∧ info_is_accel info x = true).
Proof.
  unfold fillAccelOut.
  assert (H : ∀ k (s : gset dstate_id_t),
            x ∈ foldl (λ acc i, if info_is_accel info i then {[i]} ∪ acc
                                else acc) s (seq 0 k)
            ↔ x ∈ s ∨ (x < k ∧ info_is_accel info x = true)).
  { induction k as [|k IH]; intros s.
    { cbn. split; [by left|]. intros [?|[? _]]; [done|lia]. }
    rewrite foldl_seq_S.
    destruct (info_is_accel info k) eqn:E.
    - rewrite elem_of_union, elem_of_singleton, IH.
      split; [intros [->|[?|[? ?]]]|intros [?|[? ?]]]; try tauto.
      + right. split; [lia|done].
      + right. split; [lia|done].
      + destruct (decide (x = k)); [by left|]. right. right. split; [lia|done].
    - rewrite IH. split; intros [?|[? ?]]; try tauto.
      + right. split; [lia|done].
      + right. destruct (decide (x = k)) as [->|]; [congruence|].
        split; [lia|done]. }
  apply H.
Qed.

(** ** The header *)

Lemma filter_true_nonempty (P : nat → bool) (l : list nat) :
  length (filter (λ i, P i = true) l) ≠ 0 ↔ ∃ i, i ∈ l ∧ P i = true.
Proof.
  split.
  - destruct (filter _ l) as [|x l'] eqn:E; [done|]. intros _.
    assert (Hx : x ∈ filter (λ i, P i = true) l)
      by (rewrite E; apply list_elem_of_here).
    apply list_elem_of_filter in Hx as [? ?]. eauto.
  - intros (i & Hi & HP).
    assert (Hx : i ∈ filter (λ i, P i = true) l)
      by (by apply list_elem_of_filter).
    destruct (filter _ l); [by apply elem_of_nil in Hx|done].
Qed.

Lemma has_accel_count (nfa : NFA) (P : nat → bool) (k : nat) (ac : Z) :
  m_has_accel nfa = (if (ac =? 0)%Z then 0%Z else 1%Z) →
  ac = Z.of_nat (length (filter (λ i, P i = true) (seq 0 k))) →
  has_accel_dfa nfa = true ↔ ∃ i, i < k ∧ P i = true.
Proof.
  intros Hm Hac. unfold has_accel_dfa. rewrite Hm.
  pose proof (filter_true_nonempty P (seq 0 k)) as Hne.
  destruct (ac =? 0)%Z eqn:E.
  - apply Z.eqb_eq in E. cbn. split; [done|].
    intros (i & Hi & HP). exfalso.
    assert (length (filter (λ i, P i = true) (seq 0 k)) ≠ 0); [|lia].
    apply Hne. exists i. split; [apply elem_of_seq; lia|done].
  - apply Z.eqb_neq in E. cbn. split; [|done]. intros _.
    destruct Hne as [Hne _]. destruct Hne as (i & Hi & HP); [lia|].
    apply elem_of_seq in Hi. exists i. split; [lia|done].
Qed.

Lemma compile16_header L info cc info2 nfa :
  wf_rows (raw info) →
  sherman_inv info →
  length (extra info) = info_size info →
  (∀ i, info_is_accel info i = false) →
  mcclellanCompile16 L info cc = (info2, Some nfa) →
  image_header (grey cc) info2 nfa.
Proof.
  intros Hrows Hinv Hlen Hfresh. unfold mcclellanCompile16.
  destruct (allocateFSN16 info) as [[info1 base] err] eqn:Halloc.
  destruct err; [done|].
  assert (Hpos : 0 < info_size info) by (by destruct Hrows).
  destruct (allocateFSN16_spec info info1 base Hpos (sherman_inv_dead _ Hinv)
              Halloc) as (Hsize & Hag1 & Hextra & Hnum & _).
  pose proof (info_agree_size _ _ Hag1) as Hsz1.
  destruct (populate_marks info1 (grey cc)) as (Hraw & Hmarks & _ & Hac).
  { lia. }
  { rewrite Hextra. lia. }
  { intros i. unfold info_is_accel. rewrite Hextra. apply Hfresh. }
  cbv zeta in Hraw, Hmarks, Hac.
  destruct (populateAccelerationInfo info1 (grey cc)) as [infoP ac].
  cbn [fst snd] in Hraw, Hmarks, Hac.
  intros [= <- <-].
  assert (Hszp : info_size infoP = info_size info1)
    by (unfold info_size; by rewrite Hraw).
  unfold image_header, markEdges, with_tables.
  cbn [m_state_count nPositions m_start_anchored m_start_floating
       with_sherman_header populateBasicInfo].
  split_and!.
  - rewrite u16n_small by lia. done.
  - unfold u32. lia.
  - done.
  - done.
  - unfold implId. rewrite Hraw. by destruct Hnum as (? & _).
  - intros i Hi. rewrite Hraw. apply Hmarks. lia.
  - eapply has_accel_count; [done|]. by rewrite Hszp.
Qed.

Lemma compile8_header L info cc :
  wf_rows (raw info) →
  info_size info ≤ 256 →
  length (extra info) = info_size info →
  (∀ i, info_is_accel info i = false) →
  image_header (grey cc) (mcclellanCompile8 L info cc).1
               (mcclellanCompile8 L info cc).2.
Proof.
  intros Hrows Hsize Hlen Hfresh. unfold mcclellanCompile8.
  assert (Hpos : 0 < info_size info) by (by destruct Hrows).
  destruct (populate_marks info (grey cc)) as (Hraw & Hmarks & _ & Hac);
    [lia|done|done|].
  cbv zeta in Hraw, Hmarks, Hac.
  destruct (populateAccelerationInfo info (grey cc)) as [info1 ac].
  cbn [fst snd] in Hraw, Hmarks, Hac.
  assert (Hsz1 : info_size info1 = info_size info)
    by (unfold info_size; by rewrite Hraw).
  assert (Hsize1 : 0 < info_size info1 ≤ 256) by lia.
  pose proof (allocateFSN8_rows info1 Hsize1) as Hrows12.
  pose proof (allocateFSN8_ids info1 Hsize1) as (H0 & Hextra & _).
  cbv zeta in H0, Hextra.
  destruct (allocateFSN8 info1) as [[infoA accel_limit] accept_limit].
  cbn [fst snd] in *.
  assert (Hsz2 : info_size infoA = info_size info1).
  { destruct Hrows12 as (_ & _ & _ & _ & _ & Hl & _). unfold info_size. lia. }
  assert (Hsame : same_automaton (raw info) (raw infoA)).
  { rewrite <-Hraw. by apply rows_agree_same_automaton. }
  assert (Hacc : ∀ i, info_is_accel infoA i = info_is_accel info1 i).
  { intros i. unfold info_is_accel. by rewrite Hextra. }
  unfold image_header, with_tables, with_limits_8.
  cbn [m_state_count nPositions m_start_anchored m_start_floating
       populateBasicInfo].
  split_and!.
  - rewrite u16n_small by lia. done.
  - unfold u32. lia.
  - done.
  - done.
  - done.
  - intros i Hi. rewrite Hacc, Hmarks by lia.
    rewrite <-(get_sds_or_proxy_same _ _ Hsame).
    by rewrite (is_accel_same _ _ _ _ Hsame).
  - eapply has_accel_count; [done|]. rewrite Hsz2, Hsz1, Hac.
    do 2 f_equal. apply list_filter_iff. intros i. by rewrite Hacc.
Qed.

Lemma compile8_zones L info cc :
  wf_rows (raw info) →
  info_size info ≤ 256 →
  zones8 (mcclellanCompile8 L info cc).1 (mcclellanCompile8 L info cc).2.
Proof.
  intros Hrows Hsize. unfold mcclellanCompile8.
  assert (Hpos : 0 < info_size info) by (by destruct Hrows).
  destruct (populateAccelerationInfo_agree info (grey cc)) as [_ Hraw1].
  destruct (populateAccelerationInfo info (grey cc)) as [info1 ac].
  cbn [fst] in Hraw1.
  assert (Hsz1 : info_size info1 = info_size info)
    by (unfold info_size; by rewrite Hraw1).
  assert (Hsize1 : 0 < info_size info1 ≤ 256) by lia.
  pose proof (allocateFSN8_zone_spec info1 Hsize1)
    as (_ & Hl1 & Hl2 & Hzone & _ & Hextra & Hlen & Hrow).
  cbv zeta in Hl1, Hl2, Hzone, Hextra, Hlen, Hrow.
  destruct (allocateFSN8 info1) as [[infoA accel_limit] accept_limit].
  cbn [fst snd] in *.
  unfold zones8, with_tables, with_limits_8.
  cbn [m_accel_limit_8 m_accept_limit_8].
  assert (Hsz2 : info_size infoA = info_size info1) by done.
  rewrite Hsz2. split_and!; try done; try lia.
  intros i Hi. cbv zeta.
  destruct (Hzone i Hi) as (_ & Hz1 & Hz2 & Hz3).
  destruct (Hrow i) as (_ & _ & Hrep & _). rewrite Hrep.
  unfold info_is_accel in *. rewrite Hextra. done.
Qed.

(** What a successful compile leaves: the raw DFA is still the same
    automaton, now with the ids written back, and the image is one of the
    two layouts. *)
Lemma compile_i_image L raw0 cc acc n :
  wf_raw raw0 →
  res_nfa (mcclellanCompile_i L raw0 cc acc) = Compiled n →
  ∃ info2,
    res_raw (mcclellanCompile_i L raw0 cc acc) = raw info2
    ∧ same_automaton raw0 (raw info2)
    ∧ wf_rows (raw info2)
    ∧ (image8_ok info2 n ∨ image16_ok L info2 n)
    ∧ image_header (grey cc) info2 n
    ∧ res_accel_states (mcclellanCompile_i L raw0 cc acc)
      = fillAccelOut info2 <$> acc
    ∧ rows_agree (if negb (streaming cc) then stripExtraEodReports raw0
                  else raw0) (raw info2)
    ∧ (nfa_type_of n = MCCLELLAN_NFA_8 → zones8 info2 n).
Proof.
  intros Hwf Hres.
  assert (Hsmall : (Z.of_nat (length (states raw0)) ≤ 16384)%Z).
  { destruct (decide (Z.of_nat (length (states raw0)) ≤ 16384)%Z); [done|].
    rewrite mcclellanCompile_i_overflow in Hres by lia.
    by destruct (hasEodReports _). }
  revert Hres. unfold mcclellanCompile_i.
  set (raw1 := if negb (streaming cc) then stripExtraEodReports raw0 else raw0).
  assert (Hsame1 : same_automaton raw0 raw1).
  { subst raw1. destruct (negb (streaming cc));
      [apply strip_same_automaton|apply same_automaton_refl]. }
  assert (Hrows1 : wf_rows raw1).
  { eapply wf_rows_same_automaton; [done|by apply wf_raw_rows]. }
  assert (Hlen1 : length (states raw1) = length (states raw0)).
  { by destruct Hsame1 as (_ & _ & _ & _ & _ & <- & _). }
  set (info := DfaInfo raw1 (extra (mk_dfa_info raw0))).
  set (using8bit := allowMcClellan8 (grey cc) && (length (states raw0) <=? 256)).
  set (cyc := is_cyclic_near raw1 (start_anchored raw1)).
  destruct (find_all_daddies_spec info using8bit cyc (grey cc))
    as (Hag1 & Hextra1 & Hinv1).
  { destruct (wf_rows_alpha _ Hrows1) as [? _]. unfold impl_alpha_size. cbn. lia. }
  { unfold info_size. cbn. lia. }
  { unfold info_size. cbn. by rewrite length_replicate. }
  { intros i. apply (mk_dfa_info_fresh raw0 i). }
  set (info1 := find_all_daddies info using8bit cyc (grey cc)) in *.
  assert (Hextra_i1 : length (extra info1) = info_size info1).
  { rewrite Hextra1. subst info1. by rewrite find_all_daddies_size. }
  assert (Hfresh_i1 : ∀ i, info_is_accel info1 i = false).
  { intros i. subst info1. rewrite find_all_daddies_accel.
    apply (mk_dfa_info_fresh raw0 i). }
  assert (Hrows_i1 : wf_rows (raw info1)).
  { eapply wf_rows_rows_agree; [apply Hag1|done]. }
  assert (Hsame_i1 : same_automaton raw0 (raw info1)).
  { eapply same_automaton_trans; [done|].
    by apply rows_agree_same_automaton. }
  destruct using8bit eqn:H8; cbn [negb].
  - assert (H256 : info_size info1 ≤ 256).
    { subst using8bit. apply andb_true_iff in H8 as [_ H8].
      apply Nat.leb_le in H8.
      destruct Hsame_i1 as (_ & _ & _ & _ & _ & Hl & _).
      unfold info_size. lia. }
    destruct (image8_ok_of L info1 cc Hrows_i1 H256) as [Himg Hag2].
    pose proof (compile8_header L info1 cc Hrows_i1 H256 Hextra_i1 Hfresh_i1)
      as Hhead.
    pose proof (compile8_zones L info1 cc Hrows_i1 H256) as Hzones.
    destruct (mcclellanCompile8 L info1 cc) as [info2 nfa].
    cbn [fst snd] in Himg, Hag2, Hhead, Hzones. cbn [res_nfa res_raw].
    intros Hres. exists info2. split_and!.
    + by destruct (hasEodReports raw1).
    + eapply same_automaton_trans; [done|].
      by apply rows_agree_same_automaton.
    + by eapply wf_rows_rows_agree.
    + left. destruct (hasEodReports raw1); injection Hres as <-; done.
    + destruct (hasEodReports raw1); injection Hres as <-; done.
    + done.
    + by eapply rows_agree_trans.
    + intros _. destruct (hasEodReports raw1); injection Hres as <-; done.
  - destruct (mcclellanCompile16 L info1 cc) as [info2 [nfa|]] eqn:Hc.
    + destruct (image16_ok_of L info1 cc info2 nfa Hrows_i1 Hinv1 Hc)
        as [Himg Hag2].
      pose proof (compile16_header L info1 cc info2 nfa Hrows_i1 Hinv1
                    Hextra_i1 Hfresh_i1 Hc) as Hhead.
      cbn [res_nfa res_raw]. intros Hres. exists info2. split_and!.
      * done.
      * eapply same_automaton_trans; [done|].
        apply rows_agree_same_automaton, Hag2.
      * eapply wf_rows_rows_agree; [apply Hag2|done].
      * right. injection Hres as <-.
        destruct (hasEodReports raw1); done.
      * injection Hres as <-.
        destruct (hasEodReports raw1); done.
      * done.
      * eapply rows_agree_trans; [done|apply Hag2].
      * intros Htype8. destruct Himg as (Htype16 & _). exfalso.
        injection Hres as <-.
        destruct (hasEodReports raw1); cbn in Htype8; congruence.
    + by destruct (hasEodReports raw1).
Qed.


(** * The image, as a user of [mcclellanCompile] sees it *)

Lemma wf_sherman_dfa : wf_raw sherman_dfa.
Proof. apply (bool_decide_unpack _). vm_compute. exact I. Qed.

Lemma wf_match_any_dfa : wf_raw match_any_dfa.
Proof. apply (bool_decide_unpack _). vm_compute. exact I. Qed.

Lemma wf_dverm_dfa : wf_raw dverm_dfa.
Proof. apply (bool_decide_unpack _). vm_compute. exact I. Qed.

Lemma wf_top_dfa : wf_raw top_dfa.
Proof. apply (bool_decide_unpack _). vm_compute. exact I. Qed.

Lemma wf_eod_dfa : wf_raw eod_dfa.
Proof. apply (bool_decide_unpack _). vm_compute. exact I. Qed.

Lemma compile16_type L info cc info2 nfa :
  mcclellanCompile16 L info cc = (info2, Some nfa) →
  nfa_type_of nfa = MCCLELLAN_NFA_16 ∧ nfa_accepts_eod nfa = false.
Proof.
  unfold mcclellanCompile16.
  destruct (allocateFSN16 info) as [[info1 base] err]. destruct err; [done|].
  destruct (populateAccelerationInfo info1 (grey cc)) as [infoP ac].
  by intros [= <- <-].
Qed.

Lemma compile8_type L info cc :
  nfa_type_of (mcclellanCompile8 L info cc).2 = MCCLELLAN_NFA_8
  ∧ nfa_accepts_eod (mcclellanCompile8 L info cc).2 = false.
Proof.
  unfold mcclellanCompile8.
  destruct (populateAccelerationInfo info (grey cc)) as [info1 ac].
  by destruct (allocateFSN8 info1) as [[info2 l1] l2].
Qed.

(** A DFA with at least one and at most 16384 states compiles. *)
Lemma compile_succeeds L raw0 cc acc :
  0 < length (states raw0) →
  (Z.of_nat (length (states raw0)) ≤ 16384)%Z →
  ∃ n, res_nfa (mcclellanCompile L raw0 cc acc) = Compiled n.
Proof.
  intros Hpos Hsmall. unfold mcclellanCompile, mcclellanCompile_i.
  set (raw1 := if negb (streaming cc) then stripExtraEodReports raw0
               else raw0).
  assert (Hlen : length (states raw1) = length (states raw0)).
  { subst raw1. destruct (negb (streaming cc)); [|done].
    pose proof (strip_agree raw0) as (_ & _ & _ & _ & _ & Hl & _). done. }
  set (info1 := find_all_daddies _ _ _ _).
  assert (Hsize : info_size info1 = length (states raw0)).
  { subst info1. rewrite find_all_daddies_size. exact Hlen. }
  destruct (negb (allowMcClellan8 (grey cc)
                  && (length (states raw0) <=? 256))).
  - assert (Hsome : is_Some (mcclellanCompile16 L info1 cc).2).
    { unfold mcclellanCompile16.
      pose proof (allocateFSN16_error info1 ltac:(lia)) as Herr.
      destruct (allocateFSN16 info1) as [[i1 base] err]. cbn [snd] in Herr.
      rewrite Herr, bool_decide_eq_false_2 by lia.
      destruct (populateAccelerationInfo i1 (grey cc)). cbn [snd]. eauto. }
    destruct (mcclellanCompile16 L info1 cc) as [info2 [n|]];
      [|by destruct Hsome].
    cbn. eauto.
  - destruct (mcclellanCompile8 L info1 cc) as [info2 n]. cbn. eauto.
Qed.

(** Which layout is built and when the image accepts at end of data: the
    image is of the 8-bit type exactly when the 8-bit layout is allowed
    and the DFA has at most 256 states, and [NFA_ACCEPTS_EOD] is set
    exactly when a state is left with end-of-data reports (in block mode,
    after those it also raises as ordinary reports are dropped). *)
Theorem mcclellanCompile_layout_choice L raw0 cc acc n :
  res_nfa (mcclellanCompile L raw0 cc acc) = Compiled n →
  (nfa_type_of n = MCCLELLAN_NFA_8
   ↔ allowMcClellan8 (grey cc) = true ∧ length (states raw0) ≤ 256)
  ∧ (nfa_type_of n = MCCLELLAN_NFA_16
     ↔ ¬ (allowMcClellan8 (grey cc) = true ∧ length (states raw0) ≤ 256))
  ∧ (nfa_accepts_eod n = true
     ↔ ∃ s, s < length (states raw0)
            ∧ if streaming cc
              then reports_eod (states raw0 !!! s) ≠ ∅
              else reports_eod (states raw0 !!! s)
                   ⊈ reports (states raw0 !!! s)).
Proof.
  unfold mcclellanCompile, mcclellanCompile_i.
  set (raw1 := if negb (streaming cc) then stripExtraEodReports raw0
               else raw0).
  assert (Heod : hasEodReports raw1 = true
                 ↔ ∃ s, s < length (states raw0)
                        ∧ if streaming cc
                          then reports_eod (states raw0 !!! s) ≠ ∅
                          else reports_eod (states raw0 !!! s)
                               ⊈ reports (states raw0 !!! s)).
  { subst raw1. destruct (streaming cc); cbn [negb].
    - unfold hasEodReports. rewrite existsb_exists. split.
      + intros (ds & Hin & Hne).
        apply list_elem_of_In, list_elem_of_lookup in Hin as [s Hs].
        exists s. split; [by eapply lookup_lt_Some|].
        apply negb_true_iff, bool_decide_eq_false in Hne.
        by rewrite (list_lookup_total_correct _ _ _ Hs).
      + intros (s & Hs & Hne). exists (states raw0 !!! s). split.
        { by apply list_elem_of_In, list_elem_of_lookup_total_2. }
        by apply negb_true_iff, bool_decide_eq_false.
    - unfold hasEodReports. rewrite existsb_exists.
      assert (Hrow : ∀ s, reports_eod (states (stripExtraEodReports raw0) !!! s)
                = reports_eod (states raw0 !!! s) ∖ reports (states raw0 !!! s)).
      { intros s. unfold stripExtraEodReports. cbn [states set_states].
        rewrite lookup_total_fmap_dstate; [|done].
        cbn. rewrite foldl_difference_singletons.
        by rewrite list_to_set_elements_L. }
      pose proof (strip_agree raw0) as (_ & _ & _ & _ & _ & Hlen & _).
      split.
      + intros (ds & Hin & Hne).
        apply list_elem_of_In, list_elem_of_lookup in Hin as [s Hs].
        exists s. split; [apply lookup_lt_Some in Hs; lia|].
        apply negb_true_iff, bool_decide_eq_false in Hne.
        apply list_lookup_total_correct in Hs. rewrite <-Hs, Hrow in Hne.
        intros Hsub. apply Hne. set_solver.
      + intros (s & Hs & Hsub).
        exists (states (stripExtraEodReports raw0) !!! s). split.
        { apply list_elem_of_In, list_elem_of_lookup_total_2. lia. }
        apply negb_true_iff, bool_decide_eq_false. rewrite Hrow.
        intros Hempty. apply Hsub. set_solver. }
  set (info1 := find_all_daddies _ _ _ _).
  destruct (allowMcClellan8 (grey cc) && (length (states raw0) <=? 256))
    eqn:H8; cbn [negb].
  - apply andb_true_iff in H8 as [Hallow H256]. apply Nat.leb_le in H256.
    destruct (compile8_type L info1 cc) as [Htype Hflag].
    destruct (mcclellanCompile8 L info1 cc) as [info2 nfa].
    cbn [fst snd res_nfa] in *.
    destruct (hasEodReports raw1) eqn:E; intros [= <-]; cbn;
      rewrite ?Htype, ?Hflag, <-Heod; split_and!; try done; try tauto;
      split; try (intros ?; discriminate); tauto.
  - assert (¬ (allowMcClellan8 (grey cc) = true ∧ length (states raw0) ≤ 256)).
    { intros [Hallow H256]. apply Nat.leb_le in H256.
      by rewrite Hallow, H256 in H8. }
    destruct (mcclellanCompile16 L info1 cc) as [info2 [nfa|]] eqn:Hc;
      [|by destruct (hasEodReports raw1)].
    destruct (compile16_type L info1 cc info2 nfa Hc) as [Htype Hflag].
    cbn [fst snd res_nfa] in *.
    destruct (hasEodReports raw1) eqn:E; intros [= <-]; cbn;
      rewrite ?Htype, ?Hflag, <-Heod; split_and!; try done; try tauto;
      split; try (intros ?; discriminate); tauto.
Qed.

Lemma mcclellanCompile_layout_choice_witness :
  ∃ n,
    res_nfa (mcclellanCompile example_layout sherman_dfa cc_16bit None)
    = Compiled n
    ∧ (nfa_type_of n = MCCLELLAN_NFA_8
       ↔ allowMcClellan8 (grey cc_16bit) = true
         ∧ length (states sherman_dfa) ≤ 256)
    ∧ (nfa_type_of n = MCCLELLAN_NFA_16
       ↔ ¬ (allowMcClellan8 (grey cc_16bit) = true
            ∧ length (states sherman_dfa) ≤ 256))
    ∧ (nfa_accepts_eod n = true
       ↔ ∃ s, s < length (states sherman_dfa)
              ∧ if streaming cc_16bit
                then reports_eod (states sherman_dfa !!! s) ≠ ∅
                else reports_eod (states sherman_dfa !!! s)
                     ⊈ reports (states sherman_dfa !!! s)).
Proof.
  destruct (compile_succeeds example_layout sherman_dfa cc_16bit None)
    as [n Hn]; [vm_compute; lia|vm_compute; discriminate|].
  exists n. split; [exact Hn|].
  exact (mcclellanCompile_layout_choice example_layout sherman_dfa cc_16bit
           None n Hn).
Defined.

Lemma raw_top_of_same r r' i :
  same_automaton r r' → raw_top_of r i = raw_top_of r' i.
Proof.
  intros (_ & _ & Hsf & _ & Hremap & _ & Hrow). unfold raw_top_of.
  rewrite Hsf, Hremap. by destruct (Hrow i) as [-> _].
Qed.

Lemma image_common_of L info nfa :
  image8_ok info nfa ∨ image16_ok L info nfa → image_common info nfa.
Proof. intros [(_ & _ & H & _)|(_ & _ & H & _)]; done. Qed.

(** In the image of either layout, the [top] field of the
    [mstate_aux] record of the dead state holds the id of the floating
    start state, and that of any other state the id of its successor on
    [TOP]. *)
Theorem mcclellanCompile_aux_top L raw0 cc acc n :
  wf_raw raw0 →
  res_nfa (mcclellanCompile L raw0 cc acc) = Compiled n →
  let id s := impl_id (states (res_raw (mcclellanCompile L raw0 cc acc))
                       !!! s) in
  ∀ i, i < length (states raw0) →
       top (aux n !!! id i)
       = id (if i =? 0 then start_floating raw0
             else next (states raw0 !!! i) !!! (alpha_remap raw0 !!! TOP)).
Proof.
  intros Hwf Hres id i Hi. subst id. cbv beta.
  destruct (compile_i_image L raw0 cc acc n Hwf Hres)
    as (info2 & Hraw & Hsame & _ & Himg & _ & _ & _).
  apply image_common_of in Himg as (_ & _ & _ & Htop & _).
  unfold mcclellanCompile. rewrite Hraw.
  fold (raw_top_of raw0 i). rewrite (raw_top_of_same _ _ i Hsame).
  apply Htop. destruct Hsame as (_ & _ & _ & _ & _ & Hl & _).
  unfold info_size. lia.
Qed.

Lemma mcclellanCompile_aux_top_witness :
  wf_raw top_dfa
  ∧ ∃ n,
      res_nfa (mcclellanCompile example_layout top_dfa cc_default None)
      = Compiled n
      ∧ let id s :=
          impl_id (states (res_raw (mcclellanCompile example_layout
                                      top_dfa cc_default None)) !!! s) in
        ∀ i, i < length (states top_dfa) →
             top (aux n !!! id i)
             = id (if i =? 0 then start_floating top_dfa
                   else next (states top_dfa !!! i)
                          !!! (alpha_remap top_dfa !!! TOP)).
Proof.
  split; [exact wf_top_dfa|].
  destruct (compile_succeeds example_layout top_dfa cc_default None)
    as [n Hn]; [vm_compute; lia|vm_compute; discriminate|].
  exists n. split; [exact Hn|].
  exact (mcclellanCompile_aux_top example_layout top_dfa cc_default None n
           wf_top_dfa Hn).
Defined.

(** The header of the image and the ids written back to the raw DFA: the
    image records the number of states, the dead state has id 0, the ids
    are distinct and below the number of states, the two start states are
    recorded by their ids, the byte classes are those of the raw DFA and
    a row of [2^alphaShift] slots holds the whole implementation
    alphabet. *)
Theorem mcclellanCompile_header L raw0 cc acc n :
  wf_raw raw0 →
  res_nfa (mcclellanCompile L raw0 cc acc) = Compiled n →
  let id s := impl_id (states (res_raw (mcclellanCompile L raw0 cc acc))
                       !!! s) in
  let N := length (states raw0) in
  m_state_count n = N
  ∧ nPositions n = Z.of_nat N
  ∧ length (states (res_raw (mcclellanCompile L raw0 cc acc))) = N
  ∧ id 0 = 0
  ∧ (∀ i, i < N → id i < N)
  ∧ (∀ i i', i < N → i' < N → id i = id i' → i = i')
  ∧ m_start_anchored n = id (start_anchored raw0)
  ∧ m_start_floating n = id (start_floating raw0)
  ∧ (∀ c, c < 256 → m_remap n !!! c = alpha_remap raw0 !!! c)
  ∧ getImplAlphaSize raw0 ≤ 2 ^ m_alphaShift n
  ∧ length (aux n) = N.
Proof.
  intros Hwf Hres id N. subst id N. cbv beta.
  destruct (compile_i_image L raw0 cc acc n Hwf Hres)
    as (info2 & Hraw & Hsame & Hrows2 & Himg & Hhead & _ & _).
  apply image_common_of in Himg
    as (Hshift & Hremap & Hauxlen & _ & Hinj & Hlt).
  destruct Hhead as (Hcount & Hpos & Hsa & Hsf & H0 & _).
  unfold mcclellanCompile. rewrite Hraw.
  pose proof Hsame as (_ & Hsa' & Hsf' & Ha' & Hremap' & Hlen' & _).
  fold (info_size info2) in Hlen'.
  rewrite Hlen', Hsa', Hsf', Hremap'.
  split_and!; try done.
  - intros c Hc. rewrite Hremap.
    rewrite (lookup_total_fmap_nat _ (seq 0 256) c) by (by rewrite length_seq).
    rewrite lookup_total_seq_lt by done. cbn [Nat.add].
    destruct Hrows2 as (_ & Ha & Hbytes & _).
    pose proof (Hbytes c ltac:(unfold N_CHARS; lia)).
    unfold ALPHABET_SIZE in Ha. unfold u8. lia.
  - rewrite Hshift.
    destruct (alpha_le_row info2 Hrows2) as (_ & _ & Haw).
    unfold impl_alpha_size, getImplAlphaSize in *. by rewrite Ha'.
Qed.

Lemma mcclellanCompile_header_witness :
  wf_raw sherman_dfa
  ∧ ∃ n,
      res_nfa (mcclellanCompile example_layout sherman_dfa cc_16bit None)
      = Compiled n
      ∧ let id s :=
          impl_id (states (res_raw (mcclellanCompile example_layout
                                      sherman_dfa cc_16bit None)) !!! s) in
        let N := length (states sherman_dfa) in
        m_state_count n = N
        ∧ nPositions n = Z.of_nat N
        ∧ length (states (res_raw (mcclellanCompile example_layout
                                     sherman_dfa cc_16bit None))) = N
        ∧ id 0 = 0
        ∧ (∀ i, i < N → id i < N)
        ∧ (∀ i i', i < N → i' < N → id i = id i' → i = i')
        ∧ m_start_anchored n = id (start_anchored sherman_dfa)
        ∧ m_start_floating n = id (start_floating sherman_dfa)
        ∧ (∀ c, c < 256 → m_remap n !!! c = alpha_remap sherman_dfa !!! c)
        ∧ getImplAlphaSize sherman_dfa ≤ 2 ^ m_alphaShift n
        ∧ length (aux n) = N.
Proof.
  split; [exact wf_sherman_dfa|].
  destruct (compile_succeeds example_layout sherman_dfa cc_16bit None)
    as [n Hn]; [vm_compute; lia|vm_compute; discriminate|].
  exists n. split; [exact Hn|].
  exact (mcclellanCompile_header example_layout sherman_dfa cc_16bit None n
           wf_sherman_dfa Hn).
Defined.

(** [has_accel_dfa] answers, for a compiled image, whether some state of
    the DFA is accepted by [is_accel] (with acceleration switched on), and
    the states added to [*accel_states] are exactly those states. *)
Theorem mcclellanCompile_accel L raw0 cc acc n :
  wf_raw raw0 →
  res_nfa (mcclellanCompile L raw0 cc acc) = Compiled n →
  let accel i := accelerateDFA (grey cc)
                 && is_accel raw0 (get_sds_or_proxy raw0) i in
  let N := length (states raw0) in
  (has_accel_dfa n = true ↔ ∃ i, i < N ∧ accel i = true)
  ∧ match acc with
    | Some s =>
      ∃ s', res_accel_states (mcclellanCompile L raw0 cc acc) = Some s'
            ∧ ∀ x, x ∈ s' ↔ x ∈ s ∨ (x < N ∧ accel x = true)
    | None => res_accel_states (mcclellanCompile L raw0 cc acc) = None
    end.
Proof.
  intros Hwf Hres accel N.
  destruct (compile_i_image L raw0 cc acc n Hwf Hres)
    as (info2 & Hraw & Hsame & _ & _ & Hhead & Hout & _).
  destruct Hhead as (_ & _ & _ & _ & _ & Hmarks & Hhas).
  assert (Hlen : info_size info2 = N).
  { destruct Hsame as (_ & _ & _ & _ & _ & Hl & _). unfold info_size. lia. }
  assert (Hacc : ∀ i, i < N → info_is_accel info2 i = accel i).
  { intros i Hi. rewrite Hmarks by lia. subst accel. cbv beta.
    rewrite <-(get_sds_or_proxy_same _ _ Hsame).
    by rewrite <-(is_accel_same _ _ _ _ Hsame). }
  split.
  - rewrite Hhas, Hlen. split; intros (i & Hi & Ha); exists i;
      (split; [done|]); [rewrite <-Hacc|rewrite Hacc]; done.
  - unfold mcclellanCompile. rewrite Hout. destruct acc as [s|]; [|done].
    cbn. eexists. split; [done|]. intros x.
    rewrite fillAccelOut_spec, Hlen.
    split; (intros [?|[Hx Ha]]; [by left|right; split; [done|]]);
      [rewrite <-Hacc|rewrite Hacc]; done.
Qed.

Lemma mcclellanCompile_accel_witness :
  wf_raw dverm_dfa
  ∧ ∃ n,
      res_nfa (mcclellanCompile example_layout dverm_dfa cc_16bit (Some ∅))
      = Compiled n
      ∧ let accel i := accelerateDFA (grey cc_16bit)
                       && is_accel dverm_dfa (get_sds_or_proxy dverm_dfa) i
        in
        let N := length (states dverm_dfa) in
        (has_accel_dfa n = true ↔ ∃ i, i < N ∧ accel i = true)
        ∧ ∃ s', res_accel_states (mcclellanCompile example_layout dverm_dfa
                                    cc_16bit (Some ∅)) = Some s'
                ∧ ∀ x, x ∈ s' ↔ x ∈ (∅ : gset nat) ∨ (x < N ∧ accel x = true).
Proof.
  split; [exact wf_dverm_dfa|].
  destruct (compile_succeeds example_layout dverm_dfa cc_16bit (Some ∅))
    as [n Hn]; [vm_compute; lia|vm_compute; discriminate|].
  exists n. split; [exact Hn|].
  exact (mcclellanCompile_accel example_layout dverm_dfa cc_16bit (Some ∅) n
           wf_dverm_dfa Hn).
Defined.

(** ** Successors in the image *)

Lemma flagged_succ (ax : list mstate_aux) (t : nat) :
  (Z.of_nat t < 16384)%Z →
  let v := mark_succ ax (Z.of_nat t) in
  Z.land v STATE_MASK = Z.of_nat t
  ∧ has_flag v ACCEPT_FLAG = negb (accept (ax !!! t) =? 0)%Z
  ∧ has_flag v ACCEL_FLAG = negb (accel_offset (ax !!! t) =? 0)%Z.
Proof.
  intros Ht. cbv zeta.
  destruct (mark_succ_spec ax (Z.of_nat t) ltac:(lia)) as (Hm & Ha & Hx & _).
  unfold getAux in Ha, Hx. rewrite Nat2Z.id in Ha, Hx. done.
Qed.

Lemma same_automaton_alpha r r' :
  same_automaton r r' → getImplAlphaSize r = getImplAlphaSize r'.
Proof. intros (_ & _ & _ & Ha & _). unfold getImplAlphaSize. by rewrite Ha. Qed.

(** In an 8-bit image the row of every state holds the plain ids of its
    successors: the slot of state [i] and symbol [j] is at
    [(id i << alphaShift) + j] and holds the id of [i.next[j]]. *)
Theorem mcclellanCompile_rows8 L raw0 cc acc n :
  wf_raw raw0 →
  res_nfa (mcclellanCompile L raw0 cc acc) = Compiled n →
  nfa_type_of n = MCCLELLAN_NFA_8 →
  let id s := impl_id (states (res_raw (mcclellanCompile L raw0 cc acc))
                       !!! s) in
  ∀ i j, i < length (states raw0) → j < getImplAlphaSize raw0 →
         succ_table n !!! (Nat.shiftl (id i) (m_alphaShift n) + j)
         = Z.of_nat (id (next_of raw0 i j))
         ∧ id (next_of raw0 i j) < 256.
Proof.
  intros Hwf Hres Htype id i j Hi Hj. subst id. cbv beta.
  destruct (compile_i_image L raw0 cc acc n Hwf Hres)
    as (info2 & Hraw & Hsame & Hrows2 & Himg & _ & _ & _).
  destruct Himg as [Himg|(Htype16 & _)]; [|congruence].
  destruct Himg as (_ & H256 & (Hshift & _ & _ & _ & _ & Hlt) & Hrow).
  unfold mcclellanCompile. rewrite Hraw.
  assert (Hlen : info_size info2 = length (states raw0)).
  { destruct Hsame as (_ & _ & _ & _ & _ & Hl & _). unfold info_size. lia. }
  pose proof (same_automaton_alpha _ _ Hsame) as Ha.
  rewrite (same_automaton_next_of _ _ i j Hsame), Hshift.
  split.
  - apply Hrow; [lia|]. unfold impl_alpha_size. lia.
  - assert (next_of (raw info2) i j < info_size info2).
    { apply (next_of_lt info2 Hrows2); [lia|]. unfold impl_alpha_size. lia. }
    pose proof (Hlt _ H). unfold implId in *. lia.
Qed.

Lemma mcclellanCompile_rows8_witness :
  wf_raw match_any_dfa
  ∧ ∃ n,
      res_nfa (mcclellanCompile example_layout match_any_dfa cc_default None)
      = Compiled n
      ∧ nfa_type_of n = MCCLELLAN_NFA_8
      ∧ let id s :=
          impl_id (states (res_raw (mcclellanCompile example_layout
                                      match_any_dfa cc_default None)) !!! s) in
        ∀ i j, i < length (states match_any_dfa) →
               j < getImplAlphaSize match_any_dfa →
               succ_table n !!! (Nat.shiftl (id i) (m_alphaShift n) + j)
               = Z.of_nat (id (next_of match_any_dfa i j))
               ∧ id (next_of match_any_dfa i j) < 256.
Proof.
  split; [exact wf_match_any_dfa|].
  destruct (compile_succeeds example_layout match_any_dfa cc_default None)
    as [n Hn]; [vm_compute; lia|vm_compute; discriminate|].
  assert (Htype : nfa_type_of n = MCCLELLAN_NFA_8).
  { revert Hn. unfold mcclellanCompile, mcclellanCompile_i.
    change (allowMcClellan8 (grey cc_default)
            && (length (states match_any_dfa) <=? 256)) with true.
    cbn [negb].
    set (info1 := find_all_daddies _ _ _ _).
    destruct (compile8_type example_layout info1 cc_default) as [Ht _].
    destruct (mcclellanCompile8 example_layout info1 cc_default) as [i2 nfa].
    cbn [snd] in Ht. cbn [res_nfa].
    destruct (hasEodReports _); intros [= <-]; exact Ht. }
  exists n. split; [exact Hn|]. split; [exact Htype|].
  exact (mcclellanCompile_rows8 example_layout match_any_dfa cc_default None n
           wf_match_any_dfa Hn Htype).
Defined.

(** In a 16-bit image the row of every state below [sherman_limit] holds
    the flagged ids of its successors: the [STATE_MASK] bits of the slot
    of state [i] and symbol [j] are the id of [i.next[j]], [ACCEPT_FLAG]
    is set exactly if the [mstate_aux] record of that successor has a
    non-zero [accept], and [ACCEL_FLAG] exactly if it has a non-zero
    [accel_offset]. *)
Theorem mcclellanCompile_rows16 L raw0 cc acc n :
  wf_raw raw0 →
  res_nfa (mcclellanCompile L raw0 cc acc) = Compiled n →
  nfa_type_of n = MCCLELLAN_NFA_16 →
  let id s := impl_id (states (res_raw (mcclellanCompile L raw0 cc acc))
                       !!! s) in
  ∀ i j, i < length (states raw0) → id i < m_sherman_limit n →
         j < getImplAlphaSize raw0 →
         let v := succ_table n !!! (Nat.shiftl (id i) (m_alphaShift n) + j) in
         let t := id (next_of raw0 i j) in
         Z.land v STATE_MASK = Z.of_nat t
         ∧ has_flag v ACCEPT_FLAG = negb (accept (aux n !!! t) =? 0)%Z
         ∧ has_flag v ACCEL_FLAG = negb (accel_offset (aux n !!! t) =? 0)%Z.
Proof.
  intros Hwf Hres Htype id i j Hi Hnormal Hj. subst id. cbv beta in *.
  destruct (compile_i_image L raw0 cc acc n Hwf Hres)
    as (info2 & Hraw & Hsame & Hrows2 & Himg & _ & _ & _).
  destruct Himg as [(Htype8 & _)|Himg]; [congruence|].
  destruct Himg as (_ & Hsize & (Hshift & _) & Hnum & Hinv & Hrow & _).
  revert Hnormal. unfold mcclellanCompile. rewrite Hraw. intros Hnormal.
  assert (Hlen : info_size info2 = length (states raw0)).
  { destruct Hsame as (_ & _ & _ & _ & _ & Hl & _). unfold info_size. lia. }
  pose proof (same_automaton_alpha _ _ Hsame) as Ha.
  assert (Hsh : is_sherman info2 i = false).
  { destruct (is_sherman info2 i) eqn:E; [|done].
    pose proof (implId_sherman info2 _ Hnum i ltac:(lia) E).
    unfold implId in *. lia. }
  rewrite (same_automaton_next_of _ _ i j Hsame), Hshift.
  fold (implId info2 i). fold (implId info2 (next_of (raw info2) i j)).
  rewrite Hrow; [|lia|done|unfold impl_alpha_size; lia].
  apply flagged_succ.
  assert (next_of (raw info2) i j < info_size info2).
  { apply (next_of_lt info2 Hrows2); [lia|]. unfold impl_alpha_size. lia. }
  pose proof (implId_u16 info2 _ Hnum Hsize _ H). lia.
Qed.

Lemma mcclellanCompile_rows16_witness :
  wf_raw dverm_dfa
  ∧ ∃ n,
      res_nfa (mcclellanCompile example_layout dverm_dfa cc_16bit None)
      = Compiled n
      ∧ nfa_type_of n = MCCLELLAN_NFA_16
      ∧ let id s :=
          impl_id (states (res_raw (mcclellanCompile example_layout
                                      dverm_dfa cc_16bit None)) !!! s) in
        ∀ i j, i < length (states dverm_dfa) → id i < m_sherman_limit n →
               j < getImplAlphaSize dverm_dfa →
               let v := succ_table n
                          !!! (Nat.shiftl (id i) (m_alphaShift n) + j) in
               let t := id (next_of dverm_dfa i j) in
               Z.land v STATE_MASK = Z.of_nat t
               ∧ has_flag v ACCEPT_FLAG = negb (accept (aux n !!! t) =? 0)%Z
               ∧ has_flag v ACCEL_FLAG
                 = negb (accel_offset (aux n !!! t) =? 0)%Z.
Proof.
  split; [exact wf_dverm_dfa|].
  destruct (compile_succeeds example_layout dverm_dfa cc_16bit None)
    as [n Hn]; [vm_compute; lia|vm_compute; discriminate|].
  assert (Htype : nfa_type_of n = MCCLELLAN_NFA_16).
  { revert Hn. unfold mcclellanCompile, mcclellanCompile_i.
    change (allowMcClellan8 (grey cc_16bit)
            && (length (states dverm_dfa) <=? 256)) with false.
    cbn [negb].
    set (info1 := find_all_daddies _ _ _ _).
    destruct (mcclellanCompile16 example_layout info1 cc_16bit)
      as [i2 [nfa|]] eqn:Hc; [|by destruct (hasEodReports _)].
    destruct (compile16_type example_layout info1 cc_16bit i2 nfa Hc)
      as [Ht _].
    cbn [res_nfa]. destruct (hasEodReports _); intros [= <-]; exact Ht. }
  exists n. split; [exact Hn|]. split; [exact Htype|].
  exact (mcclellanCompile_rows16 example_layout dverm_dfa cc_16bit None n
           wf_dverm_dfa Hn Htype).
Defined.

(** In a 16-bit image every state from [sherman_limit] on has a Sherman
    record at [(id - sherman_limit) * SHERMAN_FIXED_SIZE] in the Sherman
    region.  Its daddy is an earlier state with a row of its own; the
    record holds the number of symbols on which the state differs from
    its daddy (at most 8), the id of the daddy, those symbols in
    increasing order and, for each of them, the flagged id of the
    successor of the state itself. *)
Theorem mcclellanCompile_sherman_records L raw0 cc acc n :
  sherman_layout_ok L →
  wf_raw raw0 →
  res_nfa (mcclellanCompile L raw0 cc acc) = Compiled n →
  nfa_type_of n = MCCLELLAN_NFA_16 →
  let r := res_raw (mcclellanCompile L raw0 cc acc) in
  let id s := impl_id (states r !!! s) in
  ∀ i, i < length (states raw0) → m_sherman_limit n ≤ id i →
       let d := daddy (states r !!! i) in
       let ov := filter (λ s, next_of raw0 i s ≠ next_of raw0 d s)
                        (seq 0 (getImplAlphaSize raw0)) in
       let cur := (id i - m_sherman_limit n) * SHERMAN_FIXED_SIZE L in
       let mem := sherman_table n in
       d < i ∧ id d < m_sherman_limit n ∧ length ov ≤ 8
       ∧ mem !!! (cur + SHERMAN_LEN_OFFSET) = Z.of_nat (length ov)
       ∧ load_u16 mem (cur + SHERMAN_DADDY_OFFSET) = Z.of_nat (id d)
       ∧ ∀ k, k < length ov →
              let s := ov !!! k in
              let v := load_u16 mem (cur + SHERMAN_STATES_OFFSET L (length ov)
                                     + 2 * k) in
              let t := id (next_of raw0 i s) in
              mem !!! (cur + SHERMAN_CHARS_OFFSET + k) = Z.of_nat s
              ∧ Z.land v STATE_MASK = Z.of_nat t
              ∧ has_flag v ACCEPT_FLAG = negb (accept (aux n !!! t) =? 0)%Z
              ∧ has_flag v ACCEL_FLAG
                = negb (accel_offset (aux n !!! t) =? 0)%Z.
Proof.
  intros Hlayout Hwf Hres Htype r id i Hi Hsherman. subst r id.
  cbv beta in *.
  destruct (compile_i_image L raw0 cc acc n Hwf Hres)
    as (info2 & Hraw & Hsame & Hrows2 & Himg & _ & _ & _).
  destruct Himg as [(Htype8 & _)|Himg]; [congruence|].
  destruct Himg as (_ & Hsize & _ & Hnum & Hinv & _ & Hrec).
  specialize (Hrec Hlayout).
  revert Hsherman. unfold mcclellanCompile. rewrite Hraw. intros Hsherman.
  assert (Hlen : info_size info2 = length (states raw0)).
  { destruct Hsame as (_ & _ & _ & _ & _ & Hl & _). unfold info_size. lia. }
  pose proof (same_automaton_alpha _ _ Hsame) as Ha.
  assert (Hsh : is_sherman info2 i = true).
  { destruct (is_sherman info2 i) eqn:E; [done|].
    pose proof (implId_normal info2 _ Hnum i ltac:(lia) E).
    unfold implId in *. lia. }
  set (d := daddy (states (raw info2) !!! i)).
  assert (Hov : filter (λ s, next_of raw0 i s ≠ next_of raw0 d s)
                       (seq 0 (getImplAlphaSize raw0))
                = overrides info2 i d).
  { unfold overrides, impl_alpha_size. rewrite <-Ha.
    apply list_filter_iff. intros s.
    by rewrite !(same_automaton_next_of _ _ _ _ Hsame). }
  cbv zeta. rewrite Hov.
  destruct (Hinv i Hsh) as (Hd & _ & Hdn & _). fold d in Hd, Hdn.
  destruct (sherman_len info2 Hinv i Hsh) as [Hlen8 _]. fold d in Hlen8.
  specialize (Hrec i ltac:(lia) Hsh). cbv zeta in Hrec. fold d in Hrec.
  destruct Hrec as (Hl & Hdaddy & _ & _ & Hchars & Hsuccs).
  fold (implId info2 i). fold (implId info2 d).
  split_and!; try done.
  - apply (implId_normal info2 _ Hnum); [lia|done].
  - intros k Hk.
    assert (Hs : overrides info2 i d !!! k < impl_alpha_size info2).
    { apply (overrides_elem info2 i d).
      by apply list_elem_of_lookup_total_2. }
    rewrite (Hchars k Hk), (Hsuccs k Hk).
    rewrite lookup_total_fmap_nat by done.
    rewrite (list_lookup_total_fmap (mark_succ (aux n)))
      by (by rewrite length_fmap).
    rewrite lookup_total_fmap_nat by done.
    rewrite (same_automaton_next_of _ _ i _ Hsame).
    split; [done|]. apply flagged_succ.
    assert (next_of (raw info2) i (overrides info2 i d !!! k)
            < info_size info2).
    { apply (next_of_lt info2 Hrows2); [lia|done]. }
    pose proof (implId_u16 info2 _ Hnum Hsize _ H) as Hu.
    unfold implId in Hu. lia.
Qed.

Lemma example_layout_ok : sherman_layout_ok example_layout.
Proof. intros len Hlen. cbn. lia. Qed.

Lemma sherman_dfa_compiles_16 :
  ∃ n, res_nfa (mcclellanCompile example_layout sherman_dfa cc_16bit None)
       = Compiled n
       ∧ nfa_type_of n = MCCLELLAN_NFA_16.
Proof.
  destruct (compile_succeeds example_layout sherman_dfa cc_16bit None)
    as [n Hn]; [vm_compute; lia|vm_compute; discriminate|].
  exists n. split; [exact Hn|].
  revert Hn. unfold mcclellanCompile, mcclellanCompile_i.
  change (allowMcClellan8 (grey cc_16bit)
          && (length (states sherman_dfa) <=? 256)) with false.
  cbn [negb].
  set (info1 := find_all_daddies _ _ _ _).
  destruct (mcclellanCompile16 example_layout info1 cc_16bit)
    as [i2 [nfa|]] eqn:Hc; [|by destruct (hasEodReports _)].
  destruct (compile16_type example_layout info1 cc_16bit i2 nfa Hc)
    as [Ht _].
  cbn [res_nfa]. destruct (hasEodReports _); intros [= <-]; exact Ht.
Qed.

Lemma mcclellanCompile_sherman_records_witness :
  sherman_layout_ok example_layout
  ∧ wf_raw sherman_dfa
  ∧ ∃ n,
      res_nfa (mcclellanCompile example_layout sherman_dfa cc_16bit None)
      = Compiled n
      ∧ nfa_type_of n = MCCLELLAN_NFA_16
      ∧ let r := res_raw (mcclellanCompile example_layout sherman_dfa cc_16bit
                            None) in
        let id s := impl_id (states r !!! s) in
        ∀ i, i < length (states sherman_dfa) → m_sherman_limit n ≤ id i →
             let d := daddy (states r !!! i) in
             let ov := filter (λ s, next_of sherman_dfa i s
                                    ≠ next_of sherman_dfa d s)
                              (seq 0 (getImplAlphaSize sherman_dfa)) in
             let cur := (id i - m_sherman_limit n)
                        * SHERMAN_FIXED_SIZE example_layout in
             let mem := sherman_table n in
             d < i ∧ id d < m_sherman_limit n ∧ length ov ≤ 8
             ∧ mem !!! (cur + SHERMAN_LEN_OFFSET) = Z.of_nat (length ov)
             ∧ load_u16 mem (cur + SHERMAN_DADDY_OFFSET) = Z.of_nat (id d)
             ∧ ∀ k, k < length ov →
                    let s := ov !!! k in
                    let v := load_u16 mem
                               (cur + SHERMAN_STATES_OFFSET example_layout
                                        (length ov) + 2 * k) in
                    let t := id (next_of sherman_dfa i s) in
                    mem !!! (cur + SHERMAN_CHARS_OFFSET + k) = Z.of_nat s
                    ∧ Z.land v STATE_MASK = Z.of_nat t
                    ∧ has_flag v ACCEPT_FLAG
                      = negb (accept (aux n !!! t) =? 0)%Z
                    ∧ has_flag v ACCEL_FLAG
                      = negb (accel_offset (aux n !!! t) =? 0)%Z.
Proof.
  split; [exact example_layout_ok|]. split; [exact wf_sherman_dfa|].
  destruct sherman_dfa_compiles_16 as (n & Hn & Htype).
  exists n. split; [exact Hn|]. split; [exact Htype|].
  exact (mcclellanCompile_sherman_records example_layout sherman_dfa cc_16bit
           None n example_layout_ok wf_sherman_dfa Hn Htype).
Defined.

(** ** Decoding *)

(** Decoding the image at the id of a state and a byte gives the id of
    the successor of that state on the class of that byte, in either
    layout; a Sherman state is decoded from its override list or, on a
    miss, from the row of its daddy. *)
Theorem mcclellanCompile_decode L raw0 cc acc n :
  sherman_layout_ok L →
  wf_raw raw0 →
  res_nfa (mcclellanCompile L raw0 cc acc) = Compiled n →
  let id s := impl_id (states (res_raw (mcclellanCompile L raw0 cc acc))
                       !!! s) in
  ∀ s c, s < length (states raw0) → c < 256 →
         decode L 2 n (id s) c
         = Some (id (next_of raw0 s (alpha_remap raw0 !!! c))).
Proof.
  intros Hlayout Hwf Hres id s c Hs Hc. subst id. cbv beta.
  destruct (compile_i_image L raw0 cc acc n Hwf Hres)
    as (info2 & Hraw & Hsame & Hrows2 & Himg & _ & _ & _).
  unfold mcclellanCompile. rewrite Hraw.
  assert (Hlen : info_size info2 = length (states raw0)).
  { destruct Hsame as (_ & _ & _ & _ & _ & Hl & _). unfold info_size. lia. }
  pose proof Hsame as (_ & _ & _ & _ & Hremap0 & _).
  rewrite (same_automaton_next_of _ _ s _ Hsame), Hremap0.
  pose proof (image_common_of L info2 n Himg)
    as (Hshift & Hremap & _ & _ & Hinj & Hlt).
  set (sym := alpha_remap (raw info2) !!! c).
  assert (Hsym : sym < impl_alpha_size info2).
  { destruct Hrows2 as (_ & Ha & Hbytes & _).
    pose proof (Hbytes c ltac:(unfold N_CHARS; lia)).
    destruct (wf_rows_alpha (raw info2)) as [_ Himpl].
    { eapply wf_rows_same_automaton; [done|by apply wf_raw_rows]. }
    unfold impl_alpha_size. subst sym. lia. }
  assert (Hsym' : m_remap n !!! c = sym).
  { rewrite Hremap.
    rewrite (lookup_total_fmap_nat _ (seq 0 256) c) by (by rewrite length_seq).
    rewrite lookup_total_seq_lt by done. cbn [Nat.add].
    destruct (alpha_le_row info2 Hrows2) as (_ & Ha256 & _).
    fold sym. unfold u8. lia. }
  fold (implId info2 s). fold (implId info2 (next_of (raw info2) s sym)).
  assert (Hnext : next_of (raw info2) s sym < info_size info2).
  { apply (next_of_lt info2 Hrows2); [lia|done]. }
  destruct Himg as [Himg|Himg].
  - (* the 8-bit layout *)
    destruct Himg as (Htype & H256 & _ & Hrow).
    cbn [decode]. rewrite Htype, Hsym', Hshift.
    rewrite Hrow by (done || lia). f_equal.
    pose proof (Hlt _ Hnext).
    change STATE_MASK with (Z.ones 14). rewrite Z.land_ones by lia.
    rewrite Z.mod_small by lia. apply Nat2Z.id.
  - (* the 16-bit layout *)
    destruct Himg as (Htype & Hsize & _ & Hnum & Hinv & Hrow & Hrec).
    specialize (Hrec Hlayout).
    assert (Hnormal : ∀ i j, i < info_size info2 → is_sherman info2 i = false →
              j < impl_alpha_size info2 →
              Z.to_nat (Z.land (succ_table n
                                  !!! (Nat.shiftl (implId info2 i)
                                         (getAlphaShift info2) + j))
                               STATE_MASK)
              = implId info2 (next_of (raw info2) i j)).
    { intros i j Hi Hsh Hj. rewrite Hrow by done.
      assert (next_of (raw info2) i j < info_size info2)
        by (by apply (next_of_lt info2 Hrows2)).
      pose proof (implId_u16 info2 _ Hnum Hsize _ H).
      destruct (flagged_succ (aux n) (implId info2 (next_of (raw info2) i j)))
        as [-> _]; [lia|]. apply Nat2Z.id. }
    destruct (is_sherman info2 s) eqn:Hsh.
    + (* a Sherman state *)
      pose proof (implId_sherman info2 _ Hnum s ltac:(lia) Hsh) as Hid.
      cbn [decode]. rewrite Htype, Hsym'.
      assert (implId info2 s <? m_sherman_limit n = false) as ->
        by (apply Nat.ltb_ge; lia).
      set (d := daddy (states (raw info2) !!! s)).
      specialize (Hrec s ltac:(lia) Hsh). cbv zeta in Hrec. fold d in Hrec.
      destruct Hrec as (Hl & Hdaddy & _ & _ & Hchars & Hsuccs).
      destruct (Hinv s Hsh) as (Hd & _ & Hdn & _). fold d in Hd, Hdn.
      assert (Hcur : findShermanState L (m_sherman_limit n) (implId info2 s)
                     = (implId info2 s - m_sherman_limit n)
                       * SHERMAN_FIXED_SIZE L)
        by (unfold findShermanState; lia).
      rewrite Hcur, Hl, Nat2Z.id.
      set (ov := overrides info2 s d) in *.
      set (cur := (implId info2 s - m_sherman_limit n) * SHERMAN_FIXED_SIZE L)
        in *.
      assert (Hov : ∀ k, k < length ov → ov !!! k < impl_alpha_size info2).
      { intros k Hk. apply (overrides_elem info2 s d).
        by apply list_elem_of_lookup_total_2. }
      assert (Hscan : ∀ k, k < length ov →
                Z.eqb (sherman_table n !!! (cur + SHERMAN_CHARS_OFFSET + k))
                      (Z.of_nat sym)
                = bool_decide (ov !!! k = sym)).
      { intros k Hk. rewrite (Hchars k Hk).
        rewrite lookup_total_fmap_nat by done.
        destruct (decide (ov !!! k = sym)) as [->|Hne].
        - by rewrite Z.eqb_refl, bool_decide_eq_true_2.
        - rewrite bool_decide_eq_false_2 by done. apply Z.eqb_neq. lia. }
      unfold sherman_scan.
      destruct (find _ (seq 0 (length ov))) as [k|] eqn:Hfind.
      * apply find_Some_seq in Hfind as (Hk & Hhit).
        rewrite Hscan in Hhit by done. apply bool_decide_eq_true in Hhit.
        rewrite (Hsuccs k Hk).
        rewrite (list_lookup_total_fmap (mark_succ (aux n)))
          by (by rewrite length_fmap).
        rewrite lookup_total_fmap_nat by done. rewrite Hhit. f_equal.
        pose proof (implId_u16 info2 _ Hnum Hsize _ Hnext).
        destruct (flagged_succ (aux n)
                    (implId info2 (next_of (raw info2) s sym)))
          as [-> _]; [lia|]. apply Nat2Z.id.
      * assert (Hmiss := λ k, find_None_seq _ _ k Hfind).
        assert (Hsame_next : next_of (raw info2) s sym
                             = next_of (raw info2) d sym).
        { destruct (decide (next_of (raw info2) s sym
                            = next_of (raw info2) d sym)) as [|Hne]; [done|].
          exfalso.
          assert (Hin : sym ∈ ov) by (by apply overrides_elem).
          apply list_elem_of_lookup in Hin as [k Hk].
          pose proof (lookup_lt_Some _ _ _ Hk) as Hklt.
          specialize (Hmiss k Hklt). cbv beta in Hmiss.
          rewrite Hscan in Hmiss by done.
          apply bool_decide_eq_false in Hmiss.
          by rewrite (list_lookup_total_correct _ _ _ Hk) in Hmiss. }
        rewrite Hdaddy, Nat2Z.id.
        pose proof (implId_normal info2 _ Hnum d ltac:(lia) Hdn) as Hdid.
        assert (implId info2 d <? m_sherman_limit n = true) as ->
          by (by apply Nat.ltb_lt).
        f_equal. rewrite Hshift, Hsame_next.
        apply Hnormal; [lia|done..].
    + (* a state with a row *)
      pose proof (implId_normal info2 _ Hnum s ltac:(lia) Hsh) as Hid.
      cbn [decode]. rewrite Htype, Hsym'.
      assert (implId info2 s <? m_sherman_limit n = true) as ->
        by (by apply Nat.ltb_lt).
      f_equal. rewrite Hshift. by apply Hnormal; [lia|..].
Qed.

Lemma mcclellanCompile_decode_witness :
  sherman_layout_ok example_layout
  ∧ wf_raw sherman_dfa
  ∧ ∃ n,
      res_nfa (mcclellanCompile example_layout sherman_dfa cc_16bit None)
      = Compiled n
      ∧ let id s :=
          impl_id (states (res_raw (mcclellanCompile example_layout
                                      sherman_dfa cc_16bit None)) !!! s) in
        ∀ s c, s < length (states sherman_dfa) → c < 256 →
               decode example_layout 2 n (id s) c
               = Some (id (next_of sherman_dfa s
                             (alpha_remap sherman_dfa !!! c))).
Proof.
  split; [exact example_layout_ok|]. split; [exact wf_sherman_dfa|].
  destruct sherman_dfa_compiles_16 as (n & Hn & _).
  exists n. split; [exact Hn|].
  exact (mcclellanCompile_decode example_layout sherman_dfa cc_16bit None n
           example_layout_ok wf_sherman_dfa Hn).
Defined.

(** ** The reach of the anchored start state *)

(** [mcclellanStartReachSize] is the number of bytes on which the
    anchored start state does not go to the dead state: it is at most
    256, and it is 0 exactly if the DFA has fewer than two states or every
    byte takes the anchored start state to the dead state. *)
Theorem mcclellanStartReachSize_zero raw :
  (0 ≤ mcclellanStartReachSize raw ≤ 256)%Z
  ∧ (mcclellanStartReachSize raw = 0%Z
     ↔ length (states raw) < 2
       ∨ ∀ c, c < 256 →
              next_of raw (start_anchored raw) (alpha_remap raw !!! c)
              = DEAD_STATE).
Proof.
  unfold mcclellanStartReachSize.
  set (P := λ i, next_of raw (start_anchored raw) (alpha_remap raw !!! i)
                 ≠ DEAD_STATE).
  pose proof (length_filter P (seq 0 N_CHARS)) as Hle.
  rewrite length_seq in Hle. unfold N_CHARS in *.
  destruct (length (states raw) <? 2) eqn:E.
  { apply Nat.ltb_lt in E. split; [lia|]. split; [by left|done]. }
  apply Nat.ltb_ge in E. split; [lia|]. split.
  - intros Hz. right. intros c Hc.
    destruct (decide (next_of raw (start_anchored raw) (alpha_remap raw !!! c)
                      = DEAD_STATE)) as [|Hne]; [done|].
    assert (Hin : c ∈ filter P (seq 0 256)).
    { apply list_elem_of_filter. split; [done|]. apply elem_of_seq. lia. }
    destruct (filter P (seq 0 256)); [by apply elem_of_nil in Hin|].
    cbn [length] in Hz. lia.
  - intros [?|Hall]; [lia|].
    destruct (filter P (seq 0 256)) as [|c l] eqn:Hf; [done|].
    assert (Hin : c ∈ filter P (seq 0 256))
      by (rewrite Hf; apply list_elem_of_here).
    apply list_elem_of_filter in Hin as [Hc Hin].
    apply elem_of_seq in Hin. exfalso. apply Hc, Hall. lia.
Qed.

(** * Acceleration schemes *)

Lemma escape_step_outs raw s out i :
  outs (escape_step raw s out i)
  = if bool_decide (leaves raw s i) then {[i]} ∪ outs out else outs out.
Proof.
  unfold escape_step, leaves, next_of.
  case_bool_decide; [|done]. done.
Qed.

Lemma find_escape_strings_outs_loop raw s k :
  outs (foldl (escape_step raw s) (EscapeInfo ∅ ∅ ∅ false) (seq 0 k))
  = list_to_set (filter (leaves raw s) (seq 0 k)).
Proof.
  induction k as [|k IH]; [done|].
  rewrite foldl_seq_S, escape_step_outs, IH, seq_S, filter_app.
  cbn [Nat.add]. rewrite filter_cons, filter_nil.
  case_bool_decide.
  - rewrite decide_True by done. rewrite list_to_set_app_L. set_solver.
  - rewrite decide_False by done. by rewrite app_nil_r.
Qed.

(** [find_escape_strings] collects in [outs] exactly the bytes on which
    the state goes elsewhere. *)
Lemma find_escape_strings_outs raw s :
  outs (find_escape_strings raw s)
  = list_to_set (filter (leaves raw s) (seq 0 N_CHARS))
  ∧ size (outs (find_escape_strings raw s))
    = length (filter (leaves raw s) (seq 0 N_CHARS)).
Proof.
  unfold find_escape_strings. rewrite find_escape_strings_outs_loop.
  split; [done|]. apply size_list_to_set, NoDup_filter, NoDup_seq.
Qed.

Lemma find_first_singleton (x : nat) : find_first {[x]} = x.
Proof. unfold find_first. by rewrite elements_singleton. Qed.

(** The successor of [s] on byte [i] reacts to byte [j] otherwise than
    [s] itself does. *)
Lemma escape_step_broken raw s out i :
  outs2_broken out = true → outs2_broken (escape_step raw s out i) = true.
Proof.
  intros Hb. unfold escape_step. case_bool_decide; [|done].
  cbn [outs2_broken]. rewrite Hb.
  by repeat match goal with
            | |- context [if ?c then _ else _] => destruct c
            end.
Qed.

Lemma escape_loop_broken raw s l :
  ∀ out, outs2_broken out = true →
         outs2_broken (foldl (escape_step raw s) out l) = true.
Proof.
  induction l as [|i l IH]; intros out Hb; [done|].
  cbn [foldl]. by apply IH, escape_step_broken.
Qed.

Lemma escape_step_report raw s out i :
  generates_callbacks (kind raw) = true →
  leaves raw s i →
  reports (states raw !!! next_of raw s (alpha_remap raw !!! i)) ≠ ∅ →
  outs2_broken (escape_step raw s out i) = true.
Proof.
  intros Hcb Hl Hrep. unfold escape_step, leaves, next_of in *.
  rewrite bool_decide_eq_true_2 by done. cbn [outs2_broken].
  rewrite Hcb, (bool_decide_eq_false_2 _ Hrep). cbn [negb andb].
  by repeat match goal with
            | |- context [if ?c then _ else _] => destruct c
            end.
Qed.

Lemma escape_step_single raw s out i x :
  x ∈ outs2_single out → x ∈ outs2_single (escape_step raw s out i).
Proof.
  intros Hx. unfold escape_step. case_bool_decide; [|done].
  cbn [outs2_single]. destruct (8 <? _); set_solver.
Qed.

(** While [outs2_broken] is clear and no byte has gone to
    [outs2_single], [outs2] holds exactly the two-byte strings that
    escape. *)
Lemma escape_loop_outs2 raw s k :
  let out := foldl (escape_step raw s) (EscapeInfo ∅ ∅ ∅ false) (seq 0 k) in
  outs2_broken out = false →
  outs2_single out = ∅ →
  ∀ i j, (i, j) ∈ outs2 out
         ↔ i < k ∧ j < N_CHARS ∧ leaves raw s i
           ∧ next_of raw (next_of raw s (alpha_remap raw !!! i))
                     (alpha_remap raw !!! j)
             ≠ next_of raw s (alpha_remap raw !!! j).
Proof.
  induction k as [|k IH]; cbv zeta.
  { cbn. intros _ _ i j. split; [set_solver|lia]. }
  rewrite foldl_seq_S.
  set (out := foldl (escape_step raw s) _ (seq 0 k)) in *.
  intros Hb Hs.
  assert (Hb0 : outs2_broken out = false).
  { destruct (outs2_broken out) eqn:E; [|done].
    by rewrite (escape_step_broken raw s out k E) in Hb. }
  assert (Hs0 : outs2_single out = ∅).
  { apply leibniz_equiv. intros x. split; [|set_solver].
    intros Hx. rewrite <-Hs. by apply escape_step_single. }
  specialize (IH Hb0 Hs0). revert Hb Hs.
  unfold escape_step at 1 2 3. fold (next_of raw s (alpha_remap raw !!! k)).
  case_bool_decide as Hl.
  2:{ intros _ _ i j. rewrite IH. split; [naive_solver lia|].
      intros (Hi & ? & Hli & ?). split_and!; try done.
      destruct (decide (i = k)) as [->|]; [done|lia]. }
  cbn [outs2_broken outs2_single outs2]. rewrite Hb0.
  destruct (negb _ && _).
  { by destruct (8 <? _). }
  set (local := list_to_set _).
  destruct (8 <? size local) eqn:Hbig.
  { intros _ Hne. exfalso. set_solver. }
  intros _ _ i j. rewrite elem_of_union, IH. subst local.
  rewrite elem_of_list_to_set, list_elem_of_fmap.
  setoid_rewrite list_elem_of_filter. setoid_rewrite elem_of_seq.
  unfold next_of, leaves in *. split.
  - intros [(j' & [= -> ->] & Hd & Hj)|(Hi & Hj & Hli & Hd)];
      split_and!; done || lia.
  - intros (Hi & Hj & Hli & Hd).
    destruct (decide (i = k)) as [->|Hne].
    + left. exists j. split_and!; done || lia.
    + right. split_and!; done || lia.
Qed.

Lemma find_escape_strings_outs2 raw s :
  outs2_broken (find_escape_strings raw s) = false →
  outs2_single (find_escape_strings raw s) = ∅ →
  ∀ i j, (i, j) ∈ outs2 (find_escape_strings raw s)
         ↔ i < N_CHARS ∧ j < N_CHARS ∧ leaves raw s i
           ∧ next_of raw (next_of raw s (alpha_remap raw !!! i))
                     (alpha_remap raw !!! j)
             ≠ next_of raw s (alpha_remap raw !!! j).
Proof. apply (escape_loop_outs2 raw s N_CHARS). Qed.

Lemma pairs_begin_singleton (p : nat * nat) : pairs_begin {[p]} = p.
Proof. unfold pairs_begin. by rewrite elements_singleton. Qed.

Lemma is_accel_count raw sds s :
  is_accel raw sds s = true →
  length (filter (leaves raw s) (seq 0 N_CHARS)) ≤ ACCEL_MAX_FLOATING_STOP_CHAR.
Proof.
  unfold is_accel. destruct (s =? 0); [done|].
  destruct (_ && _); [done|].
  intros H%Nat.leb_le. unfold leaves.
  destruct (s =? sds); unfold ACCEL_MAX_STOP_CHAR,
    ACCEL_MAX_FLOATING_STOP_CHAR in *; lia.
Qed.

Section accel_schemes.
Context (CASE_CLEAR : Z) (isCaselessChar : gset nat → bool)
        (shuftiBuildMasks_ok : gset nat → bool).

Local Notation buildAccel :=
  (buildAccel CASE_CLEAR isCaselessChar shuftiBuildMasks_ok).

(** A state that [is_accel] accepts gets an acceleration scheme from
    [buildAccel]: the type [ACCEL_NONE] is stored only for a state that
    more than [ACCEL_MAX_FLOATING_STOP_CHAR] bytes leave. *)
Theorem buildAccel_accelerable raw sds s :
  is_accel raw sds s = true →
  buildAccel raw s ≠ ACCEL_NONE.
Proof.
  intros Hacc%is_accel_count.
  destruct (find_escape_strings_outs raw s) as [_ Hsize].
  unfold buildAccel.
  set (out := find_escape_strings raw s) in *. clearbody out.
  destruct (ACCEL_MAX_FLOATING_STOP_CHAR <? size (outs out)) eqn:Hbig.
  { apply Nat.ltb_lt in Hbig. lia. }
  repeat match goal with
         | |- context [if ?c then _ else _] => destruct c
         end; done.
Qed.

(** The single-byte schemes say what leaves the state: [ACCEL_RED_TAPE]
    is stored only for a state that no byte leaves, [ACCEL_VERM] only for
    a state that exactly one byte leaves, and that byte is its [c]; and
    [ACCEL_NONE] only for a state that more than
    [ACCEL_MAX_FLOATING_STOP_CHAR] bytes leave. *)
Theorem buildAccel_single_byte raw s :
  (buildAccel raw s = ACCEL_RED_TAPE → ∀ c, c < 256 → ¬ leaves raw s c)
  ∧ (∀ x, buildAccel raw s = ACCEL_VERM x →
          ∃ c, c < 256 ∧ x = Z.of_nat c
               ∧ ∀ c', c' < 256 → leaves raw s c' ↔ c' = c)
  ∧ (buildAccel raw s = ACCEL_NONE →
     ACCEL_MAX_FLOATING_STOP_CHAR
     < length (filter (leaves raw s) (seq 0 N_CHARS))).
Proof.
  destruct (find_escape_strings_outs raw s) as [Houts Hsize].
  assert (Hin : ∀ c, c ∈ outs (find_escape_strings raw s)
                     ↔ c < 256 ∧ leaves raw s c).
  { intros c. rewrite Houts, elem_of_list_to_set, list_elem_of_filter,
      elem_of_seq. unfold N_CHARS. naive_solver lia. }
  unfold buildAccel.
  set (out := find_escape_strings raw s) in *. clearbody out.
  rewrite <-Hsize. clear Houts Hsize.
  destruct (size (outs out) =? 0) eqn:H0;
    destruct (size (outs out) =? 1) eqn:H1;
    destruct (ACCEL_MAX_FLOATING_STOP_CHAR <? size (outs out)) eqn:Hbig;
    try apply Nat.eqb_eq in H0; try apply Nat.eqb_eq in H1;
    try apply Nat.ltb_lt in Hbig; try lia;
    (split_and!; [|intros x|]);
    repeat match goal with
           | |- context [if ?c then _ else _] => destruct c
           end; try done.
  all: try (intros _ c Hc Hl; apply size_empty_inv in H0;
            assert (c ∈ outs out) by (by apply Hin); set_solver).
  all: intros [= <-].
  all: apply size_1_elem_of in H1 as [c Hc].
  all: apply leibniz_equiv in Hc; rewrite Hc, find_first_singleton.
  all: assert (Hc' : c ∈ outs out) by (rewrite Hc; set_solver).
  all: apply Hin in Hc' as [Hlt Hl].
  all: exists c; split_and!; [done..|].
  all: intros c' Hc'; split; [|by intros ->].
  all: intros Hl'; assert (c' ∈ outs out) by (by apply Hin); set_solver.
Qed.

(** Reports are not accelerated over: for a DFA that raises callbacks, a
    state with a successor that has reports gets no two-byte scheme. *)
Theorem buildAccel_over_reports raw s c :
  generates_callbacks (kind raw) = true →
  c < 256 →
  leaves raw s c →
  reports (states raw !!! next_of raw s (alpha_remap raw !!! c)) ≠ ∅ →
  match buildAccel raw s with
  | ACCEL_DVERM _ _ | ACCEL_DVERM_NOCASE _ _ | ACCEL_DSHUFTI => False
  | _ => True
  end.
Proof.
  intros Hcb Hc Hl Hrep.
  assert (Hb : outs2_broken (find_escape_strings raw s) = true).
  { unfold find_escape_strings.
    assert (Hin : c ∈ seq 0 N_CHARS) by (apply elem_of_seq; unfold N_CHARS; lia).
    revert Hin. generalize (EscapeInfo ∅ ∅ ∅ false). generalize (seq 0 N_CHARS).
    induction l as [|i l IH]; intros out Hin; [by apply elem_of_nil in Hin|].
    cbn [foldl]. apply elem_of_cons in Hin as [<-|Hin]; [|by apply IH].
    by apply escape_loop_broken, escape_step_report. }
  unfold buildAccel.
  set (out := find_escape_strings raw s) in *. clearbody out.
  rewrite Hb. cbn [negb andb].
  by repeat match goal with
            | |- context [if ?c then _ else _] => destruct c
            end.
Qed.

(** Double vermicelli is chosen only for a state with exactly one
    escaping two-byte string: [ACCEL_DVERM c1 c2] is stored only if [c1]
    is the one byte that leaves the state for a successor that reacts to
    some byte otherwise than the state itself does, and [c2] is the one
    byte that successor so reacts to. *)
Theorem buildAccel_dverm raw s c1 c2 :
  buildAccel raw s = ACCEL_DVERM c1 c2 →
  ∃ a b,
    a < 256 ∧ b < 256 ∧ c1 = Z.of_nat a ∧ c2 = Z.of_nat b
    ∧ ∀ i j, i < 256 → j < 256 →
        (leaves raw s i
         ∧ next_of raw (next_of raw s (alpha_remap raw !!! i))
                   (alpha_remap raw !!! j)
           ≠ next_of raw s (alpha_remap raw !!! j))
        ↔ i = a ∧ j = b.
Proof.
  pose proof (find_escape_strings_outs2 raw s) as Hinv.
  unfold buildAccel.
  set (out := find_escape_strings raw s) in *. clearbody out.
  destruct (negb (outs2_broken out) && (size (outs2_single out) =? 0)
            && (size (outs2 out) =? 1)) eqn:E.
  2:{ clear Hinv.
      repeat match goal with
             | |- context [if ?c then _ else _] => destruct c
             end; done. }
  apply andb_true_iff in E as [[Hb H1]%andb_true_iff H2].
  apply negb_true_iff in Hb.
  apply Nat.eqb_eq in H1, H2.
  apply size_empty_inv, leibniz_equiv in H1.
  apply size_1_elem_of in H2 as [[a b] Hab]. apply leibniz_equiv in Hab.
  specialize (Hinv Hb H1).
  rewrite Hab, pairs_begin_singleton. cbn [fst snd]. intros [= <- <-].
  assert (Hin : (a, b) ∈ outs2 out) by (rewrite Hab; set_solver).
  apply Hinv in Hin as (Ha & Hb' & _). unfold N_CHARS in *.
  exists a, b. split_and!; try done.
  intros i j Hi Hj. split.
  - intros [Hl Hd].
    assert (Hij : (i, j) ∈ outs2 out) by (apply Hinv; done).
    rewrite Hab in Hij. apply elem_of_singleton in Hij.
    by injection Hij.
  - intros [-> ->].
    assert (Hij : (a, b) ∈ outs2 out) by (rewrite Hab; set_solver).
    apply Hinv in Hij. tauto.
Qed.

End accel_schemes.

Lemma buildAccel_accelerable_witness :
  is_accel dverm_dfa 0 1 = true
  ∧ buildAccel example_CASE_CLEAR example_isCaselessChar example_shufti_ok
               dverm_dfa 1 ≠ ACCEL_NONE.
Proof.
  split; [vm_compute; reflexivity|].
  apply (buildAccel_accelerable example_CASE_CLEAR example_isCaselessChar
           example_shufti_ok dverm_dfa 0 1).
  vm_compute. reflexivity.
Defined.

Lemma buildAccel_over_reports_witness :
  generates_callbacks (kind dverm_dfa) = true
  ∧ 1 < 256
  ∧ leaves dverm_dfa 2 1
  ∧ reports (states dverm_dfa
             !!! next_of dverm_dfa 2 (alpha_remap dverm_dfa !!! 1)) ≠ ∅
  ∧ match buildAccel example_CASE_CLEAR example_isCaselessChar
                     example_shufti_ok dverm_dfa 2 with
    | ACCEL_DVERM _ _ | ACCEL_DVERM_NOCASE _ _ | ACCEL_DSHUFTI => False
    | _ => True
    end.
Proof.
  assert (H1 : generates_callbacks (kind dverm_dfa) = true) by reflexivity.
  assert (H2 : 1 < 256) by lia.
  assert (H3 : leaves dverm_dfa 2 1) by (vm_compute; lia).
  assert (H4 : reports (states dverm_dfa
                        !!! next_of dverm_dfa 2 (alpha_remap dverm_dfa !!! 1))
               ≠ ∅).
  { change (({[9%Z]} : gset Z) ≠ ∅). set_solver. }
  split; [exact H1|]. split; [exact H2|]. split; [exact H3|].
  split; [exact H4|].
  exact (buildAccel_over_reports example_CASE_CLEAR example_isCaselessChar
           example_shufti_ok dverm_dfa 2 1 H1 H2 H3 H4).
Defined.

Lemma buildAccel_dverm_witness :
  buildAccel example_CASE_CLEAR example_isCaselessChar example_shufti_ok
             dverm_dfa 1 = ACCEL_DVERM 0 1
  ∧ ∃ a b,
      a < 256 ∧ b < 256 ∧ 0%Z = Z.of_nat a ∧ 1%Z = Z.of_nat b
      ∧ ∀ i j, i < 256 → j < 256 →
          (leaves dverm_dfa 1 i
           ∧ next_of dverm_dfa (next_of dverm_dfa 1 (alpha_remap dverm_dfa !!! i))
                     (alpha_remap dverm_dfa !!! j)
             ≠ next_of dverm_dfa 1 (alpha_remap dverm_dfa !!! j))
          ↔ i = a ∧ j = b.
Proof.
  assert (H : buildAccel example_CASE_CLEAR example_isCaselessChar
                example_shufti_ok dverm_dfa 1 = ACCEL_DVERM 0 1)
    by (vm_compute; reflexivity).
  split; [exact H|].
  exact (buildAccel_dverm example_CASE_CLEAR example_isCaselessChar
           example_shufti_ok dverm_dfa 1 0 1 H).
Defined.

(** * The report lists *)

Section report_lists.
Context (L : layout).
Hypothesis Hlist : (0 ≤ sizeof_report_list L)%Z.
Hypothesis Hid : (0 ≤ sizeof_ReportID L)%Z.

Local Notation bytes reps :=
  (sizeof_report_list L + sizeof_ReportID L * Z.of_nat (size reps))%Z.
Local Notation total l :=
  (foldr (λ (reps : gset ReportID) acc, bytes reps + acc)%Z 0%Z l).

Lemma total_nonneg (l : list (gset ReportID)) : (0 ≤ total l)%Z.
Proof. induction l as [|reps l IH]; cbn [foldr]; nia. Qed.

Lemma total_app (l l' : list (gset ReportID)) :
  total (l ++ l') = (total l + total l')%Z.
Proof. induction l as [|reps l IH]; cbn [foldr app]; lia. Qed.

Lemma getReportListSize_loop (l : list (gset ReportID)) :
  ∀ acc, (0 ≤ acc)%Z → (acc + total l < 2 ^ 32)%Z →
         foldl (λ rv (reps : gset ReportID),
                  u32 (u32 (rv + sizeof_report_list L)
                       + sizeof_ReportID L * Z.of_nat (size reps)))
               acc l
         = (acc + total l)%Z.
Proof.
  induction l as [|reps l IH]; intros acc Hacc Hsmall; cbn [foldl foldr] in *.
  { lia. }
  pose proof (total_nonneg l).
  assert (0 ≤ sizeof_ReportID L * Z.of_nat (size reps))%Z by nia.
  rewrite IH; unfold u32; rewrite ?Z.mod_small by lia; lia.
Qed.

Lemma getReportListSize_total (l : list (gset ReportID)) :
  (total l < 2 ^ 32)%Z → getReportListSize L l = total l.
Proof.
  intros Hsmall. unfold getReportListSize.
  rewrite getReportListSize_loop; lia.
Qed.

Lemma fillReportLists_loop (l : list (gset ReportID)) :
  ∀ pre b, (0 ≤ b)%Z → (b + total l < 2 ^ 32)%Z →
    let r := foldl (λ (st : list Z * Z) (reps : gset ReportID),
                      (st.1 ++ [u32 st.2],
                       st.2 + sizeof_report_list L
                       + sizeof_ReportID L * Z.of_nat (size reps))%Z)
                   (pre, b) l in
    length r.1 = length pre + length l
    ∧ (∀ k, k < length pre → r.1 !!! k = pre !!! k)
    ∧ ∀ k, k < length l →
           r.1 !!! (length pre + k) = (b + total (take k l))%Z.
Proof.
  induction l as [|reps l IH]; intros pre b Hb Hsmall; cbv zeta;
    cbn [foldl foldr length fst snd] in *.
  { split_and!; [lia|done|]. intros k Hk. lia. }
  pose proof (total_nonneg l).
  assert (0 ≤ sizeof_ReportID L * Z.of_nat (size reps))%Z by nia.
  destruct (IH (pre ++ [u32 b])
               (b + sizeof_report_list L
                + sizeof_ReportID L * Z.of_nat (size reps))%Z)
    as (Hl & Hpre & Hoff); [lia|lia|].
  rewrite length_app in Hl, Hpre, Hoff. cbn [length] in Hl, Hpre, Hoff.
  split_and!.
  - lia.
  - intros k Hk. rewrite Hpre by lia. by rewrite lookup_total_app_l.
  - intros [|k] Hk.
    + rewrite Nat.add_0_r, Hpre by lia.
      rewrite lookup_total_app_r by lia. rewrite Nat.sub_diag. cbn.
      unfold u32. rewrite Z.mod_small by lia. lia.
    + replace (length pre + S k) with (length pre + 1 + k) by lia.
      rewrite Hoff by lia. cbn [take foldr]. lia.
Qed.

(** [fillReportLists] lays the report lists out back to back from
    [base_offset], in the order of the table, and [getReportListSize] is
    the number of bytes they take: the offset recorded for list [k] is
    [base_offset] plus the size of the lists before it, and the list after
    the last one would start at [base_offset + getReportListSize]
    (provided the offsets fit in 32 bits). *)
Theorem fillReportLists_layout (rl : list (gset ReportID)) (base_offset : Z) :
  (0 ≤ base_offset)%Z →
  (base_offset + total rl < 2 ^ 32)%Z →
  let ro := fillReportLists L rl base_offset in
  length ro = length rl
  ∧ getReportListSize L rl = total rl
  ∧ ∀ k reps, rl !! k = Some reps →
      ro !!! k = (base_offset + getReportListSize L (take k rl))%Z
      ∧ getReportListSize L (take (S k) rl)
        = (getReportListSize L (take k rl) + bytes reps)%Z.
Proof.
  intros Hbase Hsmall ro. subst ro. unfold fillReportLists.
  destruct (fillReportLists_loop rl [] base_offset Hbase Hsmall)
    as (Hl & _ & Hoff).
  cbn [length Nat.add] in Hl, Hoff.
  pose proof (total_nonneg rl) as Hnn.
  split_and!.
  - done.
  - apply getReportListSize_total. lia.
  - intros k reps Hk. pose proof (lookup_lt_Some _ _ _ Hk) as Hlt.
    assert (Hsplit : total rl = (total (take (S k) rl)
                                 + total (drop (S k) rl))%Z).
    { by rewrite <-total_app, take_drop. }
    assert (Htake : total (take (S k) rl) = (total (take k rl) + bytes reps)%Z).
    { rewrite (take_S_r _ _ _ Hk), total_app. cbn [foldr]. lia. }
    pose proof (total_nonneg (drop (S k) rl)).
    pose proof (total_nonneg (take k rl)).
    assert (0 ≤ sizeof_ReportID L * Z.of_nat (size reps))%Z by nia.
    rewrite !getReportListSize_total by lia.
    split; [by apply Hoff|done].
Qed.

End report_lists.

Lemma fillReportLists_layout_witness :
  let rl : list (gset ReportID) := [{[5%Z]}; {[5%Z; 7%Z]}] in
  (0 ≤ sizeof_report_list example_layout)%Z
  ∧ (0 ≤ sizeof_ReportID example_layout)%Z
  ∧ (0 ≤ 1024)%Z
  ∧ (1024 + foldr (λ (reps : gset ReportID) acc,
                     sizeof_report_list example_layout
                     + sizeof_ReportID example_layout * Z.of_nat (size reps)
                     + acc) 0 rl < 2 ^ 32)%Z
  ∧ let ro := fillReportLists example_layout rl 1024 in
    length ro = length rl
    ∧ getReportListSize example_layout rl
      = foldr (λ (reps : gset ReportID) acc,
                 sizeof_report_list example_layout
                 + sizeof_ReportID example_layout * Z.of_nat (size reps)
                 + acc)%Z 0%Z rl
    ∧ ∀ k reps, rl !! k = Some reps →
        ro !!! k = (1024 + getReportListSize example_layout (take k rl))%Z
        ∧ getReportListSize example_layout (take (S k) rl)
          = (getReportListSize example_layout (take k rl)
             + (sizeof_report_list example_layout
                + sizeof_ReportID example_layout * Z.of_nat (size reps)))%Z.
Proof.
  cbv zeta.
  assert (H1 : (0 ≤ sizeof_report_list example_layout)%Z) by (cbn; lia).
  assert (H2 : (0 ≤ sizeof_ReportID example_layout)%Z) by (cbn; lia).
  assert (H3 : (0 ≤ 1024)%Z) by lia.
  assert (H4 : (1024 + foldr (λ (reps : gset ReportID) acc,
                     sizeof_report_list example_layout
                     + sizeof_ReportID example_layout * Z.of_nat (size reps)
                     + acc) 0 [{[5%Z]}; {[5%Z; 7%Z]}] < 2 ^ 32)%Z)
    by (vm_compute; reflexivity).
  split; [exact H1|]. split; [exact H2|]. split; [exact H3|].
  split; [exact H4|].
  exact (fillReportLists_layout example_layout H1 H2 [{[5%Z]}; {[5%Z; 7%Z]}]
           1024 H3 H4).
Defined.

(** * The 8-bit zones and the raw DFA after a compile *)

(** In an 8-bit image the zone of an id tells what the state is: for
    every state but the dead one, the id is at least [accept_limit_8]
    exactly if the state has reports, between [accel_limit_8] and
    [accept_limit_8] exactly if it has none and is accelerable, and below
    [accel_limit_8] exactly if it has none and is not accelerable. *)
Theorem mcclellanCompile_zones8 L raw0 cc acc n :
  wf_raw raw0 →
  res_nfa (mcclellanCompile L raw0 cc acc) = Compiled n →
  nfa_type_of n = MCCLELLAN_NFA_8 →
  let id s := Z.of_nat (impl_id (states (res_raw (mcclellanCompile L raw0 cc
                                                    acc)) !!! s)) in
  let accel i := accelerateDFA (grey cc)
                 && is_accel raw0 (get_sds_or_proxy raw0) i in
  (1 ≤ m_accel_limit_8 n ≤ m_accept_limit_8 n)%Z
  ∧ (m_accept_limit_8 n ≤ Z.of_nat (length (states raw0)))%Z
  ∧ ∀ i, 0 < i < length (states raw0) →
         let rep := reports (states raw0 !!! i) in
         ((id i < m_accel_limit_8 n)%Z ↔ rep = ∅ ∧ accel i = false)
         ∧ ((m_accel_limit_8 n ≤ id i < m_accept_limit_8 n)%Z
            ↔ rep = ∅ ∧ accel i = true)
         ∧ ((m_accept_limit_8 n ≤ id i)%Z ↔ rep ≠ ∅).
Proof.
  intros Hwf Hres Htype id accel. subst id.
  destruct (compile_i_image L raw0 cc acc n Hwf Hres)
    as (info2 & Hraw & Hsame & _ & _ & Hhead & _ & _ & Hzones).
  destruct (Hzones Htype) as (Hl1 & Hl2 & Hzone).
  destruct Hhead as (_ & _ & _ & _ & _ & Hmarks & _).
  assert (Hlen : info_size info2 = length (states raw0)).
  { destruct Hsame as (_ & _ & _ & _ & _ & Hl & _). unfold info_size. lia. }
  unfold mcclellanCompile. rewrite Hraw. rewrite Hlen in *.
  split_and!; try done; try lia.
  intros i Hi. cbv zeta.
  destruct (Hzone i Hi) as (Hz1 & Hz2 & Hz3). cbv zeta in Hz1, Hz2, Hz3.
  assert (Hrep : reports (states (raw info2) !!! i)
                 = reports (states raw0 !!! i)).
  { destruct Hsame as (_ & _ & _ & _ & _ & _ & Hrow).
    by destruct (Hrow i) as [_ <-]. }
  assert (Hacc : info_is_accel info2 i = accel i).
  { rewrite Hmarks by lia. subst accel. cbv beta.
    rewrite <-(get_sds_or_proxy_same _ _ Hsame).
    by rewrite <-(is_accel_same _ _ _ _ Hsame). }
  rewrite Hrep, Hacc in *. unfold implId in *. done.
Qed.

Lemma mcclellanCompile_zones8_witness :
  wf_raw match_any_dfa
  ∧ ∃ n,
      res_nfa (mcclellanCompile example_layout match_any_dfa cc_default None)
      = Compiled n
      ∧ nfa_type_of n = MCCLELLAN_NFA_8
      ∧ let id s :=
          Z.of_nat (impl_id (states (res_raw (mcclellanCompile example_layout
                                                match_any_dfa cc_default None))
                             !!! s)) in
        let accel i := accelerateDFA (grey cc_default)
                       && is_accel match_any_dfa
                                   (get_sds_or_proxy match_any_dfa) i in
        (1 ≤ m_accel_limit_8 n ≤ m_accept_limit_8 n)%Z
        ∧ (m_accept_limit_8 n ≤ Z.of_nat (length (states match_any_dfa)))%Z
        ∧ ∀ i, 0 < i < length (states match_any_dfa) →
               let rep := reports (states match_any_dfa !!! i) in
               ((id i < m_accel_limit_8 n)%Z ↔ rep = ∅ ∧ accel i = false)
               ∧ ((m_accel_limit_8 n ≤ id i < m_accept_limit_8 n)%Z
                  ↔ rep = ∅ ∧ accel i = true)
               ∧ ((m_accept_limit_8 n ≤ id i)%Z ↔ rep ≠ ∅).
Proof.
  split; [exact wf_match_any_dfa|].
  destruct (compile_succeeds example_layout match_any_dfa cc_default None)
    as [n Hn]; [vm_compute; lia|vm_compute; discriminate|].
  assert (Htype : nfa_type_of n = MCCLELLAN_NFA_8).
  { revert Hn. unfold mcclellanCompile, mcclellanCompile_i.
    change (allowMcClellan8 (grey cc_default)
            && (length (states match_any_dfa) <=? 256)) with true.
    cbn [negb].
    set (info1 := find_all_daddies _ _ _ _).
    destruct (compile8_type example_layout info1 cc_default) as [Ht _].
    destruct (mcclellanCompile8 example_layout info1 cc_default) as [i2 nfa].
    cbn [snd] in Ht. cbn [res_nfa].
    destruct (hasEodReports _); intros [= <-]; exact Ht. }
  exists n. split; [exact Hn|]. split; [exact Htype|].
  exact (mcclellanCompile_zones8 example_layout match_any_dfa cc_default None n
           wf_match_any_dfa Hn Htype).
Defined.

(** A successful compile leaves the raw DFA the same automaton: it
    changes no transition, no ordinary report, neither start state and
    nothing of the alphabet; of the end-of-data reports it removes, in
    block mode, those that the state also raises as ordinary reports, and
    nothing in streaming mode. *)
Theorem mcclellanCompile_raw_kept L raw0 cc acc n :
  wf_raw raw0 →
  res_nfa (mcclellanCompile L raw0 cc acc) = Compiled n →
  let r := res_raw (mcclellanCompile L raw0 cc acc) in
  kind r = kind raw0
  ∧ start_anchored r = start_anchored raw0
  ∧ start_floating r = start_floating raw0
  ∧ alpha_size r = alpha_size raw0
  ∧ alpha_remap r = alpha_remap raw0
  ∧ length (states r) = length (states raw0)
  ∧ ∀ s, next (states r !!! s) = next (states raw0 !!! s)
         ∧ reports (states r !!! s) = reports (states raw0 !!! s)
         ∧ reports_eod (states r !!! s)
           = if streaming cc then reports_eod (states raw0 !!! s)
             else reports_eod (states raw0 !!! s)
                  ∖ reports (states raw0 !!! s).
Proof.
  intros Hwf Hres r. subst r.
  destruct (compile_i_image L raw0 cc acc n Hwf Hres)
    as (info2 & Hraw & Hsame & _ & _ & _ & _ & Hrows & _).
  unfold mcclellanCompile. rewrite Hraw.
  destruct Hsame as (Hk & Hsa & Hsf & Ha & Hr & Hl & Hrow).
  split_and!; try done.
  intros s. destruct (Hrow s) as [<- <-]. split_and!; try done.
  destruct Hrows as (_ & _ & _ & _ & _ & _ & Hrow1).
  destruct (Hrow1 s) as (_ & _ & <-).
  destruct (streaming cc); cbn [negb]; [done|].
  unfold stripExtraEodReports. cbn [states set_states].
  rewrite lookup_total_fmap_dstate; [|done].
  cbn. rewrite foldl_difference_singletons.
  by rewrite list_to_set_elements_L.
Qed.

Lemma mcclellanCompile_raw_kept_witness :
  wf_raw sherman_dfa
  ∧ ∃ n,
      res_nfa (mcclellanCompile example_layout sherman_dfa cc_16bit None)
      = Compiled n
      ∧ let r := res_raw (mcclellanCompile example_layout sherman_dfa cc_16bit
                            None) in
        kind r = kind sherman_dfa
        ∧ start_anchored r = start_anchored sherman_dfa
        ∧ start_floating r = start_floating sherman_dfa
        ∧ alpha_size r = alpha_size sherman_dfa
        ∧ alpha_remap r = alpha_remap sherman_dfa
        ∧ length (states r) = length (states sherman_dfa)
        ∧ ∀ s, next (states r !!! s) = next (states sherman_dfa !!! s)
               ∧ reports (states r !!! s) = reports (states sherman_dfa !!! s)
               ∧ reports_eod (states r !!! s)
                 = if streaming cc_16bit
                   then reports_eod (states sherman_dfa !!! s)
                   else reports_eod (states sherman_dfa !!! s)
                        ∖ reports (states sherman_dfa !!! s).
Proof.
  split; [exact wf_sherman_dfa|].
  destruct (compile_succeeds example_layout sherman_dfa cc_16bit None)
    as [n Hn]; [vm_compute; lia|vm_compute; discriminate|].
  exists n. split; [exact Hn|].
  exact (mcclellanCompile_raw_kept example_layout sherman_dfa cc_16bit None n
           wf_sherman_dfa Hn).
Defined.

(** * The report offsets in the [mstate_aux] array *)

Lemma gatherReports_same r r' :
  rows_agree r r' → gatherReports r = gatherReports r'.
Proof.
  intros (_ & _ & _ & _ & _ & Hlen & Hrow).
  assert (Hf : ∀ f : dstate → gset ReportID,
            (∀ s, f (states r !!! s) = f (states r' !!! s)) →
            f <$> states r = f <$> states r').
  { intros f Hf. apply list_eq. intros i. rewrite !list_lookup_fmap.
    destruct (decide (i < length (states r))) as [Hi|Hi].
    - destruct (lookup_lt_is_Some_2 (states r) i Hi) as [x Hx].
      destruct (lookup_lt_is_Some_2 (states r') i ltac:(lia)) as [y Hy].
      rewrite Hx, Hy. cbn. f_equal.
      rewrite <-(list_lookup_total_correct _ _ _ Hx),
              <-(list_lookup_total_correct _ _ _ Hy). apply Hf.
    - rewrite !lookup_ge_None_2 by lia. done. }
  unfold gatherReports.
  rewrite (Hf reports) by (intros s; by destruct (Hrow s) as (_ & -> & _)).
  rewrite (Hf reports_eod) by (intros s; by destruct (Hrow s) as (_ & _ & ->)).
  done.
Qed.

(** A loop that fills in one field of the records of the states it
    handles. *)
Lemma aux_field_loop {X} (info : dfa_info) (π : mstate_aux → X) (v : nat → X)
    (handles : nat → bool) (step : asm_state → nat → asm_state) st0 :
  (∀ i i', i < info_size info → i' < info_size info →
           implId info i = implId info i' → i = i') →
  (∀ i, i < info_size info → implId info i < info_size info) →
  length (as_aux st0) = info_size info →
  (∀ st i, length (as_aux (step st i)) = length (as_aux st)
           ∧ ∀ fs', π (as_aux (step st i) !!! fs')
                    = if handles i
                         && bool_decide (implId info i = fs'
                                         ∧ implId info i < length (as_aux st))
                      then v i else π (as_aux st !!! fs')) →
  ∀ k, k ≤ info_size info →
    let st := foldl step st0 (seq 0 k) in
    length (as_aux st) = info_size info
    ∧ ∀ i, i < info_size info →
           π (as_aux st !!! implId info i)
           = if (i <? k) && handles i then v i
             else π (as_aux st0 !!! implId info i).
Proof.
  intros Hinj Hlt Hlen Hstep. induction k as [|k IH]; intros Hk.
  { cbn [seq foldl]. split; [done|]. intros i Hi. done. }
  rewrite foldl_seq_S. destruct IH as [IHlen IHf]; [lia|].
  set (st := foldl step st0 (seq 0 k)) in *. cbv zeta.
  destruct (Hstep st k) as [Hl Hπ]. split; [lia|].
  intros i Hi. rewrite Hπ, IHf by done.
  destruct (decide (i = k)) as [->|Hne].
  - assert (k <? k = false) as -> by (apply Nat.ltb_ge; lia).
    assert (k <? S k = true) as -> by (apply Nat.ltb_lt; lia).
    rewrite bool_decide_eq_true_2 by (split; [done|rewrite IHlen; apply Hlt; lia]).
    cbn [andb]. by destruct (handles k).
  - rewrite bool_decide_eq_false_2.
    2:{ intros [Heq _]. apply Hne. symmetry. by apply Hinj; [lia|..]. }
    rewrite andb_false_r.
    assert ((i <? S k) = (i <? k)) as ->; [|done].
    destruct (i <? k) eqn:E1, (i <? S k) eqn:E2; try done;
      [apply Nat.ltb_lt in E1; apply Nat.ltb_ge in E2
      |apply Nat.ltb_ge in E1; apply Nat.ltb_lt in E2]; lia.
Qed.

Lemma place_accel_accepts L info i fs ax off fs' :
  accept ((place_accel L info i fs ax off).1 !!! fs') = accept (ax !!! fs')
  ∧ accept_eod ((place_accel L info i fs ax off).1 !!! fs')
    = accept_eod (ax !!! fs')
  ∧ length (place_accel L info i fs ax off).1 = length ax.
Proof.
  unfold place_accel. destruct (info_is_accel info i); [|done]. cbn [fst].
  rewrite list_lookup_total_alter, length_alter.
  case_decide as H; [destruct H as [<- _]|]; done.
Qed.

(** The body of either loop of [mcclellanCompile16], on the fields
    [accept] and [accept_eod]. *)
Lemma fillInAux_accepts L info g ro i ax off fs' :
  let ax' := (place_accel L info i (implId info i)
                (alter (fillInAux info i (g_reports g) (g_reports_eod g) ro)
                       (implId info i) ax) off).1 in
  length ax' = length ax
  ∧ accept (ax' !!! fs')
    = (if bool_decide (implId info i = fs' ∧ implId info i < length ax)
       then accept_of info g ro i else accept (ax !!! fs'))
  ∧ accept_eod (ax' !!! fs')
    = (if bool_decide (implId info i = fs' ∧ implId info i < length ax)
       then accept_eod_of info g ro i else accept_eod (ax !!! fs')).
Proof.
  cbv zeta.
  destruct (place_accel_accepts L info i (implId info i)
              (alter (fillInAux info i (g_reports g) (g_reports_eod g) ro)
                     (implId info i) ax) off fs') as (-> & -> & ->).
  rewrite length_alter, list_lookup_total_alter. split; [done|].
  case_bool_decide as H.
  - rewrite decide_True by done. destruct H as [<- _]. done.
  - rewrite decide_False by done. done.
Qed.

(** The body of the loop of [mcclellanCompile8], on the same fields. *)
Lemma compile8_state_accepts L info g ro st i fs' :
  length (as_aux (compile8_state L info g ro st i)) = length (as_aux st)
  ∧ accept (as_aux (compile8_state L info g ro st i) !!! fs')
    = (if bool_decide (implId info i = fs'
                       ∧ implId info i < length (as_aux st))
       then accept_of info g ro i else accept (as_aux st !!! fs'))
  ∧ accept_eod (as_aux (compile8_state L info g ro st i) !!! fs')
    = (if bool_decide (implId info i = fs'
                       ∧ implId info i < length (as_aux st))
       then accept_eod_of info g ro i else accept_eod (as_aux st !!! fs')).
Proof.
  unfold compile8_state.
  destruct (place_accel_accepts L info i (implId info i) (as_aux st)
              (as_accel_offset st) fs') as (Ha & He & Hlen).
  destruct (place_accel _ _ _ _ _) as [ax1 off]. cbn [fst] in Ha, He, Hlen.
  unfold fillInBasicState8. cbn [as_aux fst snd].
  rewrite length_alter, list_lookup_total_alter, Hlen. split; [done|].
  destruct (decide (implId info i = fs'
                    ∧ implId info i < length (as_aux st))) as [H|H].
  - rewrite !(bool_decide_eq_true_2 _ H). done.
  - rewrite !(bool_decide_eq_false_2 _ H). by rewrite Ha, He.
Qed.

Lemma length_fillReportLists L (rl : list (gset Z)) base :
  length (fillReportLists L rl base) = length rl.
Proof.
  unfold fillReportLists.
  assert (H : ∀ l (st : list Z * Z),
            length (foldl (λ (st : list Z * Z) (reps : gset Z),
                      (st.1 ++ [u32 st.2],
                       st.2 + sizeof_report_list L
                       + sizeof_ReportID L * Z.of_nat (size reps))%Z)
                   st l).1 = length st.1 + length l).
  { induction l as [|reps l IH]; intros st; cbn [foldl length]; [lia|].
    rewrite IH. cbn [fst]. rewrite length_app. cbn. lia. }
  rewrite H. done.
Qed.

(** The offsets are stored as [u32]: only the base modulo [2^32]
    matters. *)
Lemma fillReportLists_u32 L (rl : list (gset Z)) base base' :
  u32 base = u32 base' →
  fillReportLists L rl base = fillReportLists L rl base'.
Proof.
  unfold fillReportLists.
  assert (H : ∀ l (out : list Z) b b',
            u32 b = u32 b' →
            (foldl (λ (st : list Z * Z) (reps : gset Z),
                      (st.1 ++ [u32 st.2],
                       st.2 + sizeof_report_list L
                       + sizeof_ReportID L * Z.of_nat (size reps))%Z)
                   (out, b) l).1
            = (foldl (λ (st : list Z * Z) (reps : gset Z),
                        (st.1 ++ [u32 st.2],
                         st.2 + sizeof_report_list L
                         + sizeof_ReportID L * Z.of_nat (size reps))%Z)
                     (out, b') l).1).
  { induction l as [|reps l IH]; intros out b b' Hb; [done|].
    cbn [foldl fst snd]. rewrite Hb. apply IH.
    unfold u32 in *.
    rewrite <-!Z.add_assoc, <-(Zplus_mod_idemp_l b), Hb, Zplus_mod_idemp_l.
    done. }
  intros Hb. by apply H.
Qed.

Lemma report_lists_base_u32 L (rl : list (gset Z)) aux_offset aux_size :
  fillReportLists L rl (u32 aux_offset + aux_size)
  = fillReportLists L rl (aux_offset + aux_size).
Proof.
  apply fillReportLists_u32. unfold u32. by rewrite Zplus_mod_idemp_l.
Qed.

(** The two loops of [mcclellanCompile16] fill in [accept] and
    [accept_eod] for every state. *)
Lemma compile16_aux_accepts L info base g ro st0 :
  numbering_ok info base →
  length (as_aux st0) = info_size info →
  let st1 := foldl (compile16_normal L info g ro) st0
                   (seq 0 (info_size info)) in
  let st2 := foldl (compile16_sherman L info g ro base) st1
                   (seq 0 (info_size info)) in
  ∀ i, i < info_size info →
       accept (as_aux st2 !!! implId info i) = accept_of info g ro i
       ∧ accept_eod (as_aux st2 !!! implId info i) = accept_eod_of info g ro i.
Proof.
  intros Hnum Hlen st1 st2.
  assert (Hinj : ∀ i i', i < info_size info → i' < info_size info →
                         implId info i = implId info i' → i = i')
    by (by eapply implId_inj).
  assert (Hlt : ∀ i, i < info_size info → implId info i < info_size info).
  { intros i Hi. destruct (is_sherman info i) eqn:E.
    - by apply (implId_sherman info base Hnum).
    - pose proof (implId_normal info base Hnum i Hi E).
      destruct Hnum as (_ & ? & _). lia. }
  assert (Hnormal : ∀ st i fs',
    length (as_aux (compile16_normal L info g ro st i)) = length (as_aux st)
    ∧ accept (as_aux (compile16_normal L info g ro st i) !!! fs')
      = (if negb (is_sherman info i)
            && bool_decide (implId info i = fs'
                            ∧ implId info i < length (as_aux st))
         then accept_of info g ro i else accept (as_aux st !!! fs'))
    ∧ accept_eod (as_aux (compile16_normal L info g ro st i) !!! fs')
      = (if negb (is_sherman info i)
            && bool_decide (implId info i = fs'
                            ∧ implId info i < length (as_aux st))
         then accept_eod_of info g ro i else accept_eod (as_aux st !!! fs'))).
  { intros st i fs'. rewrite compile16_normal_aux.
    destruct (is_sherman info i); [done|]. cbn [negb andb].
    apply (fillInAux_accepts L info g ro i (as_aux st) (as_accel_offset st) fs'). }
  assert (Hsherman : ∀ st i fs',
    length (as_aux (compile16_sherman L info g ro base st i))
    = length (as_aux st)
    ∧ accept (as_aux (compile16_sherman L info g ro base st i) !!! fs')
      = (if is_sherman info i
            && bool_decide (implId info i = fs'
                            ∧ implId info i < length (as_aux st))
         then accept_of info g ro i else accept (as_aux st !!! fs'))
    ∧ accept_eod (as_aux (compile16_sherman L info g ro base st i) !!! fs')
      = (if is_sherman info i
            && bool_decide (implId info i = fs'
                            ∧ implId info i < length (as_aux st))
         then accept_eod_of info g ro i else accept_eod (as_aux st !!! fs'))).
  { intros st i fs'. rewrite compile16_sherman_aux.
    destruct (is_sherman info i); [|done]. cbn [andb].
    apply (fillInAux_accepts L info g ro i (as_aux st) (as_accel_offset st) fs'). }
  destruct (aux_field_loop info accept (accept_of info g ro)
              (λ i, negb (is_sherman info i))
              (compile16_normal L info g ro) st0 Hinj Hlt Hlen)
    with (k := info_size info) as [Hlen1 Ha1]; [|done|].
  { intros st i. split; [apply (Hnormal st i 0)|]. intros fs'. apply Hnormal. }
  destruct (aux_field_loop info accept_eod (accept_eod_of info g ro)
              (λ i, negb (is_sherman info i))
              (compile16_normal L info g ro) st0 Hinj Hlt Hlen)
    with (k := info_size info) as [_ He1]; [|done|].
  { intros st i. split; [apply (Hnormal st i 0)|]. intros fs'. apply Hnormal. }
  fold st1 in Hlen1, Ha1, He1.
  destruct (aux_field_loop info accept (accept_of info g ro)
              (is_sherman info)
              (compile16_sherman L info g ro base) st1 Hinj Hlt Hlen1)
    with (k := info_size info) as [_ Ha2]; [|done|].
  { intros st i. split; [apply (Hsherman st i 0)|]. intros fs'. apply Hsherman. }
  destruct (aux_field_loop info accept_eod (accept_eod_of info g ro)
              (is_sherman info)
              (compile16_sherman L info g ro base) st1 Hinj Hlt Hlen1)
    with (k := info_size info) as [_ He2]; [|done|].
  { intros st i. split; [apply (Hsherman st i 0)|]. intros fs'. apply Hsherman. }
  fold st2 in Ha2, He2.
  intros i Hi. rewrite Ha2, He2, Ha1, He1 by done.
  assert (i <? info_size info = true) as -> by (by apply Nat.ltb_lt).
  cbn [andb]. by destruct (is_sherman info i).
Qed.

Lemma compile16_accepts L info cc info2 nfa :
  wf_rows (raw info) →
  sherman_inv info →
  mcclellanCompile16 L info cc = (info2, Some nfa) →
  image_accepts L info2 nfa.
Proof.
  intros Hrows Hinv. unfold mcclellanCompile16.
  destruct (allocateFSN16 info) as [[info1 base] err] eqn:Halloc.
  destruct err; [done|].
  pose proof (compile16_stage info info1 base (grey cc) Hrows Hinv Halloc)
    as (_ & Hnum & _).
  destruct (populateAccelerationInfo_agree info1 (grey cc)) as [_ Hraw].
  destruct (populateAccelerationInfo info1 (grey cc)) as [infoP ac].
  cbn [fst] in Hnum, Hraw.
  intros [= <- <-].
  unfold image_accepts. split.
  { unfold tran_size_of, markEdges, with_tables. done. }
  assert (Hg : gatherReports (raw infoP) = gatherReports (raw info1))
    by (by rewrite Hraw).
  rewrite Hg.
  set (g := gatherReports (raw info1)).
  cbv zeta. unfold report_lists_base, markEdges, with_tables.
  cbn [aux m_aux_offset with_sherman_header populateBasicInfo].
  rewrite report_lists_base_u32.
  match goal with
  | |- context [foldl (compile16_normal L infoP g ?r) ?s _] =>
    apply (compile16_aux_accepts L infoP base g r s Hnum)
  end.
  cbn. by rewrite length_replicate.
Qed.

Lemma compile8_accepts L info cc :
  wf_rows (raw info) →
  info_size info ≤ 256 →
  image_accepts L (mcclellanCompile8 L info cc).1
                (mcclellanCompile8 L info cc).2.
Proof.
  intros Hrows Hsize. unfold mcclellanCompile8.
  assert (Hpos : 0 < info_size info) by (by destruct Hrows).
  destruct (populateAccelerationInfo_agree info (grey cc)) as [_ Hraw1].
  destruct (populateAccelerationInfo info (grey cc)) as [info1 ac].
  cbn [fst] in Hraw1.
  assert (Hsz1 : info_size info1 = info_size info)
    by (unfold info_size; by rewrite Hraw1).
  assert (Hsize1 : 0 < info_size info1 ≤ 256) by lia.
  pose proof (allocateFSN8_rows info1 Hsize1) as Hrows12.
  pose proof (allocateFSN8_ids info1 Hsize1) as (_ & _ & Hlt1 & Hinj).
  cbv zeta in Hlt1, Hinj.
  destruct (allocateFSN8 info1) as [[infoA accel_limit] accept_limit].
  cbn [fst snd] in *.
  assert (Hsz2 : info_size infoA = info_size info1).
  { destruct Hrows12 as (_ & _ & _ & _ & _ & Hl & _). unfold info_size. lia. }
  rewrite <-Hsz2 in Hlt1, Hinj.
  assert (Hg : gatherReports (raw infoA) = gatherReports (raw info)).
  { symmetry. apply gatherReports_same. by rewrite <-Hraw1. }
  unfold image_accepts. split.
  { unfold tran_size_of, with_tables, with_limits_8.
    cbn [nfa_type_of m_aux_offset m_alphaShift m_state_count populateBasicInfo].
    change (1 =? 1)%Z with true. cbv iota.
    rewrite u16n_small by lia.
    assert (getAlphaShift infoA = getAlphaShift info1) as ->.
    { unfold getAlphaShift, impl_alpha_size.
      by rewrite (rows_agree_impl_alpha _ _ Hrows12). }
    by rewrite Hsz2. }
  rewrite Hg.
  set (g := gatherReports (raw info)).
  cbv zeta. unfold report_lists_base, with_tables.
  cbn [aux m_aux_offset with_limits_8 populateBasicInfo].
  rewrite report_lists_base_u32.
  replace (Z.of_nat (info_size infoA)) with (Z.of_nat (info_size info1))
    by (by rewrite Hsz2).
  match goal with
  | |- context [foldl (compile8_state L infoA g ?r) ?s _] =>
    set (ro := r); set (st0 := s)
  end.
  assert (Hlen0 : length (as_aux st0) = info_size infoA).
  { subst st0. cbn. by rewrite length_replicate. }
  destruct (aux_field_loop infoA accept (accept_of infoA g ro) (λ _, true)
              (compile8_state L infoA g ro) st0 Hinj Hlt1 Hlen0)
    with (k := info_size infoA) as [_ Ha]; [|done|].
  { intros st i.
    split; [apply (compile8_state_accepts L infoA g ro st i 0)|].
    intros fs'. cbn [andb]. apply compile8_state_accepts. }
  destruct (aux_field_loop infoA accept_eod (accept_eod_of infoA g ro)
              (λ _, true)
              (compile8_state L infoA g ro) st0 Hinj Hlt1 Hlen0)
    with (k := info_size infoA) as [_ He]; [|done|].
  { intros st i.
    split; [apply (compile8_state_accepts L infoA g ro st i 0)|].
    intros fs'. cbn [andb]. apply compile8_state_accepts. }
  intros i Hi. rewrite Ha, He by done.
  assert (i <? info_size infoA = true) as -> by (by apply Nat.ltb_lt).
  done.
Qed.

(** The report offsets of a compiled image. *)
Lemma compile_i_accepts L raw0 cc acc n :
  wf_raw raw0 →
  res_nfa (mcclellanCompile_i L raw0 cc acc) = Compiled n →
  ∃ info2,
    res_raw (mcclellanCompile_i L raw0 cc acc) = raw info2
    ∧ info_size info2 = length (states raw0)
    ∧ (Z.of_nat (length (states raw0)) ≤ 16384)%Z
    ∧ image_accepts L info2 n.
Proof.
  intros Hwf Hres.
  assert (Hsmall : (Z.of_nat (length (states raw0)) ≤ 16384)%Z).
  { destruct (decide (Z.of_nat (length (states raw0)) ≤ 16384)%Z); [done|].
    rewrite mcclellanCompile_i_overflow in Hres by lia.
    by destruct (hasEodReports _). }
  revert Hres. unfold mcclellanCompile_i.
  set (raw1 := if negb (streaming cc) then stripExtraEodReports raw0 else raw0).
  assert (Hsame1 : same_automaton raw0 raw1).
  { subst raw1. destruct (negb (streaming cc));
      [apply strip_same_automaton|apply same_automaton_refl]. }
  assert (Hrows1 : wf_rows raw1).
  { eapply wf_rows_same_automaton; [done|by apply wf_raw_rows]. }
  assert (Hlen1 : length (states raw1) = length (states raw0)).
  { by destruct Hsame1 as (_ & _ & _ & _ & _ & <- & _). }
  set (info := DfaInfo raw1 (extra (mk_dfa_info raw0))).
  set (using8bit := allowMcClellan8 (grey cc) && (length (states raw0) <=? 256)).
  set (cyc := is_cyclic_near raw1 (start_anchored raw1)).
  destruct (find_all_daddies_spec info using8bit cyc (grey cc))
    as (Hag1 & Hextra1 & Hinv1).
  { destruct (wf_rows_alpha _ Hrows1) as [? _]. unfold impl_alpha_size. cbn. lia. }
  { unfold info_size. cbn. lia. }
  { unfold info_size. cbn. by rewrite length_replicate. }
  { intros i. apply (mk_dfa_info_fresh raw0 i). }
  set (info1 := find_all_daddies info using8bit cyc (grey cc)) in *.
  assert (Hrows_i1 : wf_rows (raw info1)).
  { eapply wf_rows_rows_agree; [apply Hag1|done]. }
  assert (Hsz1 : info_size info1 = length (states raw0)).
  { subst info1. rewrite find_all_daddies_size. exact Hlen1. }
  destruct using8bit eqn:H8; cbn [negb].
  - assert (H256 : info_size info1 ≤ 256).
    { subst using8bit. apply andb_true_iff in H8 as [_ H8].
      apply Nat.leb_le in H8. lia. }
    destruct (image8_ok_of L info1 cc Hrows_i1 H256) as [_ Hag2].
    pose proof (compile8_accepts L info1 cc Hrows_i1 H256) as Hacc.
    destruct (mcclellanCompile8 L info1 cc) as [info2 nfa].
    cbn [fst snd] in Hag2, Hacc. cbn [res_nfa res_raw].
    intros Hres. exists info2. split_and!.
    + by destruct (hasEodReports raw1).
    + destruct Hag2 as (_ & _ & _ & _ & _ & Hl & _). unfold info_size in *. lia.
    + done.
    + destruct (hasEodReports raw1); injection Hres as <-; done.
  - destruct (mcclellanCompile16 L info1 cc) as [info2 [nfa|]] eqn:Hc.
    + destruct (image16_ok_of L info1 cc info2 nfa Hrows_i1 Hinv1 Hc)
        as [_ Hag2].
      pose proof (compile16_accepts L info1 cc info2 nfa Hrows_i1 Hinv1 Hc)
        as Hacc.
      cbn [res_nfa res_raw]. intros Hres. exists info2. split_and!.
      * done.
      * rewrite (info_agree_size _ _ Hag2). done.
      * done.
      * injection Hres as <-. destruct (hasEodReports raw1); done.
    + by destruct (hasEodReports raw1).
Qed.

(** In the image of either layout, the [accept] field of the
    [mstate_aux] record of a state is 0 if the state has no reports, and
    otherwise the offset that [fillReportLists] gave to the report list
    that holds exactly its reports: the lists are those of the table of
    [gatherReports], laid out from the end of the [mstate_aux] array, at
    [aux_offset] of the header plus [sizeof(mstate_aux)] for every state,
    where [aux_offset] is the end of the successor table rounded up to a
    multiple of 16.
    Likewise [accept_eod] for the end-of-data reports the raw DFA is left
    with.  No report list occurs twice, so states with the same reports
    share one offset. *)
Theorem mcclellanCompile_aux_accept L raw0 cc acc n :
  wf_raw raw0 →
  res_nfa (mcclellanCompile L raw0 cc acc) = Compiled n →
  let r := res_raw (mcclellanCompile L raw0 cc acc) in
  let id s := impl_id (states r !!! s) in
  let rl := g_ri (gatherReports r) in
  let ro := fillReportLists L rl
              (m_aux_offset n
               + sizeof_mstate_aux L * Z.of_nat (length (states raw0))) in
  m_aux_offset n
  = u32 (ROUNDUP_16 (sizeof_NFA L + sizeof_mcclellan L + tran_size_of n))
  ∧ NoDup rl
  ∧ length ro = length rl
  ∧ ∀ i, i < length (states raw0) →
      let st := states r !!! i in
      (reports st = ∅ → accept (aux n !!! id i) = 0%Z)
      ∧ (reports st ≠ ∅ →
         ∃ k, rl !! k = Some (reports st)
              ∧ accept (aux n !!! id i) = ro !!! k)
      ∧ (reports_eod st = ∅ → accept_eod (aux n !!! id i) = 0%Z)
      ∧ (reports_eod st ≠ ∅ →
         ∃ k, rl !! k = Some (reports_eod st)
              ∧ accept_eod (aux n !!! id i) = ro !!! k).
Proof.
  intros Hwf Hres r id rl ro. subst r id rl ro. cbv beta.
  destruct (compile_i_accepts L raw0 cc acc n Hwf Hres)
    as (info2 & Hraw & Hsz & Hsmall & Hoff & Hacc).
  unfold report_lists_base in Hacc. cbv zeta in Hacc.
  unfold mcclellanCompile. rewrite Hraw, <-Hsz.
  destruct (gather_table (raw info2)) as (_ & _ & Hnd & _ & Hidx).
  { fold (info_size info2). rewrite Hsz. unfold MO_INVALID_IDX. lia. }
  cbv zeta in Hidx. fold (info_size info2) in Hidx.
  split_and!; [done|done|apply length_fillReportLists|].
  intros i Hi.
  destruct (Hacc i Hi) as [Ha He]. unfold implId in Ha, He.
  destruct (Hidx i Hi) as (H1 & H2 & H3 & H4).
  rewrite Ha, He. unfold accept_of, accept_eod_of. split_and!.
  - intros E. by rewrite bool_decide_eq_true_2.
  - intros E. rewrite bool_decide_eq_false_2 by done.
    destruct (H2 E) as [_ Hk]. eauto.
  - intros E. by rewrite bool_decide_eq_true_2.
  - intros E. rewrite bool_decide_eq_false_2 by done.
    destruct (H4 E) as [_ Hk]. eauto.
Qed.

Lemma mcclellanCompile_aux_accept_witness :
  wf_raw eod_dfa
  ∧ ∃ n,
      res_nfa (mcclellanCompile example_layout eod_dfa cc_stream None)
      = Compiled n
      ∧ let r := res_raw (mcclellanCompile example_layout eod_dfa cc_stream
                            None) in
        let id s := impl_id (states r !!! s) in
        let rl := g_ri (gatherReports r) in
        let ro := fillReportLists example_layout rl
                    (m_aux_offset n
                     + sizeof_mstate_aux example_layout
                       * Z.of_nat (length (states eod_dfa))) in
        m_aux_offset n
        = u32 (ROUNDUP_16 (sizeof_NFA example_layout
                           + sizeof_mcclellan example_layout
                           + tran_size_of n))
        ∧ NoDup rl
        ∧ length ro = length rl
        ∧ ∀ i, i < length (states eod_dfa) →
            let st := states r !!! i in
            (reports st = ∅ → accept (aux n !!! id i) = 0%Z)
            ∧ (reports st ≠ ∅ →
               ∃ k, rl !! k = Some (reports st)
                    ∧ accept (aux n !!! id i) = ro !!! k)
            ∧ (reports_eod st = ∅ → accept_eod (aux n !!! id i) = 0%Z)
            ∧ (reports_eod st ≠ ∅ →
               ∃ k, rl !! k = Some (reports_eod st)
                    ∧ accept_eod (aux n !!! id i) = ro !!! k).
Proof.
  split; [exact wf_eod_dfa|].
  destruct (compile_succeeds example_layout eod_dfa cc_stream None)
    as [n Hn]; [vm_compute; lia|vm_compute; discriminate|].
  exists n. split; [exact Hn|].
  exact (mcclellanCompile_aux_accept example_layout eod_dfa cc_stream None n
           wf_eod_dfa Hn).
Defined.
